(** * mwmatching: a shallow embedding of the maximum-weight matching library

    Python sources: [python/mwmatching/algorithm.py] and
    [python/mwmatching/datastruct.py].

    Python values are modelled by [pyval]; Python ints are [Z] and Python
    floats are Rocq's primitive IEEE-754 binary64 numbers ([float]).
    Exceptions are the [Raise] branch of the [result] monad. *)

From Stdlib Require Import ZArith QArith Qround Floats.
From stdpp Require Import base list gmap sorting.
From Stdlib Require Import Lia FunctionalExtensionality.

Set Warnings "-register-all -inexact-float".
Open Scope Z_scope.

(* ------------------------------------------------------------------ *)
(** ** Exceptions and the result monad *)

Inductive exn :=
| TypeError
| ValueError
| AssertionError
| UnboundLocalError
| OverflowError
| IndexError
| KeyError
| AttributeError
| MatchingError.

Inductive result (A : Type) :=
| Ok (a : A)
| Raise (e : exn).
Arguments Ok {A} a.
Arguments Raise {A} e.

Definition rbind {A B} (m : result A) (k : A -> result B) : result B :=
  match m with
  | Ok a => k a
  | Raise e => Raise e
  end.

Notation "'let*' x := m 'in' k" := (rbind m (fun x => k))
  (at level 200, x name, m at level 100, k at level 200).
Notation "'let*' ' p := m 'in' k" := (rbind m (fun x => match x with p => k end))
  (at level 200, p pattern, m at level 100, k at level 200).

(** [assert c] *)
Definition rassert (c : bool) : result unit :=
  if c then Ok tt else Raise AssertionError.

(** A Python [for] loop whose body may raise. *)
Fixpoint for_each {A} (f : A -> result unit) (l : list A) : result unit :=
  match l with
  | [] => Ok tt
  | x :: l' => let* _ := f x in for_each f l'
  end.

(* ------------------------------------------------------------------ *)
(** ** Python values *)

(** The Python objects that can occur in an input edge list.  [PyInt]
    also stands for [bool], a subclass of [int]; [PyObj] is any other
    object (a string, [None], a dict, ...). *)
Inductive pyval :=
| PyInt (z : Z)
| PyFloat (f : float)
| PyTuple (xs : list pyval)
| PyList (xs : list pyval)
| PyObj.

(** An edge weight that passed [_check_input_types]: an int or a float. *)
Inductive num :=
| NInt (z : Z)
| NFloat (f : float).

(** A typed edge [(x, y, w)]. *)
Definition edge : Type := (Z * Z * num)%type.

(** [sys.float_info.max] *)
Definition float_info_max : float := 0x1.fffffffffffffp+1023%float.

(** [float_limit = sys.float_info.max / 4] *)
Definition float_limit : float := (float_info_max / 4)%float.

(** [math.isfinite] *)
Definition isfinite (f : float) : bool := PrimFloat.is_finite f.

(* ------------------------------------------------------------------ *)
(** ** Input checks (algorithm.py, [_check_input_types],
       [_check_input_graph]) *)

(** The body of the loop of [_check_input_types] for one element [e]. *)
Definition _check_edge_types (e : pyval) : result unit :=
  match e with
  | PyTuple [x; y; w] =>
      match x, y with
      | PyInt x, PyInt y =>
          if (x <? 0) || (y <? 0) then Raise ValueError else
          match w with
          | PyInt _ => Ok tt
          | PyFloat f =>
              if negb (isfinite f) then Raise ValueError
              else if PrimFloat.ltb float_limit f then Raise ValueError
              else Ok tt
          | _ => Raise TypeError
          end
      | _, _ => Raise TypeError
      end
  | _ => Raise TypeError
  end.

Definition _check_input_types (edges : pyval) : result unit :=
  match edges with
  | PyList es => for_each _check_edge_types es
  | _ => Raise TypeError
  end.

(** The unpacking [(x, y, w) = e] of an element that passed
    [_check_edge_types]. *)
Definition edge_of (e : pyval) : option edge :=
  match e with
  | PyTuple [PyInt x; PyInt y; PyInt w] => Some (x, y, NInt w)
  | PyTuple [PyInt x; PyInt y; PyFloat w] => Some (x, y, NFloat w)
  | _ => None
  end.

(** The edge list as the algorithm sees it after the type checks. *)
Definition edge_view (edges : pyval) : list edge :=
  match edges with
  | PyList es => omap edge_of es
  | _ => []
  end.

(** Python's ordering of 2-tuples of ints (lexicographic). *)
Definition tuple_leb (p q : Z * Z) : bool :=
  (p.1 <? q.1) || ((p.1 =? q.1) && (p.2 <=? q.2)).

Definition tuple_le (p q : Z * Z) : Prop := tuple_leb p q = true.

#[global] Instance tuple_le_dec : RelDecision tuple_le.
Proof. intros p q. unfold tuple_le. apply _. Defined.

(** [list.sort()] on a list of 2-tuples: the sorted permutation, computed
    here by merge sort (a sorted permutation under a total order is
    unique, so it is the list [sort()] leaves behind). *)
Definition sort_tuples (l : list (Z * Z)) : list (Z * Z) :=
  merge_sort tuple_le l.

(** [(x, y) if (x < y) else (y, x)] *)
Definition edge_endpoint (e : edge) : Z * Z :=
  let '(x, y, _) := e in if x <? y then (x, y) else (y, x).

(** [for i in range(len(l) - 1): if l[i] == l[i+1]: raise ValueError] *)
Fixpoint check_adjacent (l : list (Z * Z)) : result unit :=
  match l with
  | p :: ((q :: _) as l') =>
      if bool_decide (p = q) then Raise ValueError else check_adjacent l'
  | _ => Ok tt
  end.

Definition _check_input_graph (edges : list edge) : result unit :=
  let* _ := for_each (fun '(x, y, _) => if x =? y then Raise ValueError else Ok tt)
         edges in
  let edge_endpoints := sort_tuples (map edge_endpoint edges) in
  check_adjacent edge_endpoints.

(* ------------------------------------------------------------------ *)
(** ** Negative-weight edges (algorithm.py, [_remove_negative_weight_edges]) *)

(** [w < 0] and [w >= 0] with Python's int/float comparisons. *)
Definition num_lt0 (w : num) : bool :=
  match w with
  | NInt z => z <? 0
  | NFloat f => PrimFloat.ltb f 0
  end.

Definition num_ge0 (w : num) : bool :=
  match w with
  | NInt z => 0 <=? z
  | NFloat f => PrimFloat.leb 0 f
  end.

Definition _remove_negative_weight_edges (edges : list edge) : list edge :=
  if existsb (fun '(_, _, w) => num_lt0 w) edges
  then filter (fun '(_, _, w) => num_ge0 w = true) edges
  else edges.

(* ------------------------------------------------------------------ *)
(** ** The entry point (algorithm.py, [maximum_weight_matching]) *)

(** [ctx.vertex_mate[x] == y] *)
Definition mate_is (vertex_mate : list Z) (x y : Z) : bool :=
  bool_decide (vertex_mate !! Z.to_nat x = Some y).

(** [[(x, y) for (x, y, _w) in edges if ctx.vertex_mate[x] == y]] *)
Definition extract_pairs (edges : list edge) (vertex_mate : list Z)
    : list (Z * Z) :=
  omap (fun '(x, y, _) => if mate_is vertex_mate x y then Some (x, y) else None)
    edges.

Section EntryPoint.

(** [matching_core] stands for the part of [maximum_weight_matching]
    between building [GraphInfo] and extracting the pairs: the stage
    loop, [ctx.cleanup()] and, for integer weights, [verify_optimum].
    It returns the final [ctx.vertex_mate] or raises. *)
Variable matching_core : list edge -> result (list Z).

Definition maximum_weight_matching_with (edges : pyval)
    : result (list (Z * Z)) :=
  let* _ := _check_input_types edges in
  let es := edge_view edges in
  let* _ := _check_input_graph es in
  let es := _remove_negative_weight_edges es in
  match es with
  | [] => Ok []
  | _ :: _ =>
      let* vertex_mate := matching_core es in
      Ok (extract_pairs es vertex_mate)
  end.

End EntryPoint.

(* ------------------------------------------------------------------ *)
(** ** Weight adjustment (algorithm.py,
       [adjust_weights_for_maximum_cardinality_matching]) *)

(** The Python number operations the function uses, for a list whose
    weights are all ints ([Z]) or all floats ([float]).  An int operand
    [n] next to a float is converted by [float(n)], which is exact for the
    small ints used here ([num_vertex], [0], [1]). *)
Class PyNumber (A : Type) := {
  py_add : A -> A -> A;          (* a + b *)
  py_sub : A -> A -> A;          (* a - b *)
  py_int_mul : Z -> A -> A;      (* n * a *)
  py_int_sub : Z -> A -> A;      (* n - a *)
  py_lt : A -> A -> bool;        (* a < b *)
  py_le : A -> A -> bool;        (* a <= b *)
  py_gt_int : A -> Z -> bool;    (* a > n *)
  py_ge_int : A -> Z -> bool;    (* a >= n *)
  py_check_weight : A -> result unit  (* the weight tests of _check_input_types *)
}.

#[global] Instance PyNumber_int : PyNumber Z := {
  py_add := Z.add;
  py_sub := Z.sub;
  py_int_mul := Z.mul;
  py_int_sub := Z.sub;
  py_lt := Z.ltb;
  py_le := Z.leb;
  py_gt_int a n := n <? a;
  py_ge_int a n := n <=? a;
  py_check_weight _ := Ok tt
}.

(** [float(n)]: correctly rounded conversion of an int. *)
Definition Z_to_float (n : Z) : float :=
  SF2Prim (binary_normalize 53 1024 n 0 false).

#[global] Instance PyNumber_float : PyNumber float := {
  py_add a b := (a + b)%float;
  py_sub a b := (a - b)%float;
  py_int_mul n a := (Z_to_float n * a)%float;
  py_int_sub n a := (Z_to_float n - a)%float;
  py_lt a b := PrimFloat.ltb a b;
  py_le a b := PrimFloat.leb a b;
  py_gt_int a n := PrimFloat.ltb (Z_to_float n) a;
  py_ge_int a n := PrimFloat.leb (Z_to_float n) a;
  py_check_weight f :=
    if negb (isfinite f) then Raise ValueError
    else if PrimFloat.ltb float_limit f then Raise ValueError
    else Ok tt
}.

Section Adjust.
Context {A : Type} `{PyNumber A}.

(** [_check_input_types] on an edge list of this weight type. *)
Definition check_typed_edges (edges : list (Z * Z * A)) : result unit :=
  for_each (fun '(x, y, w) =>
    if (x <? 0) || (y <? 0) then Raise ValueError else py_check_weight w)
    edges.

(** [min(ws)] and [max(ws)] keep the first of equal elements. *)
Definition py_min (w0 : A) (ws : list A) : A :=
  fold_left (fun m w => if py_lt w m then w else m) ws w0.

Definition py_max (w0 : A) (ws : list A) : A :=
  fold_left (fun m w => if py_lt m w then w else m) ws w0.

(** [1 + max(max(x, y) for (x, y, _w) in edges)] *)
Definition num_vertex_of (edges : list (Z * Z * A)) : Z :=
  match edges with
  | [] => 0
  | (x0, y0, _) :: rest =>
      1 + fold_left (fun m '(x, y, _) => Z.max m (Z.max x y)) rest (Z.max x0 y0)
  end.

Definition adjust_weights_for_maximum_cardinality_matching
    (edges : list (Z * Z * A)) : result (list (Z * Z * A)) :=
  let* _ := check_typed_edges edges in
  match edges with
  | [] => Ok edges
  | (_, _, w0) :: rest =>
      let num_vertex := num_vertex_of edges in
      let ws := map (fun '(_, _, w) => w) rest in
      let min_weight := py_min w0 ws in
      let max_weight := py_max w0 ws in
      let weight_range := py_sub max_weight min_weight in
      if py_gt_int min_weight 0
         && py_le (py_int_mul num_vertex weight_range) min_weight
      then Ok edges
      else
        let delta :=
          if py_gt_int weight_range 0
          then py_sub (py_int_mul num_vertex weight_range) min_weight
          else py_int_sub 1 min_weight in
        let* _ := rassert (py_ge_int delta 0) in
        Ok (map (fun '(x, y, w) => (x, y, py_add w delta)) edges)
  end.

End Adjust.

(** The exact rational value of a finite float. *)
Definition float_to_Q (f : float) : Q :=
  match Prim2SF f with
  | S754_finite s m e =>
      let q := if (e <? 0)%Z then (Zpos m # Z.to_pos (2 ^ (- e)))
               else inject_Z (Zpos m * 2 ^ e) in
      if s then Qopp q else q
  | _ => 0%Q
  end.

(* ------------------------------------------------------------------ *)
(** ** Lemmas on the weight adjustment *)

Section AdjustInt.

Lemma py_min_int_le (w0 : Z) (ws : list Z) :
  py_min w0 ws <= w0 /\ Forall (fun w => py_min w0 ws <= w) ws.
Proof.
  unfold py_min. revert w0. induction ws as [|w ws IH]; intros w0; simpl in *.
  - split; [lia | constructor].
  - destruct (Z.ltb_spec w w0) as [Hlt|Hge];
      [destruct (IH w) as [H1 H2] | destruct (IH w0) as [H1 H2]];
      (split; [lia | constructor; [lia | exact H2]]).
Qed.

Lemma py_max_int_ge (w0 : Z) (ws : list Z) :
  w0 <= py_max w0 ws /\ Forall (fun w => w <= py_max w0 ws) ws.
Proof.
  unfold py_max. revert w0. induction ws as [|w ws IH]; intros w0; simpl in *.
  - split; [lia | constructor].
  - destruct (Z.ltb_spec w0 w) as [Hlt|Hge];
      [destruct (IH w) as [H1 H2] | destruct (IH w0) as [H1 H2]];
      (split; [lia | constructor; [lia | exact H2]]).
Qed.

Lemma num_vertex_of_pos (edges : list (Z * Z * Z)) :
  edges <> [] ->
  Forall (fun '(x, y, _) => 0 <= x /\ 0 <= y) edges ->
  1 <= num_vertex_of edges.
Proof.
  destruct edges as [|[[x0 y0] w0] rest]; [congruence|]. intros _ Hf.
  inversion Hf as [|? ? Hxy _]; subst. simpl in Hxy.
  destruct Hxy as [Hx Hy]. unfold num_vertex_of.
  assert (forall m, 0 <= m ->
    0 <= fold_left (fun m '(x, y, _) => Z.max m (Z.max x y)) rest m)
    as Hfold.
  { clear. induction rest as [|[[x y] w] rest IH]; intros m Hm; simpl;
      [lia | apply IH; lia]. }
  specialize (Hfold (Z.max x0 y0) ltac:(lia)). lia.
Qed.

Lemma check_typed_edges_int (edges : list (Z * Z * Z)) :
  Forall (fun '(x, y, _) => 0 <= x /\ 0 <= y) edges ->
  check_typed_edges edges = Ok tt.
Proof.
  unfold check_typed_edges.
  induction 1 as [|[[x y] w] rest Hxy _ IH]; simpl; [reflexivity|].
  destruct Hxy as [Hx Hy].
  destruct (Z.ltb_spec x 0); [lia|]. destruct (Z.ltb_spec y 0); [lia|].
  exact IH.
Qed.

End AdjustInt.

Lemma adjust_int_unfold (x0 y0 w0 : Z) (rest : list (Z * Z * Z)) :
  check_typed_edges ((x0, y0, w0) :: rest) = Ok tt ->
  let edges := (x0, y0, w0) :: rest in
  let n := num_vertex_of edges in
  let ws := map (fun '(_, _, w) => w) rest in
  let mn := py_min w0 ws in
  let mx := py_max w0 ws in
  adjust_weights_for_maximum_cardinality_matching edges =
    if (0 <? mn) && (n * (mx - mn) <=? mn) then Ok edges
    else
      let delta := if 0 <? mx - mn then n * (mx - mn) - mn else 1 - mn in
      let* _ := rassert (0 <=? delta) in
      Ok (map (fun '(x, y, w) => (x, y, w + delta)) edges).
Proof.
  intros Hc. unfold adjust_weights_for_maximum_cardinality_matching.
  rewrite Hc. reflexivity.
Qed.

Lemma map_add_zero (edges : list (Z * Z * Z)) :
  map (fun '(x, y, w) => (x, y, w + 0)) edges = edges.
Proof.
  induction edges as [|[[x y] w] l IH]; simpl; [reflexivity|].
  rewrite IH, Z.add_0_r. reflexivity.
Qed.

Lemma adjust_weights_bounds (x0 y0 w0 : Z) (rest : list (Z * Z * Z)) e :
  In e ((x0, y0, w0) :: rest) ->
  py_min w0 (map (fun '(_, _, w) => w) rest) <= e.2 <=
  py_max w0 (map (fun '(_, _, w) => w) rest).
Proof.
  pose proof (py_min_int_le w0 (map (fun '(_, _, w) => w) rest)) as [Hm1 Hm2].
  pose proof (py_max_int_ge w0 (map (fun '(_, _, w) => w) rest)) as [HM1 HM2].
  intros [<-|Hin]; simpl; [lia|].
  rewrite Forall_forall in Hm2, HM2.
  assert (Hw : e.2 ∈ map (fun '(_, _, w) => w) rest).
  { apply list_elem_of_In, in_map_iff. exists e. destruct e as [[x y] w]. auto. }
  specialize (Hm2 _ Hw). specialize (HM2 _ Hw). lia.
Qed.

(** ** C2 (amended, integer weights) *)

(** C2 (integer weights): for a well-formed edge list with integer weights
    (non-negative endpoints), the function never fails and returns the
    edges with every weight increased by one common constant [delta >= 0];
    every adjusted weight is positive and at least [num_vertex] times the
    difference of any two original weights (so the minimum adjusted weight
    is at least [num_vertex * (max - min)]).  For the empty list [delta = 0]
    and the input comes back unchanged. *)
Theorem adjust_weights_int_correct (edges : list (Z * Z * Z)) :
  Forall (fun '(x, y, _) => 0 <= x /\ 0 <= y) edges ->
  exists delta, 0 <= delta /\
    adjust_weights_for_maximum_cardinality_matching edges =
      Ok (map (fun '(x, y, w) => (x, y, w + delta)) edges) /\
    (forall e, In e edges -> 0 < e.2 + delta) /\
    (forall e1 e2 e3, In e1 edges -> In e2 edges -> In e3 edges ->
       num_vertex_of edges * (e1.2 - e2.2) <= e3.2 + delta).
Proof.
  intros Hwf.
  destruct edges as [|[[x0 y0] w0] rest] eqn:Eedges.
  { exists 0. split; [lia|]. split; [reflexivity|]. split; intros; simpl in *; tauto. }
  rewrite <- Eedges in Hwf |- *.
  assert (Hn : 1 <= num_vertex_of edges)
    by (apply num_vertex_of_pos; [congruence | exact Hwf]).
  pose proof (check_typed_edges_int _ Hwf) as Hc.
  rewrite Eedges in Hc |- *. rewrite (adjust_int_unfold _ _ _ _ Hc).
  rewrite <- Eedges. cbv zeta.
  pose proof (adjust_weights_bounds x0 y0 w0 rest) as Hb. rewrite <- Eedges in Hb.
  set (mn := py_min w0 (map (fun '(_, _, w) => w) rest)) in *.
  set (mx := py_max w0 (map (fun '(_, _, w) => w) rest)) in *.
  set (n := num_vertex_of edges) in *.
  assert (Hmnmx : mn <= mx) by (destruct (Hb (x0, y0, w0)); [rewrite Eedges; left; reflexivity | lia]).
  assert (Hrange : forall e1 e2, In e1 edges -> In e2 edges -> n * (e1.2 - e2.2) <= n * (mx - mn)).
  { intros e1 e2 H1 H2. apply Hb in H1. apply Hb in H2. apply Z.mul_le_mono_nonneg_l; lia. }
  destruct (Z.ltb_spec 0 mn) as [Hpos|Hnpos]; destruct (Z.leb_spec (n * (mx - mn)) mn) as [Hbig|Hsmall]; simpl.
  - exists 0. split; [lia|]. rewrite map_add_zero. split; [reflexivity|]. split.
    + intros e He. apply Hb in He. lia.
    + intros e1 e2 e3 H1 H2 H3. specialize (Hrange e1 e2 H1 H2). apply Hb in H3. lia.
  - destruct (Z.ltb_spec 0 (mx - mn)) as [Hr|Hr].
    + assert (0 < n * (mx - mn)) by nia.
      destruct (Z.leb_spec 0 (n * (mx - mn) - mn)); [|lia]. simpl.
      eexists. split; [|split; [reflexivity|split]]; [lia| |].
      * intros e He. apply Hb in He. lia.
      * intros e1 e2 e3 H1 H2 H3. specialize (Hrange e1 e2 H1 H2). apply Hb in H3. lia.
    + destruct (Z.leb_spec 0 (1 - mn)); [|nia]. simpl.
      eexists. split; [|split; [reflexivity|split]]; [lia| |].
      * intros e He. apply Hb in He. lia.
      * intros e1 e2 e3 H1 H2 H3. specialize (Hrange e1 e2 H1 H2). apply Hb in H3. nia.
  - destruct (Z.ltb_spec 0 (mx - mn)) as [Hr|Hr].
    + assert (0 < n * (mx - mn)) by nia.
      destruct (Z.leb_spec 0 (n * (mx - mn) - mn)); [|lia]. simpl.
      eexists. split; [|split; [reflexivity|split]]; [lia| |].
      * intros e He. apply Hb in He. lia.
      * intros e1 e2 e3 H1 H2 H3. specialize (Hrange e1 e2 H1 H2). apply Hb in H3. lia.
    + destruct (Z.leb_spec 0 (1 - mn)); [|nia]. simpl.
      eexists. split; [|split; [reflexivity|split]]; [lia| |].
      * intros e He. apply Hb in He. lia.
      * intros e1 e2 e3 H1 H2 H3. specialize (Hrange e1 e2 H1 H2). apply Hb in H3. nia.
  - destruct (Z.ltb_spec 0 (mx - mn)) as [Hr|Hr].
    + assert (0 < n * (mx - mn)) by nia.
      destruct (Z.leb_spec 0 (n * (mx - mn) - mn)); [|lia]. simpl.
      eexists. split; [|split; [reflexivity|split]]; [lia| |].
      * intros e He. apply Hb in He. lia.
      * intros e1 e2 e3 H1 H2 H3. specialize (Hrange e1 e2 H1 H2). apply Hb in H3. lia.
    + destruct (Z.leb_spec 0 (1 - mn)); [|nia]. simpl.
      eexists. split; [|split; [reflexivity|split]]; [lia| |].
      * intros e He. apply Hb in He. lia.
      * intros e1 e2 e3 H1 H2 H3. specialize (Hrange e1 e2 H1 H2). apply Hb in H3. nia.
Qed.

(** The claim C2 as written, for a weight type with exact value [val]:
    a common non-negative increment, positive results, and every adjusted
    weight at least [num_vertex] times the spread of the original ones. *)
Definition adjust_claim {A} `{PyNumber A} (val : A -> Q)
    (edges : list (Z * Z * A)) : Prop :=
  exists (delta : Q) (es' : list (Z * Z * A)),
    Qle 0 delta /\
    adjust_weights_for_maximum_cardinality_matching edges = Ok es' /\
    Forall2 (fun (e e' : Z * Z * A) =>
      e.1 = e'.1 /\ Qeq (val e'.2) (Qplus (val e.2) delta)) edges es' /\
    (forall e', In e' es' -> Qlt 0 (val e'.2)) /\
    (forall e1 e2 e', In e1 edges -> In e2 edges -> In e' es' ->
       Qle (Qmult (inject_Z (num_vertex_of edges)) (Qminus (val e1.2) (val e2.2)))
         (val e'.2)).

Definition adjust_float_input : list (Z * Z * float) :=
  [(0, 1, (-3.0)%float); (0, 2, (-2.6)%float)].

(** C2 counterexample: with float weights [-3.0] and [-2.6] on three
    vertices the adjusted weights are rounded, and the smaller one,
    [1.1999999999999993], is below [3 * (-2.6 - (-3.0))] computed exactly. *)
Lemma adjust_weights_float_counterexample :
  ~ adjust_claim float_to_Q adjust_float_input.
Proof.
  intros (delta & es' & _ & Hadj & _ & _ & Hbound).
  vm_compute in Hadj. injection Hadj as <-.
  specialize (Hbound (0, 2, (-2.6)%float) (0, 1, (-3.0)%float)
    (0, 1, 0x1.3333333333330p+0%float) ltac:(right; left; reflexivity)
    ltac:(left; reflexivity) ltac:(left; reflexivity)).
  apply Qle_bool_iff in Hbound. vm_compute in Hbound. discriminate.
Qed.

(* ------------------------------------------------------------------ *)
(** ** Lemmas on the input checks *)

Lemma for_each_all_ok {A} (f : A -> result unit) (l : list A) :
  for_each f l = Ok tt -> forall x, In x l -> f x = Ok tt.
Proof.
  induction l as [|a l IH]; simpl; [tauto|].
  destruct (f a) as [[]|e] eqn:Ha; simpl; [|discriminate].
  intros Hl x [<-|Hx]; auto.
Qed.

(** If every iteration either succeeds or raises [E], so does the loop, and
    it raises [E] as soon as one iteration does. *)
Lemma for_each_ok_or (E : exn) {A} (f : A -> result unit) (l : list A) :
  (forall x, In x l -> f x = Ok tt \/ f x = Raise E) ->
  (for_each f l = Ok tt \/ for_each f l = Raise E) /\
  ((exists x, In x l /\ f x = Raise E) -> for_each f l = Raise E).
Proof.
  induction l as [|a l IH]; simpl; intros Hall.
  - split; [auto | intros (x & [] & _)].
  - destruct (IH (fun x Hx => Hall x (or_intror Hx))) as [IH1 IH2].
    destruct (Hall a (or_introl eq_refl)) as [Ha|Ha]; rewrite Ha; simpl.
    + split; [exact IH1|]. intros (x & [<-|Hx] & Hfx); [congruence|].
      apply IH2. eauto.
    + auto.
Qed.

Lemma check_adjacent_ok_or (l : list (Z * Z)) :
  check_adjacent l = Ok tt \/ check_adjacent l = Raise ValueError.
Proof.
  induction l as [|p [|q l] IH]; simpl; auto.
  case_bool_decide; auto.
Qed.

#[global] Instance tuple_le_total : Total tuple_le.
Proof.
  intros [a b] [c d]. unfold tuple_le, tuple_leb; simpl.
  destruct (Z.ltb_spec a c), (Z.eqb_spec a c), (Z.leb_spec b d),
    (Z.ltb_spec c a), (Z.eqb_spec c a), (Z.leb_spec d b); simpl; auto; lia.
Qed.

Definition tuple_lt (p q : Z * Z) : Prop :=
  p.1 < q.1 \/ (p.1 = q.1 /\ p.2 < q.2).

Lemma tuple_le_neq_lt (p q : Z * Z) : tuple_le p q -> p <> q -> tuple_lt p q.
Proof.
  destruct p as [a b], q as [c d]. unfold tuple_le, tuple_leb, tuple_lt; simpl.
  intros H Hne. destruct (Z.ltb_spec a c); simpl in H; [lia|].
  destruct (Z.eqb_spec a c), (Z.leb_spec b d); simpl in H; try discriminate.
  subst. right. split; [reflexivity|]. destruct (Z.eq_dec b d); [subst; congruence | lia].
Qed.

#[global] Instance tuple_lt_trans : Transitive tuple_lt.
Proof. intros [a b] [c d] [e f]; unfold tuple_lt; simpl; lia. Qed.

Lemma sorted_adjacent_strict (l : list (Z * Z)) :
  Sorted tuple_le l -> check_adjacent l = Ok tt -> Sorted tuple_lt l.
Proof.
  induction 1 as [|p l Hs IH Hhd]; intros Hc; constructor.
  - apply IH. destruct l as [|q l]; [reflexivity|]. simpl in Hc.
    case_bool_decide; [discriminate|exact Hc].
  - destruct Hhd as [|q l Hpq]; constructor. simpl in Hc.
    case_bool_decide; [discriminate|]. apply tuple_le_neq_lt; assumption.
Qed.

Lemma strongly_sorted_lt_NoDup (l : list (Z * Z)) :
  StronglySorted tuple_lt l -> NoDup l.
Proof.
  induction 1 as [|p l _ IH Hall]; constructor; [|exact IH].
  intros Hin. rewrite Forall_forall in Hall. apply Hall in Hin.
  destruct p; unfold tuple_lt in Hin; simpl in Hin; lia.
Qed.

(** [_check_input_graph]'s duplicate test finds every repeated pair. *)
Lemma check_adjacent_sort_dup (l : list (Z * Z)) (i j : nat) (p : Z * Z) :
  i <> j -> l !! i = Some p -> l !! j = Some p ->
  check_adjacent (sort_tuples l) = Raise ValueError.
Proof.
  intros Hij Hi Hj.
  destruct (check_adjacent_ok_or (sort_tuples l)) as [Hok|Herr]; [|exact Herr].
  exfalso. unfold sort_tuples in Hok.
  pose proof (Sorted_merge_sort tuple_le l) as Hs.
  pose proof (sorted_adjacent_strict _ Hs Hok) as Hlt.
  apply Sorted_StronglySorted in Hlt; [|apply _].
  apply strongly_sorted_lt_NoDup in Hlt.
  assert (Hnd : NoDup l).
  { rewrite <- (merge_sort_Permutation tuple_le l). exact Hlt. }
  apply Hij. eapply NoDup_lookup; eauto.
Qed.

(** The three outcomes of the per-element check. *)
Lemma check_edge_types_outcome (e : pyval) :
  _check_edge_types e = Ok tt \/ _check_edge_types e = Raise ValueError \/
  _check_edge_types e = Raise TypeError.
Proof. unfold _check_edge_types; repeat case_match; auto. Qed.

Lemma check_edge_types_ok_typed (e : pyval) :
  _check_edge_types e = Ok tt -> is_Some (edge_of e).
Proof.
  unfold _check_edge_types; repeat case_match; simpl; intros; try discriminate;
    eexists; reflexivity.
Qed.

(** An element rejected with [ValueError] has a negative endpoint or a
    non-finite or too large float weight. *)
Lemma check_edge_types_value_error (e : pyval) :
  _check_edge_types e = Raise ValueError ->
  (exists x y w, e = PyTuple [PyInt x; PyInt y; w] /\ (x < 0 \/ y < 0)) \/
  (exists x y f, e = PyTuple [PyInt x; PyInt y; PyFloat f] /\
     (isfinite f = false \/ PrimFloat.ltb float_limit f = true)).
Proof.
  unfold _check_edge_types; repeat case_match; simpl; intros; try discriminate;
    subst.
  all: try (left; do 3 eexists; split; [reflexivity|];
            match goal with H : (_ <? 0) || (_ <? 0) = true |- _ =>
              apply orb_true_iff in H; rewrite !Z.ltb_lt in H; exact H end).
  all: right; do 3 eexists; split; [reflexivity|].
  all: match goal with H : negb _ = true |- _ => left; apply negb_true_iff in H; exact H
                     | H : PrimFloat.ltb _ _ = true |- _ => right; exact H end.
Qed.

Lemma omap_lookup_some {A B} (f : A -> option B) (l : list A) (i : nat) (a : A) (b : B) :
  (forall x, In x l -> is_Some (f x)) -> l !! i = Some a -> f a = Some b ->
  omap f l !! i = Some b.
Proof.
  revert i. induction l as [|x l IH]; intros i Hall Hi Hfa; [discriminate|].
  simpl. destruct (Hall x (or_introl eq_refl)) as [y Hy]. rewrite Hy.
  destruct i as [|i]; simpl in Hi.
  - injection Hi as ->. simpl. congruence.
  - simpl. apply IH; auto. intros z Hz. apply Hall. right. exact Hz.
Qed.

Lemma edge_endpoint_same (x1 y1 x2 y2 : Z) (w1 w2 : num) :
  (x1 = x2 /\ y1 = y2) \/ (x1 = y2 /\ y1 = x2) ->
  edge_endpoint (x1, y1, w1) = edge_endpoint (x2, y2, w2).
Proof.
  simpl. intros [[-> ->]|[-> ->]]; [reflexivity|].
  destruct (Z.ltb_spec y2 x2), (Z.ltb_spec x2 y2); try reflexivity; try lia.
  f_equal; lia.
Qed.

Lemma check_edge_types_typed_outcome (e : pyval) :
  is_Some (edge_of e) ->
  _check_edge_types e = Ok tt \/ _check_edge_types e = Raise ValueError.
Proof.
  unfold _check_edge_types; repeat case_match; simpl; auto;
    intros [? Hc]; simpl in Hc; repeat case_match; congruence.
Qed.

Lemma edge_of_inv (e : pyval) (x y : Z) (w : num) :
  edge_of e = Some (x, y, w) ->
  e = PyTuple [PyInt x; PyInt y;
               match w with NInt z => PyInt z | NFloat f => PyFloat f end].
Proof. unfold edge_of; repeat case_match; intros; simplify_eq; reflexivity. Qed.

Lemma map_lookup_some {A B} (f : A -> B) (l : list A) (i : nat) (a : A) :
  l !! i = Some a -> map f l !! i = Some (f a).
Proof.
  revert i; induction l as [|x l IH]; intros [|i] Hi; simpl in *; try discriminate.
  - congruence.
  - auto.
Qed.

(** The error conditions of the specification, on the Python input list. *)
Definition well_typed_element (e : pyval) : Prop := is_Some (edge_of e).

Definition contains_self_edge (es : list pyval) : Prop :=
  exists e x w, In e es /\ edge_of e = Some (x, x, w).

Definition contains_duplicate_edge (es : list pyval) : Prop :=
  exists (i j : nat) e1 e2 x1 y1 w1 x2 y2 w2,
    i <> j /\ es !! i = Some e1 /\ es !! j = Some e2 /\
    edge_of e1 = Some (x1, y1, w1) /\ edge_of e2 = Some (x2, y2, w2) /\
    ((x1 = x2 /\ y1 = y2) \/ (x1 = y2 /\ y1 = x2)).

Definition bad_float_weight (f : float) : Prop :=
  isfinite f = false \/ PrimFloat.ltb float_limit f = true.

Definition contains_bad_float (es : list pyval) : Prop :=
  exists e x y f, In e es /\ edge_of e = Some (x, y, NFloat f) /\ bad_float_weight f.

Definition no_negative_endpoint (es : list pyval) : Prop :=
  forall x y w, In (PyTuple [PyInt x; PyInt y; w]) es -> 0 <= x /\ 0 <= y.

Definition no_bad_float (es : list pyval) : Prop :=
  forall x y f, In (PyTuple [PyInt x; PyInt y; PyFloat f]) es -> ~ bad_float_weight f.

(** The error behaviour as the specification states it: each condition
    alone determines the exception. *)
Definition input_error_claim (matching_core : list edge -> result (list Z))
    (es : list pyval) : Prop :=
  (contains_self_edge es \/ contains_duplicate_edge es \/ contains_bad_float es ->
   maximum_weight_matching_with matching_core (PyList es) = Raise ValueError) /\
  ((exists e, In e es /\ ~ well_typed_element e) ->
   maximum_weight_matching_with matching_core (PyList es) = Raise TypeError).

(** [[(0, 0, 1), "x"]]: a self-edge followed by an element of the wrong type. *)
Definition input_error_example : list pyval :=
  [PyTuple [PyInt 0; PyInt 0; PyInt 1]; PyObj].

Lemma bad_float_check_not_ok (x y : Z) (f : float) :
  bad_float_weight f -> _check_edge_types (PyTuple [PyInt x; PyInt y; PyFloat f]) <> Ok tt.
Proof.
  intros [Hf|Hf]; simpl; destruct ((x <? 0) || (y <? 0)); try discriminate;
    rewrite Hf; simpl; [discriminate|].
  destruct (isfinite f); simpl; discriminate.
Qed.

(** With every element well typed, a self-edge, a repeated pair of
    endpoints or a bad float weight makes the checks raise [ValueError]. *)
Lemma checks_value_error (es : list pyval) :
  Forall well_typed_element es ->
  contains_self_edge es \/ contains_duplicate_edge es \/ contains_bad_float es ->
  (let* _ := _check_input_types (PyList es) in
   _check_input_graph (edge_view (PyList es))) = Raise ValueError.
Proof.
  intros Hwt Hcond. rewrite Forall_forall in Hwt. simpl.
  assert (Htyped : forall e, In e es ->
    _check_edge_types e = Ok tt \/ _check_edge_types e = Raise ValueError).
  { intros e He. apply check_edge_types_typed_outcome, Hwt, list_elem_of_In, He. }
  destruct (proj1 (for_each_ok_or ValueError _ es Htyped)) as [Hok|Herr];
    [|rewrite Herr; reflexivity].
  rewrite Hok; simpl.
  pose proof (for_each_all_ok _ _ Hok) as Hall.
  assert (Hsome : forall e, In e es -> is_Some (edge_of e)).
  { intros e He. apply Hwt, list_elem_of_In, He. }
  unfold _check_input_graph.
  set (check_self := fun '(x, y, _) => if x =? y then Raise ValueError else Ok tt
                      : result unit).
  assert (Hself : forall e : edge, In e (omap edge_of es) ->
            check_self e = Ok tt \/ check_self e = Raise ValueError).
  { intros [[x y] w] _. simpl. destruct (x =? y); auto. }
  destruct (for_each_ok_or ValueError check_self _ Hself) as [Hfe Hfe_err].
  destruct Hcond as [(e & x & w & He & Hex) | [Hdup | (e & x & y & f & He & Hef & Hbad)]].
  - rewrite Hfe_err; [reflexivity|]. exists (x, x, w). split.
    + apply list_elem_of_In, list_elem_of_omap. exists e.
      split; [apply list_elem_of_In, He | exact Hex].
    + simpl. rewrite Z.eqb_refl. reflexivity.
  - destruct Hfe as [Hfe|Hfe]; rewrite Hfe; simpl; [|reflexivity].
    destruct Hdup as (i & j & e1 & e2 & x1 & y1 & w1 & x2 & y2 & w2 &
                      Hij & Hi & Hj & He1 & He2 & Hsame).
    apply (check_adjacent_sort_dup _ i j (edge_endpoint (x1, y1, w1)) Hij).
    + apply map_lookup_some, (omap_lookup_some _ _ _ e1); assumption.
    + rewrite (edge_endpoint_same x1 y1 x2 y2 w1 w2 Hsame).
      apply map_lookup_some, (omap_lookup_some _ _ _ e2); assumption.
  - exfalso. apply edge_of_inv in Hef. subst e.
    apply (bad_float_check_not_ok x y f Hbad), Hall, He.
Qed.

(** With no negative endpoint and no bad float weight, an element of the
    wrong shape makes the checks raise [TypeError]. *)
Lemma checks_type_error (es : list pyval) :
  (exists e, In e es /\ ~ well_typed_element e) ->
  no_negative_endpoint es -> no_bad_float es ->
  _check_input_types (PyList es) = Raise TypeError.
Proof.
  intros Hex Hneg Hfl. simpl.
  assert (Hout : forall e, In e es ->
    _check_edge_types e = Ok tt \/ _check_edge_types e = Raise TypeError).
  { intros e He.
    destruct (check_edge_types_outcome e) as [H|[H|H]]; auto. exfalso.
    destruct (check_edge_types_value_error e H)
      as [(x & y & w & -> & Hxy) | (x & y & f & -> & Hf)].
    - specialize (Hneg x y w He). lia.
    - exact (Hfl x y f He Hf). }
  apply (proj2 (for_each_ok_or TypeError _ es Hout)).
  destruct Hex as (e & He & Hnt). exists e. split; [exact He|].
  destruct (Hout e He) as [H|H]; [|exact H].
  exfalso. apply Hnt, check_edge_types_ok_typed, H.
Qed.

(** Claim C6 (amended).  The input checks run before anything else, so the
    outcome below holds whatever the matching algorithm does
    ([matching_core] is arbitrary).  The type loop runs first over the whole
    list: if every element is a 3-tuple of two ints and an int or float, a
    self-edge, a repeated undirected edge or a non-finite or over-limit float
    weight raises [ValueError]; if some element has the wrong shape and no
    element has a negative endpoint or a bad float weight (which raise
    [ValueError] in the same loop), [TypeError] is raised. *)
Theorem maximum_weight_matching_input_errors
    (matching_core : list edge -> result (list Z)) (es : list pyval) :
  (Forall well_typed_element es ->
   contains_self_edge es \/ contains_duplicate_edge es \/ contains_bad_float es ->
   maximum_weight_matching_with matching_core (PyList es) = Raise ValueError) /\
  ((exists e, In e es /\ ~ well_typed_element e) ->
   no_negative_endpoint es -> no_bad_float es ->
   maximum_weight_matching_with matching_core (PyList es) = Raise TypeError).
Proof.
  split.
  - intros Hwt Hcond. pose proof (checks_value_error es Hwt Hcond) as H.
    unfold maximum_weight_matching_with.
    destruct (_check_input_types (PyList es)) as [[]|err]; simpl in *; [|congruence].
    rewrite H. reflexivity.
  - intros Hex Hneg Hfl. unfold maximum_weight_matching_with.
    rewrite (checks_type_error es Hex Hneg Hfl). reflexivity.
Qed.

(** Claim C6, counterexample: for [[(0, 0, 1), "x"]], which contains a
    self-edge and an element of the wrong type, the claim would require both
    a [ValueError] and a [TypeError]; the code raises [TypeError], for every
    matching algorithm. *)
Lemma maximum_weight_matching_input_errors_counterexample :
  ~ (exists matching_core, input_error_claim matching_core input_error_example).
Proof.
  intros [core [Hval _]].
  assert (Hself : contains_self_edge input_error_example).
  { exists (PyTuple [PyInt 0; PyInt 0; PyInt 1]), 0, (NInt 1).
    split; [left; reflexivity | reflexivity]. }
  specialize (Hval (or_introl Hself)).
  vm_compute in Hval. discriminate.
Qed.

Lemma maximum_weight_matching_input_errors_witness :
  (Forall well_typed_element [PyTuple [PyInt 0; PyInt 0; PyInt 1]] /\
   contains_self_edge [PyTuple [PyInt 0; PyInt 0; PyInt 1]] /\
   maximum_weight_matching_with (fun _ => Ok []) (PyList [PyTuple [PyInt 0; PyInt 0; PyInt 1]])
     = Raise ValueError) /\
  ((exists e, In e input_error_example /\ ~ well_typed_element e) /\
   no_negative_endpoint input_error_example /\ no_bad_float input_error_example /\
   maximum_weight_matching_with (fun _ => Ok []) (PyList input_error_example)
     = Raise TypeError).
Proof.
  assert (Hwt : Forall well_typed_element [PyTuple [PyInt 0; PyInt 0; PyInt 1]]).
  { repeat constructor. eexists. reflexivity. }
  assert (Hself : contains_self_edge [PyTuple [PyInt 0; PyInt 0; PyInt 1]]).
  { exists (PyTuple [PyInt 0; PyInt 0; PyInt 1]), 0, (NInt 1).
    split; [left; reflexivity | reflexivity]. }
  assert (Hex : exists e, In e input_error_example /\ ~ well_typed_element e).
  { exists PyObj. split; [right; left; reflexivity|].
    intros [? H]. simpl in H. discriminate. }
  assert (Hneg : no_negative_endpoint input_error_example).
  { intros x y w [H|[H|[]]]; simplify_eq; lia. }
  assert (Hfl : no_bad_float input_error_example).
  { intros x y f [H|[H|[]]]; simplify_eq. }
  split.
  - split; [exact Hwt|]. split; [exact Hself|].
    apply (proj1 (maximum_weight_matching_input_errors (fun _ => Ok []) _)
             Hwt (or_introl Hself)).
  - split; [exact Hex|]. split; [exact Hneg|]. split; [exact Hfl|].
    apply (proj2 (maximum_weight_matching_input_errors (fun _ => Ok []) _)
             Hex Hneg Hfl).
Defined.

(* ------------------------------------------------------------------ *)
(** ** Lemmas on negative-weight edges and the returned pairs *)

Lemma float_ge0_not_lt0 (f : float) :
  PrimFloat.leb 0 f = true -> PrimFloat.ltb f 0 = false.
Proof.
  rewrite FloatAxioms.leb_spec, FloatAxioms.ltb_spec.
  change (Prim2SF 0) with (S754_zero false).
  destruct (Prim2SF f) as [[]|[]| |[] m e]; simpl; auto; discriminate.
Qed.

Lemma num_ge0_not_lt0 (w : num) : num_ge0 w = true -> num_lt0 w = false.
Proof.
  destruct w as [z|f]; simpl.
  - intros H. apply Z.leb_le in H. apply Z.ltb_ge. exact H.
  - apply float_ge0_not_lt0.
Qed.

(** After [_check_input_graph] succeeded, two edges with the same
    endpoints are the same list entry. *)
Lemma check_input_graph_endpoints_unique (l : list edge) (i j : nat) (e1 e2 : edge) :
  _check_input_graph l = Ok tt -> l !! i = Some e1 -> l !! j = Some e2 ->
  edge_endpoint e1 = edge_endpoint e2 -> i = j.
Proof.
  intros Hg Hi Hj Heq. destruct (decide (i = j)) as [|Hij]; [assumption|].
  exfalso. unfold _check_input_graph in Hg.
  destruct (for_each (fun '(x, y, _) => if x =? y then Raise ValueError else Ok tt) l)
    as [[]|err]; simpl in Hg; [|discriminate].
  rewrite (check_adjacent_sort_dup (map edge_endpoint l) i j (edge_endpoint e1) Hij)
    in Hg; [discriminate| |].
  - apply map_lookup_some, Hi.
  - rewrite Heq. apply map_lookup_some, Hj.
Qed.

Lemma extract_pairs_in (l : list edge) (vm : list Z) (x y : Z) :
  In (x, y) (extract_pairs l vm) -> exists w, In (x, y, w) l.
Proof.
  unfold extract_pairs. intros H.
  apply list_elem_of_In, list_elem_of_omap in H as ([[u v] w] & Hin & Hf).
  exists w. destruct (mate_is vm u v); simplify_eq.
  apply list_elem_of_In, Hin.
Qed.

Lemma remove_negative_in (l : list edge) (e : edge) :
  In e (_remove_negative_weight_edges l) ->
  In e l /\ (existsb (fun '(_, _, w) => num_lt0 w) l = false \/ num_ge0 e.2 = true).
Proof.
  unfold _remove_negative_weight_edges.
  destruct (existsb (fun '(_, _, w) => num_lt0 w) l) eqn:Hex; intros H; [|auto].
  apply list_elem_of_In, list_elem_of_filter in H as [Hp Hin].
  split; [apply list_elem_of_In, Hin|]. right. destruct e as [[? ?] ?]. exact Hp.
Qed.

(** Claim C7.  Whatever the matching algorithm returns, no pair of the
    result has the endpoints of an input edge of negative weight (in either
    orientation): the pairs are read off the edges left after
    [_remove_negative_weight_edges], and an edge with the same endpoints as
    a negative one would be a duplicate, which [_check_input_graph] rejects.
    In particular [[(0, 1, -1)]] gives [[]]. *)
Theorem maximum_weight_matching_no_negative_pairs :
  (forall (matching_core : list edge -> result (list Z)) (es : list pyval)
          (pairs : list (Z * Z)) (x y : Z) (e : pyval) (u v : Z) (w : num),
    maximum_weight_matching_with matching_core (PyList es) = Ok pairs ->
    In (x, y) pairs -> In e es -> edge_of e = Some (u, v, w) -> num_lt0 w = true ->
    ~ ((x = u /\ y = v) \/ (x = v /\ y = u))) /\
  (forall matching_core : list edge -> result (list Z),
    maximum_weight_matching_with matching_core
      (PyList [PyTuple [PyInt 0; PyInt 1; PyInt (-1)]]) = Ok []).
Proof.
  split; [|reflexivity].
  intros core es pairs x y e u v w H Hin He Heu Hlt Hsame.
  unfold maximum_weight_matching_with in H. cbn [edge_view] in H.
  destruct (_check_input_types (PyList es)) as [[]|]; cbn [rbind] in H; [|discriminate].
  destruct (_check_input_graph (omap edge_of es)) as [[]|] eqn:Hg;
    cbn [rbind] in H; [|discriminate].
  assert (Hneg : In (u, v, w) (omap edge_of es)).
  { apply list_elem_of_In, list_elem_of_omap. exists e.
    split; [apply list_elem_of_In, He | exact Heu]. }
  destruct (_remove_negative_weight_edges (omap edge_of es)) as [|e0 rest] eqn:Hr.
  { cbn [rbind] in H. injection H as <-. destruct Hin. }
  cbn [rbind] in H. destruct (core (e0 :: rest)) as [vm|]; cbn [rbind] in H;
    [|discriminate].
  injection H as <-.
  change (In (x, y) (extract_pairs (e0 :: rest) vm)) in Hin.
  apply extract_pairs_in in Hin as [w' Hin]. rewrite <- Hr in Hin.
  apply remove_negative_in in Hin as [Hin [Hnone|Hge]].
  - assert (Hsome : existsb (fun '(_, _, w) => num_lt0 w) (omap edge_of es) = true).
    { apply existsb_exists. exists (u, v, w). split; [exact Hneg | exact Hlt]. }
    congruence.
  - apply list_elem_of_In, list_elem_of_lookup in Hin as [i Hi].
    apply list_elem_of_In, list_elem_of_lookup in Hneg as [j Hj].
    pose proof (check_input_graph_endpoints_unique _ i j _ _ Hg Hi Hj
                  (edge_endpoint_same x y u v w' w Hsame)) as ->.
    pose proof (eq_trans (eq_sym Hi) Hj) as Hw.
    injection Hw as _ _ ->.
    cbn [rbind] in Hge. rewrite (num_ge0_not_lt0 w Hge) in Hlt. discriminate.
Qed.

Lemma maximum_weight_matching_no_negative_pairs_witness :
  maximum_weight_matching_with (fun _ => Ok [1; 0; -1])
    (PyList [PyTuple [PyInt 0; PyInt 1; PyInt 2]; PyTuple [PyInt 1; PyInt 2; PyInt (-1)]])
    = Ok [(0, 1)] /\
  ~ ((0 = 1 /\ 1 = 2) \/ (0 = 2 /\ 1 = 1)).
Proof.
  assert (H : maximum_weight_matching_with (fun _ => Ok [1; 0; -1])
    (PyList [PyTuple [PyInt 0; PyInt 1; PyInt 2]; PyTuple [PyInt 1; PyInt 2; PyInt (-1)]])
    = Ok [(0, 1)]) by (vm_compute; reflexivity).
  split; [exact H|].
  apply (proj1 maximum_weight_matching_no_negative_pairs _ _ _ 0 1
           (PyTuple [PyInt 1; PyInt 2; PyInt (-1)]) 1 2 (NInt (-1)) H).
  - left; reflexivity.
  - right; left; reflexivity.
  - reflexivity.
  - reflexivity.
Defined.

Lemma adjust_weights_int_correct_witness :
  Forall (fun '(x, y, _) => 0 <= x /\ 0 <= y) [(0, 1, 3); (1, 2, 5)] /\
  exists delta, 0 <= delta /\
    adjust_weights_for_maximum_cardinality_matching [(0, 1, 3); (1, 2, 5)] =
      Ok (map (fun '(x, y, w) => (x, y, w + delta)) [(0, 1, 3); (1, 2, 5)]) /\
    (forall e, In e [(0, 1, 3); (1, 2, 5)] -> 0 < e.2 + delta) /\
    (forall e1 e2 e3, In e1 [(0, 1, 3); (1, 2, 5)] -> In e2 [(0, 1, 3); (1, 2, 5)] ->
       In e3 [(0, 1, 3); (1, 2, 5)] ->
       num_vertex_of [(0, 1, 3); (1, 2, 5)] * (e1.2 - e2.2) <= e3.2 + delta).
Proof.
  assert (H : Forall (fun '(x, y, _) => 0 <= x /\ 0 <= y) [(0, 1, 3); (1, 2, 5)]).
  { repeat constructor; lia. }
  split; [exact H | apply (adjust_weights_int_correct _ H)].
Defined.

(* ------------------------------------------------------------------ *)
(** ** ConcatenableQueue (datastruct.py) *)

(** The 2-3 tree of a [ConcatenableQueue], as a tree value.  A leaf is a
    [ConcatenableQueue.Node]; [id] stands for the identity of the Python
    object ([split] finds a leaf by identity) and [elem] for its
    [(data, prio)].  Internal nodes have 2 or 3 children, in order.

    The pointer fields are represented by the shape of the value: a node's
    [parent] is the node above it on the path from the root, [height] is
    its distance to the leaves, and the root of a queue's tree is the value
    stored in the queue's [tree] field.  The cached [min_node] and the
    [owner] pointer do not influence which leaves end up in which tree and
    are left out. *)
Module ConcatenableQueue.

Inductive node (E : Type) : Type :=
| Leaf (id : nat) (elem : E)
| Node2 (a b : node E)
| Node3 (a b c : node E).
Arguments Leaf {E} id elem.
Arguments Node2 {E} a b.
Arguments Node3 {E} a b c.

(** The outcome of inserting a tree below a node: the node, or the two
    2-nodes it was rearranged into because it already had 3 children. *)
Inductive grown (E : Type) : Type :=
| One (t : node E)
| Two (t1 t2 : node E).
Arguments One {E} t.
Arguments Two {E} t1 t2.

(** One step of the walk of [_split_tree] from a leaf up to the root: the
    position of the child the walk comes from, and its siblings. *)
Inductive frame (E : Type) : Type :=
| F2L (b : node E)          (* node [child, b] *)
| F2R (a : node E)          (* node [a, child] *)
| F3L (b c : node E)        (* node [child, b, c] *)
| F3M (a c : node E)        (* node [a, child, c] *)
| F3R (a b : node E).       (* node [a, b, child] *)
Arguments F2L {E} b.
Arguments F2R {E} a.
Arguments F3L {E} b c.
Arguments F3M {E} a c.
Arguments F3R {E} a b.

Section Tree.

Context {E : Type}.

Fixpoint height (t : node E) : nat :=
  match t with
  | Leaf _ _ => O
  | Node2 a _ | Node3 a _ _ => S (height a)
  end.

(** The leaves from left to right: the queue's contents in order. *)
Fixpoint leaves (t : node E) : list (nat * E) :=
  match t with
  | Leaf i e => [(i, e)]
  | Node2 a b => leaves a ++ leaves b
  | Node3 a b c => leaves a ++ leaves b ++ leaves c
  end.

(** A consistent 2-3 tree of height [h]: every leaf at depth [h]. *)
Fixpoint wf (h : nat) (t : node E) : Prop :=
  match t, h with
  | Leaf _ _, O => True
  | Node2 a b, S h' => wf h' a /\ wf h' b
  | Node3 a b c, S h' => wf h' a /\ wf h' b /\ wf h' c
  | _, _ => False
  end.

(** [_join_right]: insert [r] at the right spine of the higher tree [l],
    at the node of height [height r + 1], splitting full nodes on the way
    back up. *)
Fixpoint _join_right (l r : node E) : grown E :=
  match l with
  | Leaf _ _ => One l
  | Node2 a b =>
      if Nat.eqb (height b) (height r) then One (Node3 a b r)
      else match _join_right b r with
           | One b' => One (Node2 a b')
           | Two x y => One (Node3 a x y)
           end
  | Node3 a b c =>
      if Nat.eqb (height c) (height r) then Two (Node2 a b) (Node2 c r)
      else match _join_right c r with
           | One c' => One (Node3 a b c')
           | Two x y => Two (Node2 a b) (Node2 x y)
           end
  end.

(** [_join_left]: the mirror image, along the left spine of [r]. *)
Fixpoint _join_left (l r : node E) : grown E :=
  match r with
  | Leaf _ _ => One r
  | Node2 a b =>
      if Nat.eqb (height a) (height l) then One (Node3 l a b)
      else match _join_left l a with
           | One a' => One (Node2 a' b)
           | Two x y => One (Node3 x y b)
           end
  | Node3 a b c =>
      if Nat.eqb (height a) (height l) then Two (Node2 l a) (Node2 b c)
      else match _join_left l a with
           | One a' => One (Node3 a' b c)
           | Two x y => Two (Node2 x y) (Node2 b c)
           end
  end.

(** A full root gets a new root above it ([_new_internal_node]). *)
Definition root_of (g : grown E) : node E :=
  match g with
  | One t => t
  | Two x y => Node2 x y
  end.

Definition _join (l r : node E) : node E :=
  if Nat.ltb (height r) (height l) then root_of (_join_right l r)
  else if Nat.ltb (height l) (height r) then root_of (_join_left l r)
  else Node2 l r.

(** The path from the root to the leaf [p], as the frames met when
    walking from the leaf up through its [parent] pointers. *)
Fixpoint find_path (p : nat) (t : node E) : option (E * list (frame E)) :=
  match t with
  | Leaf i e => if Nat.eqb i p then Some (e, []) else None
  | Node2 a b =>
      match find_path p a with
      | Some (e, fs) => Some (e, fs ++ [F2L b])
      | None =>
          match find_path p b with
          | Some (e, fs) => Some (e, fs ++ [F2R a])
          | None => None
          end
      end
  | Node3 a b c =>
      match find_path p a with
      | Some (e, fs) => Some (e, fs ++ [F3L b c])
      | None =>
          match find_path p b with
          | Some (e, fs) => Some (e, fs ++ [F3M a c])
          | None =>
              match find_path p c with
              | Some (e, fs) => Some (e, fs ++ [F3R a b])
              | None => None
              end
          end
      end
  end.

(** [ltree = x if ltree is None else self._join(x, ltree)] *)
Definition join_left_tree (x : node E) (ltree : option (node E)) : option (node E) :=
  match ltree with
  | None => Some x
  | Some l => Some (_join x l)
  end.

(** The body of the [while parent is not None] loop of [_split_tree]. *)
Definition split_step (ltree : option (node E)) (rtree : node E) (f : frame E)
    : option (node E) * node E :=
  match f with
  | F3L b c => (ltree, _join rtree (Node2 b c))
  | F3R a b => (join_left_tree (Node2 a b) ltree, rtree)
  | F3M a c => (join_left_tree a ltree, _join rtree c)
  | F2L b => (ltree, _join rtree b)
  | F2R a => (join_left_tree a ltree, rtree)
  end.

Fixpoint split_up (fs : list (frame E)) (ltree : option (node E)) (rtree : node E)
    : option (node E) * node E :=
  match fs with
  | [] => (ltree, rtree)
  | f :: fs' => let '(l, r) := split_step ltree rtree f in split_up fs' l r
  end.

(** [_split_tree(split_node)] on the tree [t] that holds the leaf. *)
Definition _split_tree (p : nat) (t : node E) : result (node E * node E) :=
  match find_path p t with
  | None => Raise AssertionError
  | Some (e, fs) =>
      match split_up fs None (Leaf p e) with
      | (Some l, r) => Ok (l, r)
      | (None, _) => Raise AssertionError
      end
  end.

End Tree.

(** A [ConcatenableQueue] object: its [tree], its [first_node] (the
    identity of a leaf) and its [sub_queues] (identities of queues).  The
    [name] is not read by [merge] and [split] and is left out. *)
Record cq (E : Type) := mk_cq {
  cq_tree : option (node E);
  cq_first : option nat;
  cq_subs : list nat;
}.
Arguments mk_cq {E} cq_tree cq_first cq_subs.
Arguments cq_tree {E} c.
Arguments cq_first {E} c.
Arguments cq_subs {E} c.

(** The queue objects, by identity. *)
Abbreviation store E := (gmap nat (cq E)).

Section Queue.

Context {E : Type}.

Definition empty_cq : cq E := mk_cq None None [].

(** Reading a queue object (every identity used names a live object). *)
Definition get (st : store E) (q : nat) : cq E := default empty_cq (st !! q).

Definition set_tree (st : store E) (q : nat) (t : option (node E)) : store E :=
  let c := get st q in <[q := mk_cq t (cq_first c) (cq_subs c)]> st.

(** [ConcatenableQueue.insert] on an empty queue. *)
Definition insert (q : nat) (leaf_id : nat) (elem : E) (st : store E) : result (store E) :=
  let c := get st q in
  let* _ := rassert (bool_decide (cq_tree c = None)) in
  Ok (<[q := mk_cq (Some (Leaf leaf_id elem)) (Some leaf_id) (cq_subs c)]> st).

(** The loop [for sub in sub_queues[1:]] of [merge]. *)
Fixpoint merge_loop (self : nat) (subs : list nat) (st : store E) : result (store E) :=
  match subs with
  | [] => Ok st
  | sub :: rest =>
      match cq_tree (get st sub), cq_tree (get st self) with
      | Some subtree, Some t => merge_loop self rest (set_tree st self (Some (_join t subtree)))
      | _, _ => Raise AssertionError
      end
  end.

Definition merge (self : nat) (sub_queues : list nat) (st : store E) : result (store E) :=
  let c := get st self in
  let* _ := rassert (bool_decide (cq_tree c = None)) in
  let* _ := rassert (bool_decide (cq_subs c = [])) in
  match sub_queues with
  | [] => Raise AssertionError
  | sub0 :: rest =>
      (* self.sub_queues = sub_queues *)
      let st := <[self := mk_cq (cq_tree c) (cq_first c) sub_queues]> st in
      (* self.tree = sub_queues[0].tree; self.first_node = ... *)
      let c0 := get st sub0 in
      let st := <[self := mk_cq (cq_tree c0) (cq_first c0) sub_queues]> st in
      let* _ := rassert (bool_decide (cq_tree c0 <> None)) in
      (* sub_queues[0].tree = None *)
      let st := set_tree st sub0 None in
      merge_loop self rest st
  end.

(** The loop [for sub in self.sub_queues[:0:-1]] of [split].  [cur] is the
    tree that still holds the leaves not yet split off (the one reached from
    [sub.first_node] through the parent pointers) and [tree] is the Python
    local of that name, unbound before the first iteration. *)
Fixpoint split_loop (subs : list nat) (cur : node E) (tree : option (node E))
    (st : store E) : result (store E * option (node E)) :=
  match subs with
  | [] => Ok (st, tree)
  | sub :: rest =>
      match cq_first (get st sub) with
      | None => Raise AssertionError
      | Some first_node =>
          let* '(l, r) := _split_tree first_node cur in
          split_loop rest l (Some l) (set_tree st sub (Some r))
      end
  end.

Definition split (self : nat) (st : store E) : result (store E) :=
  let c := get st self in
  match cq_tree c with
  | None => Raise AssertionError
  | Some t =>
      let* _ := rassert (bool_decide (cq_subs c <> [])) in
      let* '(st, tree) := split_loop (reverse (tail (cq_subs c))) t None st in
      match tree with
      | None => Raise UnboundLocalError
      | Some l =>
          let sub0 := default self (head (cq_subs c)) in
          let st := set_tree st sub0 (Some l) in
          Ok (<[self := mk_cq None None []]> st)
      end
  end.

End Queue.

(** *** Lemmas on the tree operations *)

Section TreeLemmas.

Context {E : Type}.
Implicit Types t l r a b c : node E.

Lemma wf_height (h : nat) t : wf h t -> height t = h.
Proof.
  revert h; induction t as [i e|a IHa b IHb|a IHa b IHb c IHc]; intros [|h] H;
    simpl in *; try contradiction; try reflexivity.
  all: f_equal; apply IHa; tauto.
Qed.

Lemma join_right_spec l r (hl hr : nat) :
  wf hl l -> wf hr r -> (hr < hl)%nat ->
  match _join_right l r with
  | One t => wf hl t /\ leaves t = leaves l ++ leaves r
  | Two x y => wf hl x /\ wf hl y /\ leaves x ++ leaves y = leaves l ++ leaves r
  end.
Proof.
  revert hl. induction l as [i e|a _ b IHb|a _ b _ c IHc]; intros hl Hl Hr Hlt.
  - destruct hl; simpl in Hl; [lia | contradiction].
  - destruct hl as [|h]; simpl in Hl; [contradiction|]. destruct Hl as [Ha Hb].
    simpl. rewrite (wf_height h b Hb), (wf_height hr r Hr).
    destruct (Nat.eqb_spec h hr) as [->|Hne].
    + simpl. split; [tauto|]. rewrite app_assoc. reflexivity.
    + specialize (IHb h Hb Hr ltac:(lia)).
      destruct (_join_right b r) as [b'|x y]; simpl.
      * split; [tauto|]. destruct IHb as [_ ->]. rewrite app_assoc. reflexivity.
      * split; [tauto|]. destruct IHb as (_ & _ & Hxy).
        rewrite <- app_assoc, <- Hxy. reflexivity.
  - destruct hl as [|h]; simpl in Hl; [contradiction|]. destruct Hl as (Ha & Hb & Hc).
    simpl. rewrite (wf_height h c Hc), (wf_height hr r Hr).
    destruct (Nat.eqb_spec h hr) as [->|Hne].
    + simpl. split; [tauto|]. split; [tauto|]. rewrite <- !app_assoc. reflexivity.
    + specialize (IHc h Hc Hr ltac:(lia)).
      destruct (_join_right c r) as [c'|x y]; simpl.
      * split; [tauto|]. destruct IHc as [_ ->]. rewrite <- !app_assoc. reflexivity.
      * split; [tauto|]. split; [tauto|]. destruct IHc as (_ & _ & Hxy).
        rewrite Hxy, <- !app_assoc. reflexivity.
Qed.

Lemma join_left_spec l r (hl hr : nat) :
  wf hl l -> wf hr r -> (hl < hr)%nat ->
  match _join_left l r with
  | One t => wf hr t /\ leaves t = leaves l ++ leaves r
  | Two x y => wf hr x /\ wf hr y /\ leaves x ++ leaves y = leaves l ++ leaves r
  end.
Proof.
  revert hr. induction r as [i e|a IHa b _|a IHa b _ c _]; intros hr Hl Hr Hlt.
  - destruct hr; simpl in Hr; [lia | contradiction].
  - destruct hr as [|h]; simpl in Hr; [contradiction|]. destruct Hr as [Ha Hb].
    simpl. rewrite (wf_height h a Ha), (wf_height hl l Hl).
    destruct (Nat.eqb_spec h hl) as [->|Hne].
    + simpl. split; [tauto|]. reflexivity.
    + specialize (IHa h Hl Ha ltac:(lia)).
      destruct (_join_left l a) as [a'|x y]; simpl.
      * split; [tauto|]. destruct IHa as [_ ->]. rewrite app_assoc. reflexivity.
      * split; [tauto|]. destruct IHa as (_ & _ & Hxy).
        rewrite app_assoc, Hxy, app_assoc. reflexivity.
  - destruct hr as [|h]; simpl in Hr; [contradiction|]. destruct Hr as (Ha & Hb & Hc).
    simpl. rewrite (wf_height h a Ha), (wf_height hl l Hl).
    destruct (Nat.eqb_spec h hl) as [->|Hne].
    + simpl. split; [tauto|]. split; [tauto|]. rewrite <- !app_assoc. reflexivity.
    + specialize (IHa h Hl Ha ltac:(lia)).
      destruct (_join_left l a) as [a'|x y]; simpl.
      * split; [tauto|]. destruct IHa as [_ ->]. rewrite <- !app_assoc. reflexivity.
      * split; [tauto|]. split; [tauto|]. destruct IHa as (_ & _ & Hxy).
        rewrite <- app_assoc, app_assoc, Hxy, <- !app_assoc. reflexivity.
Qed.

(** A consistent 2-3 tree of some height. *)
Definition wft t : Prop := exists h, wf h t.

Lemma join_spec l r :
  wft l -> wft r -> wft (_join l r) /\ leaves (_join l r) = leaves l ++ leaves r.
Proof.
  intros [hl Hl] [hr Hr]. unfold _join.
  rewrite (wf_height hl l Hl), (wf_height hr r Hr).
  destruct (Nat.ltb_spec hr hl) as [Hlt|Hge].
  - pose proof (join_right_spec l r hl hr Hl Hr Hlt) as H.
    destruct (_join_right l r) as [t|x y]; simpl.
    + split; [exists hl|]; tauto.
    + split; [exists (S hl); simpl|]; tauto.
  - destruct (Nat.ltb_spec hl hr) as [Hlt'|Hge'].
    + pose proof (join_left_spec l r hl hr Hl Hr Hlt') as H.
      destruct (_join_left l r) as [t|x y]; simpl.
      * split; [exists hr|]; tauto.
      * split; [exists (S hr); simpl|]; tauto.
    + assert (hl = hr) as <- by lia. split; [exists (S hl); simpl; tauto | reflexivity].
Qed.

End TreeLemmas.

Section SplitLemmas.

Context {E : Type}.
Implicit Types t l r a b c : node E.

Definition frame_left (f : frame E) : list (nat * E) :=
  match f with
  | F2R a | F3M a _ => leaves a
  | F3R a b => leaves a ++ leaves b
  | _ => []
  end.

Definition frame_right (f : frame E) : list (nat * E) :=
  match f with
  | F2L b | F3M _ b => leaves b
  | F3L b c => leaves b ++ leaves c
  | _ => []
  end.

Definition frame_wf (f : frame E) : Prop :=
  match f with
  | F2L a | F2R a => wft a
  | F3M a b => wft a /\ wft b
  | F3L a b | F3R a b => exists h, wf h a /\ wf h b
  end.

Definition opt_leaves (t : option (node E)) : list (nat * E) :=
  match t with None => [] | Some t => leaves t end.

Definition opt_wft (t : option (node E)) : Prop :=
  match t with None => True | Some t => wft t end.

Lemma find_path_none (p : nat) t :
  find_path p t = None -> p ∉ (leaves t).*1.
Proof.
  induction t as [i e|a IHa b IHb|a IHa b IHb c IHc]; simpl.
  - destruct (Nat.eqb_spec i p); [discriminate|]. intros _.
    rewrite list_elem_of_singleton. congruence.
  - destruct (find_path p a) as [[]|]; [discriminate|].
    destruct (find_path p b) as [[]|]; [discriminate|].
    intros _. rewrite fmap_app, elem_of_app. tauto.
  - destruct (find_path p a) as [[]|]; [discriminate|].
    destruct (find_path p b) as [[]|]; [discriminate|].
    destruct (find_path p c) as [[]|]; [discriminate|].
    intros _. rewrite !fmap_app, !elem_of_app. tauto.
Qed.

Lemma find_path_some (p : nat) t (h : nat) (e : E) (fs : list (frame E)) :
  wf h t -> find_path p t = Some (e, fs) ->
  leaves t = mjoin (frame_left <$> rev fs) ++ (p, e) :: mjoin (frame_right <$> fs) /\
  Forall frame_wf fs /\
  p ∉ (mjoin (frame_left <$> rev fs)).*1.
Proof.
  revert h e fs.
  induction t as [i e0|a IHa b IHb|a IHa b IHb c IHc]; intros h e fs Hwf Hf; simpl in Hf.
  - destruct (Nat.eqb_spec i p) as [->|]; [|discriminate].
    injection Hf as <- <-. simpl. split; [reflexivity|]. split; [constructor|].
    apply not_elem_of_nil.
  - destruct h as [|h]; simpl in Hwf; [contradiction|]. destruct Hwf as [Ha Hb].
    destruct (find_path p a) as [[e1 fs1]|] eqn:Fa.
    + injection Hf as <- <-.
      destruct (IHa h e1 fs1 Ha eq_refl) as (Hl & Hfw & Hn).
      rewrite rev_app_distr, !fmap_app, !join_app. simpl.
      rewrite !app_nil_r. split; [|split].
      * rewrite Hl, <- app_assoc. reflexivity.
      * apply Forall_app. split; [exact Hfw|]. constructor; [exists h; exact Hb | constructor].
      * exact Hn.
    + destruct (find_path p b) as [[e1 fs1]|] eqn:Fb; [|discriminate].
      injection Hf as <- <-.
      destruct (IHb h e1 fs1 Hb eq_refl) as (Hl & Hfw & Hn).
      rewrite rev_app_distr, !fmap_app, !join_app. simpl.
      rewrite !app_nil_r. split; [|split].
      * rewrite Hl, <- app_assoc. reflexivity.
      * apply Forall_app. split; [exact Hfw|]. constructor; [exists h; exact Ha | constructor].
      * rewrite fmap_app, elem_of_app. intros [H|H]; [|exact (Hn H)].
        exact (find_path_none p a Fa H).
  - destruct h as [|h]; simpl in Hwf; [contradiction|]. destruct Hwf as (Ha & Hb & Hc).
    destruct (find_path p a) as [[e1 fs1]|] eqn:Fa.
    + injection Hf as <- <-.
      destruct (IHa h e1 fs1 Ha eq_refl) as (Hl & Hfw & Hn).
      rewrite rev_app_distr, !fmap_app, !join_app. simpl.
      rewrite !app_nil_r. split; [|split].
      * rewrite Hl, <- !app_assoc. reflexivity.
      * apply Forall_app. split; [exact Hfw|].
        constructor; [exists h; split; [exact Hb | exact Hc] | constructor].
      * exact Hn.
    + destruct (find_path p b) as [[e1 fs1]|] eqn:Fb.
      * injection Hf as <- <-.
        destruct (IHb h e1 fs1 Hb eq_refl) as (Hl & Hfw & Hn).
        rewrite rev_app_distr, !fmap_app, !join_app. simpl.
        rewrite !app_nil_r. split; [|split].
        -- rewrite Hl, <- !app_assoc. reflexivity.
        -- apply Forall_app. split; [exact Hfw|].
           constructor; [split; [exists h; exact Ha | exists h; exact Hc] | constructor].
        -- rewrite fmap_app, elem_of_app. intros [H|H]; [|exact (Hn H)].
           exact (find_path_none p a Fa H).
      * destruct (find_path p c) as [[e1 fs1]|] eqn:Fc; [|discriminate].
        injection Hf as <- <-.
        destruct (IHc h e1 fs1 Hc eq_refl) as (Hl & Hfw & Hn).
        rewrite rev_app_distr, !fmap_app, !join_app. simpl.
        rewrite !app_nil_r. split; [|split].
        -- rewrite Hl, <- !app_assoc. reflexivity.
        -- apply Forall_app. split; [exact Hfw|].
           constructor; [exists h; split; [exact Ha | exact Hb] | constructor].
        -- rewrite !fmap_app, !elem_of_app. intros [[H|H]|H]; [| |exact (Hn H)].
           ++ exact (find_path_none p a Fa H).
           ++ exact (find_path_none p b Fb H).
Qed.

End SplitLemmas.

Section SplitLemmas2.

Context {E : Type}.
Implicit Types t l r a b c : node E.

Lemma join_left_tree_spec (x : node E) (lt : option (node E)) :
  wft x -> opt_wft lt ->
  opt_wft (join_left_tree x lt) /\
  opt_leaves (join_left_tree x lt) = leaves x ++ opt_leaves lt /\
  join_left_tree x lt <> None.
Proof.
  intros Hx Hlt. destruct lt as [l|]; simpl.
  - destruct (join_spec x l Hx Hlt) as [H1 H2]. split; [exact H1|].
    split; [exact H2|]. discriminate.
  - rewrite app_nil_r. split; [exact Hx|]. split; [reflexivity|discriminate].
Qed.

Lemma node2_wft a b (h : nat) : wf h a -> wf h b -> wft (Node2 a b).
Proof. intros Ha Hb. exists (S h). simpl. tauto. Qed.

Lemma split_step_spec (f : frame E) (lt : option (node E)) (rt : node E) :
  frame_wf f -> opt_wft lt -> wft rt ->
  let '(l', r') := split_step lt rt f in
  opt_wft l' /\ wft r' /\
  opt_leaves l' = frame_left f ++ opt_leaves lt /\
  leaves r' = leaves rt ++ frame_right f.
Proof.
  intros Hf Hlt Hrt.
  destruct f as [b|a|b c|a c|a b]; simpl in Hf |- *.
  - destruct (join_spec rt b Hrt Hf). repeat split; rewrite ?app_nil_r; auto.
  - destruct (join_left_tree_spec a lt Hf Hlt) as (? & ? & _). repeat split; rewrite ?app_nil_r; auto.
  - destruct Hf as (h & Hb & Hc).
    destruct (join_spec rt (Node2 b c) Hrt (node2_wft b c h Hb Hc)). repeat split; rewrite ?app_nil_r; auto.
  - destruct Hf as [Ha Hc].
    destruct (join_left_tree_spec a lt Ha Hlt) as (? & ? & _).
    destruct (join_spec rt c Hrt Hc). repeat split; rewrite ?app_nil_r; auto.
  - destruct Hf as (h & Ha & Hb).
    destruct (join_left_tree_spec (Node2 a b) lt (node2_wft a b h Ha Hb) Hlt)
      as (? & Hl & _).
    rewrite Hl. simpl. rewrite <- app_assoc. repeat split; rewrite ?app_nil_r; auto.
Qed.

Lemma split_up_spec (fs : list (frame E)) (lt : option (node E)) (rt : node E) :
  Forall frame_wf fs -> opt_wft lt -> wft rt ->
  let '(l', r') := split_up fs lt rt in
  opt_wft l' /\ wft r' /\
  opt_leaves l' = mjoin (frame_left <$> rev fs) ++ opt_leaves lt /\
  leaves r' = leaves rt ++ mjoin (frame_right <$> fs).
Proof.
  revert lt rt. induction fs as [|f fs IH]; intros lt rt Hfs Hlt Hrt; simpl.
  - rewrite app_nil_r. auto.
  - inversion Hfs as [|? ? Hf Hfs']; subst.
    pose proof (split_step_spec f lt rt Hf Hlt Hrt) as Hs.
    destruct (split_step lt rt f) as [l1 r1].
    destruct Hs as (Hl1 & Hr1 & Hleft & Hright).
    specialize (IH l1 r1 Hfs' Hl1 Hr1).
    destruct (split_up fs l1 r1) as [l2 r2].
    destruct IH as (? & ? & Hl2 & Hr2). split; [assumption|]. split; [assumption|].
    rewrite fmap_app, join_app. simpl. rewrite app_nil_r. split.
    + rewrite Hl2, Hleft, app_assoc. reflexivity.
    + rewrite Hr2, Hright, app_assoc. reflexivity.
Qed.

(** The first occurrence of an identity in a list is unique. *)
Lemma first_occurrence_unique (p : nat) (e1 e2 : E) (A B L1 L2 : list (nat * E)) :
  p ∉ A.*1 -> p ∉ L1.*1 -> A ++ (p, e1) :: B = L1 ++ (p, e2) :: L2 ->
  A = L1 /\ e1 = e2 /\ B = L2.
Proof.
  revert L1. induction A as [|[q x] A IH]; intros [|[q' y] L1] HA HL Heq;
    simpl in *; injection Heq; intros; subst.
  - auto.
  - exfalso. apply HL. left.
  - exfalso. apply HA. left.
  - destruct (IH L1) as (-> & -> & ->); auto.
    + intros Hin. apply HA. right. exact Hin.
    + intros Hin. apply HL. right. exact Hin.
Qed.

(** [_split_tree] at a leaf that is not the first one: the leaves before
    it form the left tree, the leaf and those after it the right tree. *)
Lemma split_tree_spec (p : nat) (e : E) t (L1 L2 : list (nat * E)) :
  wft t -> leaves t = L1 ++ (p, e) :: L2 -> p ∉ L1.*1 -> L1 <> [] ->
  exists l r, _split_tree p t = Ok (l, r) /\ wft l /\ wft r /\
    leaves l = L1 /\ leaves r = (p, e) :: L2.
Proof.
  intros [h Ht] Hleaves Hp Hne. unfold _split_tree.
  destruct (find_path p t) as [[e' fs]|] eqn:Hf.
  - destruct (find_path_some p t h e' fs Ht Hf) as (Hl & Hfw & Hn).
    rewrite Hleaves in Hl. symmetry in Hl.
    destruct (first_occurrence_unique p e' e _ _ L1 L2 Hn Hp Hl) as (HA & <- & HB).
    assert (Hleaf : wft (Leaf p e')) by (exists O; exact I).
    pose proof (split_up_spec fs None (Leaf p e') Hfw I Hleaf) as Hs.
    destruct (split_up fs None (Leaf p e')) as [[l|] r];
      destruct Hs as (Hwl & Hwr & Hll & Hlr); simpl in Hll, Hlr;
      rewrite app_nil_r in Hll; rewrite HA in Hll.
    + exists l, r. split; [reflexivity|]. repeat split; try assumption.
      rewrite Hlr, HB. reflexivity.
    + exfalso. apply Hne. symmetry. exact Hll.
  - exfalso. apply (find_path_none p t Hf). rewrite Hleaves, fmap_app.
    apply elem_of_app. right. left.
Qed.

End SplitLemmas2.

Section QueueLemmas.

Context {E : Type}.

Lemma get_insert_eq (st : store E) (q : nat) (c : cq E) : get (<[q := c]> st) q = c.
Proof. unfold get. rewrite lookup_insert_eq. reflexivity. Qed.

Lemma get_insert_ne (st : store E) (q y : nat) (c : cq E) :
  q <> y -> get (<[q := c]> st) y = get st y.
Proof. intros H. unfold get. rewrite lookup_insert_ne; auto. Qed.

Lemma get_set_tree_eq (st : store E) (q : nat) (t : option (node E)) :
  get (set_tree st q t) q = mk_cq t (cq_first (get st q)) (cq_subs (get st q)).
Proof. apply get_insert_eq. Qed.

Lemma get_set_tree_ne (st : store E) (q y : nat) (t : option (node E)) :
  q <> y -> get (set_tree st q t) y = get st y.
Proof. apply get_insert_ne. Qed.

Lemma cq_eta (c : cq E) : c = mk_cq (cq_tree c) (cq_first c) (cq_subs c).
Proof. destruct c; reflexivity. Qed.

Lemma merge_loop_spec (self : nat) (rest : list nat) (st : store E) (t : node E) :
  cq_tree (get st self) = Some t -> wft t -> self ∉ rest ->
  (forall q, q ∈ rest -> exists tq, cq_tree (get st q) = Some tq /\ wft tq) ->
  exists st' T, merge_loop self rest st = Ok st' /\
    get st' self = mk_cq (Some T) (cq_first (get st self)) (cq_subs (get st self)) /\
    wft T /\
    leaves T = leaves t ++ mjoin ((fun q => opt_leaves (cq_tree (get st q))) <$> rest) /\
    (forall y, y <> self -> get st' y = get st y).
Proof.
  revert st t. induction rest as [|q rest IH]; intros st t Hself Ht Hnot Hsubs; simpl.
  - exists st, t. split; [reflexivity|]. split; [rewrite <- Hself; apply cq_eta|].
    split; [exact Ht|]. split; [rewrite app_nil_r; reflexivity | auto].
  - assert (Hq : q <> self) by (intros ->; apply Hnot; left).
    destruct (Hsubs q (list_elem_of_here q rest)) as (tq & Htq & Hwq).
    rewrite Htq, Hself.
    set (st1 := set_tree st self (Some (_join t tq))).
    destruct (join_spec t tq Ht Hwq) as [Hwj Hlj].
    assert (Hst1 : forall y, y <> self -> get st1 y = get st y).
    { intros y Hy. apply get_set_tree_ne. congruence. }
    destruct (IH st1 (_join t tq)) as (st' & T & Hrun & Hget & HwT & HlT & Hframe).
    + unfold st1. rewrite get_set_tree_eq. reflexivity.
    + exact Hwj.
    + intros Hin. apply Hnot. right. exact Hin.
    + intros q' Hq'. rewrite Hst1; [|intros ->; apply Hnot; right; exact Hq'].
      apply Hsubs. right. exact Hq'.
    + exists st', T. split; [exact Hrun|].
      split; [rewrite Hget; unfold st1; rewrite get_set_tree_eq; reflexivity|].
      split; [exact HwT|]. split.
      * rewrite HlT, Hlj, <- app_assoc. f_equal. simpl. f_equal.
        f_equal. apply list_fmap_ext. intros i q' Hi.
        rewrite Hst1; [reflexivity|]. intros ->. apply Hnot. right.
        apply list_elem_of_lookup_2 with i. exact Hi.
      * intros y Hy. rewrite Hframe; [|exact Hy]. apply Hst1, Hy.
Qed.

Lemma split_loop_spec (Lq : nat -> list (nat * E)) (xs : list nat) (cur : node E)
    (tv : option (node E)) (st : store E) (Lpre : list (nat * E)) :
  wft cur -> leaves cur = Lpre ++ mjoin (Lq <$> reverse xs) -> Lpre <> [] ->
  NoDup (leaves cur).*1 -> NoDup xs ->
  (forall x, x ∈ xs -> exists p e rest, cq_first (get st x) = Some p /\ Lq x = (p, e) :: rest) ->
  tv = None \/ tv = Some cur ->
  exists st' tv' l, split_loop xs cur tv st = Ok (st', tv') /\ wft l /\ leaves l = Lpre /\
    (tv' = Some l \/ (tv' = None /\ tv = None /\ xs = [])) /\
    (forall x, x ∈ xs -> exists r,
       get st' x = mk_cq (Some r) (cq_first (get st x)) (cq_subs (get st x)) /\
       wft r /\ leaves r = Lq x) /\
    (forall y, y ∉ xs -> get st' y = get st y).
Proof.
  revert cur tv st. induction xs as [|x xs IH]; intros cur tv st Hw Hl Hne Hnd Hndx Hfirst Htv.
  - exists st, tv, cur. split; [reflexivity|]. split; [exact Hw|].
    split; [simpl in Hl; rewrite app_nil_r in Hl; exact Hl|].
    split; [destruct Htv as [->| ->]; auto|].
    split; [intros x Hx; inversion Hx | auto].
  - destruct (Hfirst x (list_elem_of_here x xs)) as (p & e & R & Hp & HLq).
    apply NoDup_cons in Hndx as [Hxnot Hndx].
    rewrite reverse_cons, fmap_app, join_app in Hl. simpl in Hl.
    rewrite app_nil_r, HLq, app_assoc in Hl.
    set (L1 := Lpre ++ mjoin (Lq <$> reverse xs)) in Hl.
    assert (HpL1 : p ∉ L1.*1).
    { rewrite Hl, fmap_app in Hnd. apply NoDup_app in Hnd as (_ & Hd & _).
      intros Hin. apply (Hd p Hin). left. }
    assert (HL1 : L1 <> []).
    { unfold L1. destruct Lpre; [congruence | discriminate]. }
    destruct (split_tree_spec p e cur L1 R Hw Hl HpL1 HL1) as (l & r & Hs & Hwl & Hwr & Hll & Hlr).
    simpl. rewrite Hp, Hs. simpl.
    set (st1 := set_tree st x (Some r)).
    assert (Hst1 : forall y, y <> x -> get st1 y = get st y).
    { intros y Hy. apply get_set_tree_ne. congruence. }
    destruct (IH l (Some l) st1) as (st' & tv' & l' & Hrun & Hwl' & Hll' & Htv' & Hsubs & Hframe).
    + exact Hwl.
    + rewrite Hll. reflexivity.
    + exact Hne.
    + rewrite Hl, fmap_app in Hnd. apply NoDup_app in Hnd as (Hd & _ & _).
      rewrite Hll. exact Hd.
    + exact Hndx.
    + intros x' Hx'. rewrite Hst1; [|intros ->; contradiction].
      apply Hfirst. right. exact Hx'.
    + right. reflexivity.
    + exists st', tv', l'. split; [exact Hrun|]. split; [exact Hwl'|]. split; [exact Hll'|].
      split; [destruct Htv' as [H|(_ & H & _)]; [left; exact H | discriminate]|].
      split.
      * intros y Hy. apply elem_of_cons in Hy as [->|Hy].
        -- exists r. rewrite Hframe; [|exact Hxnot].
           unfold st1. rewrite get_set_tree_eq. split; [reflexivity|].
           split; [exact Hwr|]. rewrite Hlr, HLq. reflexivity.
        -- destruct (Hsubs y Hy) as (r' & Hg & Hw' & Hl').
           exists r'. rewrite Hg, Hst1; [|intros ->; contradiction]. auto.
      * intros y Hy. rewrite Hframe.
        -- apply Hst1. intros ->. apply Hy. left.
        -- intros Hin. apply Hy. right. exact Hin.
Qed.

End QueueLemmas.

Section MergeSplit.

Context {E : Type}.

(** Claim C5, for two or more sub-queues.  Let [self] be an empty queue
    (no tree, no retained sub-queues) and [qs] pairwise distinct queues,
    other than [self], each holding a consistent 2-3 tree whose
    [first_node] is its first leaf, with no leaf shared between them.  Then
    [self.merge(qs)] followed by [self.split()] succeeds, leaves [self]
    empty, gives each queue of [qs] back a consistent tree holding exactly
    its former elements in their former order (with their priorities), and
    touches no other queue. *)
Theorem merge_split_restores (st : store E) (self : nat) (qs : list nat) :
  cq_tree (get st self) = None -> cq_subs (get st self) = [] ->
  self ∉ qs -> NoDup qs -> (2 <= length qs)%nat ->
  (forall q, q ∈ qs -> exists t p e rest,
     cq_tree (get st q) = Some t /\ wft t /\
     cq_first (get st q) = Some p /\ leaves t = (p, e) :: rest) ->
  NoDup (mjoin ((fun q => opt_leaves (cq_tree (get st q))) <$> qs)).*1 ->
  exists st1 st2, merge self qs st = Ok st1 /\ split self st1 = Ok st2 /\
    get st2 self = empty_cq /\
    (forall q, q ∈ qs -> exists t,
       get st2 q = mk_cq (Some t) (cq_first (get st q)) (cq_subs (get st q)) /\
       wft t /\ leaves t = opt_leaves (cq_tree (get st q))) /\
    (forall y, y <> self -> y ∉ qs -> get st2 y = get st y).
Proof.
  intros Htree Hsubs Hself Hnd Hlen Hqs Hleaves.
  destruct qs as [|q0 rest]; [simpl in Hlen; lia|].
  assert (Hrest_ne : rest <> []) by (intros ->; simpl in Hlen; lia).
  apply NoDup_cons in Hnd as [Hq0rest Hndrest].
  assert (Hq0self : q0 <> self) by (intros ->; apply Hself; left).
  assert (Hrestself : self ∉ rest)
    by (intros Hin; apply Hself; right; exact Hin).
  assert (Hnq : forall q, q ∈ rest -> q <> self /\ q <> q0).
  { intros q Hq. split; intros ->; contradiction. }
  destruct (Hqs q0 (list_elem_of_here q0 rest))
    as (t0 & p0 & e0 & R0 & Ht0 & Hw0 & Hp0 & Hl0).
  (* The three stores written by [merge] before its loop. *)
  set (c := get st self).
  set (sta := <[self := mk_cq (cq_tree c) (cq_first c) (q0 :: rest)]> st).
  assert (Hga : forall y, y <> self -> get sta y = get st y).
  { intros y Hy. apply get_insert_ne. congruence. }
  set (c0 := get sta q0).
  assert (Hc0 : c0 = get st q0) by (apply Hga, Hq0self).
  set (stb := <[self := mk_cq (cq_tree c0) (cq_first c0) (q0 :: rest)]> sta).
  assert (Hgb : forall y, y <> self -> get stb y = get st y).
  { intros y Hy. unfold stb. rewrite get_insert_ne; [apply Hga, Hy | congruence]. }
  set (stc := set_tree stb q0 None).
  assert (Hgc : forall y, y <> self -> y <> q0 -> get stc y = get st y).
  { intros y Hy Hy0. unfold stc. rewrite get_set_tree_ne; [apply Hgb, Hy | congruence]. }
  assert (Hgc0 : get stc q0 = mk_cq None (cq_first (get st q0)) (cq_subs (get st q0))).
  { unfold stc. rewrite get_set_tree_eq, Hgb; [reflexivity | exact Hq0self]. }
  assert (Hmerge : merge self (q0 :: rest) st = merge_loop self rest stc).
  { unfold stc, stb, c0, sta, c. unfold merge. cbv zeta. rewrite Htree, Hsubs.
    simpl. rewrite !(get_insert_ne st self q0) by congruence.
    rewrite Ht0. reflexivity. }
  assert (Hgc_self : get stc self = mk_cq (Some t0) (cq_first (get st q0)) (q0 :: rest)).
  { unfold stc. rewrite get_set_tree_ne; [|exact Hq0self]. unfold stb.
    rewrite get_insert_eq, Hc0, Ht0. reflexivity. }
  assert (Hfmap : (fun q => opt_leaves (cq_tree (get stc q))) <$> rest =
                  (fun q => opt_leaves (cq_tree (get st q))) <$> rest).
  { apply list_fmap_ext. intros i q Hi.
    apply list_elem_of_lookup_2 in Hi. destruct (Hnq q Hi).
    rewrite Hgc; auto. }
  destruct (merge_loop_spec self rest stc t0)
    as (st1 & T & Hrun1 & HgT & HwT & HlT & Hframe1).
  { rewrite Hgc_self. reflexivity. }
  { exact Hw0. }
  { exact Hrestself. }
  { intros q Hq. destruct (Hnq q Hq). rewrite Hgc; auto.
    destruct (Hqs q (list_elem_of_further q q0 rest Hq)) as (t & ? & ? & ? & Ht & Hw & _).
    exists t. split; assumption. }
  rewrite Hgc_self in HgT. simpl in HgT. rewrite Hfmap in HlT.
  assert (Hg1 : forall y, y <> self -> y <> q0 -> get st1 y = get st y).
  { intros y Hy Hy0. rewrite Hframe1; auto. }
  (* split *)
  destruct (split_loop_spec (fun q => opt_leaves (cq_tree (get st q))) (reverse rest)
              T None st1 (leaves t0))
    as (st' & tv' & l & Hrun2 & Hwl & Hll & Htv' & Hsubs2 & Hframe2).
  { exact HwT. }
  { rewrite reverse_involutive. exact HlT. }
  { rewrite Hl0. discriminate. }
  { rewrite HlT. simpl in Hleaves. rewrite Ht0 in Hleaves. exact Hleaves. }
  { rewrite reverse_Permutation. exact Hndrest. }
  { intros x Hx. rewrite elem_of_reverse in Hx. destruct (Hnq x Hx).
    rewrite Hg1; auto.
    destruct (Hqs x (list_elem_of_further x q0 rest Hx)) as (t & p & e & R & Ht & _ & Hp & Hl).
    exists p, e, R. split; [exact Hp|]. rewrite Ht. exact Hl. }
  { left. reflexivity. }
  destruct Htv' as [Htv' | (_ & _ & Hnil)].
  2:{ exfalso. apply (f_equal length) in Hnil. rewrite length_reverse in Hnil.
      destruct rest; [congruence | discriminate]. }
  subst tv'.
  set (st2 := <[self := mk_cq None None []]> (set_tree st' q0 (Some l))).
  assert (Hg2 : forall y, y <> self -> y <> q0 -> y ∉ rest -> get st2 y = get st y).
  { intros y Hy Hy0 Hyr. unfold st2. rewrite get_insert_ne; [|congruence].
    rewrite get_set_tree_ne; [|congruence].
    rewrite Hframe2; [apply Hg1; auto|]. rewrite elem_of_reverse. exact Hyr. }
  exists st1, st2. split; [rewrite Hmerge; exact Hrun1|]. split.
  { unfold split. rewrite HgT. simpl. rewrite Hrun2. reflexivity. }
  split; [unfold st2; rewrite get_insert_eq; reflexivity|]. split.
  - intros q Hq. apply elem_of_cons in Hq as [->|Hq].
    + exists l. unfold st2. rewrite get_insert_ne; [|congruence].
      rewrite get_set_tree_eq, Hframe2; [|rewrite elem_of_reverse; exact Hq0rest].
      rewrite Hframe1; [|exact Hq0self]. rewrite Hgc0. simpl.
      split; [reflexivity|]. split; [exact Hwl|]. rewrite Hll, Ht0. reflexivity.
    + destruct (Hnq q Hq) as [Hqs' Hq0'].
      destruct (Hsubs2 q (elem_of_reverse_2 q rest Hq)) as (r & Hgr & Hwr & Hlr).
      exists r. unfold st2. rewrite get_insert_ne; [|congruence].
      rewrite get_set_tree_ne; [|congruence]. rewrite Hgr, Hg1; auto.
  - intros y Hy Hyq. apply Hg2; [exact Hy | |].
    + intros ->. apply Hyq. left.
    + intros Hin. apply Hyq. right. exact Hin.
Qed.

End MergeSplit.

(** Three queues of [(data, prio)] elements: [0] empty, [1] holding one
    element and [2] holding two. *)
Definition example_store : store (Z * Z) :=
  <[1%nat := mk_cq (Some (Leaf 10 (0, 5))) (Some 10%nat) []]>
  (<[2%nat := mk_cq (Some (Node2 (Leaf 20 (1, 3)) (Leaf 21 (2, 4)))) (Some 20%nat) []]>
  (<[0%nat := empty_cq]> ∅)).

Lemma merge_split_restores_witness :
  exists st1 st2, merge 0 [1; 2]%nat example_store = Ok st1 /\ split 0 st1 = Ok st2 /\
    get st2 0 = empty_cq /\
    (forall q, q ∈ [1; 2]%nat -> exists t,
       get st2 q = mk_cq (Some t) (cq_first (get example_store q))
                     (cq_subs (get example_store q)) /\
       wft t /\ leaves t = opt_leaves (cq_tree (get example_store q))) /\
    (forall y, y <> 0%nat -> y ∉ [1; 2]%nat -> get st2 y = get example_store y).
Proof.
  apply (merge_split_restores example_store 0 [1; 2]%nat).
  - reflexivity.
  - reflexivity.
  - apply (bool_decide_unpack _). vm_compute. exact I.
  - apply (bool_decide_unpack _). vm_compute. exact I.
  - simpl. lia.
  - intros q Hq. apply elem_of_cons in Hq as [->|Hq].
    + exists (Leaf 10 (0, 5)), 10%nat, (0, 5), []. split; [reflexivity|].
      split; [exists O; exact I|]. split; reflexivity.
    + apply elem_of_cons in Hq as [->|Hq]; [|inversion Hq].
      exists (Node2 (Leaf 20 (1, 3)) (Leaf 21 (2, 4))), 20%nat, (1, 3), [(21%nat, (2, 4))].
      split; [reflexivity|]. split; [exists 1%nat; simpl; tauto|]. split; reflexivity.
  - apply (bool_decide_unpack _). vm_compute. exact I.
Defined.

(** Claim C5, one sub-queue: [merge] accepts a list of one sub-queue, but
    [split] assigns its local [tree] only inside the loop over
    [sub_queues[1:]], so after [self.merge([q])] the call [self.split()]
    raises [UnboundLocalError], and [q] is left without its element. *)
Lemma merge_single_split_counterexample :
  exists st1, merge 0 [1]%nat example_store = Ok st1 /\
    split 0 st1 = Raise UnboundLocalError /\
    cq_tree (get st1 1) = None /\
    cq_tree (get example_store 1) = Some (Leaf 10 (0, 5)).
Proof.
  eexists. split; [reflexivity|]. split; [reflexivity|]. split; reflexivity.
Qed.

End ConcatenableQueue.

(* ------------------------------------------------------------------ *)
(** ** The Python heap: what the entry points allocate and write *)

Module PyHeap.

(** Object locations. *)
Definition loc : Type := positive.

(** A Python value held in a list or tuple slot: an immutable number, a
    reference to a heap object, or any other object ([None], a string,
    ...), which the functions below never write to. *)
Inductive val :=
| VInt (z : Z)
| VFloat (f : float)
| VRef (l : loc)
| VOther.

(** The heap objects the entry points create or read: tuples and lists. *)
Inductive obj :=
| OTuple (vs : list val)
| OList (vs : list val).

Abbreviation heap := (gmap loc obj).

(** Computations that read, allocate and write heap objects and may raise.
    On an exception the heap is kept as it is at the [raise]. *)
Definition M (A : Type) : Type := heap -> heap * result A.

#[global] Instance M_ret : MRet M := fun A a h => (h, Ok a).
#[global] Instance M_bind : MBind M := fun A B k m h =>
  match m h with
  | (h', Ok a) => k a h'
  | (h', Raise e) => (h', Raise e)
  end.

Definition lift {A} (r : result A) : M A := fun h => (h, r).
Definition get_heap : M heap := fun h => (h, Ok h).

(** A new object at a location not used before. *)
Definition alloc (o : obj) : M loc :=
  fun h => let l := fresh (dom h) in (<[l := o]> h, Ok l).

(** An in-place update of the object at [l]. *)
Definition write_obj (l : loc) (o : obj) : M unit :=
  fun h => (<[l := o]> h, Ok tt).

(** A list comprehension whose element expression may raise. *)
Fixpoint map_M {A B} (f : A -> M B) (xs : list A) : M (list B) :=
  match xs with
  | [] => mret []
  | x :: xs' => y ← f x; ys ← map_M f xs'; mret (y :: ys)
  end.

(** Reading a slot as a [pyval]: one level of references is followed, as
    the element of an edge list is a tuple of numbers.  A nested object
    is seen as [PyObj], which the type checks reject as they reject the
    nested object. *)
Definition scalar (v : val) : pyval :=
  match v with
  | VInt z => PyInt z
  | VFloat f => PyFloat f
  | _ => PyObj
  end.

Definition deref (h : heap) (v : val) : pyval :=
  match v with
  | VRef l =>
      match h !! l with
      | Some (OTuple vs) => PyTuple (map scalar vs)
      | Some (OList vs) => PyList (map scalar vs)
      | None => PyObj
      end
  | _ => scalar v
  end.

(** [isinstance(edges, list)] and the list's slots. *)
Definition list_of (h : heap) (v : val) : option (list val) :=
  match v with
  | VRef l =>
      match h !! l with
      | Some (OList vs) => Some vs
      | _ => None
      end
  | _ => None
  end.

(** A checked 2-tuple [(x, y)] of ints at [l]. *)
Definition pair_at (h : heap) (l : loc) : Z * Z :=
  match h !! l with
  | Some (OTuple [VInt x; VInt y]) => (x, y)
  | _ => (0, 0)
  end.

(** The comparison [list.sort()] applies to two references to 2-tuples. *)
Definition ref_le (h : heap) (a b : loc) : Prop :=
  tuple_le (pair_at h a) (pair_at h b).

#[global] Instance ref_le_dec h : RelDecision (ref_le h).
Proof. intros a b. unfold ref_le. apply _. Defined.

(** [_check_input_graph] with its heap effects: the list [edge_endpoints]
    and its 2-tuples are allocated, and [edge_endpoints.sort()] rewrites
    that list in place. *)
Definition _check_input_graph_heap (edges : list edge) : M unit :=
  _ ← lift (for_each (fun '(x, y, _) => if x =? y then Raise ValueError else Ok tt)
              edges);
  ts ← map_M (fun '(x, y) => alloc (OTuple [VInt x; VInt y]))
         (map edge_endpoint edges);
  edge_endpoints ← alloc (OList (map VRef ts));
  h ← get_heap;
  let sorted := merge_sort (ref_le h) ts in
  _ ← write_obj edge_endpoints (OList (map VRef sorted));
  lift (check_adjacent (map (pair_at h) sorted)).

(** The weight [e[2]] of a checked element. *)
Definition weight_at (h : heap) (e : val) : option num :=
  match edge_of (deref h e) with
  | Some (_, _, w) => Some w
  | None => None
  end.

(** [_remove_negative_weight_edges]: the same list, or a new list holding
    references to the same tuples. *)
Definition _remove_negative_weight_edges_heap (edges : val) (vs : list val)
    : M val :=
  h ← get_heap;
  if existsb (fun e => from_option num_lt0 false (weight_at h e)) vs
  then
    l ← alloc (OList (filter (fun e => from_option num_ge0 false (weight_at h e) = true) vs));
    mret (VRef l)
  else mret edges.

Section Entry.

(** The matching algorithm proper ([GraphInfo], [MatchingContext], the
    stage loop, [cleanup] and [verify_optimum]) reads the edges through
    [graph.edges] and [graph.adjacent_edges] only (algorithm.py, lines
    304-326, 573, 608, 621, 664, 856, 1002-1012, 2034-2080) and writes to
    none of the objects it is given: it is a function of the edge values. *)
Variable matching_core : list edge -> result (list Z).

Definition maximum_weight_matching_heap (edges : val) : M val :=
  h ← get_heap;
  match list_of h edges with
  | None => lift (Raise TypeError)
  | Some vs =>
      _ ← lift (_check_input_types (PyList (map (deref h) vs)));
      _ ← _check_input_graph_heap (omap edge_of (map (deref h) vs));
      edges ← _remove_negative_weight_edges_heap edges vs;
      h ← get_heap;
      match list_of h edges with
      | Some ((_ :: _) as vs) =>
          let es := omap edge_of (map (deref h) vs) in
          vertex_mate ← lift (matching_core es);
          ts ← map_M (fun '(x, y) => alloc (OTuple [VInt x; VInt y]))
                 (extract_pairs es vertex_mate);
          pairs ← alloc (OList (map VRef ts));
          mret (VRef pairs)
      | _ =>
          l ← alloc (OList []);
          mret (VRef l)
      end
  end.

End Entry.

(** Python's arithmetic on an int and a float: the int is converted by
    [float()], which raises [OverflowError] when it is too large. *)
Definition int_to_float (z : Z) : result float :=
  let f := Z_to_float z in
  if PrimFloat.is_infinity f then Raise OverflowError else Ok f.

Definition num_to_float (a : num) : result float :=
  match a with
  | NInt z => int_to_float z
  | NFloat f => Ok f
  end.

Definition num_arith (zop : Z -> Z -> Z) (fop : float -> float -> float)
    (a b : num) : result num :=
  match a, b with
  | NInt x, NInt y => Ok (NInt (zop x y))
  | _, _ =>
      let* x := num_to_float a in
      let* y := num_to_float b in
      Ok (NFloat (fop x y))
  end.

(** Python compares an int with a float exactly; [nan] is unordered. *)
Definition float_cmp (f g : float) : option comparison :=
  match PrimFloat.compare f g with
  | FEq => Some Eq
  | FLt => Some Lt
  | FGt => Some Gt
  | FNotComparable => None
  end.

Definition int_float_cmp (x : Z) (g : float) : option comparison :=
  match Prim2SF g with
  | S754_nan => None
  | S754_infinity s => Some (if s then Gt else Lt)
  | _ => Some (Qcompare (inject_Z x) (float_to_Q g))
  end.

Definition num_compare (a b : num) : option comparison :=
  match a, b with
  | NInt x, NInt y => Some (Z.compare x y)
  | NFloat f, NFloat g => float_cmp f g
  | NInt x, NFloat g => int_float_cmp x g
  | NFloat f, NInt y => option_map CompOpp (int_float_cmp y f)
  end.

Definition num_lt (a b : num) : bool :=
  match num_compare a b with Some Lt => true | _ => false end.
Definition num_gt (a b : num) : bool :=
  match num_compare a b with Some Gt => true | _ => false end.
Definition num_ge (a b : num) : bool :=
  match num_compare a b with Some Gt | Some Eq => true | _ => false end.

(** The computation of [delta] in
    [adjust_weights_for_maximum_cardinality_matching] for weights that
    may mix ints and floats; [None] when the input list is returned. *)
Definition adjust_delta (edges : list edge) : result (option num) :=
  match edges with
  | [] => Ok None
  | (_, _, w0) :: rest =>
      let num_vertex := NInt (num_vertex_of edges) in
      let ws := map (fun '(_, _, w) => w) rest in
      let min_weight := fold_left (fun m w => if num_lt w m then w else m) ws w0 in
      let max_weight := fold_left (fun m w => if num_gt w m then w else m) ws w0 in
      let* weight_range := num_arith Z.sub PrimFloat.sub max_weight min_weight in
      let* keep :=
        if num_gt min_weight (NInt 0)
        then
          let* t := num_arith Z.mul PrimFloat.mul num_vertex weight_range in
          Ok (num_ge min_weight t)
        else Ok false in
      if keep then Ok None else
      let* delta :=
        if num_gt weight_range (NInt 0)
        then
          let* t := num_arith Z.mul PrimFloat.mul num_vertex weight_range in
          num_arith Z.sub PrimFloat.sub t min_weight
        else num_arith Z.sub PrimFloat.sub (NInt 1) min_weight in
      let* _ := rassert (num_ge delta (NInt 0)) in
      Ok (Some delta)
  end.

Definition num_val (w : num) : val :=
  match w with
  | NInt z => VInt z
  | NFloat f => VFloat f
  end.

Definition adjust_weights_heap (edges : val) : M val :=
  h ← get_heap;
  match list_of h edges with
  | None => lift (Raise TypeError)
  | Some vs =>
      _ ← lift (_check_input_types (PyList (map (deref h) vs)));
      match vs with
      | [] => mret edges
      | _ :: _ =>
          let es := omap edge_of (map (deref h) vs) in
          d ← lift (adjust_delta es);
          match d with
          | None => mret edges
          | Some delta =>
              ts ← map_M (fun '(x, y, w) =>
                      w' ← lift (num_arith Z.add PrimFloat.add w delta);
                      alloc (OTuple [VInt x; VInt y; num_val w'])) es;
              l ← alloc (OList (map VRef ts));
              mret (VRef l)
          end
      end
  end.

(* ------------------------------------------------------------------ *)
(** ** Lemmas: the heap before a call is kept *)

(** [m] keeps every object that exists when it starts, unchanged. *)
Definition frame {A} (m : M A) : Prop := forall h, h ⊆ (m h).1.

Lemma frame_ret {A} (a : A) : frame (mret a).
Proof. intros h. simpl. reflexivity. Qed.

Lemma frame_lift {A} (r : result A) : frame (lift r).
Proof. intros h. simpl. reflexivity. Qed.

Lemma frame_bind {A B} (m : M A) (k : A -> M B) :
  frame m -> (forall a, frame (k a)) -> frame (m ≫= k).
Proof.
  intros Hm Hk h. unfold mbind, M_bind.
  specialize (Hm h). destruct (m h) as [h1 [a|e]]; simpl in *.
  - etransitivity; [exact Hm|apply Hk].
  - exact Hm.
Qed.

Lemma frame_get {A} (k : heap -> M A) :
  (forall h, frame (k h)) -> frame (get_heap ≫= k).
Proof. intros Hk h. apply Hk. Qed.

Lemma alloc_fresh_subseteq (h : heap) (o : obj) :
  h ⊆ <[fresh (dom h) := o]> h.
Proof.
  apply insert_subseteq. apply not_elem_of_dom. apply is_fresh.
Qed.

Lemma frame_alloc (o : obj) : frame (alloc o).
Proof. intros h. apply alloc_fresh_subseteq. Qed.

Lemma frame_map_M {A B} (f : A -> M B) (xs : list A) :
  (forall x, frame (f x)) -> frame (map_M f xs).
Proof.
  intros Hf. induction xs as [|x xs IH]; simpl.
  - apply frame_ret.
  - apply frame_bind; [apply Hf|intros y].
    apply frame_bind; [apply IH|intros ys]. apply frame_ret.
Qed.

(** An object allocated and then rewritten in place: the write goes to a
    location that did not exist before. *)
Lemma frame_alloc_write {B} (o : obj) (f : heap -> obj) (k : heap -> M B) :
  (forall h, frame (k h)) ->
  frame (l ← alloc o; h ← get_heap; _ ← write_obj l (f h); k h).
Proof.
  intros Hk h. unfold mbind, M_bind, alloc, get_heap, write_obj. simpl.
  set (l := fresh (dom h)).
  etransitivity; [|apply Hk].
  rewrite insert_insert_eq. apply alloc_fresh_subseteq.
Qed.

Lemma _check_input_graph_heap_frame (es : list edge) :
  frame (_check_input_graph_heap es).
Proof.
  unfold _check_input_graph_heap.
  apply frame_bind; [apply frame_lift|intros _].
  apply frame_bind; [apply frame_map_M; intros [x y]; apply frame_alloc|intros ts].
  cbv zeta. apply frame_alloc_write. intros h. apply frame_lift.
Qed.

Lemma _remove_negative_weight_edges_heap_frame (edges : val) (vs : list val) :
  frame (_remove_negative_weight_edges_heap edges vs).
Proof.
  unfold _remove_negative_weight_edges_heap. apply frame_get. intros h.
  destruct (existsb _ _).
  - apply frame_bind; [apply frame_alloc|intros l]. apply frame_ret.
  - apply frame_ret.
Qed.

(** C9: neither entry point changes an object that exists when it is
    called (in particular the input list and its tuples): [h ⊆ h'] says
    that every location of the heap [h] before the call holds the same
    object in the heap [h'] after it, whether the call returns or raises.
    The only in-place write, [edge_endpoints.sort()], goes to a list the
    call has just allocated; edge removal and weight adjustment allocate
    new lists. *)
Theorem entry_points_preserve_heap
    (matching_core : list edge -> result (list Z)) (h : heap) (edges : val) :
  h ⊆ (maximum_weight_matching_heap matching_core edges h).1 /\
  h ⊆ (adjust_weights_heap edges h).1.
Proof.
  split; revert h.
  - unfold maximum_weight_matching_heap. apply frame_get. intros h0.
    destruct (list_of h0 edges) as [vs|]; [|apply frame_lift].
    apply frame_bind; [apply frame_lift|intros _].
    apply frame_bind; [apply _check_input_graph_heap_frame|intros _].
    apply frame_bind; [apply _remove_negative_weight_edges_heap_frame|intros edges'].
    apply frame_get. intros h1.
    destruct (list_of h1 edges') as [[|v vs']|].
    + apply frame_bind; [apply frame_alloc|intros l]. apply frame_ret.
    + apply frame_bind; [apply frame_lift|intros vertex_mate].
      apply frame_bind; [apply frame_map_M; intros [x y]; apply frame_alloc|intros ts].
      apply frame_bind; [apply frame_alloc|intros l]. apply frame_ret.
    + apply frame_bind; [apply frame_alloc|intros l]. apply frame_ret.
  - unfold adjust_weights_heap. apply frame_get. intros h0.
    destruct (list_of h0 edges) as [vs|]; [|apply frame_lift].
    apply frame_bind; [apply frame_lift|intros _].
    destruct vs as [|v vs]; [apply frame_ret|].
    apply frame_bind; [apply frame_lift|intros [delta|]]; [|apply frame_ret].
    apply frame_bind.
    + apply frame_map_M. intros [[x y] w].
      apply frame_bind; [apply frame_lift|intros w']. apply frame_alloc.
    + intros ts. apply frame_bind; [apply frame_alloc|intros l]. apply frame_ret.
Qed.

End PyHeap.

(* ------------------------------------------------------------------ *)
(** ** The matching algorithm (algorithm.py, [MatchingContext]; and
       datastruct.py, [PriorityQueue] and [ConcatenableQueue])

    The objects of the algorithm (blossoms, queues, queue nodes, sets of
    blossoms) live in a heap indexed by object ids; an attribute holding
    a reference holds an id, [None] is [None].  The attributes of the
    [MatchingContext] that change while the algorithm runs are fields of
    [world]; the ones fixed by [__init__] are the record [ctx_const].
    A Python list attribute that is never shared (for example
    [node.childs] or [self.heap]) is held as a value.  A [set] of blossoms
    is a heap object holding its elements in insertion order, and it is
    iterated in that order.  Every [while] loop runs on fuel; running out
    of fuel is [None], which no Python run produces. *)

Module Matching.

(** Python's arithmetic and comparisons on ints and floats. *)
Definition inf : num := NFloat PrimFloat.infinity.

Definition n_add (a b : num) : result num := PyHeap.num_arith Z.add PrimFloat.add a b.
Definition n_sub (a b : num) : result num := PyHeap.num_arith Z.sub PrimFloat.sub a b.
Definition n_mul (a b : num) : result num := PyHeap.num_arith Z.mul PrimFloat.mul a b.

Definition n_neg (a : num) : num :=
  match a with
  | NInt z => NInt (- z)
  | NFloat f => NFloat (- f)%float
  end.

Definition n_lt (a b : num) : bool := PyHeap.num_lt a b.
Definition n_gt (a b : num) : bool := PyHeap.num_gt a b.
Definition n_ge (a b : num) : bool := PyHeap.num_ge a b.
Definition n_le (a b : num) : bool :=
  match PyHeap.num_compare a b with Some Lt | Some Eq => true | _ => false end.
Definition n_eq (a b : num) : bool :=
  match PyHeap.num_compare a b with Some Eq => true | _ => false end.

(** [a / 2] (true division; an int is divided exactly and then rounded,
    and [OverflowError] is raised when the quotient is too large for a
    float). *)
Definition n_half (a : num) : result num :=
  match a with
  | NInt z =>
      let f := SF2Prim (binary_normalize 53 1024 z (-1) false) in
      if PrimFloat.is_infinity f then Raise OverflowError else Ok (NFloat f)
  | NFloat f => Ok (NFloat (f / 2)%float)
  end.

(** Labels. *)
Definition LABEL_NONE : Z := 0.
Definition LABEL_S : Z := 1.
Definition LABEL_T : Z := 2.

(** [NonTrivialBlossom]'s own attributes. *)
Record ntb := mk_ntb {
  nt_subblossoms : list Z;
  nt_edges : list (Z * Z);
  nt_dual_var : num;
  nt_delta4_node : option Z
}.

(** A [Blossom]; [b_nontrivial] holds the attributes of a
    [NonTrivialBlossom] and is [None] for a trivial blossom.
    [b_vertex_queue] is [None] after [del blossom.vertex_queue]. *)
Record blossom := mk_blossom {
  b_parent : option Z;
  b_base_vertex : Z;
  b_label : Z;
  b_tree_edge : option (Z * Z);
  b_tree_blossoms : option Z;
  b_vertex_queue : option Z;
  b_delta2_node : option Z;
  b_vertex_dual_offset : num;
  b_marker : bool;
  b_nontrivial : option ntb
}.

(** [ConcatenableQueue]. *)
Record cqueue := mk_cqueue {
  cq_name : Z;
  cq_tree : option Z;
  cq_first_node : option Z;
  cq_sub_queues : list Z
}.

(** [ConcatenableQueue.BaseNode]; [cn_leaf] holds [(data, prio)] of a
    leaf [ConcatenableQueue.Node] and is [None] for an internal node. *)
Record cqnode := mk_cqnode {
  cn_owner : option Z;
  cn_min_node : option Z;
  cn_height : Z;
  cn_parent : option Z;
  cn_childs : list Z;
  cn_leaf : option (Z * num)
}.

(** [PriorityQueue.Node]; [data] is an edge index or a blossom id. *)
Record pqnode := mk_pqnode {
  pn_index : Z;
  pn_prio : num;
  pn_data : Z
}.

Inductive obj :=
| OBlossom (b : blossom)
| OCQueue (q : cqueue)
| OCQNode (n : cqnode)
| OPQueue (heap : list Z)
| OPQNode (n : pqnode)
| OSet (elems : list Z).

(** The heap and the changing attributes of the [MatchingContext]. *)
Record world := mk_world {
  w_heap : gmap Z obj;
  w_next : Z;
  w_vertex_mate : list Z;
  w_nontrivial_blossom : list Z;
  w_vertex_dual_2x : list num;
  w_delta_sum_2x : num;
  w_delta3_node : list (option Z);
  w_vertex_sedge_node : list (option Z);
  w_scan_queue : list Z
}.

(** The attributes of the [MatchingContext] fixed by [__init__]. *)
Record ctx_const := mk_ctx_const {
  trivial_blossom : list Z;
  vertex_queue_node : list Z;
  start_vertex_dual_2x : num;
  delta2_queue : Z;
  delta3_queue : Z;
  delta4_queue : Z;
  vertex_sedge_queue : list Z
}.

(** [GraphInfo]. *)
Record graph_info := mk_graph_info {
  g_edges : list edge;
  g_num_vertex : Z;
  g_adjacent_edges : list (list Z);
  g_integer_weights : bool
}.

(** Field updates. *)
Definition b_set_parent v b := mk_blossom v b.(b_base_vertex) b.(b_label) b.(b_tree_edge) b.(b_tree_blossoms) b.(b_vertex_queue) b.(b_delta2_node) b.(b_vertex_dual_offset) b.(b_marker) b.(b_nontrivial).
Definition b_set_base_vertex v b := mk_blossom b.(b_parent) v b.(b_label) b.(b_tree_edge) b.(b_tree_blossoms) b.(b_vertex_queue) b.(b_delta2_node) b.(b_vertex_dual_offset) b.(b_marker) b.(b_nontrivial).
Definition b_set_label v b := mk_blossom b.(b_parent) b.(b_base_vertex) v b.(b_tree_edge) b.(b_tree_blossoms) b.(b_vertex_queue) b.(b_delta2_node) b.(b_vertex_dual_offset) b.(b_marker) b.(b_nontrivial).
Definition b_set_tree_edge v b := mk_blossom b.(b_parent) b.(b_base_vertex) b.(b_label) v b.(b_tree_blossoms) b.(b_vertex_queue) b.(b_delta2_node) b.(b_vertex_dual_offset) b.(b_marker) b.(b_nontrivial).
Definition b_set_tree_blossoms v b := mk_blossom b.(b_parent) b.(b_base_vertex) b.(b_label) b.(b_tree_edge) v b.(b_vertex_queue) b.(b_delta2_node) b.(b_vertex_dual_offset) b.(b_marker) b.(b_nontrivial).
Definition b_set_vertex_queue v b := mk_blossom b.(b_parent) b.(b_base_vertex) b.(b_label) b.(b_tree_edge) b.(b_tree_blossoms) v b.(b_delta2_node) b.(b_vertex_dual_offset) b.(b_marker) b.(b_nontrivial).
Definition b_set_delta2_node v b := mk_blossom b.(b_parent) b.(b_base_vertex) b.(b_label) b.(b_tree_edge) b.(b_tree_blossoms) b.(b_vertex_queue) v b.(b_vertex_dual_offset) b.(b_marker) b.(b_nontrivial).
Definition b_set_vertex_dual_offset v b := mk_blossom b.(b_parent) b.(b_base_vertex) b.(b_label) b.(b_tree_edge) b.(b_tree_blossoms) b.(b_vertex_queue) b.(b_delta2_node) v b.(b_marker) b.(b_nontrivial).
Definition b_set_marker v b := mk_blossom b.(b_parent) b.(b_base_vertex) b.(b_label) b.(b_tree_edge) b.(b_tree_blossoms) b.(b_vertex_queue) b.(b_delta2_node) b.(b_vertex_dual_offset) v b.(b_nontrivial).
Definition b_set_nontrivial v b := mk_blossom b.(b_parent) b.(b_base_vertex) b.(b_label) b.(b_tree_edge) b.(b_tree_blossoms) b.(b_vertex_queue) b.(b_delta2_node) b.(b_vertex_dual_offset) b.(b_marker) v.

Definition nt_set_subblossoms v t := mk_ntb v t.(nt_edges) t.(nt_dual_var) t.(nt_delta4_node).
Definition nt_set_edges v t := mk_ntb t.(nt_subblossoms) v t.(nt_dual_var) t.(nt_delta4_node).
Definition nt_set_dual_var v t := mk_ntb t.(nt_subblossoms) t.(nt_edges) v t.(nt_delta4_node).
Definition nt_set_delta4_node v t := mk_ntb t.(nt_subblossoms) t.(nt_edges) t.(nt_dual_var) v.

Definition cq_set_tree v q := mk_cqueue q.(cq_name) v q.(cq_first_node) q.(cq_sub_queues).
Definition cq_set_first_node v q := mk_cqueue q.(cq_name) q.(cq_tree) v q.(cq_sub_queues).
Definition cq_set_sub_queues v q := mk_cqueue q.(cq_name) q.(cq_tree) q.(cq_first_node) v.

Definition cn_set_owner v n := mk_cqnode v n.(cn_min_node) n.(cn_height) n.(cn_parent) n.(cn_childs) n.(cn_leaf).
Definition cn_set_min_node v n := mk_cqnode n.(cn_owner) v n.(cn_height) n.(cn_parent) n.(cn_childs) n.(cn_leaf).
Definition cn_set_parent v n := mk_cqnode n.(cn_owner) n.(cn_min_node) n.(cn_height) v n.(cn_childs) n.(cn_leaf).
Definition cn_set_childs v n := mk_cqnode n.(cn_owner) n.(cn_min_node) n.(cn_height) n.(cn_parent) v n.(cn_leaf).
Definition cn_set_leaf v n := mk_cqnode n.(cn_owner) n.(cn_min_node) n.(cn_height) n.(cn_parent) n.(cn_childs) v.

Definition pn_set_index v n := mk_pqnode v n.(pn_prio) n.(pn_data).
Definition pn_set_prio v n := mk_pqnode n.(pn_index) v n.(pn_data).

Definition w_set_heap v w := mk_world v w.(w_next) w.(w_vertex_mate) w.(w_nontrivial_blossom) w.(w_vertex_dual_2x) w.(w_delta_sum_2x) w.(w_delta3_node) w.(w_vertex_sedge_node) w.(w_scan_queue).
Definition w_set_next v w := mk_world w.(w_heap) v w.(w_vertex_mate) w.(w_nontrivial_blossom) w.(w_vertex_dual_2x) w.(w_delta_sum_2x) w.(w_delta3_node) w.(w_vertex_sedge_node) w.(w_scan_queue).
Definition w_set_vertex_mate v w := mk_world w.(w_heap) w.(w_next) v w.(w_nontrivial_blossom) w.(w_vertex_dual_2x) w.(w_delta_sum_2x) w.(w_delta3_node) w.(w_vertex_sedge_node) w.(w_scan_queue).
Definition w_set_nontrivial_blossom v w := mk_world w.(w_heap) w.(w_next) w.(w_vertex_mate) v w.(w_vertex_dual_2x) w.(w_delta_sum_2x) w.(w_delta3_node) w.(w_vertex_sedge_node) w.(w_scan_queue).
Definition w_set_vertex_dual_2x v w := mk_world w.(w_heap) w.(w_next) w.(w_vertex_mate) w.(w_nontrivial_blossom) v w.(w_delta_sum_2x) w.(w_delta3_node) w.(w_vertex_sedge_node) w.(w_scan_queue).
Definition w_set_delta_sum_2x v w := mk_world w.(w_heap) w.(w_next) w.(w_vertex_mate) w.(w_nontrivial_blossom) w.(w_vertex_dual_2x) v w.(w_delta3_node) w.(w_vertex_sedge_node) w.(w_scan_queue).
Definition w_set_delta3_node v w := mk_world w.(w_heap) w.(w_next) w.(w_vertex_mate) w.(w_nontrivial_blossom) w.(w_vertex_dual_2x) w.(w_delta_sum_2x) v w.(w_vertex_sedge_node) w.(w_scan_queue).
Definition w_set_vertex_sedge_node v w := mk_world w.(w_heap) w.(w_next) w.(w_vertex_mate) w.(w_nontrivial_blossom) w.(w_vertex_dual_2x) w.(w_delta_sum_2x) w.(w_delta3_node) v w.(w_scan_queue).
Definition w_set_scan_queue v w := mk_world w.(w_heap) w.(w_next) w.(w_vertex_mate) w.(w_nontrivial_blossom) w.(w_vertex_dual_2x) w.(w_delta_sum_2x) w.(w_delta3_node) w.(w_vertex_sedge_node) v.

(* ------------------------------------------------------------------ *)
(** *** The state and error monad *)

Definition M (A : Type) : Type := world -> option (world * result A).

#[global] Instance M_ret : MRet M := fun A a w => Some (w, Ok a).
#[global] Instance M_bind : MBind M := fun A B k m w =>
  match m w with
  | Some (w', Ok a) => k a w'
  | Some (w', Raise e) => Some (w', Raise e)
  | None => None
  end.

Definition throw {A} (e : exn) : M A := fun w => Some (w, Raise e).
Definition out_of_fuel {A} : M A := fun _ => None.
Definition liftR {A} (r : result A) : M A := fun w => Some (w, r).
Definition gets {A} (f : world -> A) : M A := fun w => Some (w, Ok (f w)).
Definition modify (f : world -> world) : M unit := fun w => Some (f w, Ok tt).

(** [assert c] *)
Definition py_assert (c : bool) : M unit :=
  if c then mret tt else throw AssertionError.

(** [for x in xs: body] *)
Fixpoint for_M {A} (xs : list A) (body : A -> M unit) : M unit :=
  match xs with
  | [] => mret tt
  | x :: xs' => body x;; for_M xs' body
  end.

(** One pass of a [while] loop: go on with a new loop state, or leave the
    loop with a value. *)
Inductive step (St A : Type) :=
| Continue (s : St)
| Break (a : A).
Arguments Continue {St A} s.
Arguments Break {St A} a.

Fixpoint while_M {St A} (fuel : nat) (body : St -> M (step St A)) (s : St) : M A :=
  match fuel with
  | O => out_of_fuel
  | Datatypes.S n =>
      r ← body s;
      match r with
      | Continue s' => while_M n body s'
      | Break a => mret a
      end
  end.

(** Python's list indexing, with negative indices counted from the end. *)
Definition py_pos {A} (l : list A) (i : Z) : option nat :=
  let n := Z.of_nat (length l) in
  let j := if i <? 0 then i + n else i in
  if (0 <=? j) && (j <? n) then Some (Z.to_nat j) else None.

(** [l[i]] *)
Definition py_index {A} (l : list A) (i : Z) : M A :=
  match py_pos l i ≫= fun j => l !! j with
  | Some a => mret a
  | None => throw IndexError
  end.

(** [l[i] = a] *)
Definition py_setitem {A} (l : list A) (i : Z) (a : A) : M (list A) :=
  match py_pos l i with
  | Some j => mret (<[j := a]> l)
  | None => throw IndexError
  end.

(** [l.pop()] *)
Definition py_pop {A} (l : list A) : M (list A * A) :=
  match last l with
  | Some a => mret (removelast l, a)
  | None => throw IndexError
  end.

(** [l.index(x)] for objects compared by identity. *)
Definition py_list_index (l : list Z) (x : Z) : M Z :=
  match list_find (fun y => y = x) l with
  | Some (j, _) => mret (Z.of_nat j)
  | None => throw ValueError
  end.

(** [x] where [x] may be [None]: an attribute read on [None] raises. *)
Definition deref {A} (o : option A) : M A :=
  match o with
  | Some a => mret a
  | None => throw AttributeError
  end.

(** Heap access. *)
Definition load (r : Z) : M obj :=
  fun w => match w.(w_heap) !! r with
           | Some o => Some (w, Ok o)
           | None => Some (w, Raise AttributeError)
           end.

Definition put (r : Z) (o : obj) : M unit :=
  modify (fun w => w_set_heap (<[r := o]> w.(w_heap)) w).

Definition alloc (o : obj) : M Z :=
  fun w => let r := w.(w_next) in
           Some (w_set_next (r + 1) (w_set_heap (<[r := o]> w.(w_heap)) w), Ok r).

Definition get_blossom (r : Z) : M blossom :=
  o ← load r; match o with OBlossom b => mret b | _ => throw TypeError end.
Definition get_cq (r : Z) : M cqueue :=
  o ← load r; match o with OCQueue q => mret q | _ => throw TypeError end.
Definition get_cqnode (r : Z) : M cqnode :=
  o ← load r; match o with OCQNode n => mret n | _ => throw TypeError end.
Definition get_pq (r : Z) : M (list Z) :=
  o ← load r; match o with OPQueue h => mret h | _ => throw TypeError end.
Definition get_pqnode (r : Z) : M pqnode :=
  o ← load r; match o with OPQNode n => mret n | _ => throw TypeError end.
Definition get_set (r : Z) : M (list Z) :=
  o ← load r; match o with OSet s => mret s | _ => throw TypeError end.

Definition upd_blossom (r : Z) (f : blossom -> blossom) : M unit :=
  b ← get_blossom r; put r (OBlossom (f b)).
Definition upd_cq (r : Z) (f : cqueue -> cqueue) : M unit :=
  q ← get_cq r; put r (OCQueue (f q)).
Definition upd_cqnode (r : Z) (f : cqnode -> cqnode) : M unit :=
  n ← get_cqnode r; put r (OCQNode (f n)).
Definition upd_pqnode (r : Z) (f : pqnode -> pqnode) : M unit :=
  n ← get_pqnode r; put r (OPQNode (f n)).
Definition set_pq (r : Z) (h : list Z) : M unit := put r (OPQueue h).
Definition set_set (r : Z) (s : list Z) : M unit := put r (OSet s).

(** The attributes of a [NonTrivialBlossom]; reading them on a trivial
    blossom raises [AttributeError]. *)
Definition get_nt (r : Z) : M ntb := b ← get_blossom r; deref b.(b_nontrivial).
Definition upd_nt (r : Z) (f : ntb -> ntb) : M unit :=
  b ← get_blossom r; t ← deref b.(b_nontrivial);
  put r (OBlossom (b_set_nontrivial (Some (f t)) b)).

(** [isinstance(b, NonTrivialBlossom)] *)
Definition is_nontrivial (r : Z) : M bool :=
  b ← get_blossom r; mret (bool_decide (is_Some b.(b_nontrivial))).

(** [s.add(x)], [s.remove(x)] on a set of objects. *)
Definition set_add (s : Z) (x : Z) : M unit :=
  l ← get_set s; if bool_decide (x ∈ l) then mret tt else set_set s (l ++ [x]).
Definition set_remove (s : Z) (x : Z) : M unit :=
  l ← get_set s;
  if bool_decide (x ∈ l) then set_set s (filter (fun y => y <> x) l) else throw KeyError.

Section Fuel.

(** The fuel of every [while] loop. *)
Variable fuel : nat.

(** The order in which a [for] loop visits a Python set of [Blossom]
    objects.  CPython visits the elements by the hash slots of their
    identities, that is by memory address, so the program text fixes the
    order only up to a permutation of the elements.  [set_iter] gives it as
    a function of the elements in insertion order. *)
Variable set_iter : list Z -> list Z.

(* ------------------------------------------------------------------ *)
(** *** [PriorityQueue] (datastruct.py): a binary heap of nodes *)

(** [self.heap.clear()] *)
Definition pq_clear (q : Z) : M unit := set_pq q [].

(** [not self.heap] *)
Definition pq_empty (q : Z) : M bool :=
  h ← get_pq q; mret (bool_decide (h = [])).

Definition pq_find_min (q : Z) : M Z :=
  h ← get_pq q;
  match h with
  | [] => throw IndexError
  | n :: _ => mret n
  end.

(** [self.heap[pos] = node] *)
Definition pq_set_slot (q : Z) (pos : Z) (node : Z) : M unit :=
  h ← get_pq q; h' ← py_setitem h pos node; set_pq q h'.

Definition pq_sift_up (q : Z) (index : Z) : M unit :=
  h ← get_pq q;
  node ← py_index h index;
  nd ← get_pqnode node;
  let prio := nd.(pn_prio) in
  pos ← while_M fuel (fun pos =>
    if 0 <? pos then
      let tpos := (pos - 1) `div` 2 in
      h ← get_pq q;
      tnode ← py_index h tpos;
      tn ← get_pqnode tnode;
      if n_le tn.(pn_prio) prio then mret (Break pos) else
      upd_pqnode tnode (pn_set_index pos);;
      pq_set_slot q pos tnode;;
      mret (Continue tpos)
    else mret (Break pos)) index;
  if bool_decide (pos <> index) then
    upd_pqnode node (pn_set_index pos);;
    pq_set_slot q pos node
  else mret tt.

Definition pq_sift_down (q : Z) (index : Z) : M unit :=
  h ← get_pq q;
  let num_elem := Z.of_nat (length h) in
  node ← py_index h index;
  nd ← get_pqnode node;
  let prio := nd.(pn_prio) in
  pos ← while_M fuel (fun pos =>
    let tpos := 2 * pos + 1 in
    if num_elem <=? tpos then mret (Break pos) else
    h ← get_pq q;
    tnode ← py_index h tpos;
    let qpos := tpos + 1 in
    '(tpos, tnode) ←
      (if qpos <? num_elem then
         qnode ← py_index h qpos;
         qn ← get_pqnode qnode;
         tn ← get_pqnode tnode;
         if n_le qn.(pn_prio) tn.(pn_prio) then mret (qpos, qnode)
         else mret (tpos, tnode)
       else mret (tpos, tnode));
    tn ← get_pqnode tnode;
    if n_ge tn.(pn_prio) prio then mret (Break pos) else
    upd_pqnode tnode (pn_set_index pos);;
    pq_set_slot q pos tnode;;
    mret (Continue tpos)) index;
  if bool_decide (pos <> index) then
    upd_pqnode node (pn_set_index pos);;
    pq_set_slot q pos node
  else mret tt.

Definition pq_insert (q : Z) (prio : num) (data : Z) : M Z :=
  h ← get_pq q;
  let new_index := Z.of_nat (length h) in
  node ← alloc (OPQNode (mk_pqnode new_index prio data));
  set_pq q (h ++ [node]);;
  pq_sift_up q new_index;;
  mret node.

Definition pq_delete (q : Z) (elem : Z) : M unit :=
  el ← get_pqnode elem;
  let index := el.(pn_index) in
  h ← get_pq q;
  x ← py_index h index;
  py_assert (bool_decide (x = elem));;
  '(h, node) ← py_pop h;
  set_pq q h;;
  if index <? Z.of_nat (length h) then
    upd_pqnode node (pn_set_index index);;
    pq_set_slot q index node;;
    nd ← get_pqnode node;
    if n_lt nd.(pn_prio) el.(pn_prio) then pq_sift_up q index
    else if n_gt nd.(pn_prio) el.(pn_prio) then pq_sift_down q index
    else mret tt
  else mret tt.

Definition pq_decrease_prio (q : Z) (elem : Z) (prio : num) : M unit :=
  el ← get_pqnode elem;
  h ← get_pq q;
  x ← py_index h el.(pn_index);
  py_assert (bool_decide (x = elem));;
  py_assert (n_le prio el.(pn_prio));;
  upd_pqnode elem (pn_set_prio prio);;
  pq_sift_up q el.(pn_index).

Definition pq_increase_prio (q : Z) (elem : Z) (prio : num) : M unit :=
  el ← get_pqnode elem;
  h ← get_pq q;
  x ← py_index h el.(pn_index);
  py_assert (bool_decide (x = elem));;
  py_assert (n_ge prio el.(pn_prio));;
  upd_pqnode elem (pn_set_prio prio);;
  pq_sift_down q el.(pn_index).

(* ------------------------------------------------------------------ *)
(** *** [ConcatenableQueue] (datastruct.py): 2-3 trees of nodes with
        parent pointers and minimum-priority tracking *)

(** A loop over a list that threads a value. *)
Fixpoint fold_M {A B} (f : A -> B -> M A) (l : list B) (a : A) : M A :=
  match l with
  | [] => mret a
  | x :: l' => a' ← f a x; fold_M f l' a'
  end.

(** [leaf.prio] and [leaf.data] of a leaf [Node]. *)
Definition leaf_prio (n : Z) : M num :=
  nd ← get_cqnode n; '(_, prio) ← deref nd.(cn_leaf); mret prio.
Definition leaf_data (n : Z) : M Z :=
  nd ← get_cqnode n; '(data, _) ← deref nd.(cn_leaf); mret data.

(** [node.min_node] *)
Definition min_node_of (n : Z) : M Z :=
  nd ← get_cqnode n; deref nd.(cn_min_node).

(** [Node.find] *)
Definition cq_find (n : Z) : M Z :=
  node ← while_M fuel (fun node =>
    nd ← get_cqnode node;
    match nd.(cn_parent) with
    | Some p => mret (Continue p)
    | None => mret (Break node)
    end) n;
  nd ← get_cqnode node;
  py_assert (bool_decide (is_Some nd.(cn_owner)));;
  owner ← deref nd.(cn_owner);
  q ← get_cq owner;
  mret q.(cq_name).

(** [_repair_node] *)
Definition cq_repair_node (node : Z) : M unit :=
  nd ← get_cqnode node;
  c0 ← py_index nd.(cn_childs) 0;
  min_node ← min_node_of c0;
  min_node ← fold_M (fun min_node child =>
      cm ← min_node_of child;
      p ← leaf_prio cm;
      pm ← leaf_prio min_node;
      mret (if n_lt p pm then cm else min_node))
    (drop 1 nd.(cn_childs)) min_node;
  upd_cqnode node (cn_set_min_node (Some min_node)).

(** [Node.set_prio]; the body of its loop is that of [_repair_node]. *)
Definition cq_set_prio (n : Z) (prio : num) : M unit :=
  nd ← get_cqnode n;
  '(data, _) ← deref nd.(cn_leaf);
  upd_cqnode n (cn_set_leaf (Some (data, prio)));;
  while_M fuel (fun node =>
    match node with
    | None => mret (Break tt)
    | Some node =>
        cq_repair_node node;;
        nd ← get_cqnode node;
        mret (Continue nd.(cn_parent))
    end) nd.(cn_parent).

(** [ConcatenableQueue(name)] *)
Definition cq_new (name : Z) : M Z := alloc (OCQueue (mk_cqueue name None None [])).

Definition cq_insert (q : Z) (elem : Z) (prio : num) : M Z :=
  qq ← get_cq q;
  py_assert (bool_decide (qq.(cq_tree) = None));;
  n ← alloc (OCQNode (mk_cqnode None None 0 None [] (Some (elem, prio))));
  upd_cqnode n (cn_set_min_node (Some n));;
  upd_cq q (cq_set_tree (Some n));;
  upd_cqnode n (cn_set_owner (Some q));;
  upd_cq q (cq_set_first_node (Some n));;
  mret n.

Definition cq_min_prio (q : Z) : M num :=
  qq ← get_cq q;
  py_assert (bool_decide (is_Some qq.(cq_tree)));;
  node ← deref qq.(cq_tree);
  m ← min_node_of node;
  leaf_prio m.

Definition cq_min_elem (q : Z) : M Z :=
  qq ← get_cq q;
  py_assert (bool_decide (is_Some qq.(cq_tree)));;
  node ← deref qq.(cq_tree);
  m ← min_node_of node;
  leaf_data m.

(** [_new_internal_node] *)
Definition cq_new_internal_node (ltree rtree : Z) : M Z :=
  ln ← get_cqnode ltree;
  rn ← get_cqnode rtree;
  py_assert (ln.(cn_height) =? rn.(cn_height));;
  let height := ln.(cn_height) + 1 in
  lm ← min_node_of ltree;
  rm ← min_node_of rtree;
  lp ← leaf_prio lm;
  rp ← leaf_prio rm;
  let min_node := if n_le lp rp then lm else rm in
  node ← alloc (OCQNode (mk_cqnode None (Some min_node) height None [ltree; rtree] None));
  upd_cqnode ltree (cn_set_parent (Some node));;
  upd_cqnode rtree (cn_set_parent (Some node));;
  mret node.

(** The final loop of [_join_right] and [_join_left]. *)
Definition cq_repair_ancestors (node : Z) : M Z :=
  while_M fuel (fun node =>
    cq_repair_node node;;
    nd ← get_cqnode node;
    match nd.(cn_parent) with
    | None => mret (Break node)
    | Some p => mret (Continue p)
    end) node.

(** [_join_right]; the middle loop leaves with [inr root] where the
    source returns a new root. *)
Definition cq_join_right (ltree rtree : Z) : M Z :=
  rn ← get_cqnode rtree;
  node ← while_M fuel (fun node =>
    nd ← get_cqnode node;
    if rn.(cn_height) + 1 <? nd.(cn_height)
    then c ← py_index nd.(cn_childs) (-1); mret (Continue c)
    else mret (Break node)) ltree;
  nd ← get_cqnode node;
  py_assert (nd.(cn_height) =? rn.(cn_height) + 1);;
  res ← while_M fuel (fun '(node, rtree) =>
    nd ← get_cqnode node;
    if bool_decide (length nd.(cn_childs) = 3%nat) then
      '(cs, child) ← py_pop nd.(cn_childs);
      upd_cqnode node (cn_set_childs cs);;
      cq_repair_node node;;
      rtree ← cq_new_internal_node child rtree;
      nd ← get_cqnode node;
      match nd.(cn_parent) with
      | None => root ← cq_new_internal_node node rtree; mret (Break (inr root))
      | Some p => mret (Continue (p, rtree))
      end
    else mret (Break (inl (node, rtree)))) (node, rtree);
  match res with
  | inr root => mret root
  | inl (node, rtree) =>
      nd ← get_cqnode node;
      py_assert (bool_decide (length nd.(cn_childs) < 3)%nat);;
      upd_cqnode node (cn_set_childs (nd.(cn_childs) ++ [rtree]));;
      upd_cqnode rtree (cn_set_parent (Some node));;
      cq_repair_ancestors node
  end.

(** [_join_left] *)
Definition cq_join_left (ltree rtree : Z) : M Z :=
  ln ← get_cqnode ltree;
  node ← while_M fuel (fun node =>
    nd ← get_cqnode node;
    if ln.(cn_height) + 1 <? nd.(cn_height)
    then c ← py_index nd.(cn_childs) 0; mret (Continue c)
    else mret (Break node)) rtree;
  nd ← get_cqnode node;
  py_assert (nd.(cn_height) =? ln.(cn_height) + 1);;
  res ← while_M fuel (fun '(node, ltree) =>
    nd ← get_cqnode node;
    if bool_decide (length nd.(cn_childs) = 3%nat) then
      match nd.(cn_childs) with
      | child :: cs =>
          upd_cqnode node (cn_set_childs cs);;
          cq_repair_node node;;
          ltree ← cq_new_internal_node ltree child;
          nd ← get_cqnode node;
          match nd.(cn_parent) with
          | None => root ← cq_new_internal_node ltree node; mret (Break (inr root))
          | Some p => mret (Continue (p, ltree))
          end
      | [] => throw IndexError
      end
    else mret (Break (inl (node, ltree)))) (node, ltree);
  match res with
  | inr root => mret root
  | inl (node, ltree) =>
      nd ← get_cqnode node;
      py_assert (bool_decide (length nd.(cn_childs) < 3)%nat);;
      upd_cqnode node (cn_set_childs (ltree :: nd.(cn_childs)));;
      upd_cqnode ltree (cn_set_parent (Some node));;
      cq_repair_ancestors node
  end.

(** [_join] *)
Definition cq_join (ltree rtree : Z) : M Z :=
  ln ← get_cqnode ltree;
  rn ← get_cqnode rtree;
  if rn.(cn_height) <? ln.(cn_height) then cq_join_right ltree rtree
  else if ln.(cn_height) <? rn.(cn_height) then cq_join_left ltree rtree
  else cq_new_internal_node ltree rtree.

(** [ltree = node if ltree is None else self._join(node, ltree)] *)
Definition join_into_left (node : Z) (ltree : option Z) : M Z :=
  match ltree with
  | None => mret node
  | Some lt => cq_join node lt
  end.

(** [_split_tree]; the loop state is [(node, parent, ltree, rtree)]. *)
Definition cq_split_tree (split_node : Z) : M (Z * Z) :=
  sn ← get_cqnode split_node;
  let parent := sn.(cn_parent) in
  upd_cqnode split_node (cn_set_parent None);;
  '(ltree, rtree) ← while_M fuel (fun '(node, parent, ltree, rtree) =>
    match parent with
    | None => mret (Break (ltree, rtree))
    | Some p =>
        let child := node in
        let node := p in
        nd ← get_cqnode node;
        let parent := nd.(cn_parent) in
        upd_cqnode node (cn_set_parent None);;
        let childs := nd.(cn_childs) in
        if bool_decide (length childs = 3%nat) then
          c0 ← py_index childs 0;
          c2 ← py_index childs 2;
          if bool_decide (c0 = child) then
            upd_cqnode node (cn_set_childs (drop 1 childs));;
            cq_repair_node node;;
            rtree ← cq_join rtree node;
            mret (Continue (node, parent, ltree, rtree))
          else if bool_decide (c2 = child) then
            upd_cqnode node (cn_set_childs (take 2 childs));;
            cq_repair_node node;;
            ltree ← join_into_left node ltree;
            mret (Continue (node, parent, Some ltree, rtree))
          else
            upd_cqnode c0 (cn_set_parent None);;
            upd_cqnode c2 (cn_set_parent None);;
            ltree ← join_into_left c0 ltree;
            rtree ← cq_join rtree c2;
            mret (Continue (node, parent, Some ltree, rtree))
        else
          c0 ← py_index childs 0;
          if bool_decide (c0 = child) then
            c1 ← py_index childs 1;
            upd_cqnode c1 (cn_set_parent None);;
            rtree ← cq_join rtree c1;
            mret (Continue (node, parent, ltree, rtree))
          else
            upd_cqnode c0 (cn_set_parent None);;
            ltree ← join_into_left c0 ltree;
            mret (Continue (node, parent, Some ltree, rtree))
    end) (split_node, parent, None, split_node);
  py_assert (bool_decide (is_Some ltree));;
  ltree ← deref ltree;
  mret (ltree, rtree).

Definition cq_merge (q : Z) (sub_queues : list Z) : M unit :=
  qq ← get_cq q;
  py_assert (bool_decide (qq.(cq_tree) = None));;
  py_assert (bool_decide (qq.(cq_sub_queues) = []));;
  py_assert (bool_decide (sub_queues <> []));;
  upd_cq q (cq_set_sub_queues sub_queues);;
  s0 ← py_index sub_queues 0;
  sq0 ← get_cq s0;
  upd_cq q (cq_set_tree sq0.(cq_tree));;
  sq0 ← get_cq s0;
  upd_cq q (cq_set_first_node sq0.(cq_first_node));;
  qq ← get_cq q;
  py_assert (bool_decide (is_Some qq.(cq_tree)));;
  upd_cq s0 (cq_set_tree None);;
  qq ← get_cq q;
  t ← deref qq.(cq_tree);
  upd_cqnode t (cn_set_owner None);;
  for_M (drop 1 sub_queues) (fun sub =>
    sq ← get_cq sub;
    let subtree := sq.(cq_tree) in
    py_assert (bool_decide (is_Some subtree));;
    subtree ← deref subtree;
    st ← get_cqnode subtree;
    py_assert (bool_decide (st.(cn_owner) = Some sub));;
    upd_cqnode subtree (cn_set_owner None);;
    qq ← get_cq q;
    t ← deref qq.(cq_tree);
    t' ← cq_join t subtree;
    upd_cq q (cq_set_tree (Some t')));;
  qq ← get_cq q;
  t ← deref qq.(cq_tree);
  upd_cqnode t (cn_set_owner (Some q)).

(** [split]; the local [tree] is unbound until the loop has run. *)
Definition cq_split (q : Z) : M unit :=
  qq ← get_cq q;
  py_assert (bool_decide (is_Some qq.(cq_tree)));;
  py_assert (bool_decide (qq.(cq_sub_queues) <> []));;
  t ← deref qq.(cq_tree);
  tn ← get_cqnode t;
  py_assert (bool_decide (tn.(cn_owner) = Some q));;
  upd_cqnode t (cn_set_owner None);;
  tree ← fold_M (fun (_ : option Z) sub =>
      sq ← get_cq sub;
      py_assert (bool_decide (is_Some sq.(cq_first_node)));;
      fnode ← deref sq.(cq_first_node);
      '(tree, rtree) ← cq_split_tree fnode;
      upd_cq sub (cq_set_tree (Some rtree));;
      upd_cqnode rtree (cn_set_owner (Some sub));;
      mret (Some tree))
    (reverse (drop 1 qq.(cq_sub_queues))) None;
  s0 ← py_index qq.(cq_sub_queues) 0;
  tree ← (match tree with Some t => mret t | None => throw UnboundLocalError end);
  upd_cq s0 (cq_set_tree (Some tree));;
  upd_cqnode tree (cn_set_owner (Some s0));;
  upd_cq q (cq_set_tree None);;
  upd_cq q (cq_set_first_node None);;
  upd_cq q (cq_set_sub_queues []).

(* ------------------------------------------------------------------ *)
(** *** Helpers for [MatchingContext] *)

(** [[f(x) for x in xs]] *)
Fixpoint map_M {A B} (f : A -> M B) (xs : list A) : M (list B) :=
  match xs with
  | [] => mret []
  | x :: xs' => y ← f x; ys ← map_M f xs'; mret (y :: ys)
  end.

(** [range(n)] and [range(0, n, 2)] *)
Definition py_range (n : Z) : list Z := map Z.of_nat (seq 0 (Z.to_nat n)).
Definition py_range2 (n : nat) : list Z :=
  map (fun i => 2 * Z.of_nat i) (seq 0 (Nat.div2 (n + 1))).

(** [xs[0::2]] *)
Fixpoint every_other {A} (xs : list A) : list A :=
  match xs with
  | a :: _ :: xs' => a :: every_other xs'
  | [a] => [a]
  | [] => []
  end.

Definition addM (a b : num) : M num := liftR (n_add a b).
Definition subM (a b : num) : M num := liftR (n_sub a b).
Definition mulM (a b : num) : M num := liftR (n_mul a b).

(** [a % 2 == 0] and [a // 2] *)
Definition n_mod2_is0 (a : num) : bool :=
  match a with
  | NInt z => z mod 2 =? 0
  | NFloat f =>
      PrimFloat.is_finite f &&
      Qeq_bool (inject_Z (Qfloor (float_to_Q f / 2)) * 2) (float_to_Q f)
  end.
Definition n_floordiv2 (a : num) : num :=
  match a with
  | NInt z => NInt (z / 2)
  | NFloat f =>
      if negb (PrimFloat.is_finite f) then NFloat PrimFloat.nan
      else if PrimFloat.eqb f 0 then NFloat f
      else NFloat (Z_to_float (Qfloor (float_to_Q f / 2)))
  end.

(** [max(ws)] and [min(ws)]: the first maximal (minimal) element. *)
Definition num_max (ws : list num) : M num :=
  match ws with
  | [] => throw ValueError
  | w0 :: ws' => mret (fold_left (fun m w => if n_gt w m then w else m) ws' w0)
  end.
Definition num_min (ws : list num) : M num :=
  match ws with
  | [] => throw ValueError
  | w0 :: ws' => mret (fold_left (fun m w => if n_lt w m then w else m) ws' w0)
  end.

(** Reading and writing the list attributes of the context. *)
Definition vm_get (x : Z) : M Z := l ← gets w_vertex_mate; py_index l x.
Definition vm_set (x y : Z) : M unit :=
  l ← gets w_vertex_mate; l' ← py_setitem l x y; modify (w_set_vertex_mate l').
Definition vd_get (x : Z) : M num := l ← gets w_vertex_dual_2x; py_index l x.
Definition vd_set (x : Z) (v : num) : M unit :=
  l ← gets w_vertex_dual_2x; l' ← py_setitem l x v; modify (w_set_vertex_dual_2x l').
Definition d3n_get (e : Z) : M (option Z) := l ← gets w_delta3_node; py_index l e.
Definition d3n_set (e : Z) (v : option Z) : M unit :=
  l ← gets w_delta3_node; l' ← py_setitem l e v; modify (w_set_delta3_node l').
Definition vsn_get (e : Z) : M (option Z) := l ← gets w_vertex_sedge_node; py_index l e.
Definition vsn_set (e : Z) (v : option Z) : M unit :=
  l ← gets w_vertex_sedge_node; l' ← py_setitem l e v; modify (w_set_vertex_sedge_node l').

(** [Blossom(base_vertex)] and [NonTrivialBlossom(...)]'s call of it. *)
Definition new_blossom (base_vertex : Z) (nt : option ntb) : M Z :=
  b ← alloc (OBlossom (mk_blossom None base_vertex LABEL_NONE None None None None
                         (NInt 0) false nt));
  q ← cq_new b;
  upd_blossom b (b_set_vertex_queue (Some q));;
  mret b.

(** [NonTrivialBlossom(subblossoms, edges)] *)
Definition new_nontrivial_blossom (subblossoms : list Z) (edges : list (Z * Z)) : M Z :=
  s0 ← py_index subblossoms 0;
  sb ← get_blossom s0;
  b ← new_blossom sb.(b_base_vertex) (Some (mk_ntb subblossoms edges (NInt 0) None));
  let n := Z.of_nat (length subblossoms) in
  py_assert (Z.of_nat (length edges) =? n);;
  py_assert (3 <=? n);;
  py_assert (n mod 2 =? 1);;
  mret b.

(** One pass of the loop [for sub in b.subblossoms] of [vertices()]. *)
Definition vertices_step (acc : list Z * list Z) (sub : Z) : M (list Z * list Z) :=
  let '(stack, nodes) := acc in
  isnt ← is_nontrivial sub;
  if (isnt : bool) then mret (stack ++ [sub], nodes)
  else sb ← get_blossom sub; mret (stack, nodes ++ [sb.(b_base_vertex)]).

(** [blossom.vertices()] *)
Definition blossom_vertices (b : Z) : M (list Z) :=
  bl ← get_blossom b;
  match bl.(b_nontrivial) with
  | None => mret [bl.(b_base_vertex)]
  | Some _ =>
      while_M fuel (fun (st : list Z * list Z) =>
        let '(stack, nodes) := st in
        match stack with
        | [] => mret (Break nodes)
        | _ :: _ =>
            '(stack, b) ← py_pop stack;
            t ← get_nt b;
            st ← fold_M vertices_step t.(nt_subblossoms) (stack, nodes);
            mret (Continue st)
        end) ([b], [])
  end.

(** [GraphInfo(edges)] *)
Definition graph_info_init (edges : list edge) : M graph_info :=
  let num_vertex :=
    match edges with
    | [] => 0
    | (x0, y0, _) :: es =>
        1 + fold_left (fun m '(x, y, _) => Z.max m (Z.max x y)) es (Z.max x0 y0)
    end in
  adj ← fold_M (fun adj '(e, (x, y, _)) =>
      ax ← py_index adj x; adj ← py_setitem adj x (ax ++ [e]);
      ay ← py_index adj y; py_setitem adj y (ay ++ [e]))
    (zip (py_range (Z.of_nat (length edges))) edges)
    (repeat [] (Z.to_nat num_vertex));
  mret (mk_graph_info edges num_vertex adj
          (forallb (fun '(_, _, w) => match w with NInt _ => true | _ => false end) edges)).

Section Context.

Variable g : graph_info.

(** [MatchingContext.__init__] *)
Definition mc_init : M ctx_const :=
  let num_vertex := g.(g_num_vertex) in
  modify (w_set_vertex_mate (repeat (-1) (Z.to_nat num_vertex)));;
  trivial ← map_M (fun x => new_blossom x None) (py_range num_vertex);
  modify (w_set_nontrivial_blossom []);;
  vqn ← map_M (fun '(i, b) =>
      bl ← get_blossom b; vq ← deref bl.(b_vertex_queue); cq_insert vq i inf)
    (zip (py_range (Z.of_nat (length trivial))) trivial);
  start ← num_max (map (fun '(_, _, w) => w) g.(g_edges));
  modify (w_set_vertex_dual_2x (repeat start (Z.to_nat num_vertex)));;
  modify (w_set_delta_sum_2x (NInt 0));;
  d2 ← alloc (OPQueue []);
  d3 ← alloc (OPQueue []);
  modify (w_set_delta3_node (repeat None (length g.(g_edges))));;
  d4 ← alloc (OPQueue []);
  vsq ← map_M (fun _ => alloc (OPQueue [])) (py_range num_vertex);
  modify (w_set_vertex_sedge_node (repeat None (length g.(g_edges))));;
  modify (w_set_scan_queue []);;
  mret (mk_ctx_const trivial vqn start d2 d3 d4 vsq).

Variable c : ctx_const.

Definition top_level_blossom (x : Z) : M Z :=
  n ← py_index c.(vertex_queue_node) x; cq_find n.

Definition edge_pseudo_slack_2x (e : Z) : M num :=
  '(x, y, w) ← py_index g.(g_edges) e;
  vx ← vd_get x;
  vy ← vd_get y;
  s ← addM vx vy;
  tw ← mulM (NInt 2) w;
  subM s tw.

Definition delta2_add_edge (e y b_y : Z) : M unit :=
  prio ← edge_pseudo_slack_2x e;
  qy ← py_index c.(vertex_sedge_queue) y;
  emp ← pq_empty qy;
  improved ← (if (emp : bool) then mret true
              else m ← pq_find_min qy; mn ← get_pqnode m; mret (n_gt mn.(pn_prio) prio));
  cur ← vsn_get e;
  py_assert (bool_decide (cur = None));;
  node ← pq_insert qy prio e;
  vsn_set e (Some node);;
  if negb improved then mret tt else
  vqn ← py_index c.(vertex_queue_node) y;
  cq_set_prio vqn prio;;
  bl ← get_blossom b_y;
  if bl.(b_label) =? LABEL_NONE then
    prio ← addM prio bl.(b_vertex_dual_offset);
    match bl.(b_delta2_node) with
    | None =>
        nd ← pq_insert c.(delta2_queue) prio b_y;
        upd_blossom b_y (b_set_delta2_node (Some nd))
    | Some d =>
        dn ← get_pqnode d;
        if n_lt prio dn.(pn_prio) then pq_decrease_prio c.(delta2_queue) d prio
        else mret tt
    end
  else mret tt.

Definition delta2_remove_edge (e y b_y : Z) : M unit :=
  node ← vsn_get e;
  match node with
  | None => mret tt
  | Some node =>
      qy ← py_index c.(vertex_sedge_queue) y;
      pq_delete qy node;;
      vsn_set e None;;
      emp ← pq_empty qy;
      prio ← (if (emp : bool) then mret inf
              else m ← pq_find_min qy; mn ← get_pqnode m; mret mn.(pn_prio));
      vqn ← py_index c.(vertex_queue_node) y;
      cur ← leaf_prio vqn;
      if n_gt prio cur then
        cq_set_prio vqn prio;;
        bl ← get_blossom b_y;
        if bl.(b_label) =? LABEL_NONE then
          py_assert (bool_decide (is_Some bl.(b_delta2_node)));;
          vq ← deref bl.(b_vertex_queue);
          prio ← cq_min_prio vq;
          if n_lt prio inf then
            prio ← addM prio bl.(b_vertex_dual_offset);
            d ← deref bl.(b_delta2_node);
            dn ← get_pqnode d;
            if n_gt prio dn.(pn_prio) then pq_increase_prio c.(delta2_queue) d prio
            else mret tt
          else
            d ← deref bl.(b_delta2_node);
            pq_delete c.(delta2_queue) d;;
            upd_blossom b_y (b_set_delta2_node None)
        else mret tt
      else mret tt
  end.

Definition delta2_enable_blossom (b : Z) : M unit :=
  bl ← get_blossom b;
  py_assert (bool_decide (bl.(b_delta2_node) = None));;
  vq ← deref bl.(b_vertex_queue);
  prio ← cq_min_prio vq;
  if n_lt prio inf then
    prio ← addM prio bl.(b_vertex_dual_offset);
    nd ← pq_insert c.(delta2_queue) prio b;
    upd_blossom b (b_set_delta2_node (Some nd))
  else mret tt.

Definition delta2_disable_blossom (b : Z) : M unit :=
  bl ← get_blossom b;
  match bl.(b_delta2_node) with
  | Some d => pq_delete c.(delta2_queue) d;; upd_blossom b (b_set_delta2_node None)
  | None => mret tt
  end.

Definition delta2_clear_vertex (x : Z) : M unit :=
  qx ← py_index c.(vertex_sedge_queue) x;
  pq_clear qx;;
  adj ← py_index g.(g_adjacent_edges) x;
  for_M adj (fun e => vsn_set e None);;
  vqn ← py_index c.(vertex_queue_node) x;
  cq_set_prio vqn inf.

Definition delta2_get_min_edge : M (Z * num) :=
  emp ← pq_empty c.(delta2_queue);
  if (emp : bool) then mret (-1, inf) else
  d ← pq_find_min c.(delta2_queue);
  dn ← get_pqnode d;
  let blossom := dn.(pn_data) in
  let prio := dn.(pn_prio) in
  ds ← gets w_delta_sum_2x;
  slack_2x ← subM prio ds;
  bl ← get_blossom blossom;
  py_assert (bool_decide (bl.(b_parent) = None));;
  py_assert (bl.(b_label) =? LABEL_NONE);;
  vq ← deref bl.(b_vertex_queue);
  x ← cq_min_elem vq;
  qx ← py_index c.(vertex_sedge_queue) x;
  m ← pq_find_min qx;
  mn ← get_pqnode m;
  mret (mn.(pn_data), slack_2x).

Definition delta3_add_edge (e : Z) : M unit :=
  cur ← d3n_get e;
  match cur with
  | Some _ => mret tt
  | None =>
      prio_2x ← edge_pseudo_slack_2x e;
      prio ← (if g.(g_integer_weights)
              then py_assert (n_mod2_is0 prio_2x);; mret (n_floordiv2 prio_2x)
              else liftR (n_half prio_2x));
      nd ← pq_insert c.(delta3_queue) prio e;
      d3n_set e (Some nd)
  end.

Definition delta3_remove_edge (e : Z) : M unit :=
  cur ← d3n_get e;
  match cur with
  | Some d => pq_delete c.(delta3_queue) d;; d3n_set e None
  | None => mret tt
  end.

Definition delta3_get_min_edge : M (Z * num) :=
  while_M fuel (fun (_ : unit) =>
    emp ← pq_empty c.(delta3_queue);
    if (emp : bool) then mret (Break (-1, inf)) else
    d ← pq_find_min c.(delta3_queue);
    dn ← get_pqnode d;
    let e := dn.(pn_data) in
    '(x, y, _) ← py_index g.(g_edges) e;
    bX ← top_level_blossom x;
    bY ← top_level_blossom y;
    blx ← get_blossom bX;
    bly ← get_blossom bY;
    py_assert ((blx.(b_label) =? LABEL_S) && (bly.(b_label) =? LABEL_S));;
    if bool_decide (bX <> bY) then
      ds ← gets w_delta_sum_2x;
      slack ← subM dn.(pn_prio) ds;
      mret (Break (e, slack))
    else
      pq_delete c.(delta3_queue) d;;
      d3n_set e None;;
      mret (Continue tt)) tt.

(** [blossom.dual_var = f(blossom.dual_var)] on a non-trivial blossom. *)
Definition update_dual_var (b : Z) (f : num -> M num) : M unit :=
  t ← get_nt b; v ← f t.(nt_dual_var); upd_nt b (nt_set_dual_var v).

Definition assign_blossom_label_s (b : Z) : M unit :=
  bl ← get_blossom b;
  py_assert (bool_decide (bl.(b_parent) = None));;
  py_assert (bl.(b_label) =? LABEL_NONE);;
  upd_blossom b (b_set_label LABEL_S);;
  delta2_disable_blossom b;;
  isnt ← is_nontrivial b;
  (if (isnt : bool) then ds ← gets w_delta_sum_2x; update_dual_var b (fun v => subM v ds)
   else mret tt);;
  ds ← gets w_delta_sum_2x;
  bl ← get_blossom b;
  fixup ← addM ds bl.(b_vertex_dual_offset);
  upd_blossom b (b_set_vertex_dual_offset (NInt 0));;
  vertices ← blossom_vertices b;
  for_M vertices (fun x =>
    v ← vd_get x; v' ← addM v fixup; vd_set x v';;
    delta2_clear_vertex x);;
  sq ← gets w_scan_queue;
  modify (w_set_scan_queue (sq ++ vertices)).

Definition assign_blossom_label_t (b : Z) : M unit :=
  bl ← get_blossom b;
  py_assert (bool_decide (bl.(b_parent) = None));;
  py_assert (bl.(b_label) =? LABEL_NONE);;
  upd_blossom b (b_set_label LABEL_T);;
  delta2_disable_blossom b;;
  isnt ← is_nontrivial b;
  (if (isnt : bool) then
     ds ← gets w_delta_sum_2x;
     update_dual_var b (fun v => addM v ds);;
     t ← get_nt b;
     py_assert (bool_decide (t.(nt_delta4_node) = None));;
     nd ← pq_insert c.(delta4_queue) t.(nt_dual_var) b;
     upd_nt b (nt_set_delta4_node (Some nd))
   else mret tt);;
  ds ← gets w_delta_sum_2x;
  bl ← get_blossom b;
  v ← subM bl.(b_vertex_dual_offset) ds;
  upd_blossom b (b_set_vertex_dual_offset v).

Definition remove_blossom_label_s (b : Z) : M unit :=
  bl ← get_blossom b;
  py_assert (bool_decide (bl.(b_parent) = None));;
  py_assert (bl.(b_label) =? LABEL_S);;
  upd_blossom b (b_set_label LABEL_NONE);;
  isnt ← is_nontrivial b;
  (if (isnt : bool) then ds ← gets w_delta_sum_2x; update_dual_var b (fun v => addM v ds)
   else mret tt);;
  bl ← get_blossom b;
  py_assert (n_eq bl.(b_vertex_dual_offset) (NInt 0));;
  ds ← gets w_delta_sum_2x;
  let fixup := n_neg ds in
  vertices ← blossom_vertices b;
  for_M vertices (fun x =>
    v ← vd_get x; v' ← addM v fixup; vd_set x v';;
    adj ← py_index g.(g_adjacent_edges) x;
    for_M adj (fun e =>
      '(p, q, _) ← py_index g.(g_edges) e;
      let y := if negb (p =? x) then p else q in
      delta3_remove_edge e;;
      bY ← top_level_blossom y;
      bly ← get_blossom bY;
      if bly.(b_label) =? LABEL_S then delta2_add_edge e x b
      else delta2_remove_edge e y bY)).

Definition remove_blossom_label_t (b : Z) : M unit :=
  bl ← get_blossom b;
  py_assert (bool_decide (bl.(b_parent) = None));;
  py_assert (bl.(b_label) =? LABEL_T);;
  upd_blossom b (b_set_label LABEL_NONE);;
  isnt ← is_nontrivial b;
  (if (isnt : bool) then
     t ← get_nt b;
     py_assert (bool_decide (is_Some t.(nt_delta4_node)));;
     d ← deref t.(nt_delta4_node);
     pq_delete c.(delta4_queue) d;;
     upd_nt b (nt_set_delta4_node None);;
     ds ← gets w_delta_sum_2x;
     update_dual_var b (fun v => subM v ds)
   else mret tt);;
  ds ← gets w_delta_sum_2x;
  bl ← get_blossom b;
  v ← addM bl.(b_vertex_dual_offset) ds;
  upd_blossom b (b_set_vertex_dual_offset v);;
  delta2_enable_blossom b.

Definition change_s_blossom_to_subblossom (b : Z) : M unit :=
  bl ← get_blossom b;
  py_assert (bool_decide (bl.(b_parent) = None));;
  py_assert (bl.(b_label) =? LABEL_S);;
  upd_blossom b (b_set_label LABEL_NONE);;
  isnt ← is_nontrivial b;
  if (isnt : bool) then ds ← gets w_delta_sum_2x; update_dual_var b (fun v => addM v ds)
  else mret tt.

Definition reset_blossom_label (b : Z) : M unit :=
  bl ← get_blossom b;
  py_assert (bool_decide (bl.(b_parent) = None));;
  py_assert (negb (bl.(b_label) =? LABEL_NONE));;
  if bl.(b_label) =? LABEL_S then remove_blossom_label_s b
  else remove_blossom_label_t b.

Definition remove_alternating_tree (tree_blossoms : Z) : M unit :=
  elems ← get_set tree_blossoms;
  for_M (set_iter elems) (fun b =>
    bl ← get_blossom b;
    py_assert (negb (bl.(b_label) =? LABEL_NONE));;
    py_assert (bool_decide (bl.(b_tree_blossoms) = Some tree_blossoms));;
    reset_blossom_label b;;
    upd_blossom b (b_set_tree_edge None);;
    upd_blossom b (b_set_tree_blossoms None)).

(** [AlternatingPath(edges, is_cycle)] *)
Definition alternating_path : Type := (list (Z * Z) * bool)%type.

Definition trace_alternating_paths (x y : Z) : M alternating_path :=
  '(x, y, xedges, yedges, marked_blossoms, first_common) ←
    while_M fuel (fun '(x, y, xedges, yedges, marked) =>
      if negb (x =? -1) || negb (y =? -1) then
        bX ← top_level_blossom x;
        blx ← get_blossom bX;
        if blx.(b_marker) then
          mret (Break (x, y, xedges, yedges, marked, Some bX))
        else
          upd_blossom bX (b_set_marker true);;
          let marked := marked ++ [bX] in
          blx ← get_blossom bX;
          let '(x, xedges) :=
            match blx.(b_tree_edge) with
            | None => (-1, xedges)
            | Some te => (te.1, xedges ++ [te])
            end in
          if negb (y =? -1) then mret (Continue (y, x, yedges, xedges, marked))
          else mret (Continue (x, y, xedges, yedges, marked))
      else mret (Break (x, y, xedges, yedges, marked, None)))
    (x, y, [(x, y)], [(y, x)], []);
  for_M marked_blossoms (fun b => upd_blossom b (b_set_marker false));;
  yedges ← (match first_common with
            | None => mret yedges
            | Some fc =>
                '(lx, _) ← py_index xedges (-1);
                t ← top_level_blossom lx;
                py_assert (bool_decide (t = fc));;
                while_M fuel (fun yedges =>
                  '(ly, _) ← py_index yedges (-1);
                  t ← top_level_blossom ly;
                  if bool_decide (t <> fc) then
                    '(yedges, _) ← py_pop yedges; mret (Continue yedges)
                  else mret (Break yedges)) yedges
            end);
  let path_edges := reverse xedges ++ map (fun '(a, b) => (b, a)) (drop 1 yedges) in
  py_assert (Z.of_nat (length path_edges) mod 2 =? 1);;
  mret (path_edges, bool_decide (is_Some first_common)).

(** [s.add(x)] on [self.nontrivial_blossom] and [s.remove(x)]. *)
Definition nontrivial_add (b : Z) : M unit :=
  nb ← gets w_nontrivial_blossom;
  if bool_decide (b ∈ nb) then mret tt else modify (w_set_nontrivial_blossom (nb ++ [b])).
Definition nontrivial_remove (b : Z) : M unit :=
  nb ← gets w_nontrivial_blossom;
  if bool_decide (b ∈ nb) then modify (w_set_nontrivial_blossom (filter (fun y => y <> b) nb))
  else throw KeyError.

Definition make_blossom (path : alternating_path) : M unit :=
  let '(path_edges, _) := path in
  py_assert (Z.of_nat (length path_edges) mod 2 =? 1);;
  py_assert (3 <=? Z.of_nat (length path_edges));;
  subblossoms ← map_M (fun '(x, _) => top_level_blossom x) path_edges;
  subblossoms_next ← map_M (fun '(_, y) => top_level_blossom y) path_edges;
  s0 ← py_index subblossoms 0;
  sl ← py_index subblossoms_next (-1);
  py_assert (bool_decide (s0 = sl));;
  py_assert (bool_decide (drop 1 subblossoms = removelast subblossoms_next));;
  bl0 ← get_blossom s0;
  py_assert (bl0.(b_label) =? LABEL_S);;
  for_M subblossoms (fun sub =>
    bl ← get_blossom sub;
    (if bl.(b_label) =? LABEL_T then
       remove_blossom_label_t sub;;
       assign_blossom_label_s sub
     else mret tt);;
    change_s_blossom_to_subblossom sub);;
  blossom ← new_nontrivial_blossom subblossoms path_edges;
  upd_blossom blossom (b_set_label LABEL_S);;
  ds ← gets w_delta_sum_2x;
  upd_nt blossom (nt_set_dual_var (n_neg ds));;
  bl0 ← get_blossom s0;
  py_assert (bool_decide (is_Some bl0.(b_tree_blossoms)));;
  tree_blossoms ← deref bl0.(b_tree_blossoms);
  upd_blossom blossom (b_set_tree_edge bl0.(b_tree_edge));;
  upd_blossom blossom (b_set_tree_blossoms (Some tree_blossoms));;
  set_add tree_blossoms blossom;;
  nontrivial_add blossom;;
  for_M subblossoms (fun sub =>
    upd_blossom sub (b_set_parent (Some blossom));;
    upd_blossom sub (b_set_tree_edge None);;
    upd_blossom sub (b_set_tree_blossoms None);;
    set_remove tree_blossoms sub);;
  bl ← get_blossom blossom;
  vq ← deref bl.(b_vertex_queue);
  qs ← map_M (fun sub => sb ← get_blossom sub; deref sb.(b_vertex_queue)) subblossoms;
  cq_merge vq qs.

Definition find_path_through_blossom (blossom sub : Z) : M (list Z * list (Z * Z)) :=
  t ← get_nt blossom;
  p ← py_list_index t.(nt_subblossoms) sub;
  let pn := Z.to_nat p in
  let '(nodes, edges) :=
    if p mod 2 =? 0
    then (reverse (take (pn + 1) t.(nt_subblossoms)),
          map (fun '(i, j) => (j, i)) (reverse (take pn t.(nt_edges))))
    else (drop pn t.(nt_subblossoms) ++ take 1 t.(nt_subblossoms),
          drop pn t.(nt_edges)) in
  py_assert (Z.of_nat (length edges) mod 2 =? 0);;
  py_assert (Z.of_nat (length nodes) mod 2 =? 1);;
  mret (nodes, edges).

Definition expand_unlabeled_blossom (blossom : Z) : M unit :=
  bl ← get_blossom blossom;
  py_assert (bool_decide (bl.(b_parent) = None));;
  py_assert (bl.(b_label) =? LABEL_NONE);;
  delta2_disable_blossom blossom;;
  bl ← get_blossom blossom;
  vq ← deref bl.(b_vertex_queue);
  cq_split vq;;
  bl ← get_blossom blossom;
  let vertex_dual_offset := bl.(b_vertex_dual_offset) in
  upd_blossom blossom (b_set_vertex_dual_offset (NInt 0));;
  t ← get_nt blossom;
  for_M t.(nt_subblossoms) (fun sub =>
    sb ← get_blossom sub;
    py_assert (sb.(b_label) =? LABEL_NONE);;
    upd_blossom sub (b_set_parent None);;
    sb ← get_blossom sub;
    py_assert (n_eq sb.(b_vertex_dual_offset) (NInt 0));;
    upd_blossom sub (b_set_vertex_dual_offset vertex_dual_offset);;
    delta2_enable_blossom sub);;
  bl ← get_blossom blossom;
  _ ← deref bl.(b_vertex_queue);
  upd_blossom blossom (b_set_vertex_queue None);;
  nontrivial_remove blossom.

Definition extend_tree_t_to_s (x : Z) : M unit :=
  bX ← top_level_blossom x;
  assign_blossom_label_s bX;;
  y ← vm_get x;
  py_assert (negb (y =? -1));;
  bY ← top_level_blossom y;
  bly ← get_blossom bY;
  py_assert (bly.(b_label) =? LABEL_T);;
  py_assert (bool_decide (is_Some bly.(b_tree_blossoms)));;
  upd_blossom bX (b_set_tree_edge (Some (y, x)));;
  upd_blossom bX (b_set_tree_blossoms bly.(b_tree_blossoms));;
  blx ← get_blossom bX;
  ts ← deref blx.(b_tree_blossoms);
  set_add ts bX.

Definition expand_t_blossom (blossom : Z) : M unit :=
  bl ← get_blossom blossom;
  py_assert (bool_decide (bl.(b_parent) = None));;
  py_assert (bl.(b_label) =? LABEL_T);;
  py_assert (bool_decide (bl.(b_delta2_node) = None));;
  py_assert (bool_decide (is_Some bl.(b_tree_blossoms)));;
  tree_blossoms ← deref bl.(b_tree_blossoms);
  set_remove tree_blossoms blossom;;
  remove_blossom_label_t blossom;;
  expand_unlabeled_blossom blossom;;
  bl ← get_blossom blossom;
  py_assert (bool_decide (is_Some bl.(b_tree_edge)));;
  '(x, y) ← deref bl.(b_tree_edge);
  sub ← top_level_blossom y;
  assign_blossom_label_t sub;;
  upd_blossom sub (b_set_tree_edge bl.(b_tree_edge));;
  upd_blossom sub (b_set_tree_blossoms (Some tree_blossoms));;
  set_add tree_blossoms sub;;
  '(path_nodes, path_edges) ← find_path_through_blossom blossom sub;
  for_M (py_range2 (length path_edges)) (fun p =>
    '(y, x) ← py_index path_edges p;
    extend_tree_t_to_s x;;
    sub ← py_index path_nodes (p + 2);
    assign_blossom_label_t sub;;
    te ← py_index path_edges (p + 1);
    upd_blossom sub (b_set_tree_edge (Some te));;
    upd_blossom sub (b_set_tree_blossoms (Some tree_blossoms));;
    set_add tree_blossoms sub).

Definition augment_blossom_rec (blossom sub : Z) (stack : list (Z * Z))
    : M (list (Z * Z)) :=
  '(path_nodes, path_edges) ← find_path_through_blossom blossom sub;
  stack ← fold_M (fun stack p =>
      '(x, y) ← py_index path_edges (p + 1);
      vm_set x y;;
      vm_set y x;;
      bX ← py_index path_nodes (p + 1);
      isx ← is_nontrivial bX;
      stack ← (if (isx : bool) then tx ← py_index c.(trivial_blossom) x; mret (stack ++ [(bX, tx)])
               else mret stack);
      bY ← py_index path_nodes (p + 2);
      isy ← is_nontrivial bY;
      if (isy : bool) then ty ← py_index c.(trivial_blossom) y; mret (stack ++ [(bY, ty)])
      else mret stack)
    (py_range2 (length path_edges)) stack;
  t ← get_nt blossom;
  p ← py_list_index t.(nt_subblossoms) sub;
  let pn := Z.to_nat p in
  upd_nt blossom (nt_set_subblossoms (drop pn t.(nt_subblossoms) ++ take pn t.(nt_subblossoms)));;
  t ← get_nt blossom;
  upd_nt blossom (nt_set_edges (drop pn t.(nt_edges) ++ take pn t.(nt_edges)));;
  sb ← get_blossom sub;
  upd_blossom blossom (b_set_base_vertex sb.(b_base_vertex));;
  mret stack.

Definition augment_blossom (blossom sub : Z) : M unit :=
  while_M fuel (fun stack =>
    match stack with
    | [] => mret (Break tt)
    | _ :: _ =>
        '(stack, (outer_blossom, sub)) ← py_pop stack;
        sb ← get_blossom sub;
        py_assert (bool_decide (is_Some sb.(b_parent)));;
        blossom ← deref sb.(b_parent);
        let stack := if bool_decide (blossom <> outer_blossom)
                     then stack ++ [(outer_blossom, blossom)] else stack in
        stack ← augment_blossom_rec blossom sub stack;
        mret (Continue stack)
    end) [(blossom, sub)].

Definition augment_matching (path : alternating_path) : M unit :=
  let '(path_edges, _) := path in
  py_assert (Z.of_nat (length path_edges) mod 2 =? 1);;
  '(x0, _) ← py_index path_edges 0;
  '(_, y1) ← py_index path_edges (-1);
  for_M [x0; y1] (fun x =>
    b ← top_level_blossom x;
    bl ← get_blossom b;
    m ← vm_get bl.(b_base_vertex);
    py_assert (m =? -1));;
  for_M (every_other path_edges) (fun '(x, y) =>
    bX ← top_level_blossom x;
    isx ← is_nontrivial bX;
    (if (isx : bool) then tx ← py_index c.(trivial_blossom) x; augment_blossom bX tx
     else mret tt);;
    bY ← top_level_blossom y;
    isy ← is_nontrivial bY;
    (if (isy : bool) then ty ← py_index c.(trivial_blossom) y; augment_blossom bY ty
     else mret tt);;
    vm_set x y;;
    vm_set y x).

Definition extend_tree_s_to_t (x y : Z) : M unit :=
  bX ← top_level_blossom x;
  bY ← top_level_blossom y;
  blx ← get_blossom bX;
  py_assert (blx.(b_label) =? LABEL_S);;
  bY ← while_M fuel (fun bY =>
    bly ← get_blossom bY;
    match bly.(b_nontrivial) with
    | Some t =>
        if n_eq t.(nt_dual_var) (NInt 0) then
          expand_unlabeled_blossom bY;;
          bY ← top_level_blossom y;
          mret (Continue bY)
        else mret (Break bY)
    | None => mret (Break bY)
    end) bY;
  assign_blossom_label_t bY;;
  upd_blossom bY (b_set_tree_edge (Some (x, y)));;
  blx ← get_blossom bX;
  upd_blossom bY (b_set_tree_blossoms blx.(b_tree_blossoms));;
  bly ← get_blossom bY;
  py_assert (bool_decide (is_Some bly.(b_tree_blossoms)));;
  ts ← deref bly.(b_tree_blossoms);
  set_add ts bY;;
  bly ← get_blossom bY;
  z ← vm_get bly.(b_base_vertex);
  py_assert (negb (z =? -1));;
  extend_tree_t_to_s z.

Definition add_s_to_s_edge (x y : Z) : M bool :=
  bX ← top_level_blossom x;
  bY ← top_level_blossom y;
  blx ← get_blossom bX;
  py_assert (blx.(b_label) =? LABEL_S);;
  bly ← get_blossom bY;
  py_assert (bly.(b_label) =? LABEL_S);;
  py_assert (bool_decide (bX <> bY));;
  path ← trace_alternating_paths x y;
  blx ← get_blossom bX;
  py_assert (bool_decide (is_Some blx.(b_tree_blossoms)));;
  bly ← get_blossom bY;
  py_assert (bool_decide (is_Some bly.(b_tree_blossoms)));;
  if bool_decide (blx.(b_tree_blossoms) = bly.(b_tree_blossoms)) then
    py_assert path.2;;
    make_blossom path;;
    mret false
  else
    tx ← deref blx.(b_tree_blossoms);
    remove_alternating_tree tx;;
    bly ← get_blossom bY;
    ty ← deref bly.(b_tree_blossoms);
    remove_alternating_tree ty;;
    py_assert (negb path.2);;
    augment_matching path;;
    mret true.

Definition scan_new_s_vertices : M unit :=
  sq ← gets w_scan_queue;
  for_M sq (fun x =>
    bX ← top_level_blossom x;
    blx ← get_blossom bX;
    py_assert (blx.(b_label) =? LABEL_S);;
    adj ← py_index g.(g_adjacent_edges) x;
    for_M adj (fun e =>
      '(p, q, _) ← py_index g.(g_edges) e;
      let y := if negb (p =? x) then p else q in
      bY ← top_level_blossom y;
      if bool_decide (bX = bY) then mret tt else
      bly ← get_blossom bY;
      if bly.(b_label) =? LABEL_S then delta3_add_edge e
      else delta2_add_edge e y bY));;
  modify (w_set_scan_queue []).

Definition calc_dual_delta_step : M (Z * num * Z * option Z) :=
  ds ← gets w_delta_sum_2x;
  delta_2x ← subM c.(start_vertex_dual_2x) ds;
  '(e, slack) ← delta2_get_min_edge;
  let '(delta_type, delta_2x, delta_edge) :=
    if negb (e =? -1) && n_le slack delta_2x then (2, slack, e)
    else (1, delta_2x, -1) in
  '(e, slack) ← delta3_get_min_edge;
  let '(delta_type, delta_2x, delta_edge) :=
    if negb (e =? -1) && n_le slack delta_2x then (3, slack, e)
    else (delta_type, delta_2x, delta_edge) in
  emp ← pq_empty c.(delta4_queue);
  if (emp : bool) then mret (delta_type, delta_2x, delta_edge, None) else
  m ← pq_find_min c.(delta4_queue);
  mn ← get_pqnode m;
  let blossom := mn.(pn_data) in
  bl ← get_blossom blossom;
  py_assert (bl.(b_label) =? LABEL_T);;
  py_assert (bool_decide (bl.(b_parent) = None));;
  t ← get_nt blossom;
  ds ← gets w_delta_sum_2x;
  blossom_dual ← subM t.(nt_dual_var) ds;
  if n_le blossom_dual delta_2x then mret (4, blossom_dual, delta_edge, Some blossom)
  else mret (delta_type, delta_2x, delta_edge, None).

(** The candidate delta values of [calc_dual_delta_step], each with its
    delta type: the same queries in the same order, keeping every
    candidate instead of the running minimum.  [delta1] is always a
    candidate, [delta2] and [delta3] when their query finds an edge, and
    [delta4] when [delta4_queue] is not empty. *)
Definition delta_candidates : M (list (Z * num)) :=
  ds ← gets w_delta_sum_2x;
  delta_1 ← subM c.(start_vertex_dual_2x) ds;
  '(e2, slack2) ← delta2_get_min_edge;
  '(e3, slack3) ← delta3_get_min_edge;
  let cands := [(1, delta_1)] ++ (if e2 =? -1 then [] else [(2, slack2)])
               ++ (if e3 =? -1 then [] else [(3, slack3)]) in
  emp ← pq_empty c.(delta4_queue);
  if (emp : bool) then mret cands else
  m ← pq_find_min c.(delta4_queue);
  mn ← get_pqnode m;
  let blossom := mn.(pn_data) in
  bl ← get_blossom blossom;
  py_assert (bl.(b_label) =? LABEL_T);;
  py_assert (bool_decide (bl.(b_parent) = None));;
  t ← get_nt blossom;
  ds ← gets w_delta_sum_2x;
  delta_4 ← subM t.(nt_dual_var) ds;
  mret (cands ++ [(4, delta_4)]).

Definition start : M unit :=
  for_M (py_range g.(g_num_vertex)) (fun x =>
    m ← vm_get x;
    py_assert (m =? -1);;
    bX ← top_level_blossom x;
    bl ← get_blossom bX;
    py_assert (bl.(b_base_vertex) =? x);;
    assign_blossom_label_s bX;;
    upd_blossom bX (b_set_tree_edge None);;
    s ← alloc (OSet [bX]);
    upd_blossom bX (b_set_tree_blossoms (Some s))).

Definition run_stage : M bool :=
  while_M fuel (fun (_ : unit) =>
    scan_new_s_vertices;;
    '(delta_type, delta_2x, delta_edge, delta_blossom) ← calc_dual_delta_step;
    ds ← gets w_delta_sum_2x;
    ds' ← addM ds delta_2x;
    modify (w_set_delta_sum_2x ds');;
    if delta_type =? 2 then
      '(x, y, _) ← py_index g.(g_edges) delta_edge;
      bX ← top_level_blossom x;
      bl ← get_blossom bX;
      let '(x, y) := if negb (bl.(b_label) =? LABEL_S) then (y, x) else (x, y) in
      extend_tree_s_to_t x y;;
      mret (Continue tt)
    else if delta_type =? 3 then
      '(x, y, _) ← py_index g.(g_edges) delta_edge;
      r ← add_s_to_s_edge x y;
      if (r : bool) then mret (Break true) else mret (Continue tt)
    else if delta_type =? 4 then
      py_assert (bool_decide (is_Some delta_blossom));;
      b ← deref delta_blossom;
      expand_t_blossom b;;
      mret (Continue tt)
    else
      py_assert (delta_type =? 1);;
      mret (Break false)) tt.

Definition cleanup : M unit :=
  sq ← gets w_scan_queue;
  py_assert (bool_decide (sq = []));;
  nb ← gets w_nontrivial_blossom;
  for_M (c.(trivial_blossom) ++ set_iter nb) (fun b =>
    bl ← get_blossom b;
    (if bool_decide (bl.(b_parent) = None) && negb (bl.(b_label) =? LABEL_NONE)
     then reset_blossom_label b else mret tt);;
    bl ← get_blossom b;
    py_assert (bl.(b_label) =? LABEL_NONE);;
    upd_blossom b (b_set_tree_edge None);;
    upd_blossom b (b_set_tree_blossoms None);;
    bl ← get_blossom b;
    (if negb (n_eq bl.(b_vertex_dual_offset) (NInt 0)) then
       vertices ← blossom_vertices b;
       for_M vertices (fun x =>
         v ← vd_get x; bl ← get_blossom b; v' ← addM v bl.(b_vertex_dual_offset); vd_set x v')
     else mret tt);;
    upd_blossom b (b_set_vertex_dual_offset (NInt 0)));;
  e2 ← pq_empty c.(delta2_queue);
  py_assert e2;;
  e3 ← pq_empty c.(delta3_queue);
  py_assert e3;;
  e4 ← pq_empty c.(delta4_queue);
  py_assert e4.

(** [_verify_blossom_edges]; the loop state is
    [(stack, vertex_depth, path_sum_dual, path_num_matched, edge_slack_2x)]. *)
Definition _verify_blossom_edges (blossom : Z) (edge_slack_2x : list num)
    : M (list num) :=
  while_M fuel (fun '(stack, vertex_depth, path_sum_dual, path_num_matched, edge_slack_2x) =>
    match stack with
    | [] => mret (Break edge_slack_2x)
    | _ :: _ =>
    '(blossom, p) ← py_index stack (-1);
    let depth := Z.of_nat (length stack) in
    '(p, vertex_depth, path_sum_dual, path_num_matched) ←
      (if p =? -1 then
         vs ← blossom_vertices blossom;
         vertex_depth ← fold_M (fun vd x => py_setitem vd x depth) vs vertex_depth;
         last ← py_index path_sum_dual (-1);
         t ← get_nt blossom;
         s ← addM last t.(nt_dual_var);
         mret (p + 1, vertex_depth, path_sum_dual ++ [s], path_num_matched ++ [0])
       else mret (p, vertex_depth, path_sum_dual, path_num_matched));
    t ← get_nt blossom;
    if p <? Z.of_nat (length t.(nt_subblossoms)) then
      stack ← py_setitem stack (-1) (blossom, p + 1);
      sub ← py_index t.(nt_subblossoms) p;
      isn ← is_nontrivial sub;
      if (isn : bool) then
        mret (Continue (stack ++ [(sub, -1)], vertex_depth, path_sum_dual,
                        path_num_matched, edge_slack_2x))
      else
        sb ← get_blossom sub;
        adj ← py_index g.(g_adjacent_edges) sb.(b_base_vertex);
        '(edge_slack_2x, path_num_matched) ← fold_M (fun '(es, pnm) e =>
            '(x, y, _) ← py_index g.(g_edges) e;
            if x =? sb.(b_base_vertex) then
              edge_depth ← py_index vertex_depth y;
              if 0 <? edge_depth then
                s ← py_index es e;
                pd ← py_index path_sum_dual edge_depth;
                tw ← mulM (NInt 2) pd;
                s' ← addM s tw;
                es ← py_setitem es e s';
                mx ← vm_get x;
                if mx =? y then
                  cnt ← py_index pnm edge_depth;
                  pnm ← py_setitem pnm edge_depth (cnt + 1);
                  mret (es, pnm)
                else mret (es, pnm)
              else mret (es, pnm)
            else mret (es, pnm))
          adj (edge_slack_2x, path_num_matched);
        mret (Continue (stack, vertex_depth, path_sum_dual, path_num_matched, edge_slack_2x))
    else
      blossom_vertices_ ← blossom_vertices blossom;
      let blossom_num_vertex := Z.of_nat (length blossom_vertices_) in
      blossom_num_matched ← py_index path_num_matched depth;
      if negb (blossom_num_vertex =? 2 * blossom_num_matched + 1)
      then throw MatchingError else
      a ← py_index path_num_matched (depth - 1);
      b ← py_index path_num_matched depth;
      path_num_matched ← py_setitem path_num_matched (depth - 1) (a + b);
      vertex_depth ← fold_M (fun vd x => py_setitem vd x (depth - 1))
                       blossom_vertices_ vertex_depth;
      '(path_sum_dual, _) ← py_pop path_sum_dual;
      '(path_num_matched, _) ← py_pop path_num_matched;
      '(stack, _) ← py_pop stack;
      mret (Continue (stack, vertex_depth, path_sum_dual, path_num_matched, edge_slack_2x))
    end)
    ([(blossom, -1)], repeat 0 (Z.to_nat g.(g_num_vertex)), [NInt 0], [0], edge_slack_2x).

(** [raise MatchingError(f"... {v/2}")]: the message computes [v/2]. *)
Definition fail_half {A} (v : num) : M A := _ ← liftR (n_half v); throw MatchingError.

Definition verify_optimum : M unit :=
  let num_vertex := g.(g_num_vertex) in
  let num_edge := Z.of_nat (length g.(g_edges)) in
  vm ← gets w_vertex_mate;
  num_matched_vertex ← fold_M (fun cnt x =>
      y ← py_index vm x;
      if negb (y =? -1) then
        my ← py_index vm y;
        if negb (my =? x) then throw MatchingError else mret (cnt + 1)
      else mret cnt) (py_range num_vertex) 0;
  num_matched_edge ← fold_M (fun cnt '(x, y, _) =>
      mx ← py_index vm x; mret (if mx =? y then cnt + 1 else cnt)) g.(g_edges) 0;
  if negb (num_matched_vertex =? 2 * num_matched_edge) then throw MatchingError else
  vd ← gets w_vertex_dual_2x;
  for_M (py_range num_vertex) (fun x =>
    d ← py_index vd x; if n_lt d (NInt 0) then fail_half d else mret tt);;
  nb ← gets w_nontrivial_blossom;
  for_M (set_iter nb) (fun b =>
    t ← get_nt b; if n_lt t.(nt_dual_var) (NInt 0) then throw MatchingError else mret tt);;
  for_M (py_range num_vertex) (fun x =>
    m ← py_index vm x;
    if m =? -1 then
      d ← py_index vd x; if negb (n_eq d (NInt 0)) then fail_half d else mret tt
    else mret tt);;
  edge_slack_2x ← map_M (fun '(x, y, w) =>
      vx ← py_index vd x; vy ← py_index vd y; s ← addM vx vy;
      tw ← mulM (NInt 2) w; subM s tw) g.(g_edges);
  edge_slack_2x ← fold_M (fun es b =>
      bl ← get_blossom b;
      if bool_decide (bl.(b_parent) = None) then _verify_blossom_edges b es
      else mret es) (set_iter nb) edge_slack_2x;
  min_edge_slack ← num_min edge_slack_2x;
  if n_lt min_edge_slack (NInt 0) then fail_half min_edge_slack else
  for_M (py_range num_edge) (fun e =>
    '(x, y, _) ← py_index g.(g_edges) e;
    mx ← py_index vm x;
    if mx =? y then
      s ← py_index edge_slack_2x e;
      if negb (n_eq s (NInt 0)) then fail_half s else mret tt
    else mret tt).

End Context.

(** The part of [maximum_weight_matching] from [GraphInfo(edges)] to
    [verify_optimum(ctx)]; it returns the [vertex_mate] from which the
    pairs are extracted. *)
Definition matching_core_M (edges : list edge) : M (list Z) :=
  g ← graph_info_init edges;
  c ← mc_init g;
  start g c;;
  while_M fuel (fun (_ : unit) =>
    r ← run_stage g c;
    if (r : bool) then mret (Continue tt) else mret (Break tt)) tt;;
  cleanup g c;;
  vm ← gets w_vertex_mate;
  (if g.(g_integer_weights) then verify_optimum g else mret tt);;
  mret vm.

End Fuel.

(* ------------------------------------------------------------------ *)
(** *** The entry point over the full algorithm *)

(** The heap and the attributes before [MatchingContext.__init__]. *)
Definition init_world : world := mk_world ∅ 1 [] [] [] (NInt 0) [] [] [].

(** [maximum_weight_matching(edges)]; [fuel] bounds every [while] loop and
    the result is [None] when a loop runs out of it; [set_iter] is the
    iteration order of sets of blossoms. *)
Definition maximum_weight_matching (fuel : nat) (set_iter : list Z -> list Z)
    (edges : pyval)
    : option (result (list (Z * Z))) :=
  match _check_input_types edges with
  | Raise e => Some (Raise e)
  | Ok _ =>
      let es := edge_view edges in
      match _check_input_graph es with
      | Raise e => Some (Raise e)
      | Ok _ =>
          let es := _remove_negative_weight_edges es in
          match es with
          | [] => Some (Ok [])
          | _ :: _ =>
              match matching_core_M fuel set_iter es init_world with
              | None => None
              | Some (_, Raise e) => Some (Raise e)
              | Some (_, Ok vertex_mate) => Some (Ok (extract_pairs es vertex_mate))
              end
          end
      end
  end.

(* ------------------------------------------------------------------ *)
(** *** Runs of the stage loop *)

(** The orders in which CPython may visit the elements of a set of
    blossoms: a permutation of them, fixed by the hash slots of their
    addresses, which the program text does not determine. *)
Definition set_order (set_iter : list Z -> list Z) : Prop :=
  forall l, set_iter l ≡ₚ l.

(** A set of at most one element is visited in its only order. *)
Definition small_sets_fixed (set_iter : list Z -> list Z) (l : list Z) : list Z :=
  match l with
  | [] | [_] => l
  | _ => set_iter l
  end.

(** The number of matched vertices: [x] with [vertex_mate[x] != -1]. *)
Definition matched_count (vertex_mate : list Z) : nat :=
  length (filter (fun y => y <> -1) vertex_mate).

(** [GraphInfo(edges)], [MatchingContext(graph)] and [ctx.start()], the
    part of [maximum_weight_matching] before the stage loop. *)
Definition stage_setup (fuel : nat) (set_iter : list Z -> list Z) (edges : list edge)
    : M (graph_info * ctx_const) :=
  g ← graph_info_init edges;
  c ← mc_init g;
  start fuel g c;;
  mret (g, c).

(** The stage loop [while ctx.run_stage(): pass] of
    [maximum_weight_matching], recording for each call of [run_stage] its
    result and the number of matched vertices before and after it. *)
Definition stage_trace (fuel : nat) (set_iter : list Z -> list Z) (edges : list edge)
    : M (list (bool * nat * nat)) :=
  '(g, c) ← stage_setup fuel set_iter edges;
  while_M fuel (fun trace =>
    before ← gets (fun w => matched_count w.(w_vertex_mate));
    r ← run_stage fuel set_iter g c;
    after ← gets (fun w => matched_count w.(w_vertex_mate));
    let trace := trace ++ [(r, before, after)] in
    if (r : bool) then mret (Continue trace) else mret (Break trace)) [].

(** [[(0, 1, 0)]] and [[(0, 1, 0.0)]] as Python lists. *)
Definition zero_edge_int : pyval := PyList [PyTuple [PyInt 0; PyInt 1; PyInt 0]].
Definition zero_edge_float : pyval := PyList [PyTuple [PyInt 0; PyInt 1; PyFloat 0]].

(** An input on which the result depends on the order of set iteration. *)
Definition set_order_edges : pyval :=
  PyList (map (fun '(x, y, w) => PyTuple [PyInt x; PyInt y; PyInt w])
    [(5, 1, 0); (1, 0, 0); (2, 0, 2); (4, 1, 0); (2, 3, 2); (0, 5, 0);
     (1, 2, 2); (4, 5, 0); (4, 2, 1)]).

(* ------------------------------------------------------------------ *)
(** *** Which functions write [vertex_mate] *)

(** [m] leaves [vertex_mate] as it was, whatever it returns or raises. *)
Definition keeps_mate {A} (m : M A) : Prop :=
  forall w w' r, m w = Some (w', r) -> w'.(w_vertex_mate) = w.(w_vertex_mate).

(** [m] leaves [vertex_mate] as it was when it returns a value [a] with
    [P a]. *)
Definition keeps_mate_if {A} (P : A -> Prop) (m : M A) : Prop :=
  forall w w' a, m w = Some (w', Ok a) -> P a -> w'.(w_vertex_mate) = w.(w_vertex_mate).

(** [m] never returns a value [a] with [P a]. *)
Definition never_returns {A} (P : A -> Prop) (m : M A) : Prop :=
  forall w w' a, m w = Some (w', Ok a) -> ~ P a.

Create HintDb keeps_mate.

Lemma km_ret {A} (a : A) : keeps_mate (mret a).
Proof. intros w w' r H. injection H as <- _. reflexivity. Qed.

Lemma km_bind {A B} (m : M A) (k : A -> M B) :
  keeps_mate m -> (forall a, keeps_mate (k a)) -> keeps_mate (m ≫= k).
Proof.
  intros Hm Hk w w' r H. unfold mbind, M_bind in H.
  destruct (m w) as [[w1 [a|e]]|] eqn:E; [| injection H as <- _ | discriminate].
  - rewrite (Hk a _ _ _ H). exact (Hm _ _ _ E).
  - exact (Hm _ _ _ E).
Qed.

Lemma km_throw {A} (e : exn) : keeps_mate (@throw A e).
Proof. intros w w' r H. injection H as <- _. reflexivity. Qed.

Lemma km_out_of_fuel {A} : keeps_mate (@out_of_fuel A).
Proof. intros w w' r H. discriminate. Qed.

Lemma km_liftR {A} (r0 : result A) : keeps_mate (liftR r0).
Proof. intros w w' r H. injection H as <- _. reflexivity. Qed.

Lemma km_gets {A} (f : world -> A) : keeps_mate (gets f).
Proof. intros w w' r H. injection H as <- _. reflexivity. Qed.

Lemma km_modify (f : world -> world) :
  (forall w, (f w).(w_vertex_mate) = w.(w_vertex_mate)) -> keeps_mate (modify f).
Proof. intros Hf w w' r H. injection H as <- _. apply Hf. Qed.

Lemma km_load (r0 : Z) : keeps_mate (load r0).
Proof.
  intros w w' r H. unfold load in H.
  destruct (w_heap w !! r0); injection H as <- _; reflexivity.
Qed.

Lemma km_alloc (o : obj) : keeps_mate (alloc o).
Proof. intros w w' r H. injection H as <- _. reflexivity. Qed.

Lemma km_for_M {A} (xs : list A) (body : A -> M unit) :
  (forall x, keeps_mate (body x)) -> keeps_mate (for_M xs body).
Proof.
  intros Hb. induction xs as [|x xs IH]; cbn [for_M].
  - apply km_ret.
  - apply km_bind; [apply Hb | intros _; exact IH].
Qed.

Lemma km_fold_M {A B} (f : A -> B -> M A) (l : list B) (a : A) :
  (forall a b, keeps_mate (f a b)) -> keeps_mate (fold_M f l a).
Proof.
  intros Hf. revert a. induction l as [|b l IH]; intros a; cbn [fold_M].
  - apply km_ret.
  - apply km_bind; [apply Hf | intros a'; apply IH].
Qed.

Lemma km_map_M {A B} (f : A -> M B) (xs : list A) :
  (forall x, keeps_mate (f x)) -> keeps_mate (map_M f xs).
Proof.
  intros Hf. induction xs as [|x xs IH]; cbn [map_M].
  - apply km_ret.
  - apply km_bind; [apply Hf | intros y]. apply km_bind; [exact IH | intros ys].
    apply km_ret.
Qed.

Lemma km_while_M {St A} (n : nat) (body : St -> M (step St A)) (s : St) :
  (forall s, keeps_mate (body s)) -> keeps_mate (while_M n body s).
Proof.
  intros Hb. revert s. induction n as [|n IH]; intros s; cbn [while_M].
  - apply km_out_of_fuel.
  - apply km_bind; [apply Hb | intros [s'|a]]; [apply IH | apply km_ret].
Qed.

#[local] Hint Resolve km_ret km_throw km_out_of_fuel km_liftR km_gets km_load
  km_alloc : keeps_mate.

(** Taking apart a monadic program: binds, loops, branches and updates of
    fields other than [vertex_mate]. *)
Ltac km :=
  repeat match goal with
  | |- keeps_mate (mbind _ _) => apply km_bind; [|intros ?]
  | |- keeps_mate ((fun _ => _) _) => cbv beta
  | |- keeps_mate (let _ := _ in _) => cbv zeta
  | |- keeps_mate (for_M _ _) => apply km_for_M; intros ?
  | |- keeps_mate (fold_M _ _ _) => apply km_fold_M; intros ? ?
  | |- keeps_mate (map_M _ _) => apply km_map_M; intros ?
  | |- keeps_mate (while_M _ _ _) => apply km_while_M; intros ?
  | |- keeps_mate (modify _) => apply km_modify; intros ?; reflexivity
  | |- keeps_mate (match ?x with _ => _ end) => destruct x
  | |- keeps_mate ((match ?x with _ => _ end) _) => destruct x
  | |- forall _, keeps_mate _ => intros ?
  | |- keeps_mate _ => solve [eauto with keeps_mate]
  end.

Lemma km_py_assert (b : bool) : keeps_mate (py_assert b).
Proof. unfold py_assert; km. Qed.
Lemma km_py_index {A} (l : list A) (i : Z) : keeps_mate (py_index l i).
Proof. unfold py_index; km. Qed.
Lemma km_py_setitem {A} (l : list A) (i : Z) (a : A) : keeps_mate (py_setitem l i a).
Proof. unfold py_setitem; km. Qed.
Lemma km_py_pop {A} (l : list A) : keeps_mate (py_pop l).
Proof. unfold py_pop; km. Qed.
Lemma km_py_list_index (l : list Z) (x : Z) : keeps_mate (py_list_index l x).
Proof. unfold py_list_index; km. Qed.
Lemma km_deref {A} (o : option A) : keeps_mate (deref o).
Proof. unfold deref; km. Qed.
Lemma km_put (r0 : Z) (o : obj) : keeps_mate (put r0 o).
Proof. unfold put; km. Qed.
Lemma km_fail_half {A} (v : num) : keeps_mate (@fail_half A v).
Proof. unfold fail_half; km. Qed.

#[local] Hint Resolve km_py_assert km_py_index km_py_setitem km_py_pop
  km_py_list_index km_deref km_put km_fail_half : keeps_mate.

Lemma km_get_blossom (a0 : Z) : keeps_mate (get_blossom a0).
Proof. unfold get_blossom; km. Qed.
#[local] Hint Resolve km_get_blossom : keeps_mate.

Lemma km_get_cq (a0 : Z) : keeps_mate (get_cq a0).
Proof. unfold get_cq; km. Qed.
#[local] Hint Resolve km_get_cq : keeps_mate.

Lemma km_get_cqnode (a0 : Z) : keeps_mate (get_cqnode a0).
Proof. unfold get_cqnode; km. Qed.
#[local] Hint Resolve km_get_cqnode : keeps_mate.

Lemma km_get_pq (a0 : Z) : keeps_mate (get_pq a0).
Proof. unfold get_pq; km. Qed.
#[local] Hint Resolve km_get_pq : keeps_mate.

Lemma km_get_pqnode (a0 : Z) : keeps_mate (get_pqnode a0).
Proof. unfold get_pqnode; km. Qed.
#[local] Hint Resolve km_get_pqnode : keeps_mate.

Lemma km_get_set (a0 : Z) : keeps_mate (get_set a0).
Proof. unfold get_set; km. Qed.
#[local] Hint Resolve km_get_set : keeps_mate.

Lemma km_upd_blossom (a0 : Z) (a1 : (blossom -> blossom)) : keeps_mate (upd_blossom a0 a1).
Proof. unfold upd_blossom; km. Qed.
#[local] Hint Resolve km_upd_blossom : keeps_mate.

Lemma km_upd_cq (a0 : Z) (a1 : (cqueue -> cqueue)) : keeps_mate (upd_cq a0 a1).
Proof. unfold upd_cq; km. Qed.
#[local] Hint Resolve km_upd_cq : keeps_mate.

Lemma km_upd_cqnode (a0 : Z) (a1 : (cqnode -> cqnode)) : keeps_mate (upd_cqnode a0 a1).
Proof. unfold upd_cqnode; km. Qed.
#[local] Hint Resolve km_upd_cqnode : keeps_mate.

Lemma km_upd_pqnode (a0 : Z) (a1 : (pqnode -> pqnode)) : keeps_mate (upd_pqnode a0 a1).
Proof. unfold upd_pqnode; km. Qed.
#[local] Hint Resolve km_upd_pqnode : keeps_mate.

Lemma km_set_pq (a0 : Z) (a1 : list Z) : keeps_mate (set_pq a0 a1).
Proof. unfold set_pq; km. Qed.
#[local] Hint Resolve km_set_pq : keeps_mate.

Lemma km_set_set (a0 : Z) (a1 : list Z) : keeps_mate (set_set a0 a1).
Proof. unfold set_set; km. Qed.
#[local] Hint Resolve km_set_set : keeps_mate.

Lemma km_get_nt (a0 : Z) : keeps_mate (get_nt a0).
Proof. unfold get_nt; km. Qed.
#[local] Hint Resolve km_get_nt : keeps_mate.

Lemma km_upd_nt (a0 : Z) (a1 : (ntb -> ntb)) : keeps_mate (upd_nt a0 a1).
Proof. unfold upd_nt; km. Qed.
#[local] Hint Resolve km_upd_nt : keeps_mate.

Lemma km_is_nontrivial (a0 : Z) : keeps_mate (is_nontrivial a0).
Proof. unfold is_nontrivial; km. Qed.
#[local] Hint Resolve km_is_nontrivial : keeps_mate.

Lemma km_set_add (a0 : Z) (a1 : Z) : keeps_mate (set_add a0 a1).
Proof. unfold set_add; km. Qed.
#[local] Hint Resolve km_set_add : keeps_mate.

Lemma km_set_remove (a0 : Z) (a1 : Z) : keeps_mate (set_remove a0 a1).
Proof. unfold set_remove; km. Qed.
#[local] Hint Resolve km_set_remove : keeps_mate.

Lemma km_pq_clear (a0 : Z) : keeps_mate (pq_clear a0).
Proof. unfold pq_clear; km. Qed.
#[local] Hint Resolve km_pq_clear : keeps_mate.

Lemma km_pq_empty (a0 : Z) : keeps_mate (pq_empty a0).
Proof. unfold pq_empty; km. Qed.
#[local] Hint Resolve km_pq_empty : keeps_mate.

Lemma km_pq_find_min (a0 : Z) : keeps_mate (pq_find_min a0).
Proof. unfold pq_find_min; km. Qed.
#[local] Hint Resolve km_pq_find_min : keeps_mate.

Lemma km_pq_set_slot (a0 : Z) (a1 : Z) (a2 : Z) : keeps_mate (pq_set_slot a0 a1 a2).
Proof. unfold pq_set_slot; km. Qed.
#[local] Hint Resolve km_pq_set_slot : keeps_mate.

Lemma km_pq_sift_up (a0 : nat) (a1 : Z) (a2 : Z) : keeps_mate (pq_sift_up a0 a1 a2).
Proof. unfold pq_sift_up; km. Qed.
#[local] Hint Resolve km_pq_sift_up : keeps_mate.

Lemma km_pq_sift_down (a0 : nat) (a1 : Z) (a2 : Z) : keeps_mate (pq_sift_down a0 a1 a2).
Proof. unfold pq_sift_down; km. Qed.
#[local] Hint Resolve km_pq_sift_down : keeps_mate.

Lemma km_pq_insert (a0 : nat) (a1 : Z) (a2 : num) (a3 : Z) : keeps_mate (pq_insert a0 a1 a2 a3).
Proof. unfold pq_insert; km. Qed.
#[local] Hint Resolve km_pq_insert : keeps_mate.

Lemma km_pq_delete (a0 : nat) (a1 : Z) (a2 : Z) : keeps_mate (pq_delete a0 a1 a2).
Proof. unfold pq_delete; km. Qed.
#[local] Hint Resolve km_pq_delete : keeps_mate.

Lemma km_pq_decrease_prio (a0 : nat) (a1 : Z) (a2 : Z) (a3 : num) : keeps_mate (pq_decrease_prio a0 a1 a2 a3).
Proof. unfold pq_decrease_prio; km. Qed.
#[local] Hint Resolve km_pq_decrease_prio : keeps_mate.

Lemma km_pq_increase_prio (a0 : nat) (a1 : Z) (a2 : Z) (a3 : num) : keeps_mate (pq_increase_prio a0 a1 a2 a3).
Proof. unfold pq_increase_prio; km. Qed.
#[local] Hint Resolve km_pq_increase_prio : keeps_mate.

Lemma km_leaf_prio (a0 : Z) : keeps_mate (leaf_prio a0).
Proof. unfold leaf_prio; km. Qed.
#[local] Hint Resolve km_leaf_prio : keeps_mate.

Lemma km_leaf_data (a0 : Z) : keeps_mate (leaf_data a0).
Proof. unfold leaf_data; km. Qed.
#[local] Hint Resolve km_leaf_data : keeps_mate.

Lemma km_min_node_of (a0 : Z) : keeps_mate (min_node_of a0).
Proof. unfold min_node_of; km. Qed.
#[local] Hint Resolve km_min_node_of : keeps_mate.

Lemma km_cq_find (a0 : nat) (a1 : Z) : keeps_mate (cq_find a0 a1).
Proof. unfold cq_find; km. Qed.
#[local] Hint Resolve km_cq_find : keeps_mate.

Lemma km_cq_repair_node (a0 : Z) : keeps_mate (cq_repair_node a0).
Proof. unfold cq_repair_node; km. Qed.
#[local] Hint Resolve km_cq_repair_node : keeps_mate.

Lemma km_cq_set_prio (a0 : nat) (a1 : Z) (a2 : num) : keeps_mate (cq_set_prio a0 a1 a2).
Proof. unfold cq_set_prio; km. Qed.
#[local] Hint Resolve km_cq_set_prio : keeps_mate.

Lemma km_cq_new (a0 : Z) : keeps_mate (cq_new a0).
Proof. unfold cq_new; km. Qed.
#[local] Hint Resolve km_cq_new : keeps_mate.

Lemma km_cq_insert (a0 : Z) (a1 : Z) (a2 : num) : keeps_mate (cq_insert a0 a1 a2).
Proof. unfold cq_insert; km. Qed.
#[local] Hint Resolve km_cq_insert : keeps_mate.

Lemma km_cq_min_prio (a0 : Z) : keeps_mate (cq_min_prio a0).
Proof. unfold cq_min_prio; km. Qed.
#[local] Hint Resolve km_cq_min_prio : keeps_mate.

Lemma km_cq_min_elem (a0 : Z) : keeps_mate (cq_min_elem a0).
Proof. unfold cq_min_elem; km. Qed.
#[local] Hint Resolve km_cq_min_elem : keeps_mate.

Lemma km_cq_new_internal_node (a0 : Z) (a1 : Z) : keeps_mate (cq_new_internal_node a0 a1).
Proof. unfold cq_new_internal_node; km. Qed.
#[local] Hint Resolve km_cq_new_internal_node : keeps_mate.

Lemma km_cq_repair_ancestors (a0 : nat) (a1 : Z) : keeps_mate (cq_repair_ancestors a0 a1).
Proof. unfold cq_repair_ancestors; km. Qed.
#[local] Hint Resolve km_cq_repair_ancestors : keeps_mate.

Lemma km_cq_join_right (a0 : nat) (a1 : Z) (a2 : Z) : keeps_mate (cq_join_right a0 a1 a2).
Proof. unfold cq_join_right; km. Qed.
#[local] Hint Resolve km_cq_join_right : keeps_mate.

Lemma km_cq_join_left (a0 : nat) (a1 : Z) (a2 : Z) : keeps_mate (cq_join_left a0 a1 a2).
Proof. unfold cq_join_left; km. Qed.
#[local] Hint Resolve km_cq_join_left : keeps_mate.

Lemma km_cq_join (a0 : nat) (a1 : Z) (a2 : Z) : keeps_mate (cq_join a0 a1 a2).
Proof. unfold cq_join; km. Qed.
#[local] Hint Resolve km_cq_join : keeps_mate.

Lemma km_join_into_left (a0 : nat) (a1 : Z) (a2 : option Z) : keeps_mate (join_into_left a0 a1 a2).
Proof. unfold join_into_left; km. Qed.
#[local] Hint Resolve km_join_into_left : keeps_mate.

Lemma km_cq_split_tree (a0 : nat) (a1 : Z) : keeps_mate (cq_split_tree a0 a1).
Proof. unfold cq_split_tree; km. Qed.
#[local] Hint Resolve km_cq_split_tree : keeps_mate.

Lemma km_cq_merge (a0 : nat) (a1 : Z) (a2 : list Z) : keeps_mate (cq_merge a0 a1 a2).
Proof. unfold cq_merge; km. Qed.
#[local] Hint Resolve km_cq_merge : keeps_mate.

Lemma km_cq_split (a0 : nat) (a1 : Z) : keeps_mate (cq_split a0 a1).
Proof. unfold cq_split; km. Qed.
#[local] Hint Resolve km_cq_split : keeps_mate.

Lemma km_addM (a0 : num) (a1 : num) : keeps_mate (addM a0 a1).
Proof. unfold addM; km. Qed.
#[local] Hint Resolve km_addM : keeps_mate.

Lemma km_subM (a0 : num) (a1 : num) : keeps_mate (subM a0 a1).
Proof. unfold subM; km. Qed.
#[local] Hint Resolve km_subM : keeps_mate.

Lemma km_mulM (a0 : num) (a1 : num) : keeps_mate (mulM a0 a1).
Proof. unfold mulM; km. Qed.
#[local] Hint Resolve km_mulM : keeps_mate.

Lemma km_num_max (a0 : list num) : keeps_mate (num_max a0).
Proof. unfold num_max; km. Qed.
#[local] Hint Resolve km_num_max : keeps_mate.

Lemma km_num_min (a0 : list num) : keeps_mate (num_min a0).
Proof. unfold num_min; km. Qed.
#[local] Hint Resolve km_num_min : keeps_mate.

Lemma km_vm_get (a0 : Z) : keeps_mate (vm_get a0).
Proof. unfold vm_get; km. Qed.
#[local] Hint Resolve km_vm_get : keeps_mate.

Lemma km_vd_get (a0 : Z) : keeps_mate (vd_get a0).
Proof. unfold vd_get; km. Qed.
#[local] Hint Resolve km_vd_get : keeps_mate.

Lemma km_vd_set (a0 : Z) (a1 : num) : keeps_mate (vd_set a0 a1).
Proof. unfold vd_set; km. Qed.
#[local] Hint Resolve km_vd_set : keeps_mate.

Lemma km_d3n_get (a0 : Z) : keeps_mate (d3n_get a0).
Proof. unfold d3n_get; km. Qed.
#[local] Hint Resolve km_d3n_get : keeps_mate.

Lemma km_d3n_set (a0 : Z) (a1 : option Z) : keeps_mate (d3n_set a0 a1).
Proof. unfold d3n_set; km. Qed.
#[local] Hint Resolve km_d3n_set : keeps_mate.

Lemma km_vsn_get (a0 : Z) : keeps_mate (vsn_get a0).
Proof. unfold vsn_get; km. Qed.
#[local] Hint Resolve km_vsn_get : keeps_mate.

Lemma km_vsn_set (a0 : Z) (a1 : option Z) : keeps_mate (vsn_set a0 a1).
Proof. unfold vsn_set; km. Qed.
#[local] Hint Resolve km_vsn_set : keeps_mate.

Lemma km_new_blossom (a0 : Z) (a1 : option ntb) : keeps_mate (new_blossom a0 a1).
Proof. unfold new_blossom; km. Qed.
#[local] Hint Resolve km_new_blossom : keeps_mate.

Lemma km_new_nontrivial_blossom (a0 : list Z) (a1 : list (Z * Z)) : keeps_mate (new_nontrivial_blossom a0 a1).
Proof. unfold new_nontrivial_blossom; km. Qed.
#[local] Hint Resolve km_new_nontrivial_blossom : keeps_mate.

Lemma km_vertices_step (a0 : list Z * list Z) (a1 : Z) : keeps_mate (vertices_step a0 a1).
Proof. unfold vertices_step; km. Qed.
#[local] Hint Resolve km_vertices_step : keeps_mate.

Lemma km_blossom_vertices (a0 : nat) (a1 : Z) : keeps_mate (blossom_vertices a0 a1).
Proof. unfold blossom_vertices; km. Qed.
#[local] Hint Resolve km_blossom_vertices : keeps_mate.

Lemma km_top_level_blossom (a0 : nat) (a1 : ctx_const) (a2 : Z) : keeps_mate (top_level_blossom a0 a1 a2).
Proof. unfold top_level_blossom; km. Qed.
#[local] Hint Resolve km_top_level_blossom : keeps_mate.

Lemma km_edge_pseudo_slack_2x (a0 : graph_info) (a1 : Z) : keeps_mate (edge_pseudo_slack_2x a0 a1).
Proof. unfold edge_pseudo_slack_2x; km. Qed.
#[local] Hint Resolve km_edge_pseudo_slack_2x : keeps_mate.

Lemma km_delta2_add_edge (a0 : nat) (a1 : graph_info) (a2 : ctx_const) (a3 : Z) (a4 : Z) (a5 : Z) : keeps_mate (delta2_add_edge a0 a1 a2 a3 a4 a5).
Proof. unfold delta2_add_edge; km. Qed.
#[local] Hint Resolve km_delta2_add_edge : keeps_mate.

Lemma km_delta2_remove_edge (a0 : nat) (a1 : ctx_const) (a2 : Z) (a3 : Z) (a4 : Z) : keeps_mate (delta2_remove_edge a0 a1 a2 a3 a4).
Proof. unfold delta2_remove_edge; km. Qed.
#[local] Hint Resolve km_delta2_remove_edge : keeps_mate.

Lemma km_delta2_enable_blossom (a0 : nat) (a1 : ctx_const) (a2 : Z) : keeps_mate (delta2_enable_blossom a0 a1 a2).
Proof. unfold delta2_enable_blossom; km. Qed.
#[local] Hint Resolve km_delta2_enable_blossom : keeps_mate.

Lemma km_delta2_disable_blossom (a0 : nat) (a1 : ctx_const) (a2 : Z) : keeps_mate (delta2_disable_blossom a0 a1 a2).
Proof. unfold delta2_disable_blossom; km. Qed.
#[local] Hint Resolve km_delta2_disable_blossom : keeps_mate.

Lemma km_delta2_clear_vertex (a0 : nat) (a1 : graph_info) (a2 : ctx_const) (a3 : Z) : keeps_mate (delta2_clear_vertex a0 a1 a2 a3).
Proof. unfold delta2_clear_vertex; km. Qed.
#[local] Hint Resolve km_delta2_clear_vertex : keeps_mate.

Lemma km_delta2_get_min_edge (a0 : ctx_const) : keeps_mate (delta2_get_min_edge a0).
Proof. unfold delta2_get_min_edge; km. Qed.
#[local] Hint Resolve km_delta2_get_min_edge : keeps_mate.

Lemma km_delta3_add_edge (a0 : nat) (a1 : graph_info) (a2 : ctx_const) (a3 : Z) : keeps_mate (delta3_add_edge a0 a1 a2 a3).
Proof. unfold delta3_add_edge; km. Qed.
#[local] Hint Resolve km_delta3_add_edge : keeps_mate.

Lemma km_delta3_remove_edge (a0 : nat) (a1 : ctx_const) (a2 : Z) : keeps_mate (delta3_remove_edge a0 a1 a2).
Proof. unfold delta3_remove_edge; km. Qed.
#[local] Hint Resolve km_delta3_remove_edge : keeps_mate.

Lemma km_delta3_get_min_edge (a0 : nat) (a1 : graph_info) (a2 : ctx_const) : keeps_mate (delta3_get_min_edge a0 a1 a2).
Proof. unfold delta3_get_min_edge; km. Qed.
#[local] Hint Resolve km_delta3_get_min_edge : keeps_mate.

Lemma km_update_dual_var (b : Z) (f : num -> M num) :
  (forall v, keeps_mate (f v)) -> keeps_mate (update_dual_var b f).
Proof. intros Hf. unfold update_dual_var; km. Qed.
#[local] Hint Resolve km_update_dual_var : keeps_mate.

Lemma km_assign_blossom_label_s (a0 : nat) (a1 : graph_info) (a2 : ctx_const) (a3 : Z) : keeps_mate (assign_blossom_label_s a0 a1 a2 a3).
Proof. unfold assign_blossom_label_s; km. Qed.
#[local] Hint Resolve km_assign_blossom_label_s : keeps_mate.

Lemma km_assign_blossom_label_t (a0 : nat) (a1 : ctx_const) (a2 : Z) : keeps_mate (assign_blossom_label_t a0 a1 a2).
Proof. unfold assign_blossom_label_t; km. Qed.
#[local] Hint Resolve km_assign_blossom_label_t : keeps_mate.

Lemma km_remove_blossom_label_s (a0 : nat) (a1 : graph_info) (a2 : ctx_const) (a3 : Z) : keeps_mate (remove_blossom_label_s a0 a1 a2 a3).
Proof. unfold remove_blossom_label_s; km. Qed.
#[local] Hint Resolve km_remove_blossom_label_s : keeps_mate.

Lemma km_remove_blossom_label_t (a0 : nat) (a1 : ctx_const) (a2 : Z) : keeps_mate (remove_blossom_label_t a0 a1 a2).
Proof. unfold remove_blossom_label_t; km. Qed.
#[local] Hint Resolve km_remove_blossom_label_t : keeps_mate.

Lemma km_change_s_blossom_to_subblossom (a0 : Z) : keeps_mate (change_s_blossom_to_subblossom a0).
Proof. unfold change_s_blossom_to_subblossom; km. Qed.
#[local] Hint Resolve km_change_s_blossom_to_subblossom : keeps_mate.

Lemma km_reset_blossom_label (a0 : nat) (a1 : graph_info) (a2 : ctx_const) (a3 : Z) : keeps_mate (reset_blossom_label a0 a1 a2 a3).
Proof. unfold reset_blossom_label; km. Qed.
#[local] Hint Resolve km_reset_blossom_label : keeps_mate.

Lemma km_remove_alternating_tree (a0 : nat) (a1 : (list Z -> list Z)) (a2 : graph_info) (a3 : ctx_const) (a4 : Z) : keeps_mate (remove_alternating_tree a0 a1 a2 a3 a4).
Proof. unfold remove_alternating_tree; km. Qed.
#[local] Hint Resolve km_remove_alternating_tree : keeps_mate.

Lemma km_trace_alternating_paths (a0 : nat) (a1 : ctx_const) (a2 : Z) (a3 : Z) : keeps_mate (trace_alternating_paths a0 a1 a2 a3).
Proof. unfold trace_alternating_paths; km. Qed.
#[local] Hint Resolve km_trace_alternating_paths : keeps_mate.

Lemma km_nontrivial_add (a0 : Z) : keeps_mate (nontrivial_add a0).
Proof. unfold nontrivial_add; km. Qed.
#[local] Hint Resolve km_nontrivial_add : keeps_mate.

Lemma km_nontrivial_remove (a0 : Z) : keeps_mate (nontrivial_remove a0).
Proof. unfold nontrivial_remove; km. Qed.
#[local] Hint Resolve km_nontrivial_remove : keeps_mate.

Lemma km_make_blossom (a0 : nat) (a1 : graph_info) (a2 : ctx_const) (a3 : alternating_path) : keeps_mate (make_blossom a0 a1 a2 a3).
Proof. unfold make_blossom; km. Qed.
#[local] Hint Resolve km_make_blossom : keeps_mate.

Lemma km_find_path_through_blossom (a0 : Z) (a1 : Z) : keeps_mate (find_path_through_blossom a0 a1).
Proof. unfold find_path_through_blossom; km. Qed.
#[local] Hint Resolve km_find_path_through_blossom : keeps_mate.

Lemma km_expand_unlabeled_blossom (a0 : nat) (a1 : ctx_const) (a2 : Z) : keeps_mate (expand_unlabeled_blossom a0 a1 a2).
Proof. unfold expand_unlabeled_blossom; km. Qed.
#[local] Hint Resolve km_expand_unlabeled_blossom : keeps_mate.

Lemma km_extend_tree_t_to_s (a0 : nat) (a1 : graph_info) (a2 : ctx_const) (a3 : Z) : keeps_mate (extend_tree_t_to_s a0 a1 a2 a3).
Proof. unfold extend_tree_t_to_s; km. Qed.
#[local] Hint Resolve km_extend_tree_t_to_s : keeps_mate.

Lemma km_expand_t_blossom (a0 : nat) (a1 : graph_info) (a2 : ctx_const) (a3 : Z) : keeps_mate (expand_t_blossom a0 a1 a2 a3).
Proof. unfold expand_t_blossom; km. Qed.
#[local] Hint Resolve km_expand_t_blossom : keeps_mate.

Lemma km_extend_tree_s_to_t (a0 : nat) (a1 : graph_info) (a2 : ctx_const) (a3 : Z) (a4 : Z) : keeps_mate (extend_tree_s_to_t a0 a1 a2 a3 a4).
Proof. unfold extend_tree_s_to_t; km. Qed.
#[local] Hint Resolve km_extend_tree_s_to_t : keeps_mate.

Lemma km_scan_new_s_vertices (a0 : nat) (a1 : graph_info) (a2 : ctx_const) : keeps_mate (scan_new_s_vertices a0 a1 a2).
Proof. unfold scan_new_s_vertices; km. Qed.
#[local] Hint Resolve km_scan_new_s_vertices : keeps_mate.

Lemma km_calc_dual_delta_step (a0 : nat) (a1 : graph_info) (a2 : ctx_const) : keeps_mate (calc_dual_delta_step a0 a1 a2).
Proof. unfold calc_dual_delta_step; km. Qed.
#[local] Hint Resolve km_calc_dual_delta_step : keeps_mate.

Lemma km__verify_blossom_edges (a0 : nat) (a1 : graph_info) (a2 : Z) (a3 : list num) : keeps_mate (_verify_blossom_edges a0 a1 a2 a3).
Proof. unfold _verify_blossom_edges; km. Qed.
#[local] Hint Resolve km__verify_blossom_edges : keeps_mate.

Lemma kmi_of_km {A} (P : A -> Prop) (m : M A) : keeps_mate m -> keeps_mate_if P m.
Proof. intros Hm w w' a H _. exact (Hm _ _ _ H). Qed.

Lemma kmi_of_never {A} (P : A -> Prop) (m : M A) : never_returns P m -> keeps_mate_if P m.
Proof. intros Hm w w' a H HP. destruct (Hm _ _ _ H HP). Qed.

Lemma kmi_bind {A B} (Q : A -> Prop) (P : B -> Prop) (m : M A) (k : A -> M B) :
  keeps_mate_if Q m ->
  (forall a, (Q a /\ keeps_mate_if P (k a)) \/ never_returns P (k a)) ->
  keeps_mate_if P (m ≫= k).
Proof.
  intros Hm Hk w w' b H HP. unfold mbind, M_bind in H.
  destruct (m w) as [[w1 [a|e]]|] eqn:E; [|discriminate|discriminate].
  destruct (Hk a) as [[HQ Hka]|Hka].
  - rewrite (Hka _ _ _ H HP). exact (Hm _ _ _ E HQ).
  - destruct (Hka _ _ _ H HP).
Qed.

Lemma kmi_bind_km {A B} (P : B -> Prop) (m : M A) (k : A -> M B) :
  keeps_mate m -> (forall a, keeps_mate_if P (k a)) -> keeps_mate_if P (m ≫= k).
Proof.
  intros Hm Hk. apply (kmi_bind (fun _ => True)); [apply kmi_of_km, Hm|].
  intros a. left. split; [exact I | apply Hk].
Qed.

Lemma never_bind {A B} (P : B -> Prop) (m : M A) (k : A -> M B) :
  (forall a, never_returns P (k a)) -> never_returns P (m ≫= k).
Proof.
  intros Hk w w' b H. unfold mbind, M_bind in H.
  destruct (m w) as [[w1 [a|e]]|]; [exact (Hk a _ _ _ H)|discriminate|discriminate].
Qed.

Lemma never_ret {A} (P : A -> Prop) (a : A) : ~ P a -> never_returns P (mret a).
Proof. intros HP w w' b H. injection H as _ <-. exact HP. Qed.

Lemma kmi_while_M {St A} (P : A -> Prop) (n : nat) (body : St -> M (step St A)) (s : St) :
  (forall s, keeps_mate_if
     (fun st => match st with Continue _ => True | Break a => P a end) (body s)) ->
  keeps_mate_if P (while_M n body s).
Proof.
  intros Hb. revert s. induction n as [|n IH]; intros s; cbn [while_M].
  - intros w w' a H. discriminate.
  - intros w w' a H HP. unfold mbind, M_bind in H.
    destruct (body s w) as [[w1 [[s'|a']|e]]|] eqn:E; [| |discriminate|discriminate].
    + rewrite (IH s' _ _ _ H HP). exact (Hb s _ _ _ E I).
    + injection H as <- ->. exact (Hb s _ _ _ E HP).
Qed.

(** [add_s_to_s_edge] writes [vertex_mate] only on the way to [True]:
    [augment_matching] is called only when the two trees differ. *)
Lemma add_s_to_s_edge_false_keeps_mate (fuel : nat) (set_iter : list Z -> list Z)
    (g : graph_info) (c : ctx_const) (x y : Z) :
  keeps_mate_if (fun r => r = false) (add_s_to_s_edge fuel set_iter g c x y).
Proof.
  unfold add_s_to_s_edge.
  repeat (apply kmi_bind_km; [solve [km] | intros ?]).
  destruct (bool_decide _).
  - apply kmi_of_km. km.
  - apply kmi_of_never. repeat (apply never_bind; intros ?).
    apply never_ret. discriminate.
Qed.

(** Extra X15.  A call of [run_stage] that returns
    [False] leaves [vertex_mate] unchanged, so it matches no new vertex:
    the stage loop of [maximum_weight_matching] ends with such a call.
    [vertex_mate] is written only by [augment_matching], which a stage
    reaches only on its way to returning [True]. *)
Theorem run_stage_false_keeps_vertex_mate (fuel : nat) (set_iter : list Z -> list Z)
    (g : graph_info) (c : ctx_const) (w w' : world) :
  run_stage fuel set_iter g c w = Some (w', Ok false) ->
  w'.(w_vertex_mate) = w.(w_vertex_mate) /\
  matched_count w'.(w_vertex_mate) = matched_count w.(w_vertex_mate).
Proof.
  intros H.
  assert (Hk : keeps_mate_if (fun r => r = false) (run_stage fuel set_iter g c)).
  { unfold run_stage. apply kmi_while_M. intros [].
    repeat (apply kmi_bind_km; [solve [km] | intros ?]).
    repeat match goal with
    | |- keeps_mate_if _ (match ?x with _ => _ end) => destruct x
    | |- keeps_mate_if _ (mbind _ _) => apply kmi_bind_km; [solve [km] | intros ?]
    end.
    - apply kmi_of_km. km.
    - apply (kmi_bind (fun r => r = false));
        [apply add_s_to_s_edge_false_keeps_mate | intros [|]].
      + right. apply never_ret. discriminate.
      + left. split; [reflexivity|]. apply kmi_of_km, km_ret.
    - apply kmi_of_km. km.
    - apply kmi_of_km. km. }
  pose proof (Hk _ _ _ H eq_refl) as Hm. rewrite Hm. split; reflexivity.
Qed.

Lemma run_stage_false_keeps_vertex_mate_witness :
  exists g c w w',
    (stage_setup 100 id [(0, 1, NInt 1)] ≫= fun '(g, c) =>
       run_stage 100 id g c;; mret (g, c)) init_world = Some (w, Ok (g, c)) /\
    run_stage 100 id g c w = Some (w', Ok false) /\
    w'.(w_vertex_mate) = w.(w_vertex_mate) /\
    matched_count w'.(w_vertex_mate) = matched_count w.(w_vertex_mate).
Proof.
  let v := eval vm_compute in
    ((stage_setup 100 id [(0, 1, NInt 1)] ≫= fun '(g, c) =>
       run_stage 100 id g c;; mret (g, c)) init_world) in
  lazymatch v with
  | Some (?w, Ok (?g, ?c)) =>
      let v' := eval vm_compute in (run_stage 100 id g c w) in
      lazymatch v' with
      | Some (?w', _) =>
          exists g, c, w, w';
          assert (H : run_stage 100 id g c w = Some (w', Ok false))
            by (vm_compute; reflexivity);
          split; [vm_compute; reflexivity|]; split; [exact H|];
          exact (run_stage_false_keeps_vertex_mate 100 id g c w w' H)
      end
  end.
Defined.

(* ------------------------------------------------------------------ *)
(** *** The matching read off [vertex_mate] *)

Lemma bind_ok_inv {A B} (m : M A) (k : A -> M B) (w w' : world) (b : B) :
  (m ≫= k) w = Some (w', Ok b) ->
  exists w1 a, m w = Some (w1, Ok a) /\ k a w1 = Some (w', Ok b).
Proof.
  unfold mbind, M_bind. destruct (m w) as [[w1 [a|e]]|]; intros H;
    [eauto|discriminate|discriminate].
Qed.

Lemma fold_M_ok_forall {A B} (P : B -> Prop) (f : A -> B -> M A) (l : list B) (a : A)
    (w w' : world) (r : A) :
  (forall a x w w' r, f a x w = Some (w', Ok r) -> P x) ->
  fold_M f l a w = Some (w', Ok r) -> Forall P l.
Proof.
  intros Hf. revert a w. induction l as [|x l IH]; intros a w H; [constructor|].
  cbn [fold_M] in H. apply bind_ok_inv in H as (w1 & a1 & H1 & H2).
  constructor; [exact (Hf _ _ _ _ _ H1) | exact (IH _ _ H2)].
Qed.

Lemma py_index_ok {A} (l : list A) (i : Z) (w w' : world) (a : A) :
  py_index l i w = Some (w', Ok a) -> w' = w /\ (py_pos l i ≫= fun j => l !! j) = Some a.
Proof.
  unfold py_index. destruct (py_pos l i ≫= _); intros H; [|discriminate].
  injection H as <- <-. split; reflexivity.
Qed.

Lemma py_get_nonneg {A} (l : list A) (i : Z) :
  0 <= i -> (py_pos l i ≫= fun j => l !! j) = l !! Z.to_nat i.
Proof.
  intros Hi. unfold py_pos.
  destruct (Z.ltb_spec i 0); [lia|].
  destruct (Z.leb_spec 0 i); [|lia]. destruct (Z.ltb_spec i (Z.of_nat (length l))).
  - reflexivity.
  - simpl. symmetry. apply lookup_ge_None_2. lia.
Qed.

Lemma in_py_range (n x : Z) : 0 <= x < n -> In x (py_range n).
Proof.
  intros Hx. unfold py_range. apply in_map_iff. exists (Z.to_nat x).
  split; [lia|]. apply in_seq. lia.
Qed.

(** The number of vertices [GraphInfo] computes bounds every endpoint. *)
Lemma fold_max_bound (l : list edge) (m : Z) :
  m <= fold_left (fun m '(x, y, _) => Z.max m (Z.max x y)) l m /\
  forall x y w, In (x, y, w) l ->
    x <= fold_left (fun m '(x, y, _) => Z.max m (Z.max x y)) l m /\
    y <= fold_left (fun m '(x, y, _) => Z.max m (Z.max x y)) l m.
Proof.
  revert m. induction l as [|[[x0 y0] w0] l IH]; intros m; cbn [fold_left].
  - split; [lia | intros ? ? ? []].
  - destruct (IH (Z.max m (Z.max x0 y0))) as [Hm Hl]. split; [lia|].
    intros x y w [Heq|Hin]; [injection Heq as -> -> ->; lia|].
    exact (Hl x y w Hin).
Qed.

Lemma graph_info_init_ok (edges : list edge) (w w' : world) (g : graph_info) :
  graph_info_init edges w = Some (w', Ok g) ->
  g.(g_integer_weights) =
    forallb (fun '(_, _, w) => match w with NInt _ => true | _ => false end) edges /\
  forall x y wt, In (x, y, wt) edges -> x < g.(g_num_vertex) /\ y < g.(g_num_vertex).
Proof.
  unfold graph_info_init. intros H.
  apply bind_ok_inv in H as (w1 & adj & _ & H). injection H as _ <-.
  split; [reflexivity|]. cbn [g_num_vertex].
  destruct edges as [|[[x0 y0] w0] es]; [intros ? ? ? []|].
  destruct (fold_max_bound es (Z.max x0 y0)) as [Hm Hl].
  intros x y wt [Heq|Hin]; [injection Heq as -> -> ->; lia|].
  destruct (Hl x y wt Hin). lia.
Qed.

(** [verify_optimum] checks that [vertex_mate] is symmetric. *)
Lemma verify_optimum_mate_symmetric (fuel : nat) (set_iter : list Z -> list Z)
    (g : graph_info) (w w' : world) :
  verify_optimum fuel set_iter g w = Some (w', Ok tt) ->
  forall x y, 0 <= x < g.(g_num_vertex) -> 0 <= y ->
    w.(w_vertex_mate) !! Z.to_nat x = Some y ->
    w.(w_vertex_mate) !! Z.to_nat y = Some x.
Proof.
  unfold verify_optimum. cbv zeta. intros H.
  apply bind_ok_inv in H as (w1 & vm & Hvm & H). injection Hvm as <- <-.
  apply bind_ok_inv in H as (w2 & n & Hf & _).
  assert (Hall : Forall (fun x => forall y,
      (py_pos (w_vertex_mate w) x ≫= fun j => w_vertex_mate w !! j) = Some y ->
      y <> -1 ->
      (py_pos (w_vertex_mate w) y ≫= fun j => w_vertex_mate w !! j) = Some x) (py_range (g_num_vertex g))).
  { refine (fold_M_ok_forall _ _ _ _ _ _ _ _ Hf).
    intros cnt x0 w0 w0' r H0 y0 Hy0 Hne.
    apply bind_ok_inv in H0 as (w3 & y1 & Hy1 & H0).
    apply py_index_ok in Hy1 as [-> Hy1]. rewrite Hy1 in Hy0. injection Hy0 as ->.
    destruct (Z.eqb_spec y0 (-1)) as [|_]; [contradiction|]. cbn [negb] in H0.
    apply bind_ok_inv in H0 as (w4 & my & Hmy & H0).
    apply py_index_ok in Hmy as [-> Hmy].
    destruct (Z.eqb_spec my x0) as [->|]; [exact Hmy | discriminate]. }
  intros x y Hx Hy Hxy.
  rewrite List.Forall_forall in Hall.
  specialize (Hall x (in_py_range _ _ Hx) y).
  rewrite (py_get_nonneg (w_vertex_mate w) x) in Hall by lia. rewrite (py_get_nonneg (w_vertex_mate w) y) in Hall by lia.
  apply Hall; [exact Hxy | lia].
Qed.

(** With integer weights, the [vertex_mate] that [maximum_weight_matching]
    reads its pairs from is symmetric on the endpoints of the edges. *)
Lemma matching_core_integer_symmetric (fuel : nat) (set_iter : list Z -> list Z)
    (edges : list edge) (w : world) (vm : list Z) :
  matching_core_M fuel set_iter edges init_world = Some (w, Ok vm) ->
  forallb (fun '(_, _, w) => match w with NInt _ => true | _ => false end) edges = true ->
  forall x y wt, In (x, y, wt) edges -> 0 <= x -> 0 <= y ->
    vm !! Z.to_nat x = Some y -> vm !! Z.to_nat y = Some x.
Proof.
  unfold matching_core_M. intros H Hint.
  apply bind_ok_inv in H as (w1 & g & Hg & H). cbv beta in H.
  apply bind_ok_inv in H as (w2 & c & _ & H). cbv beta in H.
  apply bind_ok_inv in H as (w3 & [] & _ & H). cbv beta in H.
  apply bind_ok_inv in H as (w4 & [] & _ & H). cbv beta in H.
  apply bind_ok_inv in H as (w5 & [] & _ & H). cbv beta in H.
  apply bind_ok_inv in H as (w6 & vm0 & Hvm & H). cbv beta in H.
  injection Hvm as <- <-.
  apply bind_ok_inv in H as (w7 & [] & Hv & H). cbv beta in H.
  injection H as _ <-.
  destruct (graph_info_init_ok _ _ _ _ Hg) as [Hiw Hnv].
  rewrite Hiw, Hint in Hv.
  intros x y wt Hin Hx Hy Hxy. destruct (Hnv x y wt Hin).
  exact (verify_optimum_mate_symmetric _ _ _ _ _ Hv x y ltac:(lia) Hy Hxy).
Qed.

(** [(x, y)] and [(y, x)] as an unordered pair. *)
Definition pair_endpoint (p : Z * Z) : Z * Z := edge_endpoint (p.1, p.2, NInt 0).

Lemma extract_pairs_mate (l : list edge) (vm : list Z) (x y : Z) :
  In (x, y) (extract_pairs l vm) ->
  exists w, In (x, y, w) l /\ vm !! Z.to_nat x = Some y.
Proof.
  unfold extract_pairs. intros H.
  apply list_elem_of_In, list_elem_of_omap in H as ([[u v] w] & Hin & Hf).
  exists w. unfold mate_is in Hf.
  destruct (bool_decide_reflect (vm !! Z.to_nat u = Some v)) as [Hm|]; [|discriminate].
  injection Hf as -> ->. split; [apply list_elem_of_In, Hin | exact Hm].
Qed.

Lemma endpoints_unique_NoDup (l : list edge) :
  (forall i j e1 e2, l !! i = Some e1 -> l !! j = Some e2 ->
     edge_endpoint e1 = edge_endpoint e2 -> i = j) ->
  NoDup (map edge_endpoint l).
Proof.
  induction l as [|e l IH]; intros H; cbn [map]; [constructor|].
  constructor.
  - intros Hin. apply list_elem_of_In, in_map_iff in Hin as (e' & He' & Hin).
    apply list_elem_of_In, list_elem_of_lookup_1 in Hin as [k Hk].
    discriminate (H 0%nat (Datatypes.S k) e e' eq_refl Hk (eq_sym He')).
  - apply IH. intros i j e1 e2 Hi Hj He.
    injection (H (Datatypes.S i) (Datatypes.S j) e1 e2 Hi Hj He). auto.
Qed.

Lemma NoDup_map_filter {A B} (f : A -> B) (P : A -> Prop) `{!forall x, Decision (P x)}
    (l : list A) :
  NoDup (map f l) -> NoDup (map f (filter P l)).
Proof.
  induction l as [|a l IH]; intros Hnd; [constructor|].
  cbn [map] in Hnd. apply NoDup_cons in Hnd as [Ha Hl].
  rewrite filter_cons. destruct (decide (P a)); [|auto].
  cbn [map]. constructor; [|auto].
  intros Hin. apply Ha. apply list_elem_of_In, in_map_iff in Hin as (x & <- & Hx).
  apply list_elem_of_In, in_map_iff. exists x. split; [reflexivity|].
  apply list_elem_of_In in Hx. apply list_elem_of_filter in Hx as [_ Hx].
  apply list_elem_of_In, Hx.
Qed.

Lemma extract_pairs_NoDup (l : list edge) (vm : list Z) :
  NoDup (map edge_endpoint l) -> NoDup (map pair_endpoint (extract_pairs l vm)).
Proof.
  unfold extract_pairs. induction l as [|[[x y] w] l IH]; intros H; [constructor|].
  cbn [map] in H. apply NoDup_cons in H as [Ha Hl].
  cbn [omap list_omap]. destruct (mate_is vm x y); [|auto].
  cbn [map]. constructor; [|auto].
  intros Hin. apply Ha. apply list_elem_of_In, in_map_iff in Hin as (p & Hp & Hin).
  apply list_elem_of_In, list_elem_of_omap in Hin as ([[u v] w'] & Hin & Hf).
  apply list_elem_of_In, in_map_iff. exists (u, v, w').
  split; [|apply list_elem_of_In, Hin].
  destruct (mate_is vm u v); [|discriminate]. injection Hf as <-.
  cbn [pair_endpoint edge_endpoint fst snd] in Hp |- *. exact Hp.
Qed.

Lemma check_edge_types_nonneg (e : pyval) (x y : Z) (w : num) :
  _check_edge_types e = Ok tt -> edge_of e = Some (x, y, w) -> 0 <= x /\ 0 <= y.
Proof.
  intros Hc He. apply edge_of_inv in He as ->. unfold _check_edge_types in Hc.
  destruct (Z.ltb_spec x 0), (Z.ltb_spec y 0); cbn [orb] in Hc;
    try discriminate; lia.
Qed.

(** X1, the part of claim C1 proved here.  Every pair that
    [maximum_weight_matching] returns is an input edge; and when every
    weight is an integer, so that [verify_optimum] runs and checks that
    [vertex_mate] is symmetric, two different pairs of the result share no
    vertex.  This holds for every order of set iteration. *)
Theorem maximum_weight_matching_integer_pairs_valid (fuel : nat)
    (set_iter : list Z -> list Z) (es : list pyval) (pairs : list (Z * Z)) :
  maximum_weight_matching fuel set_iter (PyList es) = Some (Ok pairs) ->
  (forall x y, In (x, y) pairs -> exists w, In (x, y, w) (edge_view (PyList es))) /\
  (forallb (fun '(_, _, w) => match w with NInt _ => true | _ => false end)
     (edge_view (PyList es)) = true ->
   forall (i j : nat) (x1 y1 x2 y2 : Z),
     pairs !! i = Some (x1, y1) -> pairs !! j = Some (x2, y2) -> i <> j ->
     x1 <> x2 /\ x1 <> y2 /\ y1 <> x2 /\ y1 <> y2).
Proof.
  intros H. unfold maximum_weight_matching in H.
  destruct (_check_input_types (PyList es)) as [[]|] eqn:Ht; [|discriminate].
  set (L := edge_view (PyList es)) in *.
  destruct (_check_input_graph L) as [[]|] eqn:Hg; [|discriminate].
  destruct (_remove_negative_weight_edges L) as [|e0 rest] eqn:Hr.
  { injection H as <-. split; [intros ? ? []|].
    intros _ i j x1 y1 x2 y2 Hi. discriminate. }
  destruct (matching_core_M fuel set_iter (e0 :: rest) init_world)
    as [[w [vm|e]]|] eqn:Hc; [|discriminate|discriminate].
  assert (Hp : extract_pairs (e0 :: rest) vm = pairs) by congruence.
  clear H. subst pairs.
  assert (Hsub : forall e, In e (e0 :: rest) -> In e L).
  { intros e He. rewrite <- Hr in He. apply remove_negative_in in He. apply He. }
  assert (Hnn : forall x y wt, In (x, y, wt) L -> 0 <= x /\ 0 <= y).
  { intros x y wt Hin. apply list_elem_of_In, list_elem_of_omap in Hin as (e & He & Hof).
    apply (check_edge_types_nonneg e x y wt); [|exact Hof].
    exact (for_each_all_ok _ _ Ht e (proj1 (list_elem_of_In _ _) He)). }
  split.
  { intros x y Hin. apply extract_pairs_in in Hin as [wt Hin].
    exists wt. apply Hsub, Hin. }
  intros Hint i j x1 y1 x2 y2 Hi Hj Hij.
  assert (Hint' : forallb (fun '(_, _, w) => match w with NInt _ => true | _ => false end)
                    (e0 :: rest) = true).
  { apply forallb_forall. intros e He. apply Hsub in He.
    rewrite forallb_forall in Hint. exact (Hint e He). }
  assert (Hmate : forall x y, In (x, y) (extract_pairs (e0 :: rest) vm) ->
            vm !! Z.to_nat x = Some y /\ vm !! Z.to_nat y = Some x).
  { intros x y Hin. apply extract_pairs_mate in Hin as (wt & Hin & Hxy).
    destruct (Hnn x y wt (Hsub _ Hin)) as [Hx Hy].
    split; [exact Hxy|].
    exact (matching_core_integer_symmetric _ _ _ _ _ Hc Hint' x y wt Hin Hx Hy Hxy). }
  assert (Hnd : NoDup (map pair_endpoint (extract_pairs (e0 :: rest) vm))).
  { apply extract_pairs_NoDup. rewrite <- Hr.
    assert (HL : NoDup (map edge_endpoint L)).
    { apply endpoints_unique_NoDup. intros i' j' e1 e2 Hi' Hj' He.
      exact (check_input_graph_endpoints_unique L i' j' e1 e2 Hg Hi' Hj' He). }
    unfold _remove_negative_weight_edges.
    destruct (existsb (fun '(_, _, w) => num_lt0 w) L); [apply NoDup_map_filter|];
      exact HL. }
  assert (Hne : pair_endpoint (x1, y1) <> pair_endpoint (x2, y2)).
  { intros Heq. apply Hij.
    apply (NoDup_lookup _ i j (pair_endpoint (x1, y1)) Hnd).
    - apply map_lookup_some, Hi.
    - rewrite Heq. apply map_lookup_some, Hj. }
  destruct (Hmate x1 y1) as [Hx1 Hy1];
    [apply list_elem_of_In, (list_elem_of_lookup_2 _ i), Hi|].
  destruct (Hmate x2 y2) as [Hx2 Hy2];
    [apply list_elem_of_In, (list_elem_of_lookup_2 _ j), Hj|].
  unfold pair_endpoint in Hne. cbn [fst snd] in Hne.
  repeat split; intros Heq; apply Hne, edge_endpoint_same; subst.
  - left. split; [reflexivity|]. congruence.
  - right. split; [reflexivity|]. congruence.
  - right. split; [|reflexivity]. congruence.
  - left. split; [|reflexivity]. congruence.
Qed.

Lemma maximum_weight_matching_integer_pairs_valid_witness :
  maximum_weight_matching 100 id
    (PyList [PyTuple [PyInt 0; PyInt 1; PyInt 1]; PyTuple [PyInt 2; PyInt 3; PyInt 1]])
    = Some (Ok [(0, 1); (2, 3)]) /\
  (0 <> 2 /\ 0 <> 3 /\ 1 <> 2 /\ 1 <> 3).
Proof.
  assert (H : maximum_weight_matching 100 id
    (PyList [PyTuple [PyInt 0; PyInt 1; PyInt 1]; PyTuple [PyInt 2; PyInt 3; PyInt 1]])
    = Some (Ok [(0, 1); (2, 3)])) by (vm_compute; reflexivity).
  split; [exact H|].
  apply (proj2 (maximum_weight_matching_integer_pairs_valid 100 id _ _ H)
           ltac:(reflexivity) 0%nat 1%nat); [reflexivity|reflexivity|discriminate].
Defined.

Lemma set_order_small (set_iter : list Z -> list Z) :
  set_order set_iter -> set_iter = small_sets_fixed set_iter.
Proof.
  intros H. apply functional_extensionality. intros [|a [|b l]]; cbn [small_sets_fixed].
  - apply Permutation_nil. symmetry. apply H.
  - apply Permutation_length_1_inv. symmetry. apply H.
  - reflexivity.
Qed.

Lemma set_order_id : set_order id.
Proof. intros l. reflexivity. Qed.

Lemma set_order_reverse : set_order (@reverse Z).
Proof. intros l. apply reverse_Permutation. Qed.

(** Claim C10.  [_remove_negative_weight_edges] keeps every edge of weight
    zero ([0], [0.0] or [-0.0]); and for [[(0, 1, 0)]] (and [[(0, 1, 0.0)]])
    [maximum_weight_matching] returns [[(0, 1)]], whatever order CPython
    visits the sets of blossoms in. *)
Theorem maximum_weight_matching_zero_weight_edge :
  (forall (es : list edge) (x y : Z) (w : num),
     (x, y, w) ∈ es -> (w = NInt 0 \/ w = NFloat 0 \/ w = NFloat (-0)) ->
     (x, y, w) ∈ _remove_negative_weight_edges es) /\
  (forall set_iter : list Z -> list Z, set_order set_iter ->
     maximum_weight_matching 100 set_iter zero_edge_int = Some (Ok [(0, 1)]) /\
     maximum_weight_matching 100 set_iter zero_edge_float = Some (Ok [(0, 1)])).
Proof.
  split.
  - intros es x y w Hin Hw. unfold _remove_negative_weight_edges.
    destruct (existsb (fun '(_, _, w) => num_lt0 w) es); [|exact Hin].
    apply list_elem_of_filter. split; [|exact Hin].
    destruct Hw as [->|[->| ->]]; reflexivity.
  - intros set_iter H. rewrite (set_order_small set_iter H).
    split; vm_compute; reflexivity.
Qed.

Lemma maximum_weight_matching_zero_weight_edge_witness :
  (0, 1, NInt 0) ∈ _remove_negative_weight_edges [(0, 1, NInt 0); (1, 2, NInt (-1))] /\
  maximum_weight_matching 100 id zero_edge_int = Some (Ok [(0, 1)]).
Proof.
  split.
  - apply (proj1 maximum_weight_matching_zero_weight_edge); [constructor|].
    left; reflexivity.
  - exact (proj1 (proj2 maximum_weight_matching_zero_weight_edge id set_order_id)).
Defined.

(** Claim C8.  Two runs on the same list can return different pairs: with
    the sets of blossoms visited in insertion order the result is
    [[(4, 1), (2, 3), (0, 5)]], in reverse order it is
    [[(1, 0), (2, 3), (4, 5)]]; both orders occur in CPython, where a set
    of [Blossom] objects is ordered by their addresses. *)
Lemma maximum_weight_matching_set_order_counterexample :
  set_order id /\ set_order (@reverse Z) /\
  maximum_weight_matching 100 id set_order_edges = Some (Ok [(4, 1); (2, 3); (0, 5)]) /\
  maximum_weight_matching 100 (@reverse Z) set_order_edges
    = Some (Ok [(1, 0); (2, 3); (4, 5)]).
Proof.
  split; [exact set_order_id|]. split; [exact set_order_reverse|].
  split; vm_compute; reflexivity.
Qed.

(** Extra X16.  On [[(0, 1, 1)]] the first stage matches both vertices and
    returns [True]; the second stage finds no augmenting path, returns
    [False] and leaves the two matched vertices as they were: a completed
    stage that adds no matched vertex. *)
Lemma run_stage_matched_count_counterexample :
  match stage_trace 100 id [(0, 1, NInt 1)] init_world with
  | Some (_, Ok trace) => trace = [(true, 0%nat, 2%nat); (false, 2%nat, 2%nat)]
  | _ => False
  end.
Proof. vm_compute. reflexivity. Qed.

(** The parent slot of slot [j] in a binary heap. *)
Definition par (j : nat) : nat := Nat.div (j - 1) 2.

(** Binary-heap order of a list of priorities. *)
Definition heap_ok (ps : list Z) : Prop :=
  forall j, (0 < j < length ps)%nat -> ps !!! par j <= ps !!! j.

(** The order during [_sift_up] at [pos]: every parent edge holds but the
    one into [pos], and the parent of [pos] is below the children of [pos]. *)
Definition up_inv (ps : list Z) (pos : nat) : Prop :=
  (forall j, (0 < j < length ps)%nat -> j <> pos -> ps !!! par j <= ps !!! j) /\
  (forall c, (0 < pos)%nat -> (c < length ps)%nat -> (0 < c)%nat -> par c = pos ->
     ps !!! par pos <= ps !!! c).

(** The order during [_sift_down] at [pos]: every parent edge holds but the
    ones out of [pos], and the parent of [pos] is below the children of
    [pos]. *)
Definition down_inv (ps : list Z) (pos : nat) : Prop :=
  (forall j, (0 < j < length ps)%nat -> par j <> pos -> ps !!! par j <= ps !!! j) /\
  (forall c, (0 < pos)%nat -> (c < length ps)%nat -> (0 < c)%nat -> par c = pos ->
     ps !!! par pos <= ps !!! c).

Definition swap {T} `{Inhabited T} (ps : list T) (i j : nat) : list T :=
  <[i := ps !!! j]> (<[j := ps !!! i]> ps).

Lemma par_lt j : (0 < j)%nat -> (par j < j)%nat.
Proof.
  unfold par. intros. pose proof (Nat.div_mod (j - 1) 2 ltac:(lia)).
  pose proof (Nat.mod_upper_bound (j - 1) 2 ltac:(lia)). lia.
Qed.

Lemma par_spec j p : (0 < j)%nat -> par j = p <-> (j = 2 * p + 1 \/ j = 2 * p + 2)%nat.
Proof.
  unfold par. intros Hj. split.
  - intros <-. pose proof (Nat.div_mod (j - 1) 2 ltac:(lia)).
    pose proof (Nat.mod_upper_bound (j - 1) 2 ltac:(lia)). lia.
  - intros [-> | ->].
    + replace (2 * p + 1 - 1)%nat with (p * 2)%nat by lia. apply Nat.div_mul; lia.
    + replace (2 * p + 2 - 1)%nat with (1 + p * 2)%nat by lia.
      rewrite Nat.div_add by lia. simpl. lia.
Qed.

Lemma lookup_total_insert_Z {T} `{Inhabited T} (ps : list T) i j v :
  (i < length ps)%nat -> <[i := v]> ps !!! j = if decide (i = j) then v else ps !!! j.
Proof.
  intros Hi. rewrite list_lookup_total_insert. repeat case_decide; tauto.
Qed.

Lemma swap_length {T} `{Inhabited T} (ps : list T) i j : length (swap ps i j) = length ps.
Proof. unfold swap. by rewrite !length_insert. Qed.

Lemma swap_lookup {T} `{Inhabited T} (ps : list T) i j k :
  (i < length ps)%nat -> (j < length ps)%nat ->
  swap ps i j !!! k = if decide (k = i) then ps !!! j
                      else if decide (k = j) then ps !!! i else ps !!! k.
Proof.
  intros Hi Hj. unfold swap.
  rewrite lookup_total_insert_Z by (rewrite length_insert; lia).
  rewrite lookup_total_insert_Z by lia.
  repeat destruct decide; subst; try lia; done.
Qed.

Lemma up_step ps pos :
  up_inv ps pos -> (0 < pos < length ps)%nat -> ps !!! pos < ps !!! par pos ->
  up_inv (swap ps pos (par pos)) (par pos).
Proof.
  intros [H1 H2] Hpos Hlt. pose proof (par_lt pos ltac:(lia)) as Hpl.
  split; rewrite swap_length; [intros j Hj Hne | intros c Ht Hc Hc0 Hpc].
  - pose proof (par_lt j ltac:(lia)).
    rewrite !swap_lookup by lia.
    repeat case_decide; try lia.
    + apply H2; (lia || done).
    + pose proof (H1 j ltac:(lia) ltac:(lia)). rewrite H3 in *. lia.
    + subst. congruence.
    + apply H1; lia.
  - pose proof (par_lt (par pos) ltac:(lia)). pose proof (par_lt c ltac:(lia)).
    rewrite !swap_lookup by lia.
    repeat case_decide; try lia.
    + pose proof (H1 (par pos) ltac:(lia) ltac:(lia)). lia.
    + pose proof (H1 (par pos) ltac:(lia) ltac:(lia)).
      pose proof (H1 c ltac:(lia) ltac:(lia)). rewrite Hpc in *. lia.
Qed.

Lemma up_done ps pos :
  up_inv ps pos -> (pos = 0%nat \/ ps !!! par pos <= ps !!! pos) -> heap_ok ps.
Proof.
  intros [H1 _] Hd j Hj. destruct (decide (j = pos)) as [->|]; [|apply H1; lia].
  destruct Hd; [lia|done].
Qed.

Lemma down_step ps pos m :
  down_inv ps pos -> (0 < m < length ps)%nat -> par m = pos ->
  (forall c, (0 < c < length ps)%nat -> par c = pos -> ps !!! m <= ps !!! c) ->
  ps !!! m < ps !!! pos ->
  down_inv (swap ps pos m) m.
Proof.
  intros [H1 H2] Hm Hpm Hmin Hlt. pose proof (par_lt m ltac:(lia)) as Hpl.
  split; rewrite swap_length; [intros j Hj Hne | intros c Ht Hc Hc0 Hpc].
  - pose proof (par_lt j ltac:(lia)).
    rewrite !swap_lookup by lia.
    repeat case_decide; subst; try lia; try congruence.
    + pose proof (Hmin j ltac:(lia) ltac:(done)). lia.
    + apply H2; (lia || done).
    + apply H1; lia.
  - pose proof (par_lt c ltac:(lia)).
    rewrite !swap_lookup by lia.
    repeat case_decide; subst; try lia; try congruence.
    pose proof (H1 c ltac:(lia) ltac:(lia)). lia.
Qed.

Lemma down_done ps pos :
  down_inv ps pos ->
  (forall c, (0 < c < length ps)%nat -> par c = pos -> ps !!! pos <= ps !!! c) ->
  heap_ok ps.
Proof.
  intros [H1 _] Hd j Hj. destruct (decide (par j = pos)) as [Hp|]; [|apply H1; lia].
  rewrite Hp. apply Hd; done.
Qed.

Lemma decrease_up ps i v :
  heap_ok ps -> (i < length ps)%nat -> v <= ps !!! i -> up_inv (<[i := v]> ps) i.
Proof.
  intros H Hi Hv. split; rewrite length_insert; [intros j Hj Hne | intros c Ht Hc Hc0 Hpc].
  - pose proof (par_lt j ltac:(lia)).
    rewrite !lookup_total_insert_Z by lia.
    repeat case_decide; subst; try lia; try congruence.
    + pose proof (H j ltac:(lia)). lia.
    + apply H; lia.
  - pose proof (par_lt c ltac:(lia)). pose proof (par_lt i ltac:(lia)).
    rewrite !lookup_total_insert_Z by lia.
    repeat case_decide; subst; try lia; try congruence.
    pose proof (H c ltac:(lia)). pose proof (H (par c) ltac:(lia)). lia.
Qed.

Lemma increase_down ps i v :
  heap_ok ps -> (i < length ps)%nat -> ps !!! i <= v -> down_inv (<[i := v]> ps) i.
Proof.
  intros H Hi Hv. split; rewrite length_insert; [intros j Hj Hne | intros c Ht Hc Hc0 Hpc].
  - pose proof (par_lt j ltac:(lia)).
    rewrite !lookup_total_insert_Z by lia.
    repeat case_decide; subst; try lia; try congruence.
    + pose proof (H j ltac:(lia)). lia.
    + apply H; lia.
  - pose proof (par_lt c ltac:(lia)). pose proof (par_lt i ltac:(lia)).
    rewrite !lookup_total_insert_Z by lia.
    repeat case_decide; subst; try lia; try congruence.
    pose proof (H c ltac:(lia)). pose proof (H (par c) ltac:(lia)). lia.
Qed.

Lemma lookup_total_app_l_Z (ps : list Z) v j :
  (j < length ps)%nat -> (ps ++ [v]) !!! j = ps !!! j.
Proof.
  intros Hj. rewrite !list_lookup_total_alt, lookup_app_l by done. done.
Qed.

Lemma append_up ps v : heap_ok ps -> up_inv (ps ++ [v]) (length ps).
Proof.
  intros H. unfold up_inv. rewrite length_app; simpl. split; [intros j Hj Hne | intros c Ht Hc Hc0 Hpc].
  - pose proof (par_lt j ltac:(lia)).
    rewrite !lookup_total_app_l_Z by lia. apply H; lia.
  - pose proof (par_lt c ltac:(lia)). lia.
Qed.

Lemma heap_ok_removelast ps : heap_ok ps -> heap_ok (removelast ps).
Proof.
  intros H. induction ps as [|v l _] using rev_ind; [done|].
  rewrite removelast_last. intros j Hj. pose proof (par_lt j ltac:(lia)).
  specialize (H j). rewrite length_app in H; simpl in H.
  rewrite !lookup_total_app_l_Z in H by lia. apply H; lia.
Qed.

Lemma heap_min ps j : heap_ok ps -> (j < length ps)%nat -> ps !!! 0%nat <= ps !!! j.
Proof.
  intros H. induction j as [j IH] using lt_wf_ind. intros Hj.
  destruct (decide (j = 0%nat)) as [->|]; [lia|].
  pose proof (par_lt j ltac:(lia)). pose proof (H j ltac:(lia)).
  pose proof (IH (par j) ltac:(lia) ltac:(lia)). lia.
Qed.

(** Total correctness of a computation of the model: it terminates within
    its fuel, raises nothing, and its value and final world satisfy [Q]. *)
Definition wp {A} (m : M A) (Q : A -> world -> Prop) (w : world) : Prop :=
  match m w with Some (w', Ok a) => Q a w' | _ => False end.

Lemma wp_mono {A} (m : M A) (Q Q' : A -> world -> Prop) w :
  wp m Q w -> (forall a w', Q a w' -> Q' a w') -> wp m Q' w.
Proof. unfold wp. destruct (m w) as [[w' [a|e]]|]; auto. Qed.

Lemma wp_ret {A} (a : A) (Q : A -> world -> Prop) w : Q a w -> wp (mret a) Q w.
Proof. done. Qed.

Lemma wp_bind {A B} (m : M A) (k : A -> M B) Q w :
  wp m (fun a w' => wp (k a) Q w') w -> wp (m ≫= k) Q w.
Proof.
  unfold wp. cbn. unfold mbind, M_bind. destruct (m w) as [[w' [a|e]]|]; done.
Qed.

Lemma wp_get_pq q hc (Q : list Z -> world -> Prop) w :
  w.(w_heap) !! q = Some (OPQueue hc) -> Q hc w -> wp (get_pq q) Q w.
Proof. intros Hq HQ. unfold wp, get_pq, load, mbind, M_bind. rewrite Hq. done. Qed.

Lemma wp_get_pqnode r nd (Q : pqnode -> world -> Prop) w :
  w.(w_heap) !! r = Some (OPQNode nd) -> Q nd w -> wp (get_pqnode r) Q w.
Proof. intros Hq HQ. unfold wp, get_pqnode, load, mbind, M_bind. rewrite Hq. done. Qed.

Lemma py_pos_nat {A} (l : list A) (i : nat) :
  (i < length l)%nat -> py_pos l (Z.of_nat i) = Some i.
Proof.
  intros Hi. unfold py_pos.
  rewrite (proj2 (Z.ltb_ge _ _)) by lia.
  rewrite (proj2 (Z.leb_le _ _)), (proj2 (Z.ltb_lt _ _)) by lia.
  cbn. by rewrite Nat2Z.id.
Qed.

Lemma wp_py_index {A} (l : list A) (i : nat) a (Q : A -> world -> Prop) w :
  l !! i = Some a -> Q a w -> wp (py_index l (Z.of_nat i)) Q w.
Proof.
  intros Hl HQ. unfold wp, py_index.
  rewrite py_pos_nat by (apply lookup_lt_is_Some; eauto). cbn. rewrite Hl. done.
Qed.

Lemma wp_py_setitem {A} (l : list A) (i : nat) a (Q : list A -> world -> Prop) w :
  (i < length l)%nat -> Q (<[i := a]> l) w -> wp (py_setitem l (Z.of_nat i) a) Q w.
Proof. intros Hl HQ. unfold wp, py_setitem. rewrite py_pos_nat by done. done. Qed.

Lemma wp_put r o (Q : unit -> world -> Prop) w :
  Q tt (w_set_heap (<[r := o]> w.(w_heap)) w) -> wp (put r o) Q w.
Proof. done. Qed.

Lemma wp_upd_pqnode r nd f (Q : unit -> world -> Prop) w :
  w.(w_heap) !! r = Some (OPQNode nd) ->
  Q tt (w_set_heap (<[r := OPQNode (f nd)]> w.(w_heap)) w) -> wp (upd_pqnode r f) Q w.
Proof.
  intros Hr HQ. unfold upd_pqnode. apply wp_bind. eapply wp_get_pqnode; [done|].
  by apply wp_put.
Qed.

Lemma wp_pq_set_slot q hc (i : nat) node (Q : unit -> world -> Prop) w :
  w.(w_heap) !! q = Some (OPQueue hc) -> (i < length hc)%nat ->
  Q tt (w_set_heap (<[q := OPQueue (<[i := node]> hc)]> w.(w_heap)) w) ->
  wp (pq_set_slot q (Z.of_nat i) node) Q w.
Proof.
  intros Hq Hi HQ. unfold pq_set_slot. apply wp_bind. eapply wp_get_pq; [done|].
  apply wp_bind. apply wp_py_setitem; [done|]. by apply wp_put.
Qed.

Lemma wp_py_assert_true (Q : unit -> world -> Prop) w : Q tt w -> wp (py_assert true) Q w.
Proof. done. Qed.

Lemma wp_while {St A} (I : St -> world -> Prop) (mu : St -> nat)
    (body : St -> M (step St A)) (Q : A -> world -> Prop) :
  (forall s w, I s w ->
     wp (body s) (fun st w' => match st with
                               | Continue s' => I s' w' /\ (mu s' < mu s)%nat
                               | Break a => Q a w'
                               end) w) ->
  forall fuel s w, I s w -> (mu s < fuel)%nat -> wp (while_M fuel body s) Q w.
Proof.
  intros Hbody fuel. induction fuel as [|n IH]; intros s w HI Hf; [lia|].
  cbn [while_M]. apply wp_bind. eapply wp_mono; [apply Hbody, HI|].
  intros [s'|a] w' Hst; cbn.
  - destruct Hst as [HI' Hlt]. apply IH; [done|lia].
  - done.
Qed.

Lemma swap_perm {T} `{Inhabited T} (l : list T) i j :
  (i < length l)%nat -> (j < length l)%nat -> swap l i j ≡ₚ l.
Proof.
  intros Hi Hj. unfold swap. apply Permutation_insert_swap;
    apply list_lookup_lookup_total_lt; done.
Qed.

Lemma swap_fmap {T U} `{Inhabited T} `{Inhabited U} (f : T -> U) (l : list T) i j :
  (i < length l)%nat -> (j < length l)%nat -> f <$> swap l i j = swap (f <$> l) i j.
Proof.
  intros Hi Hj. unfold swap. rewrite !list_fmap_insert.
  rewrite (list_lookup_total_fmap f l i), (list_lookup_total_fmap f l j) by done. done.
Qed.

(** The integer priority, the index and the data of a [PriorityQueue.Node]. *)
Definition node_prio (H : gmap Z obj) (r : Z) : option Z :=
  match H !! r with
  | Some (OPQNode nd) => match nd.(pn_prio) with NInt z => Some z | NFloat _ => None end
  | _ => None
  end.

Definition node_index (H : gmap Z obj) (r : Z) : option Z :=
  match H !! r with Some (OPQNode nd) => Some nd.(pn_index) | _ => None end.

Definition node_data (H : gmap Z obj) (r : Z) : option Z :=
  match H !! r with Some (OPQNode nd) => Some nd.(pn_data) | _ => None end.

Definition prios (H : gmap Z obj) (l : list Z) : list Z :=
  (fun r => default 0 (node_prio H r)) <$> l.

(** The nodes [xs] are [PriorityQueue.Node] objects in both heaps, with the
    same priority and data. *)
Definition nodes_same (H0 H : gmap Z obj) (xs : list Z) : Prop :=
  forall x, x ∈ xs -> exists nd0 nd,
    H0 !! x = Some (OPQNode nd0) /\ H !! x = Some (OPQNode nd) /\
    nd.(pn_prio) = nd0.(pn_prio) /\ nd.(pn_data) = nd0.(pn_data).

(** Every node of the array [A] but the one at slot [p] records its slot. *)
Definition indexed_except (H : gmap Z obj) (A : list Z) (p : nat) : Prop :=
  forall i x, A !! i = Some x -> i <> p -> node_index H x = Some (Z.of_nat i).

Definition indexed (H : gmap Z obj) (A : list Z) : Prop :=
  forall i x, A !! i = Some x -> node_index H x = Some (Z.of_nat i).

(** Nothing outside the queue object and its nodes has changed. *)
Definition frame_pq (H0 H : gmap Z obj) (q : Z) (xs : list Z) : Prop :=
  forall x, x <> q -> x ∉ xs -> H !! x = H0 !! x.

Definition int_prios (H : gmap Z obj) (xs : list Z) : Prop :=
  forall x, x ∈ xs -> is_Some (node_prio H x).

Lemma prios_same H0 H xs ys :
  nodes_same H0 H xs -> (forall y, y ∈ ys -> y ∈ xs) -> prios H ys = prios H0 ys.
Proof.
  intros Hs Hsub. unfold prios. apply list_fmap_ext. intros i y Hy.
  destruct (Hs y (Hsub y (list_elem_of_lookup_2 _ _ _ Hy))) as (nd0 & nd & H0y & Hy' & Hp & _).
  unfold node_prio. rewrite H0y, Hy', Hp. done.
Qed.

Lemma n_le_int a b : n_le (NInt a) (NInt b) = (a <=? b).
Proof. unfold n_le. cbn. destruct (Z.compare_spec a b); symmetry; apply Z.leb_le || apply Z.leb_gt; lia. Qed.

(** The state of [_sift_up] and [_sift_down] during their loop: the queue
    object [q] holds [hc], and [hc] with the moving node [r] written at the
    current slot [p] is a permutation of the starting array [A0]. *)
Definition hole_state (H0 H : gmap Z obj) (q r : Z) (A0 : list Z) (idx0 : nat)
    (hc : list Z) (p : nat) : Prop :=
  H !! q = Some (OPQueue hc) /\ (p < length hc)%nat /\
  (p = idx0 -> hc !! p = Some r) /\
  <[p := r]> hc ≡ₚ A0 /\ NoDup (<[p := r]> hc) /\
  indexed_except H (<[p := r]> hc) p /\
  node_index H r = Some (Z.of_nat idx0) /\
  nodes_same H0 H A0 /\ frame_pq H0 H q A0.

Lemma nodes_same_node H0 H xs x :
  nodes_same H0 H xs -> x ∈ xs -> exists nd, H !! x = Some (OPQNode nd).
Proof. intros Hs Hx. destruct (Hs x Hx) as (? & nd & _ & ? & _). eauto. Qed.

Lemma node_ne_queue (H : gmap Z obj) q hc x nd :
  H !! q = Some (OPQueue hc) -> H !! x = Some (OPQNode nd) -> x <> q.
Proof. intros Hq Hx ->. congruence. Qed.

Lemma node_index_insert_ne (H : gmap Z obj) y o x :
  x <> y -> node_index (<[y := o]> H) x = node_index H x.
Proof. intros. unfold node_index. rewrite lookup_insert_ne by congruence. done. Qed.

Lemma elem_of_perm_lookup (A A0 : list Z) i x :
  A ≡ₚ A0 -> A !! i = Some x -> x ∈ A0.
Proof. intros Hp Hi. rewrite <- Hp. by eapply list_elem_of_lookup_2. Qed.

Lemma hole_move H0 H q r A0 idx0 hc (p s : nat) tnode nd_t :
  hole_state H0 H q r A0 idx0 hc p ->
  hc !! s = Some tnode -> s <> p -> s <> idx0 -> H !! tnode = Some (OPQNode nd_t) ->
  hole_state H0 (<[q := OPQueue (<[p := tnode]> hc)]>
                   (<[tnode := OPQNode (pn_set_index (Z.of_nat p) nd_t)]> H))
    q r A0 idx0 (<[p := tnode]> hc) s /\
  <[s := r]> (<[p := tnode]> hc) = swap (<[p := r]> hc) p s.
Proof.
  intros (Hq & Hp & Hpi & Hperm & Hnd & Hix & Hir & Hsame & Hfr) Hs Hsp Hsi Ht.
  assert (Hsl : (s < length hc)%nat) by (eapply lookup_lt_Some; eauto).
  set (A := <[p := r]> hc) in *.
  assert (HAs : A !! s = Some tnode) by (unfold A; rewrite list_lookup_insert_ne; auto).
  assert (HAp : A !! p = Some r) by (unfold A; apply list_lookup_insert_eq; lia).
  assert (Htr : tnode <> r).
  { intros ->. pose proof (NoDup_lookup _ _ _ _ Hnd HAs HAp). lia. }
  assert (Htq : tnode <> q) by (eapply node_ne_queue; eauto).
  assert (Hrq : r <> q).
  { destruct (nodes_same_node H0 H A0 r Hsame) as [nd_r Hr];
      [eapply elem_of_perm_lookup; eauto|]. eapply node_ne_queue; eauto. }
  assert (Heq : <[s := r]> (<[p := tnode]> hc) = swap A p s).
  { unfold swap. rewrite (list_lookup_total_correct _ _ _ HAs), (list_lookup_total_correct _ _ _ HAp).
    unfold A. rewrite (list_insert_insert_ne hc s p r r) by done.
    rewrite list_insert_insert_eq. rewrite (list_insert_insert_ne hc p s tnode r) by done.
    done. }
  split; [|exact Heq].
  assert (HA'perm : swap A p s ≡ₚ A0).
  { rewrite swap_perm; [done| |]; unfold A; rewrite length_insert; lia. }
  split; [by rewrite lookup_insert_eq|].
  split; [rewrite length_insert; lia|].
  split; [intros; lia|].
  rewrite Heq. split; [done|]. split; [by rewrite HA'perm, <- Hperm|].
  split.
  { intros i x Hi Hne. rewrite <- Heq in Hi.
    rewrite list_lookup_insert_ne in Hi by congruence.
    destruct (decide (i = p)) as [->|Hip].
    - rewrite list_lookup_insert_eq in Hi by lia. injection Hi as <-.
      unfold node_index. rewrite lookup_insert_ne, lookup_insert_eq by congruence. done.
    - rewrite list_lookup_insert_ne in Hi by congruence.
      assert (HAi : A !! i = Some x) by (unfold A; rewrite list_lookup_insert_ne; auto).
      assert (Hxt : x <> tnode).
      { intros ->. pose proof (NoDup_lookup _ _ _ _ Hnd HAi HAs). lia. }
      assert (HxA0 : x ∈ A0) by exact (elem_of_perm_lookup _ _ _ _ Hperm HAi).
      destruct (nodes_same_node H0 H A0 x Hsame HxA0) as [nd_x Hx].
      pose proof (node_ne_queue H q hc x nd_x Hq Hx).
      rewrite !node_index_insert_ne by done. apply Hix; done. }
  split; [rewrite !node_index_insert_ne by congruence; done|].
  split.
  { intros x Hx. destruct (Hsame x Hx) as (nd0 & nd & H0x & Hx' & Hpr & Hd).
    pose proof (node_ne_queue H q hc x nd Hq Hx').
    exists nd0. rewrite lookup_insert_ne by congruence.
    destruct (decide (x = tnode)) as [->|Hxt].
    - rewrite lookup_insert_eq. eexists. split; [done|]. split; [done|].
      rewrite Ht in Hx'. injection Hx' as <-. done.
    - rewrite lookup_insert_ne by congruence. eauto. }
  intros x Hxq Hx. assert (Hxt : x <> tnode).
  { intros ->. apply Hx. exact (elem_of_perm_lookup _ _ _ _ Hperm HAs). }
  rewrite !lookup_insert_ne by congruence. apply Hfr; done.
Qed.

(** The state after [_sift_up] or [_sift_down]: the queue object holds [A],
    a permutation of [A0] in which every node records its slot. *)
Definition pq_final (H0 H : gmap Z obj) (q : Z) (A0 A : list Z) : Prop :=
  H !! q = Some (OPQueue A) /\ A ≡ₚ A0 /\ NoDup A /\ indexed H A /\
  nodes_same H0 H A0 /\ frame_pq H0 H q A0.

Lemma hole_finish_move H0 H q r A0 idx0 hc (p : nat) nd_r :
  hole_state H0 H q r A0 idx0 hc p -> H !! r = Some (OPQNode nd_r) ->
  pq_final H0 (<[q := OPQueue (<[p := r]> hc)]>
                 (<[r := OPQNode (pn_set_index (Z.of_nat p) nd_r)]> H)) q A0 (<[p := r]> hc).
Proof.
  intros (Hq & Hp & Hpi & Hperm & Hnd & Hix & Hir & Hsame & Hfr) Hr.
  set (A := <[p := r]> hc) in *.
  assert (HAp : A !! p = Some r) by (unfold A; apply list_lookup_insert_eq; lia).
  assert (Hrq : r <> q) by (eapply node_ne_queue; eauto).
  split; [by rewrite lookup_insert_eq|]. split; [done|]. split; [done|].
  split.
  { intros i x Hi. destruct (decide (i = p)) as [->|Hip].
    - rewrite HAp in Hi. injection Hi as <-.
      unfold node_index. rewrite lookup_insert_ne, lookup_insert_eq by congruence. done.
    - assert (Hxr : x <> r).
      { intros ->. pose proof (NoDup_lookup _ _ _ _ Hnd Hi HAp). lia. }
      assert (HxA0 : x ∈ A0) by exact (elem_of_perm_lookup _ _ _ _ Hperm Hi).
      destruct (nodes_same_node H0 H A0 x Hsame HxA0) as [nd_x Hx].
      pose proof (node_ne_queue H q hc x nd_x Hq Hx).
      rewrite !node_index_insert_ne by done. apply Hix; done. }
  split.
  { intros x Hx. destruct (Hsame x Hx) as (nd0 & nd & H0x & Hx' & Hpr & Hd).
    pose proof (node_ne_queue H q hc x nd Hq Hx').
    exists nd0. rewrite lookup_insert_ne by congruence.
    destruct (decide (x = r)) as [->|Hxr].
    - rewrite lookup_insert_eq. eexists. split; [done|]. split; [done|].
      rewrite Hr in Hx'. injection Hx' as <-. done.
    - rewrite lookup_insert_ne by congruence. eauto. }
  intros x Hxq Hx. assert (Hxr : x <> r).
  { intros ->. apply Hx. exact (elem_of_perm_lookup _ _ _ _ Hperm HAp). }
  rewrite !lookup_insert_ne by congruence. apply Hfr; done.
Qed.

Lemma hole_finish_stay H0 H q r A0 idx0 hc :
  hole_state H0 H q r A0 idx0 hc idx0 -> pq_final H0 H q A0 hc.
Proof.
  intros (Hq & Hp & Hpi & Hperm & Hnd & Hix & Hir & Hsame & Hfr).
  rewrite (list_insert_id hc idx0 r) in * by auto.
  split; [done|]. split; [done|]. split; [done|]. split; [|done].
  intros i x Hi. destruct (decide (i = idx0)) as [->|]; [|apply Hix; done].
  rewrite (Hpi eq_refl) in Hi. injection Hi as <-. done.
Qed.

Lemma indexed_node H A x : indexed H A -> x ∈ A -> exists nd, H !! x = Some (OPQNode nd).
Proof.
  intros Hix Hx. apply list_elem_of_lookup in Hx as [i Hi].
  specialize (Hix i x Hi). unfold node_index in Hix.
  destruct (H !! x) as [[]|]; try discriminate. eauto.
Qed.

Lemma nodes_same_refl H xs :
  (forall x, x ∈ xs -> exists nd, H !! x = Some (OPQNode nd)) -> nodes_same H H xs.
Proof. intros Hn x Hx. destruct (Hn x Hx) as [nd ?]. exists nd, nd. done. Qed.

Lemma node_prio_cur H0 H xs x t :
  nodes_same H0 H xs -> x ∈ xs -> node_prio H0 x = Some t ->
  exists nd, H !! x = Some (OPQNode nd) /\ nd.(pn_prio) = NInt t.
Proof.
  intros Hs Hx Ht. destruct (Hs x Hx) as (nd0 & nd & H0x & Hx' & Hp & _).
  exists nd. split; [done|]. unfold node_prio in Ht. rewrite H0x in Ht.
  rewrite Hp. destruct (pn_prio nd0); congruence.
Qed.

Lemma prios_lookup H A i x t :
  A !! i = Some x -> node_prio H x = Some t -> prios H A !!! i = t.
Proof.
  intros Hi Ht. unfold prios. rewrite (list_lookup_total_fmap (fun r => default 0 (node_prio H r)) A i) by (eapply lookup_lt_Some; eauto).
  rewrite (list_lookup_total_correct _ _ _ Hi), Ht. done.
Qed.

Lemma prios_length H A : length (prios H A) = length A.
Proof. apply length_fmap. Qed.

Lemma par_Z (p : nat) : (0 < p)%nat -> (Z.of_nat p - 1) `div` 2 = Z.of_nat (par p).
Proof. intros. unfold par. rewrite Nat2Z.inj_div, Nat2Z.inj_sub by lia. done. Qed.

Lemma w_heap_set X w : w_heap (w_set_heap X w) = X.
Proof. done. Qed.

Lemma w_heap_set_next v w : w_heap (w_set_next v w) = w_heap w.
Proof. done. Qed.

Lemma w_set_heap_set X Y w : w_set_heap X (w_set_heap Y w) = w_set_heap X w.
Proof. by destruct w. Qed.

Lemma w_set_heap_frame X w w0 : w = w_set_heap (w_heap w) w0 -> w_set_heap X w = w_set_heap X w0.
Proof. intros Hw. rewrite Hw at 1. apply w_set_heap_set. Qed.

Lemma hole_init H q r A0 idx0 :
  H !! q = Some (OPQueue A0) -> A0 !! idx0 = Some r -> NoDup A0 -> indexed H A0 ->
  hole_state H H q r A0 idx0 A0 idx0.
Proof.
  intros Hq Hr Hnd Hix. unfold hole_state. rewrite (list_insert_id A0 idx0 r Hr).
  split; [done|]. split; [eapply lookup_lt_Some; eauto|]. split; [done|].
  split; [done|]. split; [done|]. split; [intros i x Hi _; apply Hix; done|].
  split; [apply Hix; done|]. split; [|intros ???; done].
  apply nodes_same_refl. intros x Hx. eapply indexed_node; eauto.
Qed.

Lemma n_ge_int a b : n_ge (NInt a) (NInt b) = (b <=? a).
Proof.
  unfold n_ge, PyHeap.num_ge. cbn. destruct (Z.compare_spec a b);
    symmetry; apply Z.leb_le || apply Z.leb_gt; lia.
Qed.

(** The end of [_sift_up] and [_sift_down]: the moving node is written at
    its final slot. *)
Lemma sift_finish_wp w0 w q r A0 (idx0 : nat) hc (p : nat) (Q : unit -> world -> Prop) :
  hole_state w0.(w_heap) w.(w_heap) q r A0 idx0 hc p ->
  w = w_set_heap w.(w_heap) w0 -> heap_ok (prios w0.(w_heap) (<[p := r]> hc)) -> r ∈ A0 ->
  (forall w' A, pq_final w0.(w_heap) w'.(w_heap) q A0 A -> heap_ok (prios w0.(w_heap) A) ->
     w' = w_set_heap w'.(w_heap) w0 -> Q tt w') ->
  wp (if bool_decide (Z.of_nat p <> Z.of_nat idx0)
      then upd_pqnode r (pn_set_index (Z.of_nat p));; pq_set_slot q (Z.of_nat p) r
      else mret tt) Q w.
Proof.
  intros Hs Hw Hok HrA0 HQ.
  pose proof Hs as (Hq & Hpl & Hpi & Hperm & Hnd & Hix & Hir & Hsame & Hfr).
  destruct (decide (p = idx0)) as [->|Hne].
  - rewrite bool_decide_false by congruence. apply wp_ret.
    apply (HQ w hc); [exact (hole_finish_stay _ _ _ _ _ _ _ Hs)|..|done].
    rewrite (list_insert_id hc idx0 r) in Hok by auto. done.
  - rewrite bool_decide_true by lia.
    destruct (nodes_same_node _ _ _ r Hsame HrA0) as [nd_r' Hr'].
    apply wp_bind. eapply wp_upd_pqnode; [exact Hr'|].
    eapply wp_pq_set_slot.
    { rewrite w_heap_set, lookup_insert_ne; [exact Hq|]. eapply node_ne_queue; eauto. }
    { done. }
    apply (HQ _ (<[p := r]> hc)).
    + rewrite !w_heap_set. exact (hole_finish_move _ _ _ _ _ _ _ _ _ Hs Hr').
    + done.
    + rewrite !w_heap_set, !w_set_heap_set. apply w_set_heap_frame; exact Hw.
Qed.

Section SiftUp.
Variables (fuel : nat) (q r : Z) (idx0 : nat) (A0 : list Z) (w0 : world) (pr : Z).
Hypothesis Hq0 : w0.(w_heap) !! q = Some (OPQueue A0).
Hypothesis Hr0 : A0 !! idx0 = Some r.
Hypothesis Hnd0 : NoDup A0.
Hypothesis Hix0 : indexed w0.(w_heap) A0.
Hypothesis Hint0 : int_prios w0.(w_heap) A0.
Hypothesis Hpr : node_prio w0.(w_heap) r = Some pr.

Definition up_state (ord : list Z -> nat -> Prop) (pos : Z) (w : world) : Prop :=
  exists (p : nat) hc, pos = Z.of_nat p /\ (p <= idx0)%nat /\
    hole_state w0.(w_heap) w.(w_heap) q r A0 idx0 hc p /\
    w = w_set_heap w.(w_heap) w0 /\ ord (prios w0.(w_heap) (<[p := r]> hc)) p.

Lemma sift_up_wp (Q : unit -> world -> Prop) :
  up_inv (prios w0.(w_heap) A0) idx0 -> (idx0 < fuel)%nat ->
  (forall w A, pq_final w0.(w_heap) w.(w_heap) q A0 A -> heap_ok (prios w0.(w_heap) A) ->
     w = w_set_heap w.(w_heap) w0 -> Q tt w) ->
  wp (pq_sift_up fuel q (Z.of_nat idx0)) Q w0.
Proof.
  intros Hup Hfuel HQ.
  assert (HrA0 : r ∈ A0) by (eapply list_elem_of_lookup_2; eauto).
  destruct (indexed_node _ _ _ Hix0 HrA0) as [nd_r Hr].
  assert (Hprr : nd_r.(pn_prio) = NInt pr).
  { unfold node_prio in Hpr. rewrite Hr in Hpr. destruct (pn_prio nd_r); congruence. }
  unfold pq_sift_up. apply wp_bind. eapply wp_get_pq; [done|].
  apply wp_bind. eapply wp_py_index; [done|].
  apply wp_bind. eapply wp_get_pqnode; [done|].
  rewrite Hprr.
  apply wp_bind. eapply wp_mono.
  { apply (wp_while (up_state up_inv) (fun pos => Z.to_nat pos) _
             (up_state (fun ps _ => heap_ok ps))).
    2: { exists idx0, A0. split; [done|]. split; [done|]. split; [|split; [by destruct w0|]].
         - by apply hole_init.
         - by rewrite list_insert_id. }
    2: lia.
    intros pos w (p & hc & -> & Hp & Hs & Hw & Hord). cbv beta zeta.
    pose proof Hs as (Hq & Hpl & Hpi & Hperm & Hnd & Hix & Hir & Hsame & Hfr).
    destruct (decide (0 < p)%nat) as [Hp0|Hp0].
    - rewrite (proj2 (Z.ltb_lt 0 (Z.of_nat p))) by lia. rewrite par_Z by done.
      pose proof (par_lt p Hp0) as Hpar.
      apply wp_bind. eapply wp_get_pq; [done|].
      destruct (lookup_lt_is_Some_2 hc (par p)) as [tnode Ht]; [lia|].
      apply wp_bind. eapply wp_py_index; [exact Ht|].
      assert (HAt : <[p := r]> hc !! par p = Some tnode)
        by (rewrite list_lookup_insert_ne; [done|lia]).
      assert (HAr : <[p := r]> hc !! p = Some r) by (apply list_lookup_insert_eq; lia).
      assert (HtA0 : tnode ∈ A0) by exact (elem_of_perm_lookup _ _ _ _ Hperm HAt).
      destruct (Hint0 tnode HtA0) as [t Htp].
      destruct (node_prio_cur _ _ _ _ _ Hsame HtA0 Htp) as (nd_t & Htn & Hpt).
      apply wp_bind. eapply wp_get_pqnode; [exact Htn|].
      rewrite Hpt, n_le_int.
      assert (Hps_t : prios w0.(w_heap) (<[p := r]> hc) !!! par p = t)
        by (eapply prios_lookup; eauto).
      assert (Hps_r : prios w0.(w_heap) (<[p := r]> hc) !!! p = pr)
        by (eapply prios_lookup; eauto).
      destruct (t <=? pr) eqn:Hle.
      + apply wp_ret. exists p, hc. split; [done|]. split; [done|].
        split; [done|]. split; [done|].
        eapply up_done; [exact Hord|]. right. rewrite Hps_t, Hps_r. lia.
      + apply wp_bind. eapply wp_upd_pqnode; [exact Htn|].
        apply wp_bind. eapply wp_pq_set_slot.
        { rewrite w_heap_set, lookup_insert_ne; [exact Hq|].
          eapply node_ne_queue; eauto. }
        { done. }
        apply wp_ret. split; [|lia].
        destruct (hole_move _ _ _ _ _ _ _ p (par p) tnode nd_t Hs Ht ltac:(lia) ltac:(lia) Htn)
          as [Hs' Heq].
        exists (par p), (<[p := tnode]> hc). split; [done|]. split; [lia|].
        rewrite !w_heap_set. split; [exact Hs'|].
        split; [rewrite !w_set_heap_set; apply w_set_heap_frame; exact Hw|].
        rewrite Heq. unfold prios. rewrite swap_fmap by (rewrite length_insert; lia).
        fold (prios w0.(w_heap) (<[p := r]> hc)).
        apply up_step; [done| |]; rewrite ?prios_length, ?length_insert; lia.
    - assert (p = 0%nat) as -> by lia. cbn.
      apply wp_ret. exists 0%nat, hc. split; [done|]. split; [lia|].
      split; [done|]. split; [done|]. eapply up_done; [exact Hord|]. left. done. }
  intros pos w (p & hc & -> & Hp & Hs & Hw & Hok). cbv beta.
  eapply sift_finish_wp; eauto.
Qed.
End SiftUp.

Section SiftDown.
Variables (fuel : nat) (q r : Z) (idx0 : nat) (A0 : list Z) (w0 : world) (pr : Z).
Hypothesis Hq0 : w0.(w_heap) !! q = Some (OPQueue A0).
Hypothesis Hr0 : A0 !! idx0 = Some r.
Hypothesis Hnd0 : NoDup A0.
Hypothesis Hix0 : indexed w0.(w_heap) A0.
Hypothesis Hint0 : int_prios w0.(w_heap) A0.
Hypothesis Hpr : node_prio w0.(w_heap) r = Some pr.

Definition down_state (ord : list Z -> nat -> Prop) (pos : Z) (w : world) : Prop :=
  exists (p : nat) hc, pos = Z.of_nat p /\ (idx0 <= p)%nat /\
    hole_state w0.(w_heap) w.(w_heap) q r A0 idx0 hc p /\
    w = w_set_heap w.(w_heap) w0 /\ ord (prios w0.(w_heap) (<[p := r]> hc)) p.

Lemma sift_down_wp (Q : unit -> world -> Prop) :
  down_inv (prios w0.(w_heap) A0) idx0 -> (length A0 < fuel)%nat ->
  (forall w A, pq_final w0.(w_heap) w.(w_heap) q A0 A -> heap_ok (prios w0.(w_heap) A) ->
     w = w_set_heap w.(w_heap) w0 -> Q tt w) ->
  wp (pq_sift_down fuel q (Z.of_nat idx0)) Q w0.
Proof.
  intros Hdown Hfuel HQ.
  assert (HrA0 : r ∈ A0) by (eapply list_elem_of_lookup_2; eauto).
  destruct (indexed_node _ _ _ Hix0 HrA0) as [nd_r Hr].
  assert (Hprr : nd_r.(pn_prio) = NInt pr).
  { unfold node_prio in Hpr. rewrite Hr in Hpr. destruct (pn_prio nd_r); congruence. }
  unfold pq_sift_down. apply wp_bind. eapply wp_get_pq; [done|].
  apply wp_bind. eapply wp_py_index; [done|].
  apply wp_bind. eapply wp_get_pqnode; [done|].
  rewrite Hprr.
  set (n := length A0).
  apply wp_bind. eapply wp_mono.
  { apply (wp_while (down_state down_inv) (fun pos => n - Z.to_nat pos)%nat _
             (down_state (fun ps _ => heap_ok ps))).
    2: { exists idx0, A0. split; [done|]. split; [done|]. split; [|split; [by destruct w0|]].
         - by apply hole_init.
         - by rewrite list_insert_id. }
    2: lia.
    intros pos w (p & hc & -> & Hp & Hs & Hw & Hord). cbv beta zeta.
    pose proof Hs as (Hq & Hpl & Hpi & Hperm & Hnd & Hix & Hir & Hsame & Hfr).
    assert (Hlen : length hc = n).
    { unfold n. rewrite <- (Permutation_length Hperm), length_insert. done. }
    assert (HAr : <[p := r]> hc !! p = Some r) by (apply list_lookup_insert_eq; lia).
    assert (Hps_r : prios w0.(w_heap) (<[p := r]> hc) !!! p = pr)
      by (eapply prios_lookup; eauto).
    assert (Hchild : forall c, (p < c < n)%nat ->
      exists x t nd, hc !! c = Some x /\ <[p := r]> hc !! c = Some x /\
        prios w0.(w_heap) (<[p := r]> hc) !!! c = t /\
        w.(w_heap) !! x = Some (OPQNode nd) /\ nd.(pn_prio) = NInt t).
    { intros c Hc. destruct (lookup_lt_is_Some_2 hc c) as [x Hx]; [lia|].
      assert (HAx : <[p := r]> hc !! c = Some x) by (rewrite list_lookup_insert_ne; [done|lia]).
      assert (HxA0 : x ∈ A0) by exact (elem_of_perm_lookup _ _ _ _ Hperm HAx).
      destruct (Hint0 x HxA0) as [t Ht].
      destruct (node_prio_cur _ _ _ _ _ Hsame HxA0 Ht) as (nd & Hnd' & Hpt).
      exists x, t, nd. repeat split; try done. eapply prios_lookup; eauto. }
    replace (2 * Z.of_nat p + 1) with (Z.of_nat (2 * p + 1)) by lia.
    destruct (decide (2 * p + 1 < n)%nat) as [Hc1|Hc1].
    2: { rewrite (proj2 (Z.leb_le _ _)) by lia. apply wp_ret.
         exists p, hc. split; [done|]. split; [done|]. split; [done|]. split; [done|].
         eapply down_done; [exact Hord|]. intros c Hc Hpc.
         apply par_spec in Hpc; [|lia]. rewrite prios_length, length_insert in Hc. lia. }
    rewrite (proj2 (Z.leb_gt _ _)) by lia.
    apply wp_bind. eapply wp_get_pq; [done|].
    destruct (Hchild (2 * p + 1)%nat ltac:(lia)) as (x1 & t1 & nd1 & Hx1 & HAx1 & Ht1 & Hn1 & Hp1).
    apply wp_bind. eapply wp_py_index; [exact Hx1|].
    replace (Z.of_nat (2 * p + 1) + 1) with (Z.of_nat (2 * p + 2)) by lia.
    apply wp_bind.
    lazymatch goal with
    | |- wp ?sel _ _ =>
        assert (Hsel : wp sel (fun mx w' => w' = w /\ exists (m : nat) x t nd,
          mx = (Z.of_nat m, x) /\ par m = p /\ (0 < m < n)%nat /\ hc !! m = Some x /\
          prios w0.(w_heap) (<[p := r]> hc) !!! m = t /\
          w.(w_heap) !! x = Some (OPQNode nd) /\ nd.(pn_prio) = NInt t /\
          (forall c, (0 < c < n)%nat -> par c = p ->
             t <= prios w0.(w_heap) (<[p := r]> hc) !!! c)) w)
    end.
    { destruct (decide (2 * p + 2 < n)%nat) as [Hc2|Hc2].
      - rewrite (proj2 (Z.ltb_lt _ _)) by lia.
        destruct (Hchild (2 * p + 2)%nat ltac:(lia)) as (x2 & t2 & nd2 & Hx2 & HAx2 & Ht2 & Hn2 & Hp2).
        apply wp_bind. eapply wp_py_index; [exact Hx2|].
        apply wp_bind. eapply wp_get_pqnode; [exact Hn2|].
        apply wp_bind. eapply wp_get_pqnode; [exact Hn1|].
        rewrite Hp1, Hp2, n_le_int.
        destruct (t2 <=? t1) eqn:Hle; apply wp_ret; (split; [done|]).
        + exists (2 * p + 2)%nat, x2, t2, nd2. repeat split; try done; try lia.
          * apply par_spec; lia.
          * intros c Hc Hpc. apply par_spec in Hpc; [|lia]. destruct Hpc as [-> | ->]; lia.
        + exists (2 * p + 1)%nat, x1, t1, nd1. repeat split; try done; try lia.
          * apply par_spec; lia.
          * intros c Hc Hpc. apply par_spec in Hpc; [|lia]. destruct Hpc as [-> | ->]; lia.
      - rewrite (proj2 (Z.ltb_ge _ _)) by lia. apply wp_ret. split; [done|].
        exists (2 * p + 1)%nat, x1, t1, nd1. repeat split; try done; try lia.
        * apply par_spec; lia.
        * intros c Hc Hpc. apply par_spec in Hpc; [|lia]. destruct Hpc as [-> | ->]; lia. }
    eapply wp_mono; [exact Hsel|]. clear Hsel.
    intros mx w' (-> & m & x & t & nd & -> & Hpm & Hm & Hx & Ht & Hn & Hpt & Hmin).
    cbv beta iota.
    apply wp_bind. eapply wp_get_pqnode; [exact Hn|].
    rewrite Hpt, n_ge_int.
    destruct (pr <=? t) eqn:Hge.
    - apply wp_ret. exists p, hc. split; [done|]. split; [done|]. split; [done|]. split; [done|].
      eapply down_done; [exact Hord|]. intros c Hc Hpc.
      rewrite prios_length, length_insert, Hlen in Hc.
      pose proof (Hmin c Hc Hpc). lia.
    - apply wp_bind. eapply wp_upd_pqnode; [exact Hn|].
      apply wp_bind. eapply wp_pq_set_slot.
      { rewrite w_heap_set, lookup_insert_ne; [exact Hq|]. eapply node_ne_queue; eauto. }
      { done. }
      pose proof (par_lt m ltac:(lia)). apply wp_ret. split; [|lia].
      assert (Hmp : par m = p) by done.
      pose proof (par_lt m ltac:(lia)).
      destruct (hole_move _ _ _ _ _ _ _ p m x nd Hs Hx ltac:(lia) ltac:(lia) Hn)
        as [Hs' Heq].
      exists m, (<[p := x]> hc). split; [done|]. split; [lia|].
      rewrite !w_heap_set. split; [exact Hs'|].
      split; [rewrite !w_set_heap_set; apply w_set_heap_frame; exact Hw|].
      rewrite Heq. unfold prios. rewrite swap_fmap by (rewrite length_insert; lia).
      fold (prios w0.(w_heap) (<[p := r]> hc)).
      subst p. apply down_step.
      + exact Hord.
      + rewrite prios_length, length_insert; lia.
      + done.
      + intros c Hc Hpc. rewrite prios_length, length_insert in Hc. rewrite Ht. apply Hmin; [lia|done].
      + rewrite Ht, Hps_r. lia. }
  intros pos w (p & hc & -> & Hp & Hs & Hw & Hok). cbv beta.
  eapply sift_finish_wp; eauto.
Qed.
End SiftDown.

(** A well-formed [PriorityQueue] [q] with integer priorities: the queue
    object holds the array [A] of distinct nodes, each node records its
    slot, and the priorities are in binary-heap order. *)
Definition pq_inv (H : gmap Z obj) (q : Z) (A : list Z) : Prop :=
  H !! q = Some (OPQueue A) /\ NoDup A /\ indexed H A /\ int_prios H A /\
  heap_ok (prios H A).

Lemma wp_elim {A} (m : M A) Q w : wp m Q w -> exists w' a, m w = Some (w', Ok a) /\ Q a w'.
Proof. unfold wp. destruct (m w) as [[w' [a|e]]|]; [eauto|done|done]. Qed.

Lemma wp_alloc o (Q : Z -> world -> Prop) w :
  Q w.(w_next) (w_set_next (w.(w_next) + 1) (w_set_heap (<[w.(w_next) := o]> w.(w_heap)) w)) ->
  wp (alloc o) Q w.
Proof. done. Qed.

Lemma nodes_same_prio H0 H xs x :
  nodes_same H0 H xs -> x ∈ xs -> node_prio H x = node_prio H0 x /\ node_data H x = node_data H0 x.
Proof.
  intros Hs Hx. destruct (Hs x Hx) as (nd0 & nd & H0x & Hx' & Hp & Hd).
  unfold node_prio, node_data. rewrite H0x, Hx', Hp, Hd. done.
Qed.

Lemma pq_final_inv H0 H q A0 A :
  pq_final H0 H q A0 A -> int_prios H0 A0 -> heap_ok (prios H0 A) -> pq_inv H q A.
Proof.
  intros (Hq & Hperm & Hnd & Hix & Hsame & Hfr) Hint Hok.
  assert (Hsub : forall x, x ∈ A -> x ∈ A0) by (intros x Hx; by rewrite <- Hperm).
  split; [done|]. split; [done|]. split; [done|]. split.
  - intros x Hx. rewrite (proj1 (nodes_same_prio _ _ _ _ Hsame (Hsub x Hx))). by apply Hint, Hsub.
  - rewrite (prios_same H0 H A0 A Hsame Hsub). done.
Qed.

Lemma prios_app H A B : prios H (A ++ B) = prios H A ++ prios H B.
Proof. apply fmap_app. Qed.

Lemma prios_ext H H' A :
  (forall x, x ∈ A -> node_prio H' x = node_prio H x) -> prios H' A = prios H A.
Proof.
  intros Hx. unfold prios. apply list_fmap_ext. intros i x Hi.
  rewrite (Hx x (list_elem_of_lookup_2 _ _ _ Hi)). done.
Qed.

Lemma node_prio_insert_ne (H : gmap Z obj) y o x :
  x <> y -> node_prio (<[y := o]> H) x = node_prio H x.
Proof. intros. unfold node_prio. rewrite lookup_insert_ne by congruence. done. Qed.

Lemma node_data_insert_ne (H : gmap Z obj) y o x :
  x <> y -> node_data (<[y := o]> H) x = node_data H x.
Proof. intros. unfold node_data. rewrite lookup_insert_ne by congruence. done. Qed.

(** X2: [PriorityQueue.insert] with integer priorities.  On a queue that
    satisfies the heap invariant, with [len(heap)] below the fuel, [insert]
    raises nothing and returns the fresh node (the next free address); the
    queue again satisfies the heap invariant and holds a permutation of the
    old elements followed by the new node, whose [prio] and [data] are the
    given ones; the old nodes keep their priority and data, no other object
    changes, and only the heap and the allocation counter of the world are
    updated. *)
Theorem pq_insert_spec fuel q A prio data w :
  pq_inv w.(w_heap) q A -> w.(w_heap) !! w.(w_next) = None -> (length A < fuel)%nat ->
  exists w' A',
    pq_insert fuel q (NInt prio) data w = Some (w', Ok w.(w_next)) /\
    pq_inv w'.(w_heap) q A' /\ A' ≡ₚ A ++ [w.(w_next)] /\
    node_prio w'.(w_heap) w.(w_next) = Some prio /\
    node_data w'.(w_heap) w.(w_next) = Some data /\
    (forall x, x ∈ A -> node_prio w'.(w_heap) x = node_prio w.(w_heap) x /\
                        node_data w'.(w_heap) x = node_data w.(w_heap) x) /\
    (forall x, x <> q -> x ∉ A -> x <> w.(w_next) -> w'.(w_heap) !! x = w.(w_heap) !! x) /\
    w' = w_set_heap w'.(w_heap) (w_set_next (w.(w_next) + 1) w).
Proof.
  intros (Hq & Hnd & Hix & Hint & Hok) Hfresh Hfuel.
  assert (HrA : w.(w_next) ∉ A).
  { intros Hr. destruct (indexed_node _ _ _ Hix Hr) as [nd Hnd']. congruence. }
  assert (Hrq : w.(w_next) <> q) by congruence.
  cut (wp (pq_insert fuel q (NInt prio) data)
         (fun a w' => a = w.(w_next) /\ exists A', pq_inv w'.(w_heap) q A' /\ A' ≡ₚ A ++ [w.(w_next)] /\
    node_prio w'.(w_heap) w.(w_next) = Some prio /\
    node_data w'.(w_heap) w.(w_next) = Some data /\
    (forall x, x ∈ A -> node_prio w'.(w_heap) x = node_prio w.(w_heap) x /\
                        node_data w'.(w_heap) x = node_data w.(w_heap) x) /\
    (forall x, x <> q -> x ∉ A -> x <> w.(w_next) -> w'.(w_heap) !! x = w.(w_heap) !! x) /\
    w' = w_set_heap w'.(w_heap) (w_set_next (w.(w_next) + 1) w)) w).
  { intros Hwp. destruct (wp_elim _ _ _ Hwp) as (w' & a & Hrun & -> & A' & HA').
    exists w', A'. split; [exact Hrun|exact HA']. }
  unfold pq_insert. apply wp_bind. eapply wp_get_pq; [done|].
  apply wp_bind. apply wp_alloc.
  apply wp_bind. unfold set_pq. apply wp_put.
  rewrite w_heap_set_next, !w_heap_set.
  set (nd := mk_pqnode (Z.of_nat (length A)) (NInt prio) data).
  set (H2 := <[q := OPQueue (A ++ [w.(w_next)])]> (<[w.(w_next) := OPQNode nd]> w.(w_heap))).
  set (w2 := w_set_heap H2 (w_set_next (w_next w + 1) (w_set_heap (<[w_next w := OPQNode nd]> (w_heap w)) w))).
  assert (Hold : forall x, x ∈ A -> H2 !! x = w.(w_heap) !! x).
  { intros x Hx. destruct (indexed_node _ _ _ Hix Hx) as [ndx Hndx].
    assert (x <> q) by (eapply node_ne_queue; eauto).
    unfold H2. rewrite !lookup_insert_ne by congruence. done. }
  assert (Hnew : H2 !! w.(w_next) = Some (OPQNode nd)).
  { unfold H2. rewrite lookup_insert_ne, lookup_insert_eq by congruence. done. }
  assert (Hlk : (A ++ [w.(w_next)]) !! length A = Some w.(w_next)).
  { rewrite lookup_app_r, Nat.sub_diag by lia. done. }
  apply wp_bind.
  apply (sift_up_wp fuel q w.(w_next) (length A) (A ++ [w.(w_next)]) w2 prio).
  - unfold w2. rewrite w_heap_set. unfold H2. by rewrite lookup_insert_eq.
  - done.
  - apply NoDup_app. split; [done|]. split; [|apply NoDup_singleton].
    intros x Hx Hx'. apply list_elem_of_singleton in Hx' as ->. done.
  - intros i x Hi. unfold w2. rewrite w_heap_set.
    apply lookup_app_Some in Hi as [Hi|[Hlen Hi]].
    + assert (Hx : x ∈ A) by (eapply list_elem_of_lookup_2; eauto).
      unfold node_index. rewrite Hold by done. apply Hix; done.
    + apply list_lookup_singleton_Some in Hi as [Hi <-].
      unfold node_index. rewrite Hnew. cbn. f_equal. lia.
  - intros x Hx. unfold w2. rewrite w_heap_set. apply elem_of_app in Hx as [Hx|Hx].
    + unfold node_prio. rewrite Hold by done. apply Hint; done.
    + apply list_elem_of_singleton in Hx as ->. unfold node_prio. rewrite Hnew. by eexists.
  - unfold w2. rewrite w_heap_set. unfold node_prio. rewrite Hnew. done.
  - unfold w2. rewrite w_heap_set. rewrite prios_app.
    replace (prios H2 A) with (prios w.(w_heap) A).
    2: { symmetry. apply prios_ext. intros x Hx. unfold node_prio. rewrite Hold by done. done. }
    replace (prios H2 [w.(w_next)]) with [prio]
      by (unfold prios; cbn; unfold node_prio; rewrite Hnew; done).
    pose proof (append_up (prios w.(w_heap) A) prio Hok) as Hu.
    rewrite prios_length in Hu. exact Hu.
  - lia.
  - intros w' A' Hfin Hok' Hw'. apply wp_ret. split; [done|]. exists A'.
    assert (Hint2 : int_prios (w_heap w2) (A ++ [w_next w])).
    { intros x Hx. unfold w2. rewrite w_heap_set. apply elem_of_app in Hx as [Hx|Hx].
      + unfold node_prio. rewrite Hold by done. apply Hint; done.
      + apply list_elem_of_singleton in Hx as ->. unfold node_prio. rewrite Hnew. by eexists. }
    pose proof Hfin as (Hq' & Hperm & Hnd' & Hix' & Hsame & Hfr).
    split; [exact (pq_final_inv _ _ _ _ _ Hfin Hint2 Hok')|].
    split; [done|].
    assert (HrA0 : w.(w_next) ∈ A ++ [w.(w_next)]) by (apply elem_of_app; right; by left).
    destruct (nodes_same_prio _ _ _ _ Hsame HrA0) as [Hp1 Hd1].
    unfold w2 in Hp1, Hd1. rewrite w_heap_set in Hp1, Hd1.
    split; [rewrite Hp1; unfold node_prio; rewrite Hnew; done|].
    split; [rewrite Hd1; unfold node_data; rewrite Hnew; done|].
    split.
    { intros x Hx. assert (HxA0 : x ∈ A ++ [w.(w_next)]) by (apply elem_of_app; left; done).
      destruct (nodes_same_prio _ _ _ _ Hsame HxA0) as [Hpx Hdx].
      unfold w2 in Hpx, Hdx. rewrite w_heap_set in Hpx, Hdx.
      rewrite Hpx, Hdx. unfold node_prio, node_data. rewrite Hold by done. done. }
    split.
    { intros x Hxq HxA Hxr. rewrite Hfr; [|done|].
      - unfold w2. rewrite w_heap_set. unfold H2. rewrite !lookup_insert_ne by congruence. done.
      - rewrite elem_of_app, list_elem_of_singleton. tauto. }
    rewrite Hw' at 1. unfold w2. rewrite w_set_heap_set. done.
Qed.

(** X3: [PriorityQueue.find_min].  On a queue that satisfies the heap
    invariant, [find_min] raises [IndexError] on an empty queue; otherwise
    it returns an element of the queue whose priority is at most the
    priority of every element.  The world is left unchanged in both cases. *)
Theorem pq_find_min_spec q A w :
  pq_inv w.(w_heap) q A ->
  (A = [] -> pq_find_min q w = Some (w, Raise IndexError)) /\
  (A <> [] -> exists r pr, pq_find_min q w = Some (w, Ok r) /\ r ∈ A /\
     node_prio w.(w_heap) r = Some pr /\
     forall x px, x ∈ A -> node_prio w.(w_heap) x = Some px -> pr <= px).
Proof.
  intros (Hq & Hnd & Hix & Hint & Hok).
  unfold pq_find_min, get_pq, load, mbind, M_bind. rewrite Hq. cbn.
  split; [intros ->; done|].
  intros HA. destruct A as [|r A']; [done|].
  assert (Hr : r ∈ r :: A') by left.
  destruct (Hint r Hr) as [pr Hpr].
  exists r, pr. split; [done|]. split; [done|]. split; [done|].
  intros x px Hx Hpx. apply list_elem_of_lookup in Hx as [j Hj].
  pose proof (heap_min (prios w.(w_heap) (r :: A')) j Hok) as Hm.
  rewrite prios_length in Hm. specialize (Hm (lookup_lt_Some _ _ _ Hj)).
  rewrite (prios_lookup _ _ 0 r pr) in Hm by done.
  rewrite (prios_lookup _ _ j x px) in Hm by done. done.
Qed.

Lemma pq_inv_lookup H q A elem :
  pq_inv H q A -> elem ∈ A ->
  exists i nd, A !! i = Some elem /\ H !! elem = Some (OPQNode nd) /\
    nd.(pn_index) = Z.of_nat i /\ exists p, nd.(pn_prio) = NInt p.
Proof.
  intros (Hq & Hnd & Hix & Hint & Hok) He.
  apply list_elem_of_lookup in He as [i Hi]. pose proof (Hix i elem Hi) as Hidx.
  assert (Hin : elem ∈ A) by (eapply list_elem_of_lookup_2; eauto).
  destruct (Hint elem Hin) as [p Hp].
  unfold node_index, node_prio in *. destruct (H !! elem) as [[]|]; try discriminate.
  exists i, n. split; [done|]. split; [done|]. split; [congruence|].
  destruct (pn_prio n); [eauto|discriminate].
Qed.

Lemma prios_update H A i elem o pe :
  NoDup A -> A !! i = Some elem -> node_prio (<[elem := o]> H) elem = Some pe ->
  prios (<[elem := o]> H) A = <[i := pe]> (prios H A).
Proof.
  intros Hnd Hi Hpe. apply list_eq. intros j. unfold prios.
  rewrite list_lookup_insert, !list_lookup_fmap.
  destruct (decide (i = j)) as [<-|Hij].
  - rewrite Hi, length_fmap, decide_True by (split; [done|eapply lookup_lt_Some; eauto]).
    cbn. rewrite Hpe. done.
  - rewrite decide_False by tauto. destruct (A !! j) as [x|] eqn:Hj; [|done]. cbn.
    assert (x <> elem) by (intros ->; pose proof (NoDup_lookup _ _ _ _ Hnd Hi Hj); lia).
    rewrite node_prio_insert_ne by done. done.
Qed.

Section ChangePrio.
Variables (fuel : nat) (q elem : Z) (A : list Z) (w : world) (p : Z).
Hypothesis Hinv : pq_inv w.(w_heap) q A.
Hypothesis Helem : elem ∈ A.
Hypothesis Hfuel : (length A < fuel)%nat.

(** The common postcondition of [decrease_prio] and [increase_prio]. *)
Definition prio_changed (w' : world) : Prop :=
  exists A', pq_inv w'.(w_heap) q A' /\ A' ≡ₚ A /\
    node_prio w'.(w_heap) elem = Some p /\ node_data w'.(w_heap) elem = node_data w.(w_heap) elem /\
    (forall x, x ∈ A -> x <> elem -> node_prio w'.(w_heap) x = node_prio w.(w_heap) x /\
                                     node_data w'.(w_heap) x = node_data w.(w_heap) x) /\
    (forall x, x <> q -> x ∉ A -> w'.(w_heap) !! x = w.(w_heap) !! x) /\
    w' = w_set_heap w'.(w_heap) w.

Variable p0 : Z.
Hypothesis Hp0 : node_prio w.(w_heap) elem = Some p0.

Lemma change_prio_setup :
  exists i nd, A !! i = Some elem /\ w.(w_heap) !! elem = Some (OPQNode nd) /\
    nd.(pn_index) = Z.of_nat i /\ nd.(pn_prio) = NInt p0 /\ elem <> q /\
    pq_inv w.(w_heap) q A.
Proof.
  destruct (pq_inv_lookup _ _ _ _ Hinv Helem) as (i & nd & Hi & Hn & Hidx & p1 & Hp1).
  exists i, nd. split; [done|]. split; [done|]. split; [done|].
  split; [unfold node_prio in Hp0; rewrite Hn, Hp1 in Hp0; congruence|].
  split; [|done]. destruct Hinv as (Hq & _). eapply node_ne_queue; eauto.
Qed.

(** The world after [elem.prio = prio], from which [_sift_up] or
    [_sift_down] starts. *)
Lemma change_prio_start i nd :
  A !! i = Some elem -> w.(w_heap) !! elem = Some (OPQNode nd) -> elem <> q ->
  let H1 := <[elem := OPQNode (pn_set_prio (NInt p) nd)]> w.(w_heap) in
  H1 !! q = Some (OPQueue A) /\ NoDup A /\ indexed H1 A /\ int_prios H1 A /\
  node_prio H1 elem = Some p /\ prios H1 A = <[i := p]> (prios w.(w_heap) A).
Proof.
  intros Hi Hn Hne H1. destruct Hinv as (Hq & Hnd & Hix & Hint & Hok).
  assert (Hpe : node_prio H1 elem = Some p) by (unfold H1, node_prio; rewrite lookup_insert_eq; done).
  split; [unfold H1; rewrite lookup_insert_ne by congruence; done|].
  split; [done|]. split.
  { intros j x Hj. destruct (decide (x = elem)) as [->|Hx].
    - unfold H1, node_index. rewrite lookup_insert_eq. cbn.
      specialize (Hix j elem Hj). unfold node_index in Hix. rewrite Hn in Hix. done.
    - unfold H1. rewrite node_index_insert_ne by done. apply Hix; done. }
  split.
  { intros x Hx. destruct (decide (x = elem)) as [->|Hxe]; [rewrite Hpe; by eexists|].
    unfold H1. rewrite node_prio_insert_ne by done. apply Hint; done. }
  split; [done|]. apply prios_update; done.
Qed.

Lemma change_prio_finish i nd w1 w' A' :
  A !! i = Some elem -> w.(w_heap) !! elem = Some (OPQNode nd) -> elem <> q ->
  w1 = w_set_heap (<[elem := OPQNode (pn_set_prio (NInt p) nd)]> w.(w_heap)) w ->
  int_prios w1.(w_heap) A ->
  pq_final w1.(w_heap) w'.(w_heap) q A A' -> heap_ok (prios w1.(w_heap) A') ->
  w' = w_set_heap w'.(w_heap) w1 ->
  prio_changed w'.
Proof.
  intros Hi Hn Hne -> Hint1 Hfin Hok' Hw'.
  pose proof Hfin as (Hq' & Hperm & Hnd' & Hix' & Hsame & Hfr).
  exists A'. split; [exact (pq_final_inv _ _ _ _ _ Hfin Hint1 Hok')|].
  split; [done|].
  destruct (nodes_same_prio _ _ _ _ Hsame Helem) as [Hpe Hde].
  rewrite w_heap_set in Hpe, Hde.
  split; [rewrite Hpe; unfold node_prio; rewrite lookup_insert_eq; done|].
  split; [rewrite Hde; unfold node_data; rewrite lookup_insert_eq, Hn; done|].
  split.
  { intros x Hx Hxe. destruct (nodes_same_prio _ _ _ _ Hsame Hx) as [Hpx Hdx].
    rewrite w_heap_set in Hpx, Hdx. rewrite Hpx, Hdx.
    rewrite node_prio_insert_ne, node_data_insert_ne by done. done. }
  split.
  { intros x Hxq Hx. rewrite Hfr by done. rewrite w_heap_set, lookup_insert_ne; [done|].
    intros ->. done. }
  rewrite Hw' at 1. rewrite w_set_heap_set. done.
Qed.

Lemma decrease_prio_correct :
  p <= p0 ->
  exists w', pq_decrease_prio fuel q elem (NInt p) w = Some (w', Ok tt) /\
    prio_changed w'.
Proof.
  intros Hle.
  destruct change_prio_setup as (i & nd & Hi & Hn & Hidx & Hnp & Hne & _).
  destruct (change_prio_start i nd Hi Hn Hne) as (Hq1 & Hnd1 & Hix1 & Hint1 & Hpe1 & Hps1).
  cut (wp (pq_decrease_prio fuel q elem (NInt p)) (fun _ w' => prio_changed w') w).
  { intros Hwp. destruct (wp_elim _ _ _ Hwp) as (w' & [] & Hrun & HP). eauto. }
  destruct Hinv as (Hq & Hnd & Hix & Hint & Hok).
  unfold pq_decrease_prio. apply wp_bind. eapply wp_get_pqnode; [exact Hn|].
  apply wp_bind. eapply wp_get_pq; [exact Hq|].
  rewrite Hidx. apply wp_bind. eapply wp_py_index; [exact Hi|].
  apply wp_bind. rewrite bool_decide_true by done. apply wp_py_assert_true.
  apply wp_bind. rewrite Hnp, n_le_int, (proj2 (Z.leb_le _ _) Hle). apply wp_py_assert_true.
  apply wp_bind. eapply wp_upd_pqnode; [exact Hn|].
  eapply (sift_up_wp fuel q elem i A _ p); rewrite ?w_heap_set; try done.
  - rewrite Hps1. apply decrease_up; [done|rewrite prios_length; eapply lookup_lt_Some; eauto|].
    rewrite (prios_lookup _ _ i elem p0) by done. done.
  - pose proof (lookup_lt_Some _ _ _ Hi). lia.
  - intros w' A' Hfin Hok' Hw'.
    eapply change_prio_finish; eauto; rewrite w_heap_set; done.
Qed.

Lemma increase_prio_correct :
  p0 <= p ->
  exists w', pq_increase_prio fuel q elem (NInt p) w = Some (w', Ok tt) /\
    prio_changed w'.
Proof.
  intros Hle.
  destruct change_prio_setup as (i & nd & Hi & Hn & Hidx & Hnp & Hne & _).
  destruct (change_prio_start i nd Hi Hn Hne) as (Hq1 & Hnd1 & Hix1 & Hint1 & Hpe1 & Hps1).
  cut (wp (pq_increase_prio fuel q elem (NInt p)) (fun _ w' => prio_changed w') w).
  { intros Hwp. destruct (wp_elim _ _ _ Hwp) as (w' & [] & Hrun & HP). eauto. }
  destruct Hinv as (Hq & Hnd & Hix & Hint & Hok).
  unfold pq_increase_prio. apply wp_bind. eapply wp_get_pqnode; [exact Hn|].
  apply wp_bind. eapply wp_get_pq; [exact Hq|].
  rewrite Hidx. apply wp_bind. eapply wp_py_index; [exact Hi|].
  apply wp_bind. rewrite bool_decide_true by done. apply wp_py_assert_true.
  apply wp_bind. rewrite Hnp, n_ge_int, (proj2 (Z.leb_le _ _) Hle). apply wp_py_assert_true.
  apply wp_bind. eapply wp_upd_pqnode; [exact Hn|].
  eapply (sift_down_wp fuel q elem i A _ p); rewrite ?w_heap_set; try done.
  - rewrite Hps1. apply increase_down; [done|rewrite prios_length; eapply lookup_lt_Some; eauto|].
    rewrite (prios_lookup _ _ i elem p0) by done. done.
  - intros w' A' Hfin Hok' Hw'.
    eapply change_prio_finish; eauto; rewrite w_heap_set; done.
Qed.

End ChangePrio.

Lemma n_lt_int a b : n_lt (NInt a) (NInt b) = (a <? b).
Proof.
  unfold n_lt, PyHeap.num_lt. cbn. destruct (Z.compare_spec a b);
    symmetry; apply Z.ltb_lt || apply Z.ltb_ge; lia.
Qed.

Lemma n_gt_int a b : n_gt (NInt a) (NInt b) = (b <? a).
Proof.
  unfold n_gt, PyHeap.num_gt. cbn. destruct (Z.compare_spec a b);
    symmetry; apply Z.ltb_lt || apply Z.ltb_ge; lia.
Qed.

Lemma wp_py_pop {A} (B : list A) z (Q : list A * A -> world -> Prop) w :
  Q (B, z) w -> wp (py_pop (B ++ [z])) Q w.
Proof. intros HQ. unfold py_pop. rewrite last_snoc, removelast_last. done. Qed.

Lemma delete_perm (B : list Z) i e z :
  B !! i = Some e -> B ++ [z] ≡ₚ e :: <[i := z]> B.
Proof.
  intros Hi. rewrite insert_take_drop by (eapply lookup_lt_Some; eauto).
  rewrite <- (take_drop_middle B i e Hi) at 1.
  rewrite <- app_assoc. cbn. solve_Permutation.
Qed.

(** Updating [index] of a node, or the list of a queue object, leaves the
    priorities and data of all nodes as they were. *)
Lemma node_fields_set_index H z ndz k x :
  H !! z = Some (OPQNode ndz) ->
  node_prio (<[z := OPQNode (pn_set_index k ndz)]> H) x = node_prio H x /\
  node_data (<[z := OPQNode (pn_set_index k ndz)]> H) x = node_data H x.
Proof.
  intros Hz. unfold node_prio, node_data.
  destruct (decide (x = z)) as [->|Hx].
  - rewrite lookup_insert_eq, Hz. done.
  - rewrite lookup_insert_ne by congruence. done.
Qed.

Lemma node_fields_set_queue H q l l0 x :
  H !! q = Some (OPQueue l0) ->
  node_prio (<[q := OPQueue l]> H) x = node_prio H x /\
  node_data (<[q := OPQueue l]> H) x = node_data H x /\
  node_index (<[q := OPQueue l]> H) x = node_index H x.
Proof.
  intros Hq. unfold node_prio, node_data, node_index.
  destruct (decide (x = q)) as [->|Hx].
  - rewrite lookup_insert_eq, Hq. done.
  - rewrite lookup_insert_ne by congruence. done.
Qed.

(** The result of [delete(elem)]: [elem] has left the queue, the other
    elements keep their priorities and data, and nothing else changed. *)
Definition pq_deleted (q elem : Z) (A : list Z) (w w' : world) : Prop :=
  exists A', pq_inv w'.(w_heap) q A' /\ A ≡ₚ elem :: A' /\
    (forall x, x ∈ A' -> node_prio w'.(w_heap) x = node_prio w.(w_heap) x /\
                         node_data w'.(w_heap) x = node_data w.(w_heap) x) /\
    (forall x, x <> q -> x ∉ A' -> w'.(w_heap) !! x = w.(w_heap) !! x) /\
    w' = w_set_heap w'.(w_heap) w.

(** X6: [PriorityQueue.delete].  For an element of a queue that satisfies
    the heap invariant, [delete] raises nothing; afterwards the queue holds
    exactly the other elements, again satisfies the heap invariant, those
    elements keep their priority and data, and no other object changes (the
    deleted node itself included). *)
Theorem pq_delete_spec fuel q elem A w :
  pq_inv w.(w_heap) q A -> elem ∈ A -> (length A < fuel)%nat ->
  exists w', pq_delete fuel q elem w = Some (w', Ok tt) /\ pq_deleted q elem A w w'.
Proof.
  intros Hinv Helem Hfuel.
  cut (wp (pq_delete fuel q elem) (fun _ w' => pq_deleted q elem A w w') w).
  { intros Hwp. destruct (wp_elim _ _ _ Hwp) as (w' & [] & Hrun & HP). eauto. }
  destruct (pq_inv_lookup _ _ _ _ Hinv Helem) as (i & nd & Hi & Hn & Hidx & pe & Hpe).
  assert (HBz : exists B z, A = B ++ [z]).
  { destruct A as [|a A0] using rev_ind; [by apply not_elem_of_nil in Helem|]. eauto. }
  destruct HBz as (B & z & ->).
  pose proof Hinv as (Hq & Hnd & Hix & Hint & Hok).
  assert (Hz : z ∈ B ++ [z]) by (apply elem_of_app; right; apply list_elem_of_singleton; done).
  destruct (pq_inv_lookup _ _ _ _ Hinv Hz) as (j & ndz & Hj & Hnz & Hidxz & pz & Hpz).
  assert (Hjl : j = length B).
  { eapply NoDup_lookup; [exact Hnd|exact Hj|]. rewrite lookup_app_r by lia.
    rewrite Nat.sub_diag. done. }
  subst j.
  assert (HokB : heap_ok (prios w.(w_heap) B)).
  { pose proof (heap_ok_removelast _ Hok) as HB. rewrite prios_app in HB.
    unfold prios at 2 in HB. cbn in HB. rewrite removelast_last in HB. done. }
  assert (HzB : z ∉ B).
  { intros HzB. apply NoDup_app in Hnd as (_ & Hd & _). apply (Hd z HzB).
    apply list_elem_of_singleton. done. }
  assert (HqA : forall x, x ∈ B ++ [z] -> x <> q).
  { intros x Hx ->. destruct (proj1 (list_elem_of_lookup _ _) Hx) as [k Hk].
    specialize (Hix k q Hk). unfold node_index in Hix. rewrite Hq in Hix. done. }
  unfold pq_delete. apply wp_bind. eapply wp_get_pqnode; [exact Hn|].
  apply wp_bind. eapply wp_get_pq; [exact Hq|].
  rewrite Hidx. apply wp_bind. eapply wp_py_index; [exact Hi|].
  apply wp_bind. rewrite bool_decide_true by done. apply wp_py_assert_true.
  apply wp_bind. apply wp_py_pop. cbn beta iota.
  apply wp_bind. unfold set_pq. apply wp_put.
  assert (Hil : (i < S (length B))%nat).
  { pose proof (lookup_lt_Some _ _ _ Hi) as Hl. rewrite length_app in Hl. cbn in Hl. lia. }
  destruct (decide (i < length B)%nat) as [Hlt|Hge].
  2:{
    rewrite (proj2 (Z.ltb_ge _ _)) by lia. apply wp_ret.
    assert (i = length B) as -> by lia.
    rewrite Hj in Hi. injection Hi as <-.
    exists B. rewrite !w_heap_set. split; [split|].
    - apply lookup_insert_eq.
    - split; [apply NoDup_app in Hnd; tauto|]. split.
      + intros k x Hk. rewrite (proj2 (proj2 (node_fields_set_queue _ _ B _ x Hq))).
        apply Hix. apply lookup_app_l_Some. done.
      + split.
        * intros x Hx. rewrite (proj1 (node_fields_set_queue _ _ B _ x Hq)).
          apply Hint. apply elem_of_app. by left.
        * rewrite (prios_ext (w_heap w)); [done|]. intros x _. apply (node_fields_set_queue _ _ B _ x Hq).
    - split; [apply Permutation_app_comm|]. split.
      + intros x _. split; apply (node_fields_set_queue _ _ B _ x Hq).
      + split; [intros x Hxq _; apply lookup_insert_ne; congruence|].
        rewrite ?w_heap_set, ?w_set_heap_set. done. }
  rewrite (proj2 (Z.ltb_lt _ _)) by lia.
  assert (HBi : B !! i = Some elem) by (rewrite lookup_app_l in Hi by done; done).
  assert (Hez : elem <> z) by (intros ->; apply HzB; eapply list_elem_of_lookup_2; eauto).
  assert (Hzq : z <> q) by (apply HqA; done).
  apply wp_bind. eapply wp_upd_pqnode.
  { rewrite !w_heap_set, lookup_insert_ne by congruence. exact Hnz. }
  apply wp_bind. eapply (wp_pq_set_slot q B i).
  { rewrite !w_heap_set, lookup_insert_ne, lookup_insert_eq by congruence. done. }
  { done. }
  set (A2 := <[i := z]> B).
  match goal with |- wp _ _ ?W => remember W as w3 eqn:Hw3 end.
  assert (Hfields : forall x, node_prio w3.(w_heap) x = node_prio w.(w_heap) x /\
                              node_data w3.(w_heap) x = node_data w.(w_heap) x).
  { intros x. rewrite Hw3, !w_heap_set.
    destruct (node_fields_set_queue (<[z:=OPQNode (pn_set_index (Z.of_nat i) ndz)]> (<[q:=OPQueue B]> (w_heap w))) q A2 B x) as (-> & -> & _).
    { rewrite lookup_insert_ne, lookup_insert_eq by congruence. done. }
    destruct (node_fields_set_index (<[q:=OPQueue B]> (w_heap w)) z ndz (Z.of_nat i) x) as [-> ->].
    { rewrite lookup_insert_ne by congruence. done. }
    destruct (node_fields_set_queue _ _ B _ x Hq) as (-> & -> & _). done. }
  assert (Hq3 : w3.(w_heap) !! q = Some (OPQueue A2)) by (rewrite Hw3, !w_heap_set; apply lookup_insert_eq).
  assert (Hperm : B ++ [z] ≡ₚ elem :: A2) by (apply delete_perm; done).
  assert (Hnd2 : NoDup A2).
  { pose proof Hnd as Hnd'. rewrite Hperm in Hnd'. apply NoDup_cons in Hnd'. tauto. }
  assert (Hsub : forall x, x ∈ A2 -> x ∈ B ++ [z]).
  { intros x Hx. rewrite Hperm. apply elem_of_cons. by right. }
  assert (Hzi : A2 !! i = Some z) by (apply list_lookup_insert_eq; done).
  assert (Hix3 : indexed w3.(w_heap) A2).
  { intros k x Hk. destruct (decide (k = i)) as [->|Hki].
    - rewrite Hzi in Hk. injection Hk as <-. unfold node_index. rewrite Hw3, !w_heap_set.
      rewrite lookup_insert_ne, lookup_insert_eq by congruence. done.
    - unfold A2 in Hk. rewrite list_lookup_insert_ne in Hk by congruence.
      assert (x <> z) by (intros ->; apply HzB; eapply list_elem_of_lookup_2; eauto).
      assert (x <> q) by (apply HqA, elem_of_app; left; eapply list_elem_of_lookup_2; eauto).
      unfold node_index. rewrite Hw3, !w_heap_set, !lookup_insert_ne by congruence.
      apply Hix. apply lookup_app_l_Some. done. }
  assert (Hint3 : int_prios w3.(w_heap) A2).
  { intros x Hx. rewrite (proj1 (Hfields x)). apply Hint, Hsub, Hx. }
  assert (Hpz3 : node_prio w3.(w_heap) z = Some pz).
  { rewrite (proj1 (Hfields z)). unfold node_prio. rewrite Hnz, Hpz. done. }
  assert (Hps : prios w3.(w_heap) A2 = <[i := pz]> (prios w.(w_heap) B)).
  { rewrite (prios_ext (w_heap w)) by (intros x _; apply Hfields). unfold prios, A2.
    rewrite list_fmap_insert. unfold node_prio at 1. rewrite Hnz, Hpz. done. }
  assert (HpeB : prios w.(w_heap) B !!! i = pe).
  { apply (prios_lookup _ _ i elem pe HBi). unfold node_prio. rewrite Hn, Hpe. done. }
  assert (Hfinal : forall w' A', pq_final w3.(w_heap) w'.(w_heap) q A2 A' ->
            heap_ok (prios w3.(w_heap) A') -> w' = w_set_heap w'.(w_heap) w3 ->
            pq_deleted q elem (B ++ [z]) w w').
  { intros w' A' Hfin Hok' Hw'. pose proof Hfin as (Hq' & Hp' & Hnd' & Hix' & Hs' & Hfr').
    exists A'. split; [exact (pq_final_inv _ _ _ _ _ Hfin Hint3 Hok')|].
    split; [rewrite Hperm, Hp'; done|]. split.
    { intros x Hx. destruct (Hfields x) as [<- <-].
      apply (nodes_same_prio _ _ _ _ Hs'). rewrite <- Hp'. done. }
    split.
    { intros x Hxq Hx. rewrite Hfr' by first [done | rewrite <- Hp'; done].
      assert (x <> z) by (intros ->; apply Hx; rewrite Hp'; eapply list_elem_of_lookup_2; eauto).
      rewrite Hw3, !w_heap_set, !lookup_insert_ne by congruence. done. }
    rewrite Hw' at 1. rewrite Hw3, !w_set_heap_set. done. }
  apply wp_bind. eapply wp_get_pqnode.
  { rewrite Hw3, !w_heap_set, lookup_insert_ne, lookup_insert_eq by congruence. done. }
  cbn [pn_set_index pn_prio]. rewrite Hpz, Hpe, n_lt_int, n_gt_int.
  assert (HiB : (i < length (prios w.(w_heap) B))%nat) by (rewrite prios_length; done).
  destruct (Z.ltb_spec pz pe) as [Hup|Hup].
  { eapply (sift_up_wp fuel q z i A2 w3 pz); try done.
    - rewrite Hps. apply decrease_up; [done|done|lia].
    - rewrite length_app in Hfuel. cbn in Hfuel. lia. }
  destruct (Z.ltb_spec pe pz) as [Hdown|Hdown].
  { eapply (sift_down_wp fuel q z i A2 w3 pz); try done.
    - rewrite Hps. apply increase_down; [done|done|lia].
    - unfold A2. rewrite length_insert. rewrite length_app in Hfuel. cbn in Hfuel. lia. }
  apply wp_ret. apply (Hfinal w3 A2).
  - split; [done|]. split; [done|]. split; [done|]. split; [done|].
    split; [apply nodes_same_refl|intros x _ _; done].
    intros x Hx. destruct (Hint3 x Hx) as [t Ht]. unfold node_prio in Ht.
    destruct (w_heap w3 !! x) as [[]|]; try done. eauto.
  - rewrite Hps, list_insert_id; [done|].
    rewrite (list_lookup_lookup_total_lt _ _ HiB), HpeB. f_equal. lia.
  - by destruct w3.
Qed.

Lemma bind_ok {A B} (m : M A) (k : A -> M B) w w' a :
  m w = Some (w', Ok a) -> (m ≫= k) w = k a w'.
Proof. intros Hm. unfold mbind, M_bind. rewrite Hm. done. Qed.

Lemma change_prio_prefix q elem A w i nd :
  w.(w_heap) !! elem = Some (OPQNode nd) -> w.(w_heap) !! q = Some (OPQueue A) ->
  A !! i = Some elem -> nd.(pn_index) = Z.of_nat i ->
  get_pqnode elem w = Some (w, Ok nd) /\ get_pq q w = Some (w, Ok A) /\
  py_index A nd.(pn_index) w = Some (w, Ok elem).
Proof.
  intros Hn Hq Hi Hidx. unfold get_pqnode, get_pq, load, mbind, M_bind.
  rewrite Hn, Hq. split; [done|]. split; [done|].
  rewrite Hidx. unfold py_index. rewrite py_pos_nat by (eapply lookup_lt_Some; eauto).
  cbn. rewrite Hi. done.
Qed.

(** X7: the assertions of [decrease_prio] and [increase_prio].  For an
    element of a queue that satisfies the heap invariant, [decrease_prio]
    with a priority above the current one, and [increase_prio] with a
    priority below it, raise [AssertionError] before changing anything. *)
Theorem pq_change_prio_wrong_direction fuel q elem A w p p0 :
  pq_inv w.(w_heap) q A -> elem ∈ A -> node_prio w.(w_heap) elem = Some p0 ->
  (p0 < p -> pq_decrease_prio fuel q elem (NInt p) w = Some (w, Raise AssertionError)) /\
  (p < p0 -> pq_increase_prio fuel q elem (NInt p) w = Some (w, Raise AssertionError)).
Proof.
  intros Hinv Helem Hp0.
  destruct (pq_inv_lookup _ _ _ _ Hinv Helem) as (i & nd & Hi & Hn & Hidx & p1 & Hp1).
  assert (Hnp : nd.(pn_prio) = NInt p0).
  { unfold node_prio in Hp0. rewrite Hn, Hp1 in Hp0. congruence. }
  destruct Hinv as (Hq & _).
  destruct (change_prio_prefix q elem A w i nd Hn Hq Hi Hidx) as (H1 & H2 & H3).
  split; intros Hlt.
  - unfold pq_decrease_prio.
    rewrite (bind_ok _ _ w w nd H1), (bind_ok _ _ w w A H2), (bind_ok _ _ w w elem H3).
    rewrite bool_decide_true by done. rewrite (bind_ok _ _ w w tt) by done.
    rewrite Hnp, n_le_int, (proj2 (Z.leb_gt _ _)) by lia. done.
  - unfold pq_increase_prio.
    rewrite (bind_ok _ _ w w nd H1), (bind_ok _ _ w w A H2), (bind_ok _ _ w w elem H3).
    rewrite bool_decide_true by done. rewrite (bind_ok _ _ w w tt) by done.
    rewrite Hnp, n_ge_int, (proj2 (Z.leb_gt _ _)) by lia. done.
Qed.

(** X4: [PriorityQueue.decrease_prio].  For an element of a queue that
    satisfies the heap invariant and a new priority at most its current one,
    [decrease_prio] raises nothing; afterwards the queue holds the same
    elements and again satisfies the heap invariant, the element has the new
    priority and its old data, every other element keeps its priority and
    data, and no object outside the queue and its nodes changes. *)
Theorem pq_decrease_prio_spec fuel q elem A w p p0 :
  pq_inv w.(w_heap) q A -> elem ∈ A -> (length A < fuel)%nat ->
  node_prio w.(w_heap) elem = Some p0 -> p <= p0 ->
  exists w', pq_decrease_prio fuel q elem (NInt p) w = Some (w', Ok tt) /\
    prio_changed q elem A w p w'.
Proof. intros Hinv Helem Hfuel Hp0. exact (decrease_prio_correct fuel q elem A w p Hinv Helem Hfuel p0 Hp0). Qed.

(** X5: [PriorityQueue.increase_prio].  For an element of a queue that
    satisfies the heap invariant and a new priority at least its current one,
    [increase_prio] raises nothing; afterwards the queue holds the same
    elements and again satisfies the heap invariant, the element has the new
    priority and its old data, every other element keeps its priority and
    data, and no object outside the queue and its nodes changes. *)
Theorem pq_increase_prio_spec fuel q elem A w p p0 :
  pq_inv w.(w_heap) q A -> elem ∈ A -> (length A < fuel)%nat ->
  node_prio w.(w_heap) elem = Some p0 -> p0 <= p ->
  exists w', pq_increase_prio fuel q elem (NInt p) w = Some (w', Ok tt) /\
    prio_changed q elem A w p w'.
Proof. intros Hinv Helem Hfuel Hp0. exact (increase_prio_correct fuel q elem A w p Hinv Helem Hfuel p0 Hp0). Qed.

(** A priority queue object [1] holding the nodes [2] (priority 5, data 7)
    and [3] (priority 8, data 9), with the next fresh address [4]. *)
Definition pq_example_world : world :=
  mk_world (<[1 := OPQueue [2; 3]]> (<[2 := OPQNode (mk_pqnode 0 (NInt 5) 7)]>
             (<[3 := OPQNode (mk_pqnode 1 (NInt 8) 9)]> ∅)))
    4 [] [] [] (NInt 0) [] [] [].

Definition pq_empty_world : world :=
  mk_world (<[1 := OPQueue []]> ∅) 2 [] [] [] (NInt 0) [] [] [].

Ltac pq_inv_concrete :=
  split; [reflexivity|];
  split; [refine (bool_decide_unpack _ _); vm_compute; reflexivity|];
  split; [intros i x Hx; destruct i as [|[|[|i]]]; cbn in Hx; try discriminate;
          injection Hx as <-; reflexivity|];
  split; [intros x Hx; repeat (apply elem_of_cons in Hx as [->|Hx]; [eexists; reflexivity|]);
          by apply not_elem_of_nil in Hx|];
  intros j Hj; rewrite prios_length in Hj; cbn in Hj;
  destruct j as [|[|j]]; [lia| |lia]; apply Z.leb_le; vm_compute; reflexivity.

Lemma pq_insert_spec_witness :
  pq_inv (w_heap pq_example_world) 1 [2; 3] /\
  w_heap pq_example_world !! w_next pq_example_world = None /\
  (length [2; 3] < 5)%nat /\
  exists w' A', pq_insert 5 1 (NInt 1) 0 pq_example_world = Some (w', Ok 4) /\
    pq_inv (w_heap w') 1 A' /\ A' ≡ₚ [2; 3; 4] /\
    node_prio (w_heap w') 4 = Some 1 /\
    node_prio (w_heap w') 2 = Some 5 /\ node_prio (w_heap w') 3 = Some 8.
Proof.
  assert (Hinv : pq_inv (w_heap pq_example_world) 1 [2; 3]) by pq_inv_concrete.
  assert (Hnone : w_heap pq_example_world !! w_next pq_example_world = None) by reflexivity.
  split; [exact Hinv|]. split; [exact Hnone|]. split; [cbn; lia|].
  destruct (pq_insert_spec 5 1 [2; 3] 1 0 pq_example_world Hinv Hnone ltac:(cbn; lia))
    as (w' & A' & Hrun & Hinv' & Hperm & Hp & _ & Hold & _).
  exists w', A'. split; [exact Hrun|]. split; [exact Hinv'|]. split; [exact Hperm|].
  split; [exact Hp|].
  split.
  - rewrite (proj1 (Hold 2 ltac:(apply elem_of_cons; left; reflexivity))). reflexivity.
  - rewrite (proj1 (Hold 3 ltac:(apply elem_of_cons; right; apply list_elem_of_singleton; reflexivity))).
    reflexivity.
Defined.

Lemma pq_find_min_spec_witness :
  pq_inv (w_heap pq_example_world) 1 [2; 3] /\
  exists r pr, pq_find_min 1 pq_example_world = Some (pq_example_world, Ok r) /\
    node_prio (w_heap pq_example_world) r = Some pr.
Proof.
  assert (Hinv : pq_inv (w_heap pq_example_world) 1 [2; 3]) by pq_inv_concrete.
  split; [exact Hinv|].
  destruct (proj2 (pq_find_min_spec 1 [2; 3] pq_example_world Hinv) ltac:(discriminate))
    as (r & pr & Hrun & _ & Hpr & _).
  exists r, pr. split; [exact Hrun|exact Hpr].
Defined.

Lemma pq_decrease_prio_spec_witness :
  pq_inv (w_heap pq_example_world) 1 [2; 3] /\ 3 ∈ [2; 3] /\ (length [2; 3] < 5)%nat /\
  node_prio (w_heap pq_example_world) 3 = Some 8 /\ 1 <= 8 /\
  exists w', pq_decrease_prio 5 1 3 (NInt 1) pq_example_world = Some (w', Ok tt) /\
    prio_changed 1 3 [2; 3] pq_example_world 1 w'.
Proof.
  assert (Hinv : pq_inv (w_heap pq_example_world) 1 [2; 3]) by pq_inv_concrete.
  assert (Hel : 3 ∈ [2; 3]) by (apply elem_of_cons; right; apply list_elem_of_singleton; reflexivity).
  assert (Hp : node_prio (w_heap pq_example_world) 3 = Some 8) by reflexivity.
  split; [exact Hinv|]. split; [exact Hel|]. split; [cbn; lia|]. split; [exact Hp|].
  split; [lia|].
  apply (pq_decrease_prio_spec 5 1 3 [2; 3] pq_example_world 1 8 Hinv Hel ltac:(cbn; lia) Hp).
  lia.
Defined.

Lemma pq_increase_prio_spec_witness :
  pq_inv (w_heap pq_example_world) 1 [2; 3] /\ 2 ∈ [2; 3] /\ (length [2; 3] < 5)%nat /\
  node_prio (w_heap pq_example_world) 2 = Some 5 /\ 5 <= 10 /\
  exists w', pq_increase_prio 5 1 2 (NInt 10) pq_example_world = Some (w', Ok tt) /\
    prio_changed 1 2 [2; 3] pq_example_world 10 w'.
Proof.
  assert (Hinv : pq_inv (w_heap pq_example_world) 1 [2; 3]) by pq_inv_concrete.
  assert (Hel : 2 ∈ [2; 3]) by (apply elem_of_cons; left; reflexivity).
  assert (Hp : node_prio (w_heap pq_example_world) 2 = Some 5) by reflexivity.
  split; [exact Hinv|]. split; [exact Hel|]. split; [cbn; lia|]. split; [exact Hp|].
  split; [lia|].
  apply (pq_increase_prio_spec 5 1 2 [2; 3] pq_example_world 10 5 Hinv Hel ltac:(cbn; lia) Hp).
  lia.
Defined.

Lemma pq_delete_spec_witness :
  pq_inv (w_heap pq_example_world) 1 [2; 3] /\ 2 ∈ [2; 3] /\ (length [2; 3] < 5)%nat /\
  exists w', pq_delete 5 1 2 pq_example_world = Some (w', Ok tt) /\
    pq_deleted 1 2 [2; 3] pq_example_world w'.
Proof.
  assert (Hinv : pq_inv (w_heap pq_example_world) 1 [2; 3]) by pq_inv_concrete.
  assert (Hel : 2 ∈ [2; 3]) by (apply elem_of_cons; left; reflexivity).
  split; [exact Hinv|]. split; [exact Hel|]. split; [cbn; lia|].
  apply (pq_delete_spec 5 1 2 [2; 3] pq_example_world Hinv Hel ltac:(cbn; lia)).
Defined.

Lemma pq_change_prio_wrong_direction_witness :
  pq_inv (w_heap pq_example_world) 1 [2; 3] /\ 2 ∈ [2; 3] /\
  node_prio (w_heap pq_example_world) 2 = Some 5 /\
  pq_decrease_prio 5 1 2 (NInt 6) pq_example_world = Some (pq_example_world, Raise AssertionError) /\
  pq_increase_prio 5 1 2 (NInt 4) pq_example_world = Some (pq_example_world, Raise AssertionError).
Proof.
  assert (Hinv : pq_inv (w_heap pq_example_world) 1 [2; 3]) by pq_inv_concrete.
  assert (Hel : 2 ∈ [2; 3]) by (apply elem_of_cons; left; reflexivity).
  assert (Hp : node_prio (w_heap pq_example_world) 2 = Some 5) by reflexivity.
  split; [exact Hinv|]. split; [exact Hel|]. split; [exact Hp|].
  split.
  - apply (proj1 (pq_change_prio_wrong_direction 5 1 2 [2; 3] pq_example_world 6 5 Hinv Hel Hp)). lia.
  - apply (proj2 (pq_change_prio_wrong_direction 5 1 2 [2; 3] pq_example_world 4 5 Hinv Hel Hp)). lia.
Defined.

Lemma wp_get_cq r qq (Q : cqueue -> world -> Prop) w :
  w.(w_heap) !! r = Some (OCQueue qq) -> Q qq w -> wp (get_cq r) Q w.
Proof. intros Hr HQ. unfold wp, get_cq, load, mbind, M_bind. rewrite Hr. done. Qed.

Lemma wp_get_cqnode r nd (Q : cqnode -> world -> Prop) w :
  w.(w_heap) !! r = Some (OCQNode nd) -> Q nd w -> wp (get_cqnode r) Q w.
Proof. intros Hr HQ. unfold wp, get_cqnode, load, mbind, M_bind. rewrite Hr. done. Qed.

Lemma wp_upd_cq r qq f (Q : unit -> world -> Prop) w :
  w.(w_heap) !! r = Some (OCQueue qq) ->
  Q tt (w_set_heap (<[r := OCQueue (f qq)]> w.(w_heap)) w) -> wp (upd_cq r f) Q w.
Proof. intros Hr HQ. unfold upd_cq. apply wp_bind. eapply wp_get_cq; [done|]. by apply wp_put. Qed.

Lemma wp_upd_cqnode r nd f (Q : unit -> world -> Prop) w :
  w.(w_heap) !! r = Some (OCQNode nd) ->
  Q tt (w_set_heap (<[r := OCQNode (f nd)]> w.(w_heap)) w) -> wp (upd_cqnode r f) Q w.
Proof. intros Hr HQ. unfold upd_cqnode. apply wp_bind. eapply wp_get_cqnode; [done|]. by apply wp_put. Qed.

Lemma wp_deref {A} (a : A) (Q : A -> world -> Prop) w : Q a w -> wp (deref (Some a)) Q w.
Proof. done. Qed.

Lemma wp_exact {A} (m : M A) a w : wp m (fun b w' => b = a /\ w' = w) w -> m w = Some (w, Ok a).
Proof.
  intros H. destruct (wp_elim _ _ _ H) as (w' & b & Hm & -> & ->). exact Hm.
Qed.

(** A queue object [q] whose [tree] is [Some n] for a leaf [n] without
    parent, that is [min_node] of itself and owned by [q]. *)
Definition cq_singleton (H : gmap Z obj) (q n name elem : Z) (prio : num) : Prop :=
  (exists first subs, H !! q = Some (OCQueue (mk_cqueue name (Some n) first subs))) /\
  H !! n = Some (OCQNode (mk_cqnode (Some q) (Some n) 0 None [] (Some (elem, prio)))).

Lemma cq_singleton_queries fuel H q n name elem prio w :
  w.(w_heap) = H -> cq_singleton H q n name elem prio -> (0 < fuel)%nat ->
  cq_find fuel n w = Some (w, Ok name) /\
  cq_min_prio q w = Some (w, Ok prio) /\
  cq_min_elem q w = Some (w, Ok elem).
Proof.
  intros <- ((first & subs & Hq) & Hn) Hf.
  split; [|split]; apply wp_exact.
  - destruct fuel as [|f]; [lia|]. unfold cq_find. apply wp_bind.
    cbn [while_M]. apply wp_bind. cbv beta. apply wp_bind. eapply wp_get_cqnode; [exact Hn|]. cbn.
    apply wp_ret. cbn. apply wp_bind. eapply wp_get_cqnode; [exact Hn|]. cbn.
    apply wp_bind. apply wp_py_assert_true. apply wp_bind. apply wp_deref.
    apply wp_bind. eapply wp_get_cq; [exact Hq|]. apply wp_ret. done.
  - unfold cq_min_prio. apply wp_bind. eapply wp_get_cq; [exact Hq|]. cbn.
    apply wp_bind. apply wp_py_assert_true. apply wp_bind. apply wp_deref.
    apply wp_bind. unfold min_node_of. apply wp_bind. eapply wp_get_cqnode; [exact Hn|].
    apply wp_deref. unfold leaf_prio. apply wp_bind. eapply wp_get_cqnode; [exact Hn|].
    apply wp_bind. apply wp_deref. apply wp_ret. done.
  - unfold cq_min_elem. apply wp_bind. eapply wp_get_cq; [exact Hq|]. cbn.
    apply wp_bind. apply wp_py_assert_true. apply wp_bind. apply wp_deref.
    apply wp_bind. unfold min_node_of. apply wp_bind. eapply wp_get_cqnode; [exact Hn|].
    apply wp_deref. unfold leaf_data. apply wp_bind. eapply wp_get_cqnode; [exact Hn|].
    apply wp_bind. apply wp_deref. apply wp_ret. done.
Qed.

Lemma cq_singleton_set_prio fuel q n name elem prio prio' w :
  cq_singleton w.(w_heap) q n name elem prio -> (0 < fuel)%nat ->
  exists w', cq_set_prio fuel n prio' w = Some (w', Ok tt) /\
    cq_singleton w'.(w_heap) q n name elem prio' /\
    (forall x, x <> n -> w'.(w_heap) !! x = w.(w_heap) !! x) /\
    w' = w_set_heap w'.(w_heap) w.
Proof.
  intros ((first & subs & Hq) & Hn) Hf.
  cut (wp (cq_set_prio fuel n prio') (fun _ w' => cq_singleton w'.(w_heap) q n name elem prio' /\
    (forall x, x <> n -> w'.(w_heap) !! x = w.(w_heap) !! x) /\ w' = w_set_heap w'.(w_heap) w) w).
  { intros Hwp. destruct (wp_elim _ _ _ Hwp) as (w' & [] & Hrun & HP). eauto. }
  assert (Hqn : q <> n) by (intros ->; congruence).
  unfold cq_set_prio. apply wp_bind. eapply wp_get_cqnode; [exact Hn|]. cbn.
  apply wp_bind. apply wp_deref. cbn.
  apply wp_bind. eapply wp_upd_cqnode; [exact Hn|].
  destruct fuel as [|f]; [lia|]. cbn [while_M]. apply wp_bind. cbv beta. apply wp_ret. cbn.
  rewrite ?w_heap_set. split; [split|].
  - exists first, subs. rewrite lookup_insert_ne by congruence. done.
  - rewrite lookup_insert_eq. done.
  - split; [intros x Hx; apply lookup_insert_ne; congruence|].
    reflexivity.
Qed.

Lemma cq_insert_singleton q qq elem prio w :
  w.(w_heap) !! q = Some (OCQueue qq) -> qq.(cq_tree) = None ->
  w.(w_heap) !! w.(w_next) = None ->
  exists w', cq_insert q elem prio w = Some (w', Ok w.(w_next)) /\
    cq_singleton w'.(w_heap) q w.(w_next) qq.(cq_name) elem prio /\
    (forall x, x <> q -> x <> w.(w_next) -> w'.(w_heap) !! x = w.(w_heap) !! x) /\
    w' = w_set_heap w'.(w_heap) (w_set_next (w.(w_next) + 1) w).
Proof.
  intros Hq Ht Hfresh.
  set (n := w.(w_next)).
  cut (wp (cq_insert q elem prio) (fun r w' => r = n /\
    cq_singleton w'.(w_heap) q n qq.(cq_name) elem prio /\
    (forall x, x <> q -> x <> n -> w'.(w_heap) !! x = w.(w_heap) !! x) /\
    w' = w_set_heap w'.(w_heap) (w_set_next (n + 1) w)) w).
  { intros Hwp. destruct (wp_elim _ _ _ Hwp) as (w' & a & Hrun & -> & HP). eauto. }
  assert (Hqn : q <> n) by (intros Heq; unfold n in Heq; rewrite <- Heq in Hfresh; congruence).
  unfold cq_insert. apply wp_bind. eapply wp_get_cq; [exact Hq|].
  apply wp_bind. rewrite Ht, bool_decide_true by done. apply wp_py_assert_true.
  apply wp_bind. apply wp_alloc. fold n.
  apply wp_bind. eapply wp_upd_cqnode.
  { rewrite w_heap_set_next, w_heap_set. apply lookup_insert_eq. }
  apply wp_bind. eapply wp_upd_cq.
  { rewrite !w_heap_set, w_heap_set_next, w_heap_set, !lookup_insert_ne by congruence. exact Hq. }
  apply wp_bind. eapply wp_upd_cqnode.
  { rewrite !w_heap_set, lookup_insert_ne, lookup_insert_eq by congruence. done. }
  apply wp_bind. eapply wp_upd_cq.
  { rewrite !w_heap_set, lookup_insert_ne, lookup_insert_eq by congruence. done. }
  apply wp_ret. rewrite !w_heap_set. split; [done|]. split; [split|].
  - exists (Some n), (cq_sub_queues qq). rewrite lookup_insert_eq. destruct qq. cbn in *. subst. done.
  - rewrite lookup_insert_ne, lookup_insert_eq by congruence. done.
  - split.
    + intros x Hxq Hxn. rewrite w_heap_set_next, w_heap_set, !lookup_insert_ne by congruence. done.
    + reflexivity.
Qed.

(** X8: inserting an element with priority [prio] into an empty
    concatenable queue returns a fresh node and changes only the queue and
    that node; afterwards [find] on the node returns the queue's name and
    [min_prio]/[min_elem] return [prio] and the element; after [set_prio]
    on the node with [prio'], [find] still returns the name, [min_prio]
    returns [prio'] and [min_elem] the element. *)
Theorem cq_insert_spec fuel q qq elem prio prio' w :
  w.(w_heap) !! q = Some (OCQueue qq) -> qq.(cq_tree) = None ->
  w.(w_heap) !! w.(w_next) = None -> (0 < fuel)%nat ->
  exists w', cq_insert q elem prio w = Some (w', Ok w.(w_next)) /\
    (forall x, x <> q -> x <> w.(w_next) -> w'.(w_heap) !! x = w.(w_heap) !! x) /\
    cq_find fuel w.(w_next) w' = Some (w', Ok qq.(cq_name)) /\
    cq_min_prio q w' = Some (w', Ok prio) /\
    cq_min_elem q w' = Some (w', Ok elem) /\
    exists w'', cq_set_prio fuel w.(w_next) prio' w' = Some (w'', Ok tt) /\
      cq_find fuel w.(w_next) w'' = Some (w'', Ok qq.(cq_name)) /\
      cq_min_prio q w'' = Some (w'', Ok prio') /\
      cq_min_elem q w'' = Some (w'', Ok elem).
Proof.
  intros Hq Ht Hfresh Hf.
  destruct (cq_insert_singleton q qq elem prio w Hq Ht Hfresh) as (w' & Hrun & Hs & Hfr & _).
  destruct (cq_singleton_queries fuel _ _ _ _ _ _ w' eq_refl Hs Hf) as (H1 & H2 & H3).
  destruct (cq_singleton_set_prio fuel _ _ _ _ _ prio' w' Hs Hf) as (w'' & Hrun' & Hs' & _).
  destruct (cq_singleton_queries fuel _ _ _ _ _ _ w'' eq_refl Hs' Hf) as (H1' & H2' & H3').
  exists w'. split; [done|]. split; [done|]. split; [done|]. split; [done|]. split; [done|].
  exists w''. done.
Qed.

(** X9: [insert] on a non-empty concatenable queue raises an
    AssertionError and leaves the world unchanged; [min_prio] and
    [min_elem] on an empty queue raise an AssertionError and leave the
    world unchanged. *)
Theorem cq_insert_min_asserts q qq elem prio w :
  w.(w_heap) !! q = Some (OCQueue qq) ->
  (qq.(cq_tree) <> None -> cq_insert q elem prio w = Some (w, Raise AssertionError)) /\
  (qq.(cq_tree) = None -> cq_min_prio q w = Some (w, Raise AssertionError) /\
                          cq_min_elem q w = Some (w, Raise AssertionError)).
Proof.
  intros Hq.
  assert (Hget : get_cq q w = Some (w, Ok qq)).
  { unfold get_cq, load, mbind, M_bind. rewrite Hq. done. }
  split; [intros Ht | intros Ht; split].
  - unfold cq_insert. rewrite (bind_ok _ _ w w qq Hget).
    rewrite bool_decide_false by done. done.
  - unfold cq_min_prio. rewrite (bind_ok _ _ w w qq Hget), Ht. done.
  - unfold cq_min_elem. rewrite (bind_ok _ _ w w qq Hget), Ht. done.
Qed.


Definition cq_example_world : world :=
  mk_world (<[1 := OCQueue (mk_cqueue 10 None None [])]> ∅)
    2 [] [] [] (NInt 0) [] [] [].

Lemma cq_insert_spec_witness :
  w_heap cq_example_world !! 1 = Some (OCQueue (mk_cqueue 10 None None [])) /\
  cq_tree (mk_cqueue 10 None None []) = None /\
  w_heap cq_example_world !! w_next cq_example_world = None /\ (0 < 1)%nat /\
  exists w', cq_insert 1 7 (NInt 5) cq_example_world = Some (w', Ok 2) /\
    cq_min_prio 1 w' = Some (w', Ok (NInt 5)).
Proof.
  split; [reflexivity|]. split; [reflexivity|]. split; [reflexivity|]. split; [lia|].
  destruct (cq_insert_spec 1 1 (mk_cqueue 10 None None []) 7 (NInt 5) (NInt 3) cq_example_world
              eq_refl eq_refl eq_refl ltac:(lia)) as (w' & Hrun & _ & _ & Hmin & _).
  exists w'. split; [exact Hrun|exact Hmin].
Defined.

Lemma cq_insert_min_asserts_witness :
  w_heap cq_example_world !! 1 = Some (OCQueue (mk_cqueue 10 None None [])) /\
  cq_min_prio 1 cq_example_world = Some (cq_example_world, Raise AssertionError).
Proof.
  split; [reflexivity|].
  apply (proj2 (cq_insert_min_asserts 1 (mk_cqueue 10 None None []) 7 (NInt 5) cq_example_world
                  eq_refl) eq_refl).
Defined.

(** The indices, from [e] on, of the edges of [es] that have [x] as an
    endpoint, once for each endpoint equal to [x]. *)
Fixpoint incident_from (e : Z) (es : list edge) (x : Z) : list Z :=
  match es with
  | [] => []
  | (a, b, _) :: es' =>
      (if a =? x then [e] else []) ++ (if b =? x then [e] else []) ++ incident_from (e + 1) es' x
  end.

Definition adj_step_ok (f : list (list Z) -> Z * edge -> M (list (list Z))) : Prop :=
  forall adj e a b wt (Q : list (list Z) -> world -> Prop) w,
    0 <= a -> 0 <= b -> (Z.to_nat a < length adj)%nat -> (Z.to_nat b < length adj)%nat ->
    (forall adj', length adj' = length adj ->
       (forall i, adj' !! i = (fun l => l ++ (if a =? Z.of_nat i then [e] else []) ++
                                               (if b =? Z.of_nat i then [e] else [])) <$> adj !! i) ->
       Q adj' w) ->
    wp (f adj (e, (a, b, wt))) Q w.

Lemma fold_adj f es (k : nat) adj N (Q : list (list Z) -> world -> Prop) w :
  adj_step_ok f ->
  (forall a b wt, In (a, b, wt) es -> 0 <= a < N /\ 0 <= b < N) -> length adj = Z.to_nat N ->
  (forall adj', length adj' = length adj ->
     (forall i, adj' !! i = (fun l => l ++ incident_from (Z.of_nat k) es (Z.of_nat i)) <$> adj !! i) ->
     Q adj' w) ->
  wp (fold_M f (zip (map Z.of_nat (seq k (length es))) es) adj) Q w.
Proof.
  intros Hf. revert k adj. induction es as [|[[a b] wt] es IH]; intros k adj Hes Hlen HQ.
  - cbn. apply wp_ret. apply HQ; [done|]. intros i. destruct (adj !! i); cbn; [rewrite app_nil_r|]; done.
  - cbn [length seq map zip fold_M]. apply wp_bind.
    destruct (Hes a b wt (or_introl eq_refl)) as [Ha Hb].
    apply Hf; [lia|lia|lia|lia|]. intros adj1 Hlen1 Hadj1.
    replace (Z.of_nat k + 1) with (Z.of_nat (S k)) by lia.
    apply IH; [intros ? ? ? Hin; apply (Hes _ _ _ (or_intror Hin))|lia|].
    intros adj2 Hlen2 Hadj2. apply HQ; [lia|].
    intros i. rewrite Hadj2, Hadj1. destruct (adj !! i); cbn; [|done].
    replace (Z.of_nat k + 1) with (Z.of_nat (S k)) by lia.
    rewrite <- !app_assoc. done.
Qed.

Lemma incident_from_elem e0 es x e :
  e ∈ incident_from e0 es x <->
  exists k a b wt, es !! k = Some (a, b, wt) /\ e = e0 + Z.of_nat k /\ (a = x \/ b = x).
Proof.
  revert e0. induction es as [|[[a b] wt] es IH]; intros e0; cbn [incident_from].
  - split; [intros Hin; by apply not_elem_of_nil in Hin|]. intros (k & ? & ? & ? & Hk & _). done.
  - rewrite !elem_of_app, IH. split.
    + intros [Ha|[Hb|(k & a' & b' & wt' & Hk & -> & Hx)]].
      * destruct (Z.eqb_spec a x); [|by apply not_elem_of_nil in Ha].
        apply list_elem_of_singleton in Ha as ->. exists 0%nat, a, b, wt. split; [done|]. split; [lia|]. by left.
      * destruct (Z.eqb_spec b x); [|by apply not_elem_of_nil in Hb].
        apply list_elem_of_singleton in Hb as ->. exists 0%nat, a, b, wt. split; [done|]. split; [lia|]. by right.
      * exists (S k), a', b', wt'. split; [done|]. split; [lia|done].
    + intros ([|k] & a' & b' & wt' & Hk & -> & Hx).
      * injection Hk as <- <- <-. destruct Hx as [->| ->].
        -- left. rewrite Z.eqb_refl. apply list_elem_of_singleton. lia.
        -- right; left. rewrite Z.eqb_refl. apply list_elem_of_singleton. lia.
      * right; right. exists k, a', b', wt'. split; [done|]. split; [lia|done].
Qed.

Lemma lookup_repeat_lt {A} (x : A) n i : (i < n)%nat -> repeat x n !! i = Some x.
Proof. revert i. induction n as [|n IH]; intros [|i] Hi; cbn; try lia; auto with lia. Qed.

(** X10: for edges whose endpoints are non-negative, [GraphInfo(edges)]
    succeeds without changing the world, keeps the edge list, and builds
    one adjacency list per vertex; the list of vertex [x] holds, in edge
    order, the index of every edge that has [x] as an endpoint (a self-loop
    twice), and nothing else. *)
Theorem graph_info_init_adjacent edges w :
  (forall x y wt, In (x, y, wt) edges -> 0 <= x /\ 0 <= y) ->
  exists g, graph_info_init edges w = Some (w, Ok g) /\ g.(g_edges) = edges /\
    length g.(g_adjacent_edges) = Z.to_nat g.(g_num_vertex) /\
    forall x, 0 <= x < g.(g_num_vertex) ->
      g.(g_adjacent_edges) !! Z.to_nat x = Some (incident_from 0 edges x) /\
      forall e, e ∈ incident_from 0 edges x <->
        exists k a b wt, edges !! k = Some (a, b, wt) /\ e = Z.of_nat k /\ (a = x \/ b = x).
Proof.
  intros Hnn.
  set (N := match edges with
            | [] => 0
            | (x0, y0, _) :: es =>
                1 + fold_left (fun m '(x, y, _) => Z.max m (Z.max x y)) es (Z.max x0 y0)
            end).
  assert (HN : forall x y wt, In (x, y, wt) edges -> 0 <= x < N /\ 0 <= y < N).
  { intros x y wt Hin. destruct (Hnn x y wt Hin). unfold N.
    destruct edges as [|[[x0 y0] w0] es]; [destruct Hin|].
    destruct (fold_max_bound es (Z.max x0 y0)) as [Hm Hl].
    destruct Hin as [Heq|Hin]; [injection Heq as -> -> ->; lia|].
    destruct (Hl x y wt Hin). lia. }
  cut (wp (graph_info_init edges) (fun g w' => w' = w /\ g.(g_edges) = edges /\ g.(g_num_vertex) = N /\
    length g.(g_adjacent_edges) = Z.to_nat N /\
    forall i, (i < Z.to_nat N)%nat -> g.(g_adjacent_edges) !! i = Some (incident_from 0 edges (Z.of_nat i))) w).
  { intros Hwp. destruct (wp_elim _ _ _ Hwp) as (w' & g & Hrun & -> & Hed & HgN & Hlen & Hadj).
    exists g. split; [done|]. split; [done|]. rewrite HgN. split; [done|].
    intros x Hx. split.
    - rewrite Hadj by lia. rewrite Z2Nat.id by lia. done.
    - intros e. rewrite incident_from_elem. split.
      + intros (k & a & b & wt & Hk & -> & Hab). exists k, a, b, wt. split; [done|]. split; [lia|done].
      + intros (k & a & b & wt & Hk & -> & Hab). exists k, a, b, wt. split; [done|]. split; [lia|done]. }
  unfold graph_info_init. fold N. apply wp_bind.
  unfold py_range. rewrite Nat2Z.id.
  apply (fold_adj _ edges 0 _ N); [| exact HN | apply repeat_length |].
  - intros adj e a b wt Q w0 Ha Hb Hal Hbl HQ. cbn.
    apply wp_bind. rewrite <- (Z2Nat.id a) at 1 by done.
    destruct (lookup_lt_is_Some_2 adj (Z.to_nat a) Hal) as [la Hla].
    eapply wp_py_index; [exact Hla|].
    apply wp_bind. rewrite <- (Z2Nat.id a) at 1 by done. apply wp_py_setitem; [done|].
    apply wp_bind. rewrite <- (Z2Nat.id b) at 1 by done.
    set (adj1 := <[Z.to_nat a := la ++ [e]]> adj).
    assert (Hbl1 : (Z.to_nat b < length adj1)%nat) by (unfold adj1; rewrite length_insert; done).
    destruct (lookup_lt_is_Some_2 adj1 (Z.to_nat b) Hbl1) as [lb Hlb].
    eapply wp_py_index; [exact Hlb|].
    rewrite <- (Z2Nat.id b) at 1 by done. apply wp_py_setitem; [done|].
    apply HQ; [unfold adj1; rewrite !length_insert; done|].
    intros i. unfold adj1 in *.
    assert (Heqb : forall c, 0 <= c -> (c =? Z.of_nat i) = bool_decide (Z.to_nat c = i)).
    { intros c Hc. destruct (Z.eqb_spec c (Z.of_nat i)); symmetry;
        [apply bool_decide_eq_true|apply bool_decide_eq_false]; lia. }
    rewrite (Heqb a Ha), (Heqb b Hb).
    destruct (decide (i = Z.to_nat b)) as [->|Hib].
    + rewrite list_lookup_insert_eq by (rewrite length_insert; lia).
      rewrite (bool_decide_eq_true_2 (Z.to_nat b = Z.to_nat b)) by done.
      destruct (decide (Z.to_nat a = Z.to_nat b)) as [Hab|Hab].
      * rewrite Hab in Hlb, Hla. rewrite list_lookup_insert_eq in Hlb by lia.
        injection Hlb as <-. rewrite Hla, bool_decide_eq_true_2 by done. cbn.
        rewrite <- app_assoc. done.
      * rewrite list_lookup_insert_ne in Hlb by done. rewrite Hlb, bool_decide_eq_false_2 by done.
        done.
    + rewrite list_lookup_insert_ne by done.
      rewrite (bool_decide_eq_false_2 (Z.to_nat b = i)) by congruence.
      destruct (decide (i = Z.to_nat a)) as [->|Hia].
      * rewrite list_lookup_insert_eq by lia. rewrite Hla, bool_decide_eq_true_2 by done.
        cbn. done.
      * rewrite list_lookup_insert_ne by done. rewrite bool_decide_eq_false_2 by congruence.
        destruct (adj !! i); cbn; [rewrite app_nil_r|]; done.
  - intros adj' Hlen' Hadj'. apply wp_ret. split; [done|]. split; [done|]. split; [done|].
    rewrite repeat_length in Hlen'. split; [done|].
    intros i Hi. rewrite Hadj', lookup_repeat_lt by done. done.
Qed.


Lemma graph_info_init_adjacent_witness :
  (forall x y wt, In (x, y, wt) [(0, 1, NInt 1); (1, 2, NInt 2)] -> 0 <= x /\ 0 <= y) /\
  exists g, graph_info_init [(0, 1, NInt 1); (1, 2, NInt 2)] pq_empty_world =
              Some (pq_empty_world, Ok g) /\
    g.(g_adjacent_edges) !! 1%nat = Some (incident_from 0 [(0, 1, NInt 1); (1, 2, NInt 2)] 1).
Proof.
  assert (Hnn : forall x y wt, In (x, y, wt) [(0, 1, NInt 1); (1, 2, NInt 2)] -> 0 <= x /\ 0 <= y).
  { intros x y wt [H|[H|[]]]; injection H as <- <- <-; lia. }
  split; [exact Hnn|].
  destruct (graph_info_init_adjacent _ pq_empty_world Hnn) as (g & Hrun & _ & _ & Hadj).
  exists g. split; [exact Hrun|].
  assert (HN : g_num_vertex g = 3).
  { vm_compute in Hrun. injection Hrun as <-. reflexivity. }
  apply (proj1 (Hadj 1 ltac:(rewrite HN; lia))).
Defined.

Lemma existsb_lt0_filter_ge0 (l : list edge) :
  existsb (fun '(_, _, w) => num_lt0 w) (filter (fun '(_, _, w) => num_ge0 w = true) l) = false.
Proof.
  induction l as [|[[x y] w] l IH]; [done|].
  rewrite filter_cons. case_decide as Hge; [|done].
  cbn. rewrite (num_ge0_not_lt0 w Hge). done.
Qed.

Lemma filter_ge0_int_id (l : list edge) :
  (forall e, In e l -> exists z, e.2 = NInt z) ->
  existsb (fun '(_, _, w) => num_lt0 w) l = false ->
  filter (fun '(_, _, w) => num_ge0 w = true) l = l.
Proof.
  induction l as [|[[x y] w] l IH]; intros Hint Hex; [done|].
  cbn in Hex. apply orb_false_iff in Hex as [Hw Hex].
  destruct (Hint (x, y, w) (or_introl eq_refl)) as [z Hz]. cbn in Hz. subst w.
  rewrite filter_cons_True.
  - f_equal. apply IH; [intros e He; apply Hint; right; done|done].
  - cbn in Hw |- *. apply Z.ltb_ge in Hw. apply Z.leb_le. done.
Qed.

(** X11: [_remove_negative_weight_edges] returns a list with no edge of
    negative weight, made of input edges in their input order; it keeps
    every input edge whose weight is [>= 0]; applying it a second time
    changes nothing; and when all weights are integers its result is
    exactly the input edges of weight [>= 0], whichever branch runs. *)
Theorem remove_negative_weight_edges_spec (edges : list edge) :
  existsb (fun '(_, _, w) => num_lt0 w) (_remove_negative_weight_edges edges) = false /\
  sublist (_remove_negative_weight_edges edges) edges /\
  (forall e, In e edges -> num_ge0 e.2 = true -> In e (_remove_negative_weight_edges edges)) /\
  _remove_negative_weight_edges (_remove_negative_weight_edges edges) =
    _remove_negative_weight_edges edges /\
  ((forall e, In e edges -> exists z, e.2 = NInt z) ->
   _remove_negative_weight_edges edges = filter (fun '(_, _, w) => num_ge0 w = true) edges).
Proof.
  unfold _remove_negative_weight_edges.
  destruct (existsb (fun '(_, _, w) => num_lt0 w) edges) eqn:Hex.
  - split; [apply existsb_lt0_filter_ge0|].
    split; [apply sublist_filter|].
    split; [|split; [rewrite existsb_lt0_filter_ge0; done|intros _; reflexivity]].
    intros [[x y] w] Hin Hge. apply list_elem_of_In, list_elem_of_filter.
    split; [done|]. apply list_elem_of_In. done.
  - split; [done|]. split; [done|]. split; [done|].
    split; [rewrite Hex; done|].
    intros Hint. symmetry. apply filter_ge0_int_id; done.
Qed.

(** The nesting of blossoms below a blossom, as a tree: a leaf is a trivial
    blossom with its base vertex, a node a non-trivial blossom with its
    sub-blossoms in order. *)
Inductive btree :=
| BLeaf (b v : Z)
| BNode (b : Z) (subs : list btree).

Definition bt_root (t : btree) : Z :=
  match t with BLeaf b _ => b | BNode b _ => b end.

Fixpoint bt_vertices (t : btree) : list Z :=
  match t with
  | BLeaf _ v => [v]
  | BNode _ subs => concat (map bt_vertices subs)
  end.

(** The number of non-trivial blossoms in the tree. *)
Fixpoint bt_count (t : btree) : nat :=
  match t with
  | BLeaf _ _ => 0
  | BNode _ subs => S (list_sum (map bt_count subs))
  end.

(** The heap holds the blossoms of [t] as [t] describes them. *)
Inductive bt_ok (H : gmap Z obj) : btree -> Prop :=
| bt_ok_leaf b v bl :
    H !! b = Some (OBlossom bl) -> bl.(b_nontrivial) = None -> bl.(b_base_vertex) = v ->
    bt_ok H (BLeaf b v)
| bt_ok_node b subs bl nt :
    H !! b = Some (OBlossom bl) -> bl.(b_nontrivial) = Some nt ->
    nt.(nt_subblossoms) = map bt_root subs -> Forall (bt_ok H) subs ->
    bt_ok H (BNode b subs).

Definition bt_is_node (t : btree) : bool :=
  match t with BNode _ _ => true | BLeaf _ _ => false end.

Definition bt_leaf_vertex (t : btree) : list Z :=
  match t with BLeaf _ v => [v] | BNode _ _ => [] end.

Lemma wp_get_blossom r bl (Q : blossom -> world -> Prop) w :
  w.(w_heap) !! r = Some (OBlossom bl) -> Q bl w -> wp (get_blossom r) Q w.
Proof. intros Hr HQ. unfold wp, get_blossom, load, mbind, M_bind. rewrite Hr. done. Qed.

Lemma vertices_fold subs stack nodes (Q : list Z * list Z -> world -> Prop) w :
  Forall (bt_ok w.(w_heap)) subs ->
  Q (stack ++ map bt_root (filter (fun t => bt_is_node t = true) subs),
     nodes ++ concat (map bt_leaf_vertex subs)) w ->
  wp (fold_M vertices_step (map bt_root subs) (stack, nodes)) Q w.
Proof.
  revert stack nodes. induction subs as [|t subs IH]; intros stack nodes Hok HQ; cbn.
  - apply wp_ret. rewrite !app_nil_r in HQ. done.
  - apply Forall_cons in Hok as [Ht Hok].
    apply wp_bind. unfold vertices_step. apply wp_bind. unfold is_nontrivial.
    inversion Ht as [b v bl Hb Hnt Hv|b cs bl nt Hb Hnt Hsubs Hcs]; subst; cbn.
    + apply wp_bind. eapply wp_get_blossom; [done|]. apply wp_ret.
      rewrite Hnt. cbn. apply wp_bind. eapply wp_get_blossom; [done|]. apply wp_ret.
      apply IH; [done|]. rewrite filter_cons_False in HQ by done. cbn in HQ.
      rewrite <- app_assoc. done.
    + apply wp_bind. eapply wp_get_blossom; [done|]. apply wp_ret.
      rewrite Hnt. cbn. apply wp_ret.
      apply IH; [done|]. rewrite filter_cons_True in HQ by done. cbn in HQ.
      rewrite <- app_assoc. done.
Qed.

Lemma vertices_split subs :
  concat (map bt_vertices subs) ≡ₚ
    concat (map bt_leaf_vertex subs) ++
    concat (map bt_vertices (filter (fun t => bt_is_node t = true) subs)).
Proof.
  induction subs as [|[b v|b cs] subs IH]; [done|..].
  - rewrite filter_cons_False by done. cbn. rewrite IH. done.
  - rewrite filter_cons_True by done. cbn. rewrite IH. solve_Permutation.
Qed.

Lemma count_split subs :
  list_sum (map bt_count (filter (fun t => bt_is_node t = true) subs)) =
    list_sum (map bt_count subs).
Proof.
  induction subs as [|[b v|b cs] subs IH]; [done|..].
  - rewrite filter_cons_False by done. done.
  - rewrite filter_cons_True by done. unfold list_sum in *. cbn. rewrite IH. done.
Qed.

(** X12: for a blossom whose nesting of sub-blossoms is the tree [t], with
    fuel above the number of non-trivial blossoms in it, [vertices()]
    succeeds without changing the world and returns the base vertices of
    the trivial blossoms at the leaves of [t], each as often as it occurs
    there, up to order. *)
Theorem blossom_vertices_spec fuel t w :
  bt_ok w.(w_heap) t -> (bt_count t < fuel)%nat ->
  exists l, blossom_vertices fuel (bt_root t) w = Some (w, Ok l) /\ l ≡ₚ bt_vertices t.
Proof.
  intros Hok Hf.
  cut (wp (blossom_vertices fuel (bt_root t))
         (fun l w' => l ≡ₚ bt_vertices t /\ w' = w) w).
  { intros Hwp. destruct (wp_elim _ _ _ Hwp) as (w' & l & Hrun & Hp & ->). eauto. }
  unfold blossom_vertices. apply wp_bind.
  inversion Hok as [b v bl Hb Hnt Hv|b cs bl nt Hb Hnt Hsubs Hcs]; subst; cbn.
  { eapply wp_get_blossom; [done|]. rewrite Hnt. apply wp_ret. done. }
  eapply wp_get_blossom; [done|]. rewrite Hnt.
  match goal with |- wp (while_M _ ?bd _) _ _ => set (body := bd) end.
  assert (Hloop : forall n ts nodes,
    Forall (fun t => bt_is_node t = true /\ bt_ok w.(w_heap) t) ts ->
    (list_sum (map bt_count ts) < n)%nat ->
    wp (while_M n body (map bt_root ts, nodes))
      (fun l w' => l ≡ₚ nodes ++ concat (map bt_vertices ts) /\ w' = w) w).
  { induction n as [|n IH]; intros ts nodes Hts Hn; [lia|].
    cbn [while_M]. apply wp_bind. unfold body.
    destruct ts as [|t0 ts0] using rev_ind; cbn.
    - rewrite app_nil_r. done.
    - rewrite map_app. cbn.
      destruct (map bt_root ts0 ++ [bt_root t0]) eqn:E; [destruct ts0; discriminate|].
      rewrite <- E. clear E.
      apply wp_bind. apply wp_py_pop.
      apply Forall_app in Hts as [Hts0 Ht0]. apply Forall_cons in Ht0 as [[Hnode Ht0] _].
      inversion Ht0 as [b' v' bl' Hb' Hnt' Hv'|b' cs' bl' nt' Hb' Hnt' Hsubs' Hcs']; subst;
        [discriminate|]. cbn.
      apply wp_bind. unfold get_nt. apply wp_bind. eapply wp_get_blossom; [done|].
      rewrite Hnt'. apply wp_deref. apply wp_bind. rewrite Hsubs'.
      apply vertices_fold; [done|]. apply wp_ret. cbn.
      rewrite <- map_app.
      eapply wp_mono.
      + apply IH.
        * apply Forall_app. split; [done|]. apply Forall_forall. intros c Hc.
          apply list_elem_of_filter in Hc as [Hc Hin]. split; [done|].
          rewrite Forall_forall in Hcs'. apply Hcs'. done.
        * rewrite map_app, list_sum_app, count_split.
          rewrite map_app, list_sum_app in Hn. cbn in Hn. lia.
      + intros res w' [Hl ->]. split; [|done]. rewrite Hl.
        rewrite map_app, concat_app. cbn. rewrite map_app, concat_app. cbn.
        rewrite app_nil_r, (vertices_split cs'). solve_Permutation. }
  eapply wp_mono.
  - apply (Hloop fuel [BNode b cs] []).
    + constructor; [split; [done|done]|constructor].
    + cbn. cbn in Hf. lia.
  - intros res w' [Hl ->]. split; [|done]. rewrite Hl. cbn. rewrite app_nil_r. done.
Qed.

Definition bv_blossom (v : Z) (nt : option ntb) : blossom :=
  mk_blossom None v 0 None None None None (NInt 0) false nt.

Definition bv_example_world : world :=
  mk_world
    (<[11 := OBlossom (bv_blossom 0 (Some (mk_ntb [10; 4; 5] [(0, 3); (3, 4); (4, 0)] (NInt 0) None)))]>
    (<[10 := OBlossom (bv_blossom 0 (Some (mk_ntb [1; 2; 3] [(0, 1); (1, 2); (2, 0)] (NInt 0) None)))]>
    (<[1 := OBlossom (bv_blossom 0 None)]> (<[2 := OBlossom (bv_blossom 1 None)]>
    (<[3 := OBlossom (bv_blossom 2 None)]> (<[4 := OBlossom (bv_blossom 3 None)]>
    (<[5 := OBlossom (bv_blossom 4 None)]> ∅)))))))
    12 [] [] [] (NInt 0) [] [] [].

Lemma blossom_vertices_spec_witness :
  bt_ok (w_heap bv_example_world)
    (BNode 11 [BNode 10 [BLeaf 1 0; BLeaf 2 1; BLeaf 3 2]; BLeaf 4 3; BLeaf 5 4]) /\
  (bt_count (BNode 11 [BNode 10 [BLeaf 1 0; BLeaf 2 1; BLeaf 3 2]; BLeaf 4 3; BLeaf 5 4]) < 3)%nat /\
  exists l, blossom_vertices 3 11 bv_example_world = Some (bv_example_world, Ok l) /\
    l ≡ₚ [0; 1; 2; 3; 4].
Proof.
  assert (Hok : bt_ok (w_heap bv_example_world)
    (BNode 11 [BNode 10 [BLeaf 1 0; BLeaf 2 1; BLeaf 3 2]; BLeaf 4 3; BLeaf 5 4])).
  { repeat first [ apply Forall_cons; split | apply Forall_nil | eapply bt_ok_node
                 | eapply bt_ok_leaf | reflexivity ]. }
  split; [exact Hok|]. split; [cbn; lia|].
  exact (blossom_vertices_spec 3 _ bv_example_world Hok ltac:(cbn; lia)).
Defined.

Lemma wp_py_list_index (l : list Z) x j (Q : Z -> world -> Prop) w :
  list_find (fun y => y = x) l = Some (j, x) -> Q (Z.of_nat j) w -> wp (py_list_index l x) Q w.
Proof. intros Hf HQ. unfold wp, py_list_index. rewrite Hf. done. Qed.

Section PathThroughBlossom.

(** [mem x b]: vertex [x] lies in blossom [b]. *)
Variable mem : Z -> Z -> Prop.

(** The cycle of a non-trivial blossom: [edges[i] = (x, y)] with [x] in
    [subblossoms[i]] and [y] in [subblossoms[(i + 1) % n]]. *)
Definition blossom_cycle (subs : list Z) (es : list (Z * Z)) : Prop :=
  length es = length subs /\
  forall i x y, es !! i = Some (x, y) ->
    exists a b, subs !! i = Some a /\ subs !! ((i + 1) mod length subs)%nat = Some b /\
                mem x a /\ mem y b.

(** An alternating path through sub-blossoms: [edges[k] = (x, y)] with [x]
    in [nodes[k]] and [y] in [nodes[k + 1]]. *)
Definition path_links (nodes : list Z) (es : list (Z * Z)) : Prop :=
  forall k x y, es !! k = Some (x, y) ->
    exists a b, nodes !! k = Some a /\ nodes !! S k = Some b /\ mem x a /\ mem y b.

Lemma path_even subs es j :
  blossom_cycle subs es -> (j < length subs)%nat ->
  path_links (reverse (take (j + 1) subs)) (map (fun '(i, j) => (j, i)) (reverse (take j es))).
Proof.
  intros [Hlen Hcyc] Hj k x y Hk.
  apply list_lookup_fmap_Some in Hk as ([i0 j0] & Heq & Hk). injection Heq as -> ->.
  apply reverse_lookup_Some in Hk as [Hk Hkl].
  rewrite length_take in Hk, Hkl. rewrite lookup_take_lt in Hk by lia.
  destruct (Hcyc _ _ _ Hk) as (a & b & Ha & Hb & Hma & Hmb).
  rewrite Nat.mod_small in Hb by lia.
  exists b, a. split; [|split; [|done]].
  - rewrite reverse_lookup by (rewrite length_take; lia). rewrite length_take, lookup_take_lt by lia.
    rewrite <- Hb. f_equal. lia.
  - rewrite reverse_lookup by (rewrite length_take; lia). rewrite length_take, lookup_take_lt by lia.
    rewrite <- Ha. f_equal. lia.
Qed.

Lemma path_odd subs es j :
  blossom_cycle subs es -> (j < length subs)%nat ->
  path_links (drop j subs ++ take 1 subs) (drop j es).
Proof.
  intros [Hlen Hcyc] Hj k x y Hk.
  rewrite lookup_drop in Hk.
  assert (Hjk : (j + k < length subs)%nat) by (rewrite <- Hlen; apply lookup_lt_Some in Hk; lia).
  destruct (Hcyc _ _ _ Hk) as (a & b & Ha & Hb & Hma & Hmb).
  exists a, b. split; [|split; [|done]].
  - rewrite lookup_app_l by (rewrite length_drop; lia). rewrite lookup_drop. done.
  - destruct (decide (j + k + 1 < length subs)%nat).
    + rewrite Nat.mod_small in Hb by lia.
      rewrite lookup_app_l by (rewrite length_drop; lia). rewrite lookup_drop.
      rewrite <- Hb. f_equal. lia.
    + assert (Hn : (j + k + 1 = length subs)%nat) by lia.
      rewrite Hn, Nat.Div0.mod_same in Hb by lia.
      rewrite lookup_app_r by (rewrite length_drop; lia). rewrite length_drop.
      replace (S k - (length subs - j))%nat with 0%nat by lia.
      rewrite lookup_take_lt by lia. done.
Qed.

(** X13: for a non-trivial blossom whose sub-blossoms form an odd cycle
    through its [edges], and a sub-blossom [sub] of it,
    [find_path_through_blossom(blossom, sub)] passes its assertions,
    changes nothing, and returns a path from [sub] to the first
    sub-blossom (which holds the base): one more node than edges, an even
    number of edges, and each edge [(x, y)] running from its node to the
    next one. *)
Theorem find_path_through_blossom_spec blossom sub bl nt w :
  w.(w_heap) !! blossom = Some (OBlossom bl) -> bl.(b_nontrivial) = Some nt ->
  blossom_cycle nt.(nt_subblossoms) nt.(nt_edges) -> Nat.Odd (length nt.(nt_subblossoms)) ->
  sub ∈ nt.(nt_subblossoms) ->
  exists nodes edges,
    find_path_through_blossom blossom sub w = Some (w, Ok (nodes, edges)) /\
    nodes !! 0%nat = Some sub /\ last nodes = head nt.(nt_subblossoms) /\
    length nodes = S (length edges) /\ Nat.Even (length edges) /\
    path_links nodes edges.
Proof.
  intros Hb Hnt Hcyc [h Hodd] Hsub.
  set (subs := nt.(nt_subblossoms)) in *. set (es := nt.(nt_edges)) in *.
  destruct (list_find (fun y => y = sub) subs) as [[j x]|] eqn:Hf.
  2: { apply list_find_None in Hf. rewrite Forall_forall in Hf. exfalso. exact (Hf sub Hsub eq_refl). }
  pose proof Hf as Hf'. apply list_find_Some in Hf' as (Hj & -> & _).
  pose proof (lookup_lt_Some _ _ _ Hj) as Hjn.
  destruct Hcyc as [Hlen Hlinks].
  set (P := fun '(nodes, edges) w' => w' = w /\
              nodes !! 0%nat = Some sub /\ last nodes = head subs /\
              length nodes = S (length edges) /\ Nat.Even (length edges) /\
              path_links nodes edges).
  cut (wp (find_path_through_blossom blossom sub) P w).
  { intros Hwp. destruct (wp_elim _ _ _ Hwp) as (w' & [nodes edges] & Hrun & -> & HP).
    exists nodes, edges. split; [done|exact HP]. }
  unfold find_path_through_blossom. apply wp_bind. unfold get_nt. apply wp_bind.
  eapply wp_get_blossom; [done|]. rewrite Hnt. apply wp_deref.
  apply wp_bind. eapply wp_py_list_index; [exact Hf|]. cbv beta.
  fold subs es. rewrite Nat2Z.id.
  destruct (Z.of_nat j mod 2 =? 0) eqn:Hp.
  - apply Z.eqb_eq in Hp.
    assert (Hl1 : length (map (fun '(i, j) => (j, i)) (reverse (take j es))) = j).
    { rewrite length_map, length_reverse, length_take. lia. }
    assert (Hl2 : length (reverse (take (j + 1) subs)) = S j).
    { rewrite length_reverse, length_take. lia. }
    apply wp_bind. rewrite Hl1.
    replace (Z.of_nat j mod 2 =? 0) with true by (symmetry; apply Z.eqb_eq; Z.div_mod_to_equations; lia). apply wp_py_assert_true.
    apply wp_bind. rewrite Hl2.
    replace (Z.of_nat (S j) mod 2 =? 1) with true by (symmetry; apply Z.eqb_eq; Z.div_mod_to_equations; lia). apply wp_py_assert_true.
    apply wp_ret. split; [done|]. split; [|split; [|split; [lia|split]]].
    + rewrite reverse_lookup by (rewrite length_take; lia). rewrite length_take, lookup_take_lt by lia.
      replace (Init.Nat.min (j + 1) (length subs) - 1)%nat with j by lia. done.
    + rewrite last_reverse. destruct subs as [|s0 subs']; [cbn in Hjn; lia|]. rewrite Nat.add_1_r. done.
    + rewrite Hl1. exists (Z.to_nat (Z.of_nat j / 2)). Z.div_mod_to_equations; lia.
    + apply path_even; [split|]; done.
  - apply Z.eqb_neq in Hp.
    assert (Hl1 : length (drop j es) = (length subs - j)%nat) by (rewrite length_drop; lia).
    assert (Hl2 : length (drop j subs ++ take 1 subs) = S (length subs - j)).
    { rewrite length_app, length_drop, length_take. lia. }
    apply wp_bind. rewrite Hl1.
    replace (Z.of_nat (length subs - j) mod 2 =? 0) with true by (symmetry; apply Z.eqb_eq; Z.div_mod_to_equations; lia). apply wp_py_assert_true.
    apply wp_bind. rewrite Hl2.
    replace (Z.of_nat (S (length subs - j)) mod 2 =? 1) with true by (symmetry; apply Z.eqb_eq; Z.div_mod_to_equations; lia).
    apply wp_py_assert_true.
    apply wp_ret. split; [done|]. split; [|split; [|split; [lia|split]]].
    + rewrite lookup_app_l by (rewrite length_drop; lia). rewrite lookup_drop, Nat.add_0_r. done.
    + destruct subs as [|s0 subs']; [cbn in Hjn; lia|]. cbn [take]. rewrite take_0. rewrite last_snoc. done.
    + rewrite Hl1. exists (Z.to_nat (Z.of_nat (length subs - j) / 2)). Z.div_mod_to_equations; lia.
    + apply path_odd; [split|]; done.
Qed.

End PathThroughBlossom.

Definition fp_example_world : world :=
  mk_world
    (<[10 := OBlossom (bv_blossom 0 (Some (mk_ntb [1; 2; 3] [(0, 1); (1, 2); (2, 0)] (NInt 0) None)))]>
    (<[1 := OBlossom (bv_blossom 0 None)]> (<[2 := OBlossom (bv_blossom 1 None)]>
    (<[3 := OBlossom (bv_blossom 2 None)]> ∅))))
    11 [] [] [] (NInt 0) [] [] [].

Lemma find_path_through_blossom_spec_witness :
  blossom_cycle (fun x b => x = b - 1) [1; 2; 3] [(0, 1); (1, 2); (2, 0)] /\
  exists nodes edges,
    find_path_through_blossom 10 2 fp_example_world = Some (fp_example_world, Ok (nodes, edges)) /\
    nodes !! 0%nat = Some 2 /\ last nodes = Some 1.
Proof.
  assert (Hcyc : blossom_cycle (fun x b => x = b - 1) [1; 2; 3] [(0, 1); (1, 2); (2, 0)]).
  { split; [reflexivity|].
    intros [|[|[|i]]] x y Hi; cbn in Hi; try discriminate; injection Hi as <- <-;
      eexists _, _; cbn; repeat split; reflexivity. }
  split; [exact Hcyc|].
  destruct (find_path_through_blossom_spec (fun x b => x = b - 1) 10 2
              (bv_blossom 0 (Some (mk_ntb [1; 2; 3] [(0, 1); (1, 2); (2, 0)] (NInt 0) None)))
              (mk_ntb [1; 2; 3] [(0, 1); (1, 2); (2, 0)] (NInt 0) None) fp_example_world
              eq_refl eq_refl Hcyc ltac:(exists 1%nat; reflexivity)
              ltac:(apply list_elem_of_In; cbn; tauto))
    as (nodes & edges & Hrun & H0 & Hlast & _).
  exists nodes, edges. split; [exact Hrun|]. split; [exact H0|exact Hlast].
Defined.

Lemma self_edge_loop (edges : list edge) :
  let r := for_each (fun '(x, y, _) => if x =? y then Raise ValueError else Ok tt) edges in
  (r = Ok tt <-> forall x y w, In (x, y, w) edges -> x <> y) /\
  (r = Ok tt \/ r = Raise ValueError).
Proof.
  induction edges as [|[[x y] w] edges IH]; cbn zeta in *; cbn [for_each].
  - split; [|auto]. split; [intros _ x y w []|done].
  - destruct IH as [IHiff IHor]. cbn [rbind].
    destruct (Z.eqb_spec x y) as [->|Hxy]; cbn [rbind].
    + split; [|auto]. split; [discriminate|]. intros H. exfalso.
      exact (H y y w (or_introl eq_refl) eq_refl).
    + split; [|exact IHor]. rewrite IHiff. split.
      * intros H x' y' w' [Heq|Hin]; [injection Heq as <- <- <-; exact Hxy|exact (H x' y' w' Hin)].
      * intros H x' y' w' Hin. apply (H x' y' w'). right. done.
Qed.

Lemma check_adjacent_NoDup (l : list (Z * Z)) : NoDup l -> check_adjacent l = Ok tt.
Proof.
  induction l as [|p [|q l] IH]; intros Hnd; [done|done|].
  cbn [check_adjacent]. apply NoDup_cons in Hnd as [Hp Hnd].
  rewrite bool_decide_eq_false_2; [apply IH; done|].
  intros ->. apply Hp. apply list_elem_of_here.
Qed.

(** X14: [_check_input_graph] returns normally exactly when no edge is a
    self-edge and no two edges join the same two vertices (in either
    order); otherwise it raises [ValueError], never another exception. *)
Theorem check_input_graph_spec (edges : list edge) :
  (_check_input_graph edges = Ok tt <->
     (forall x y w, In (x, y, w) edges -> x <> y) /\ NoDup (map edge_endpoint edges)) /\
  (_check_input_graph edges = Ok tt \/ _check_input_graph edges = Raise ValueError).
Proof.
  destruct (self_edge_loop edges) as [Hiff Hor]. cbn zeta in Hiff, Hor.
  unfold _check_input_graph.
  destruct Hor as [Hok|Herr].
  - rewrite Hok. cbn [rbind]. split; [|apply check_adjacent_ok_or].
    split.
    + intros Hc. split; [apply Hiff; done|].
      apply NoDup_alt. intros i j p Hi Hj.
      destruct (decide (i = j)) as [|Hij]; [done|exfalso].
      rewrite (check_adjacent_sort_dup _ i j p Hij Hi Hj) in Hc. discriminate.
    + intros [_ Hnd]. apply check_adjacent_NoDup. unfold sort_tuples.
      rewrite merge_sort_Permutation. done.
  - rewrite Herr. cbn [rbind]. split; [|auto]. split; [discriminate|].
    intros [H _]. apply Hiff in H. congruence.
Qed.

(* ------------------------------------------------------------------ *)
(** *** Delta steps: [calc_dual_delta_step] picks a minimal candidate *)

(** Extended integers: the order of the values a [num] can hold. *)
Inductive xkey :=
| KNegInf
| KFin (z : Z)
| KPosInf.

Definition xkey_compare (a b : xkey) : comparison :=
  match a, b with
  | KFin x, KFin y => Z.compare x y
  | KNegInf, KNegInf | KPosInf, KPosInf => Eq
  | KNegInf, _ | _, KPosInf => Lt
  | _, KNegInf | KPosInf, _ => Gt
  end.

(** The value of a float times [2 ^ 1074], an integer for every finite
    float; [None] for [nan]. *)
Definition sf_key (f : spec_float) : option xkey :=
  match f with
  | S754_zero _ => Some (KFin 0)
  | S754_infinity s => Some (if s then KNegInf else KPosInf)
  | S754_nan => None
  | S754_finite s m e =>
      let v := Zpos m * 2 ^ (e + 1074) in Some (KFin (if s then - v else v))
  end.

Definition num_key (a : num) : option xkey :=
  match a with
  | NInt z => Some (KFin (z * 2 ^ 1074))
  | NFloat f => sf_key (Prim2SF f)
  end.

(** [math.isnan] *)
Definition num_is_nan (a : num) : bool :=
  match a with
  | NInt _ => false
  | NFloat f => PrimFloat.is_nan f
  end.

(** The state of the program on [edges] when the second stage first calls
    [calc_dual_delta_step]: after [GraphInfo(edges)],
    [MatchingContext(graph)], [ctx.start()], a first call of [run_stage]
    that returns [True], and the [scan_new_s_vertices()] that begins the
    next one. *)
Definition second_stage_delta_state (edges : list edge)
    : option (world * result (graph_info * ctx_const)) :=
  (stage_setup 100 id edges ≫= fun '(g, c) =>
     r ← run_stage 100 id g c;
     py_assert r;;
     scan_new_s_vertices 100 g c;;
     mret (g, c)) init_world.

(** [[(2, 3, 1.5), (0, 1, 0.5), (0, 3, 1.0)]] *)
Definition delta_tie_edges : list edge :=
  [(2, 3, NFloat 1.5%float); (0, 1, NFloat 0.5%float); (0, 3, NFloat 1.0%float)].

(** The tie-breaking rule of claim C3 as written: among the candidates of
    types 2 to 4 whose value equals the returned [delta_2x], the returned
    type is the smallest. *)
Definition delta_tie_claim (fuel : nat) (g : graph_info) (c : ctx_const) (w : world)
    : Prop :=
  forall w' r cands,
    calc_dual_delta_step fuel g c w = Some (w', Ok r) ->
    delta_candidates fuel g c w = Some (w', Ok cands) ->
    Forall (fun d => 2 <= d.1 -> n_eq d.2 r.1.1.2 = true -> r.1.1.1 <= d.1) cands.

Lemma digits2_pos_bound (m : positive) :
  2 ^ (Zpos (digits2_pos m) - 1) <= Zpos m < 2 ^ Zpos (digits2_pos m).
Proof.
  induction m as [m IH|m IH|]; cbn [digits2_pos].
  - rewrite Pos2Z.inj_succ, (Pos2Z.inj_xI m).
    replace (Z.succ (Zpos (digits2_pos m)) - 1) with (Zpos (digits2_pos m)) by lia.
    rewrite Z.pow_succ_r by lia.
    assert (2 ^ Zpos (digits2_pos m) = 2 * 2 ^ (Zpos (digits2_pos m) - 1)).
    { rewrite <- Z.pow_succ_r by lia. f_equal. lia. }
    lia.
  - rewrite Pos2Z.inj_succ, (Pos2Z.inj_xO m).
    replace (Z.succ (Zpos (digits2_pos m)) - 1) with (Zpos (digits2_pos m)) by lia.
    rewrite Z.pow_succ_r by lia.
    assert (2 ^ Zpos (digits2_pos m) = 2 * 2 ^ (Zpos (digits2_pos m) - 1)).
    { rewrite <- Z.pow_succ_r by lia. f_equal. lia. }
    lia.
  - cbn. lia.
Qed.

(** A finite binary64 float: its exponent is at least [-1074], its
    mantissa has at most 53 bits, and exactly 53 unless the exponent is
    [-1074]. *)
Lemma bounded_facts (m : positive) (e : Z) :
  SpecFloat.bounded 53 1024 m e = true ->
  -1074 <= e /\ Zpos m < 2 ^ 53 /\ (-1074 < e -> 2 ^ 52 <= Zpos m).
Proof.
  unfold SpecFloat.bounded, canonical_mantissa, fexp, emin.
  intros H. apply andb_prop in H as [H _]. apply Z.eqb_eq in H.
  pose proof (digits2_pos_bound m) as [Hlo Hhi].
  assert (Hd : Zpos (digits2_pos m) <= 53) by lia.
  split; [lia|]. split.
  - eapply Z.lt_le_trans; [exact Hhi|]. apply Z.pow_le_mono_r; lia.
  - intros He. assert (Zpos (digits2_pos m) = 53) as Hd' by lia.
    rewrite Hd' in Hlo. exact Hlo.
Qed.

Lemma pos_compare_cont_eq (m1 m2 : positive) :
  Pos.compare_cont Eq m1 m2 = Z.compare (Zpos m1) (Zpos m2).
Proof. reflexivity. Qed.

(** Among positive finite floats, [SFcompare]'s order (exponent first, then
    mantissa) is the order of their values. *)
Lemma bounded_compare (m1 m2 : positive) (e1 e2 : Z) :
  SpecFloat.bounded 53 1024 m1 e1 = true -> SpecFloat.bounded 53 1024 m2 e2 = true ->
  Z.compare (Zpos m1 * 2 ^ (e1 + 1074)) (Zpos m2 * 2 ^ (e2 + 1074)) =
  match Z.compare e1 e2 with
  | Lt => Lt
  | Gt => Gt
  | Eq => Pos.compare_cont Eq m1 m2
  end.
Proof.
  intros H1 H2.
  destruct (bounded_facts m1 e1 H1) as (He1 & Hm1 & Hn1).
  destruct (bounded_facts m2 e2 H2) as (He2 & Hm2 & Hn2).
  rewrite pos_compare_cont_eq.
  assert (Hlt : forall ma mb ea eb, -1074 <= ea -> ea < eb ->
            0 < ma < 2 ^ 53 -> 2 ^ 52 <= mb ->
            ma * 2 ^ (ea + 1074) < mb * 2 ^ (eb + 1074)).
  { intros ma mb ea eb Hea Hab Hma Hmb.
    set (a := 2 ^ (ea + 1074)).
    assert (Ha : 0 < a) by (apply Z.pow_pos_nonneg; lia).
    assert (Hb : 2 ^ (eb + 1074) = 2 ^ (eb - ea) * a).
    { unfold a. rewrite <- Z.pow_add_r by lia. f_equal. lia. }
    assert (Hc : 2 <= 2 ^ (eb - ea)).
    { change 2 with (2 ^ 1) at 1. apply Z.pow_le_mono_r; lia. }
    rewrite Hb. set (t := 2 ^ (eb - ea)) in *.
    assert (H53 : 2 ^ 53 = 2 ^ 52 * 2) by reflexivity.
    set (p := 2 ^ 52) in *.
    assert (ma * a < p * 2 * a) by nia.
    assert (p * 2 * a <= mb * 2 * a) by nia.
    assert (mb * 2 * a <= mb * (t * a)) by nia.
    lia. }
  destruct (Z.compare_spec e1 e2) as [<-|He|He].
  - assert (Hk : 0 < 2 ^ (e1 + 1074)) by (apply Z.pow_pos_nonneg; lia).
    destruct (Z.compare_spec (Zpos m1) (Zpos m2)) as [E|E|E].
    + rewrite E. apply Z.compare_refl.
    + apply Z.compare_lt_iff. nia.
    + apply Z.compare_gt_iff. nia.
  - apply Z.compare_lt_iff. apply Hlt; lia.
  - apply Z.compare_gt_iff. apply Hlt; lia.
Qed.

Lemma sf_compare_key (x y : spec_float) :
  valid_binary x = true -> valid_binary y = true ->
  SFcompare x y =
  match sf_key x, sf_key y with
  | Some kx, Some ky => Some (xkey_compare kx ky)
  | _, _ => None
  end.
Proof.
  intros Hx Hy.
  assert (Hpos : forall m e, SpecFloat.bounded 53 1024 m e = true ->
            0 < Zpos m * 2 ^ (e + 1074)).
  { intros m e H. destruct (bounded_facts m e H) as (He & _).
    apply Z.mul_pos_pos; [lia|]. apply Z.pow_pos_nonneg; lia. }
  destruct x as [sx|sx| |sx mx ex], y as [sy|sy| |sy my ey];
    cbn [SFcompare sf_key xkey_compare SpecFloat.valid_binary] in *;
    try reflexivity;
    try (destruct sx; reflexivity); try (destruct sy; reflexivity);
    try (destruct sx, sy; reflexivity).
  - specialize (Hpos _ _ Hy). destruct sy; f_equal; symmetry;
      [apply Z.compare_gt_iff | apply Z.compare_lt_iff]; lia.
  - specialize (Hpos _ _ Hx). destruct sx; f_equal; symmetry;
      [apply Z.compare_lt_iff | apply Z.compare_gt_iff]; lia.
  - pose proof (Hpos _ _ Hx) as Px. pose proof (Hpos _ _ Hy) as Py.
    destruct sx, sy; f_equal.
    + rewrite Z.compare_opp, (Z.compare_antisym (Z.pos mx * 2 ^ (ex + 1074))), (bounded_compare mx my ex ey Hx Hy).
      destruct (ex ?= ey); reflexivity.
    + symmetry. apply Z.compare_lt_iff. lia.
    + symmetry. apply Z.compare_gt_iff. lia.
    + rewrite (bounded_compare mx my ex ey Hx Hy). reflexivity.
Qed.

Lemma compare_mul_pos (a b k : Z) : 0 < k -> Z.compare (a * k) (b * k) = Z.compare a b.
Proof.
  intros Hk. destruct (Z.compare_spec a b) as [E|E|E].
  - subst. apply Z.compare_refl.
  - apply Z.compare_lt_iff. nia.
  - apply Z.compare_gt_iff. nia.
Qed.

Lemma xkey_compare_antisym (a b : xkey) : xkey_compare b a = CompOpp (xkey_compare a b).
Proof. destruct a, b; cbn; try reflexivity. apply Z.compare_antisym. Qed.

Lemma float_cmp_key (f g : float) :
  PyHeap.float_cmp f g =
  match sf_key (Prim2SF f), sf_key (Prim2SF g) with
  | Some kf, Some kg => Some (xkey_compare kf kg)
  | _, _ => None
  end.
Proof.
  unfold PyHeap.float_cmp. rewrite FloatAxioms.compare_spec.
  rewrite (sf_compare_key _ _ (FloatAxioms.Prim2SF_valid f) (FloatAxioms.Prim2SF_valid g)).
  destruct (sf_key (Prim2SF f)), (sf_key (Prim2SF g)); try reflexivity.
  cbn. destruct (xkey_compare _ _); reflexivity.
Qed.

Lemma int_float_cmp_key (x : Z) (g : float) :
  PyHeap.int_float_cmp x g =
  match sf_key (Prim2SF g) with
  | Some kg => Some (xkey_compare (KFin (x * 2 ^ 1074)) kg)
  | None => None
  end.
Proof.
  pose proof (FloatAxioms.Prim2SF_valid g) as Hv.
  unfold PyHeap.int_float_cmp, float_to_Q.
  destruct (Prim2SF g) as [s|s| |s m e]; cbn [sf_key xkey_compare].
  - f_equal. unfold Qcompare. cbn. rewrite Z.mul_1_r, Z.mul_0_l.
    rewrite <- (compare_mul_pos x 0 (2 ^ 1074)) by (apply Z.pow_pos_nonneg; lia).
    rewrite Z.mul_0_l. reflexivity.
  - destruct s; reflexivity.
  - reflexivity.
  - f_equal. cbn [SpecFloat.valid_binary] in Hv.
    destruct (bounded_facts m e Hv) as (He & _).
    assert (Hk : 0 < 2 ^ (e + 1074)) by (apply Z.pow_pos_nonneg; lia).
    destruct (Z.ltb_spec e 0) as [Hlt|Hge].
    + assert (Hd : 0 < 2 ^ (- e)) by (apply Z.pow_pos_nonneg; lia).
      assert (HK : 2 ^ 1074 = 2 ^ (- e) * 2 ^ (e + 1074)).
      { rewrite <- Z.pow_add_r by lia. f_equal. lia. }
      destruct s; unfold Qcompare, inject_Z; cbn [Qnum Qden Qopp];
        rewrite Z2Pos.id by exact Hd;
        rewrite <- (compare_mul_pos _ _ (2 ^ (e + 1074))) by exact Hk;
        f_equal; rewrite ?HK; ring.
    + assert (HK : 2 ^ (e + 1074) = 2 ^ e * 2 ^ 1074).
      { rewrite <- Z.pow_add_r by lia. reflexivity. }
      assert (H1074 : 0 < 2 ^ 1074) by (apply Z.pow_pos_nonneg; lia).
      destruct s; unfold Qcompare, inject_Z; cbn [Qnum Qden Qopp];
        rewrite <- (compare_mul_pos _ _ (2 ^ 1074)) by exact H1074;
        f_equal; rewrite ?HK; ring.
Qed.

Lemma num_compare_key (a b : num) :
  PyHeap.num_compare a b =
  match num_key a, num_key b with
  | Some ka, Some kb => Some (xkey_compare ka kb)
  | _, _ => None
  end.
Proof.
  destruct a as [x|f], b as [y|g]; cbn [PyHeap.num_compare num_key].
  - cbn [xkey_compare]. rewrite compare_mul_pos; [reflexivity|].
    apply Z.pow_pos_nonneg; lia.
  - apply int_float_cmp_key.
  - rewrite int_float_cmp_key. destruct (sf_key (Prim2SF f)); [|reflexivity].
    cbn. f_equal. rewrite xkey_compare_antisym. reflexivity.
  - apply float_cmp_key.
Qed.

Definition xkey_le (a b : xkey) : bool :=
  match xkey_compare a b with Gt => false | _ => true end.

Lemma n_le_key (a b : num) :
  n_le a b =
  match num_key a, num_key b with
  | Some ka, Some kb => xkey_le ka kb
  | _, _ => false
  end.
Proof.
  unfold n_le. rewrite num_compare_key.
  destruct (num_key a), (num_key b); reflexivity.
Qed.

Lemma num_is_nan_key (a : num) : num_is_nan a = false <-> is_Some (num_key a).
Proof.
  destruct a as [x|f]; cbn.
  - split; [eauto | reflexivity].
  - unfold PrimFloat.is_nan. rewrite FloatAxioms.eqb_spec. unfold SFeqb.
    pose proof (FloatAxioms.Prim2SF_valid f) as Hv.
    rewrite (sf_compare_key _ _ Hv Hv).
    destruct (sf_key (Prim2SF f)) as [k|].
    + replace (xkey_compare k k) with Eq by (destruct k; cbn [xkey_compare]; try rewrite Z.compare_refl; reflexivity).
      cbn. split; eauto.
    + cbn. split; [discriminate|]. intros [? H]; discriminate.
Qed.

Lemma xkey_le_refl (k : xkey) : xkey_le k k = true.
Proof. unfold xkey_le. destruct k; cbn [xkey_compare]; try rewrite Z.compare_refl; reflexivity. Qed.

Lemma xkey_le_trans (a b c : xkey) :
  xkey_le a b = true -> xkey_le b c = true -> xkey_le a c = true.
Proof.
  unfold xkey_le. destruct a, b, c; cbn [xkey_compare]; try discriminate; try reflexivity.
  destruct (Z.compare_spec z z0), (Z.compare_spec z0 z1), (Z.compare_spec z z1);
    try discriminate; try reflexivity; lia.
Qed.

Lemma xkey_le_total (a b : xkey) : xkey_le a b = false -> xkey_le b a = true.
Proof.
  unfold xkey_le. destruct a, b; cbn [xkey_compare]; try discriminate; try reflexivity.
  rewrite (Z.compare_antisym z z0). destruct (z ?= z0); cbn; congruence.
Qed.

Lemma n_le_refl (a : num) : num_is_nan a = false -> n_le a a = true.
Proof.
  intros H. apply num_is_nan_key in H as [k Hk].
  rewrite n_le_key, Hk. apply xkey_le_refl.
Qed.

Lemma n_le_trans (a b c : num) : n_le a b = true -> n_le b c = true -> n_le a c = true.
Proof.
  rewrite !n_le_key.
  destruct (num_key a), (num_key b), (num_key c); try discriminate.
  apply xkey_le_trans.
Qed.

Lemma n_le_total (a b : num) :
  num_is_nan a = false -> num_is_nan b = false -> n_le a b = false -> n_le b a = true.
Proof.
  intros Ha Hb. apply num_is_nan_key in Ha as [ka Ha]. apply num_is_nan_key in Hb as [kb Hb].
  rewrite !n_le_key, Ha, Hb. apply xkey_le_total.
Qed.

(** One comparison of [calc_dual_delta_step]: a candidate replaces the
    current [(delta_type, delta_2x)] when its value is [<=] the current
    one. *)
Definition delta_pick (cur d : Z * num) : Z * num :=
  if n_le d.2 cur.2 then d else cur.

Lemma delta_pick_fold (rest : list (Z * num)) (cur : Z * num) :
  StronglySorted (fun a b => a.1 < b.1) (cur :: rest) ->
  let r := fold_left delta_pick rest cur in
  In r (cur :: rest) /\
  (Forall (fun d => num_is_nan d.2 = false) (cur :: rest) ->
   Forall (fun d => n_le r.2 d.2 = true) (cur :: rest)) /\
  Forall (fun d => n_le d.2 r.2 = true -> d.1 <= r.1) (cur :: rest).
Proof.
  revert cur. induction rest as [|d rest IH]; intros cur Hs; cbv zeta; cbn [fold_left].
  - split; [left; reflexivity|]. split.
    + intros Hn. inversion Hn as [|? ? Hc _]; subst.
      constructor; [apply n_le_refl, Hc | constructor].
    + constructor; [intros _; lia | constructor].
  - apply StronglySorted_inv in Hs as [Hs Hlt].
    apply Forall_cons_1 in Hlt as [Hcd Hlt].
    pose proof (StronglySorted_inv Hs) as [Hs' Hdl].
    destruct (n_le d.2 cur.2) eqn:Hpick.
    + replace (delta_pick cur d) with d by (unfold delta_pick; rewrite Hpick; reflexivity).
      destruct (IH d Hs) as (Hin & Hmin & Htie).
      set (r := fold_left delta_pick rest d) in *.
      assert (Hr1 : d.1 <= r.1).
      { destruct Hin as [<-|Hin]; [lia|].
        rewrite List.Forall_forall in Hdl. specialize (Hdl r Hin). lia. }
      split; [right; exact Hin|]. split.
      * intros Hn. apply Forall_cons_1 in Hn as [Hnc Hn].
        specialize (Hmin Hn). constructor; [|exact Hmin].
        apply (n_le_trans _ d.2); [|exact Hpick].
        apply Forall_cons_1 in Hmin as [Hm _]. exact Hm.
      * constructor; [intros _; lia | exact Htie].
    + replace (delta_pick cur d) with cur by (unfold delta_pick; rewrite Hpick; reflexivity).
      assert (Hsc : StronglySorted (fun a b => a.1 < b.1) (cur :: rest)).
      { constructor; [exact Hs'|exact Hlt]. }
      destruct (IH cur Hsc) as (Hin & Hmin & Htie).
      set (r := fold_left delta_pick rest cur) in *.
      split; [destruct Hin as [<-|Hin]; [left; reflexivity | right; right; exact Hin]|].
      split.
      * intros Hn. inversion Hn as [|? ? Hnc Hn']; subst.
        inversion Hn' as [|? ? Hnd Hnr]; subst.
        assert (Hm : Forall (fun d => n_le r.2 d.2 = true) (cur :: rest))
          by (apply Hmin; constructor; assumption).
        apply Forall_cons_1 in Hm as [Hmc Hmr].
        constructor; [exact Hmc|]. constructor; [|exact Hmr].
        apply (n_le_trans _ cur.2); [exact Hmc|].
        apply n_le_total; assumption.
      * apply Forall_cons_1 in Htie as [Htc Htr].
        constructor; [exact Htc|]. constructor; [|exact Htr].
        intros Hdr. destruct Hin as [Heq|Hin].
        -- rewrite <- Heq in Hdr. congruence.
        -- rewrite List.Forall_forall in Hdl. specialize (Hdl r Hin). lia.
Qed.

Ltac sel_cases Sel :=
  repeat match type of Sel with
  | context [?x =? -1] => destruct (x =? -1) eqn:?; cbn [negb andb] in Sel
  | context [n_le ?a ?b] => destruct (n_le a b) eqn:?; cbn [negb andb] in Sel
  end;
  injection Sel as <- <- <-.

Ltac known_bools :=
  repeat match goal with
  | E : ?b = true |- context [if ?b then _ else _] => rewrite E
  | E : ?b = false |- context [if ?b then _ else _] => rewrite E
  end.

(** The property of [delta_pick_fold], for a run of [delta_candidates]. *)
Lemma delta_pick_fold_app (d1 : num) (tail : list (Z * num)) (t : Z) (val : num) :
  StronglySorted (fun a b => a.1 < b.1) ((1, d1) :: tail) ->
  (t, val) = fold_left delta_pick tail (1, d1) ->
  In (t, val) ((1, d1) :: tail) /\
  (Forall (fun d => num_is_nan d.2 = false) ((1, d1) :: tail) ->
   Forall (fun d => n_le val d.2 = true) ((1, d1) :: tail)) /\
  Forall (fun d => n_le d.2 val = true -> d.1 <= t) ((1, d1) :: tail).
Proof.
  intros Hs Hf. pose proof (delta_pick_fold tail (1, d1) Hs) as Hp.
  cbv zeta in Hp. rewrite <- Hf in Hp. exact Hp.
Qed.

(** Claim C3 (amended).  Whenever [calc_dual_delta_step] returns (with int
    or float duals; a failing delta4 assertion raises and gives no result),
    the same queries, gathered by [delta_candidates], end in the same state
    with candidates [cands] such that: the returned
    [(delta_type, delta_2x)] is one of them; if no candidate is [nan],
    [delta_2x <= ] every candidate (ints and floats compared exactly, as
    Python does); and every candidate whose value is [<=] [delta_2x] has a
    type no larger than [delta_type].  So among the candidates of minimal
    value the latest type is returned (delta4 over delta3 over delta2 over
    delta1): a later candidate replaces the current one when its value is
    [<=] the current [delta_2x]. *)
Theorem calc_dual_delta_step_min_last (fuel : nat) (g : graph_info) (c : ctx_const)
    (w w' : world) (r : Z * num * Z * option Z) :
  calc_dual_delta_step fuel g c w = Some (w', Ok r) ->
  exists cands,
    delta_candidates fuel g c w = Some (w', Ok cands) /\
    In (r.1.1.1, r.1.1.2) cands /\
    (Forall (fun d => num_is_nan d.2 = false) cands ->
     Forall (fun d => n_le r.1.1.2 d.2 = true) cands) /\
    Forall (fun d => n_le d.2 r.1.1.2 = true -> d.1 <= r.1.1.1) cands.
Proof.
  intros H. unfold calc_dual_delta_step in H.
  apply bind_ok_inv in H as (w1 & ds & R1 & H). cbv beta iota zeta in H.
  apply bind_ok_inv in H as (w2 & d1 & R2 & H). cbv beta iota zeta in H.
  apply bind_ok_inv in H as (w3 & [e2 s2] & R3 & H). cbv beta iota zeta in H.
  lazymatch type of H with
  | (match ?x with _ => _ end) _ = _ => destruct x as [[t1 v1] de1] eqn:Sel2
  end.
  cbv beta iota zeta in H.
  apply bind_ok_inv in H as (w4 & [e3 s3] & R4 & H). cbv beta iota zeta in H.
  lazymatch type of H with
  | (match ?x with _ => _ end) _ = _ => destruct x as [[t2 v2] de2] eqn:Sel3
  end.
  cbv beta iota zeta in H.
  apply bind_ok_inv in H as (w5 & emp & R5 & H).
  assert (Hbase : (t2, v2) = fold_left delta_pick
                    ((if e2 =? -1 then [] else [(2, s2)]) ++ (if e3 =? -1 then [] else [(3, s3)]))
                    (1, d1) /\
                  StronglySorted (fun a b => a.1 < b.1)
                    ((1, d1) :: (if e2 =? -1 then [] else [(2, s2)]) ++
                      (if e3 =? -1 then [] else [(3, s3)])) /\
                  forall x, StronglySorted (fun a b => a.1 < b.1)
                    ((1, d1) :: ((if e2 =? -1 then [] else [(2, s2)]) ++
                      (if e3 =? -1 then [] else [(3, s3)])) ++ [(4, x)])).
  { sel_cases Sel2; sel_cases Sel3;
      cbn [fold_left app]; unfold delta_pick; do 3 (cbn [fst snd]; known_bools);
      (split; [reflexivity|]); (split; [|intros x]); repeat constructor. }
  destruct Hbase as (Hfold & Hsort & Hsort4).
  unfold delta_candidates.
  rewrite (bind_ok _ _ _ _ _ R1). cbv beta iota zeta.
  rewrite (bind_ok _ _ _ _ _ R2). cbv beta iota zeta.
  rewrite (bind_ok _ _ _ _ _ R3). cbv beta iota zeta.
  rewrite (bind_ok _ _ _ _ _ R4). cbv beta iota zeta.
  rewrite (bind_ok _ _ _ _ _ R5). cbv beta iota zeta.
  destruct emp.
  - cbv [mret M_ret] in H. injection H as <- <-.
    eexists. split; [reflexivity|]. cbn [fst snd].
    exact (delta_pick_fold_app d1 _ t2 v2 Hsort Hfold).
  - apply bind_ok_inv in H as (w6 & m & R6 & H). cbv beta iota zeta in H.
    apply bind_ok_inv in H as (w7 & mn & R7 & H). cbv beta iota zeta in H.
    apply bind_ok_inv in H as (w8 & bl & R8 & H). cbv beta iota zeta in H.
    apply bind_ok_inv in H as (w9 & [] & R9 & H). cbv beta iota zeta in H.
    apply bind_ok_inv in H as (w10 & [] & R10 & H). cbv beta iota zeta in H.
    apply bind_ok_inv in H as (w11 & t & R11 & H). cbv beta iota zeta in H.
    apply bind_ok_inv in H as (w12 & ds' & R12 & H). cbv beta iota zeta in H.
    apply bind_ok_inv in H as (w13 & bd & R13 & H). cbv beta iota zeta in H.
    rewrite (bind_ok _ _ _ _ _ R6). cbv beta iota zeta.
    rewrite (bind_ok _ _ _ _ _ R7). cbv beta iota zeta.
    rewrite (bind_ok _ _ _ _ _ R8). cbv beta iota zeta.
    rewrite (bind_ok _ _ _ _ _ R9). cbv beta iota zeta.
    rewrite (bind_ok _ _ _ _ _ R10). cbv beta iota zeta.
    rewrite (bind_ok _ _ _ _ _ R11). cbv beta iota zeta.
    rewrite (bind_ok _ _ _ _ _ R12). cbv beta iota zeta.
    rewrite (bind_ok _ _ _ _ _ R13). cbv beta iota zeta.
    eexists. split.
    { destruct (n_le bd v2); cbv [mret M_ret] in H; injection H as <- _; reflexivity. }
    assert (Hf4 : (r.1.1.1, r.1.1.2) = fold_left delta_pick
              (((if e2 =? -1 then [] else [(2, s2)]) ++
                (if e3 =? -1 then [] else [(3, s3)])) ++ [(4, bd)]) (1, d1)).
    { rewrite fold_left_app, <- Hfold. cbn [fold_left]. unfold delta_pick. cbn [fst snd].
      destruct (n_le bd v2); cbv [mret M_ret] in H; injection H as _ <-; reflexivity. }
    exact (delta_pick_fold_app d1 _ _ _ (Hsort4 bd) Hf4).
Qed.


Lemma calc_dual_delta_step_min_last_witness :
  exists g c w w' r,
    second_stage_delta_state delta_tie_edges = Some (w, Ok (g, c)) /\
    calc_dual_delta_step 100 g c w = Some (w', Ok r) /\
    r.1.1.1 = 3 /\
    exists cands,
      delta_candidates 100 g c w = Some (w', Ok cands) /\
      In (r.1.1.1, r.1.1.2) cands /\
      Forall (fun d => n_le r.1.1.2 d.2 = true) cands /\
      Forall (fun d => n_le d.2 r.1.1.2 = true -> d.1 <= r.1.1.1) cands.
Proof.
  let v := eval vm_compute in (second_stage_delta_state delta_tie_edges) in
  lazymatch v with
  | Some (?w, Ok (?g, ?c)) =>
      let v1 := eval vm_compute in (calc_dual_delta_step 100 g c w) in
      let v2 := eval vm_compute in (delta_candidates 100 g c w) in
      lazymatch v1 with
      | Some (?w', Ok ?r) =>
          lazymatch v2 with
          | Some (_, Ok ?cs) =>
              assert (H : calc_dual_delta_step 100 g c w = Some (w', Ok r))
                by (vm_compute; reflexivity);
              assert (Hc : delta_candidates 100 g c w = Some (w', Ok cs))
                by (vm_compute; reflexivity);
              exists g, c, w, w', r;
              split; [vm_compute; reflexivity|]; split; [exact H|];
              split; [reflexivity|];
              destruct (calc_dual_delta_step_min_last 100 g c w w' r H)
                as (cands & Hcands & Hin & Hmin & Htie);
              exists cands; split; [exact Hcands|]; split; [exact Hin|];
              split; [|exact Htie];
              apply Hmin;
              rewrite Hc in Hcands; injection Hcands as <-;
              repeat constructor
          end
      end
  end.
Defined.

(** Claim C3, counterexample: on [[(2, 3, 1.5), (0, 1, 0.5), (0, 3, 1.0)]],
    when the second stage first calls [calc_dual_delta_step] the candidates
    are delta1 = 1.5, delta2 = 1.0 and delta3 = 1.0, and delta type 3 is
    returned although delta2 attains the same minimal value (CPython's run
    of the same input gives these values). *)
Lemma calc_dual_delta_step_tie_counterexample :
  exists g c w,
    second_stage_delta_state delta_tie_edges = Some (w, Ok (g, c)) /\
    ~ delta_tie_claim 100 g c w.
Proof.
  let v := eval vm_compute in (second_stage_delta_state delta_tie_edges) in
  lazymatch v with
  | Some (?w, Ok (?g, ?c)) =>
      let v1 := eval vm_compute in (calc_dual_delta_step 100 g c w) in
      let v2 := eval vm_compute in (delta_candidates 100 g c w) in
      lazymatch v1 with
      | Some (?w', Ok ?r) =>
          lazymatch v2 with
          | Some (_, Ok ?cs) =>
              exists g, c, w; split; [vm_compute; reflexivity|];
              intros Hclaim;
              specialize (Hclaim w' r cs ltac:(vm_compute; reflexivity)
                                         ltac:(vm_compute; reflexivity));
              apply Forall_cons_1 in Hclaim as [_ Hclaim];
              apply Forall_cons_1 in Hclaim as [Hclaim _];
              cbn [fst snd] in Hclaim;
              specialize (Hclaim ltac:(lia) ltac:(vm_compute; reflexivity));
              lia
          end
      end
  end.
Qed.

End Matching.
